(** * A line-delimited JSON-RPC 2.0 connection engine

    Shallow embedding of [src/arena.c] (bump arena) and [src/jsonrpc.c]
    (tagged allocator shim, inbound buffer, framer, validator, dispatcher,
    response builder), with the properties of the specification proved or
    refuted on the embedded code.

    Layout of the development: platform constants and the machine state,
    the arena, the allocator shim, the JSON value model, the protocol
    engine, example configurations, and finally the theorems. *)

From Stdlib Require Import ZArith List Lia Bool String Floats DecimalString.
From Stdlib.Strings Require Import Byte.
Import ListNotations.
Open Scope Z_scope.

Set Implicit Arguments.
Set Warnings "-register-all".

(* ================================================================== *)
(** ** Platform constants

    The code is C23 for an LP64 target: [size_t] and [uintptr_t] are
    64-bit, [alignof(max_align_t)] is 16, [alignof(size_t)] is 8. *)

Definition SIZE_MAX : Z := 2 ^ 64 - 1.
Definition max_align : Z := 16.

(** [constexpr] values of jsonrpc.c. *)
Definition INITIAL_BUFFER_CAP : Z := 4096.
Definition MAX_MESSAGE_BYTES : Z := 1048576.
Definition MAX_BUFFER_BYTES : Z := 2097152.
Definition JSONRPC_ARENA_BYTES : Z := MAX_MESSAGE_BYTES * 2.

Definition JSONRPC_ERR_PARSE : Z := -32700.
Definition JSONRPC_ERR_INVALID_REQUEST : Z := -32600.
Definition JSONRPC_ERR_METHOD_NOT_FOUND : Z := -32601.
Definition JSONRPC_ERR_INVALID_PARAMS : Z := -32602.
Definition JSONRPC_ERR_INTERNAL : Z := -32603.

Definition JSONRPC_ALLOC_TAG : Z := 0x4A525043.
Definition JSONRPC_ALLOC_ORIGIN_ARENA : Z := 1.
Definition JSONRPC_ALLOC_ORIGIN_HEAP : Z := 2.

(** [sizeof(jsonrpc_alloc_header_t)] is 8 (two [uint32_t]); the header is
    rounded up to a multiple of [alignof(max_align_t)]. *)
Definition sizeof_header : Z := 8.
Definition JSONRPC_ALLOC_HEADER_BYTES : Z :=
  ((sizeof_header + max_align - 1) / max_align) * max_align.

(** arena.c is a translation unit of its own: the [#define] of
    [ARENA_DEFAULT_ALIGNMENT] in jsonrpc.c does not reach it, and
    [arena_default_alignment] is its fallback, [alignof(size_t)]. *)
Definition alignof_size_t : Z := 8.
Definition arena_default_alignment : Z := alignof_size_t.

(** [sizeof(Arena)]: a pointer and two [size_t] (no [ARENA_DEBUG]). *)
Definition sizeof_Arena : Z := 24.

(* ================================================================== *)
(** ** State monad

    Stateful C functions become state-passing functions [S -> A * S]. *)

Definition St (S A : Type) : Type := S -> A * S.

Definition ret {S A : Type} (x : A) : St S A := fun s => (x, s).

Definition bind {S A B : Type} (m : St S A) (k : A -> St S B) : St S B :=
  fun s => let (x, s') := m s in k x s'.

Definition gets {S A : Type} (f : S -> A) : St S A := fun s => (f s, s).

Definition modify {S : Type} (f : S -> S) : St S unit := fun s => (tt, f s).

Declare Scope st_scope.
Delimit Scope st_scope with st.
Notation "x <- m ;; k" := (bind m (fun x => k))
  (at level 61, m at next level, right associativity) : st_scope.
Notation "m ;;; k" := (bind m (fun _ => k))
  (at level 61, right associativity) : st_scope.
Open Scope st_scope.

(* ================================================================== *)
(** ** Machine state: byte memory, system heap, arenas

    Memory is a map from addresses to bytes ([0..255]).  The system
    allocator hands out fresh addresses from [brk] upwards;  whether a
    request succeeds is decided by [oracle], the outcomes of the
    allocation attempts still to come (an exhausted oracle means the
    attempt succeeds), so a run under memory pressure is a run with some
    [false] entries. *)

Definition mem_t : Type := Z -> Z.

(** The [Arena] struct (arena.c uses the fields [region], [index],
    [size]); [region = 0] is the null pointer. *)
Record Arena : Type := mkArena {
  region : Z;
  index : Z;
  size : Z
}.

Definition Arena_zero : Arena := mkArena 0 0 0.

(** Modelled from the spec: the JSON library (parson.h and parson.c are
    not among the sources).  A JSON value is a tree; an object keeps its
    members in insertion order under distinct names; a number is a C
    [double]. *)
Inductive JSON_Value : Type :=
| JSONNull
| JSONString (s : string)
| JSONNumber (d : float)
| JSONObject (members : list (string * JSON_Value))
| JSONArray (items : list JSON_Value)
| JSONBoolean (b : bool).

(** What reaches the system allocator and the JSON library's release
    function, and what the shim decided. *)
Inductive heap_event : Type :=
| HCalloc (p : Z) (n : Z)          (* calloc returned p for n bytes *)
| HFree (p : Z)                    (* free(p) *)
| HJsonFree (v : JSON_Value)       (* json_value_free(v) *)
| HShimAlloc (p : Z) (origin : Z). (* bookkeeping: the shim returned p,
                                      with this origin in its header *)

Record machine : Type := mkMachine {
  oracle : list bool;
  brk : Z;
  mem : mem_t;
  arenas : Z -> Arena;                      (* Arena structs by address *)
  g_current_arena : option Z;
  g_parson_allocator_initialized : bool;
  heap_log : list heap_event
}.

Definition HM (A : Type) : Type := St machine A.

Definition set_oracle (o : list bool) (m : machine) : machine :=
  mkMachine o (brk m) (mem m) (arenas m) (g_current_arena m)
            (g_parson_allocator_initialized m) (heap_log m).
Definition set_brk (b : Z) (m : machine) : machine :=
  mkMachine (oracle m) b (mem m) (arenas m) (g_current_arena m)
            (g_parson_allocator_initialized m) (heap_log m).
Definition set_mem (f : mem_t) (m : machine) : machine :=
  mkMachine (oracle m) (brk m) f (arenas m) (g_current_arena m)
            (g_parson_allocator_initialized m) (heap_log m).
Definition set_arenas (f : Z -> Arena) (m : machine) : machine :=
  mkMachine (oracle m) (brk m) (mem m) f (g_current_arena m)
            (g_parson_allocator_initialized m) (heap_log m).
Definition set_current (c : option Z) (m : machine) : machine :=
  mkMachine (oracle m) (brk m) (mem m) (arenas m) c
            (g_parson_allocator_initialized m) (heap_log m).
Definition set_initialized (b : bool) (m : machine) : machine :=
  mkMachine (oracle m) (brk m) (mem m) (arenas m) (g_current_arena m)
            b (heap_log m).
Definition log_heap (e : heap_event) (m : machine) : machine :=
  mkMachine (oracle m) (brk m) (mem m) (arenas m) (g_current_arena m)
            (g_parson_allocator_initialized m) (heap_log m ++ [e]).

(** Byte stores and loads; 32-bit fields are little-endian. *)
Definition store8 (f : mem_t) (a v : Z) : mem_t :=
  fun x => if x =? a then v mod 256 else f x.

Definition store32 (f : mem_t) (a v : Z) : mem_t :=
  store8 (store8 (store8 (store8 f a v) (a + 1) (v / 2 ^ 8))
                 (a + 2) (v / 2 ^ 16)) (a + 3) (v / 2 ^ 24).

Definition load32 (f : mem_t) (a : Z) : Z :=
  f a + 2 ^ 8 * f (a + 1) + 2 ^ 16 * f (a + 2) + 2 ^ 24 * f (a + 3).

Definition zero_fill (f : mem_t) (p n : Z) : mem_t :=
  fun x => if (p <=? x) && (x <? p + n) then 0 else f x.

Definition align_up (x a : Z) : Z := ((x + a - 1) / a) * a.

(** One outcome of the system allocator. *)
Definition next_outcome : HM bool :=
  fun m => match oracle m with
           | [] => (true, m)
           | b :: rest => (b, set_oracle rest m)
           end.

(** [calloc(1, n)]: a fresh, zero-filled, maximally aligned block, or
    nothing. *)
Definition calloc (n : Z) : HM (option Z) :=
  ok <- next_outcome ;;
  if ok then
    fun m =>
      let p := brk m in
      (Some p,
       log_heap (HCalloc p n)
         (set_mem (zero_fill (mem m) p n)
            (set_brk (align_up (p + Z.max n 1) max_align) m)))
  else ret None.

(** [free(p)]. *)
Definition free (p : Z) : HM unit := modify (log_heap (HFree p)).

(* ================================================================== *)
(** ** arena.c *)

Definition load_arena (a : Z) : HM Arena := gets (fun m => arenas m a).

Definition store_arena (a : Z) (v : Arena) : HM unit :=
  modify (fun m => set_arenas (fun x => if x =? a then v else arenas m x) m).

(** [arena_init]: a region and a size go together. *)
Definition arena_init (arena : option Z) (reg : option Z) (sz : Z) : HM unit :=
  match arena with
  | None => ret tt
  | Some a =>
      let has_region := match reg with Some _ => true | None => false end in
      let has_size := negb (sz =? 0) in
      if negb (Bool.eqb has_region has_size) then ret tt
      else store_arena a (mkArena (match reg with Some r => r | None => 0 end) 0 sz)
  end.

(** [arena_create]. *)
Definition arena_create (sz : Z) : HM (option Z) :=
  if sz =? 0 then ret None
  else
    arena <- calloc sizeof_Arena ;;
    match arena with
    | None => ret None
    | Some a =>
        store_arena a Arena_zero ;;;
        reg <- calloc sz ;;
        match reg with
        | None => free a ;;; ret None
        | Some r => arena_init (Some a) (Some r) sz ;;; ret (Some a)
        end
    end.

(** [arena_alloc_aligned].  The sum [region + index] is taken in
    [uintptr_t]; the other operations cannot wrap because of the guards
    before them. *)
Definition arena_alloc_aligned (arena : option Z) (sz alignment : Z)
  : HM (option Z) :=
  if sz =? 0 then ret None
  else
    match arena with
    | None => ret None
    | Some a =>
        s <- load_arena a ;;
        if region s =? 0 then ret None
        else if index s >? size s then ret None
        else
          let current := (region s + index s) mod 2 ^ 64 in
          let misalignment := if alignment =? 0 then 0 else current mod alignment in
          if negb (misalignment =? 0) && (alignment - misalignment >? size s - index s)
          then ret None
          else
            let padded :=
              if misalignment =? 0 then index s
              else index s + (alignment - misalignment) in
            store_arena a (mkArena (region s) padded (size s)) ;;;
            if sz >? size s - padded then ret None
            else
              store_arena a (mkArena (region s) (padded + sz) (size s)) ;;;
              ret (Some (region s + ((padded + sz) - sz)))
    end.

(** [arena_alloc]. *)
Definition arena_alloc (arena : option Z) (sz : Z) : HM (option Z) :=
  arena_alloc_aligned arena sz arena_default_alignment.

(** [arena_clear]. *)
Definition arena_clear (arena : option Z) : HM unit :=
  match arena with
  | None => ret tt
  | Some a =>
      s <- load_arena a ;;
      store_arena a (mkArena (region s) 0 (size s))
  end.

(** [arena_destroy]. *)
Definition arena_destroy (arena : option Z) : HM unit :=
  match arena with
  | None => ret tt
  | Some a =>
      s <- load_arena a ;;
      (if negb (region s =? 0) then free (region s) else ret tt) ;;;
      free a
  end.

(* ================================================================== *)
(** ** jsonrpc.c: the tagged allocator shim *)

(** [jsonrpc_arena_malloc]. *)
Definition jsonrpc_arena_malloc (sz : Z) : HM (option Z) :=
  if sz =? 0 then ret None
  else if sz >? SIZE_MAX - JSONRPC_ALLOC_HEADER_BYTES then ret None
  else
    let total_size := sz + JSONRPC_ALLOC_HEADER_BYTES in
    cur <- gets g_current_arena ;;
    from_arena <- match cur with
                  | Some a => arena_alloc (Some a) total_size
                  | None => ret None
                  end ;;
    placed <- match from_arena with
              | Some b => ret (Some b, JSONRPC_ALLOC_ORIGIN_ARENA)
              | None =>
                  b <- calloc total_size ;;
                  ret (b, JSONRPC_ALLOC_ORIGIN_HEAP)
              end ;;
    match placed with
    | (None, _) => ret None
    | (Some block, origin) =>
        modify (fun m =>
          set_mem (store32 (store32 (mem m) block JSONRPC_ALLOC_TAG)
                           (block + 4) origin) m) ;;;
        modify (log_heap
                  (HShimAlloc (block + JSONRPC_ALLOC_HEADER_BYTES) origin)) ;;;
        ret (Some (block + JSONRPC_ALLOC_HEADER_BYTES))
    end.

(** [jsonrpc_arena_free]. *)
Definition jsonrpc_arena_free (ptr : option Z) : HM unit :=
  match ptr with
  | None => ret tt
  | Some p =>
      let raw := p - JSONRPC_ALLOC_HEADER_BYTES in
      tag <- gets (fun m => load32 (mem m) raw) ;;
      if negb (tag =? JSONRPC_ALLOC_TAG) then ret tt
      else
        origin <- gets (fun m => load32 (mem m) (raw + 4)) ;;
        if origin =? JSONRPC_ALLOC_ORIGIN_HEAP then free raw else ret tt
  end.

(** [jsonrpc_init_parson_allocator]: installs the two functions above in
    the JSON library, once. *)
Definition jsonrpc_init_parson_allocator : HM unit :=
  done <- gets g_parson_allocator_initialized ;;
  if done then ret tt else modify (set_initialized true).

Record jsonrpc_arena_scope_t : Type := mkScope {
  prev : option Z;
  changed : bool
}.

Definition ptr_eqb (a b : option Z) : bool :=
  match a, b with
  | Some x, Some y => x =? y
  | None, None => true
  | _, _ => false
  end.

(** [jsonrpc_arena_scope_begin]. *)
Definition jsonrpc_arena_scope_begin (arena : option Z)
  : HM jsonrpc_arena_scope_t :=
  cur <- gets g_current_arena ;;
  let scope := mkScope cur false in
  if ptr_eqb arena None || ptr_eqb cur arena then ret scope
  else
    modify (set_current arena) ;;;
    ret (mkScope cur true).

(** [jsonrpc_arena_scope_end]. *)
Definition jsonrpc_arena_scope_end (arena : option Z)
  (scope : jsonrpc_arena_scope_t) : HM unit :=
  if negb (changed scope) then ret tt
  else
    (if negb (ptr_eqb arena None) then arena_clear arena else ret tt) ;;;
    modify (set_current (prev scope)).

(** [jsonrpc_default_message]. *)
Definition jsonrpc_default_message (code : Z) : string :=
  if code =? JSONRPC_ERR_PARSE then "Parse error"
  else if code =? JSONRPC_ERR_INVALID_REQUEST then "Invalid Request"
  else if code =? JSONRPC_ERR_METHOD_NOT_FOUND then "Method not found"
  else if code =? JSONRPC_ERR_INVALID_PARAMS then "Invalid params"
  else if code =? JSONRPC_ERR_INTERNAL then "Internal error"
  else "Server error".

(* ================================================================== *)
(** ** The JSON library as the engine uses it *)

Inductive JSON_Value_Type : Type :=
| JSONError_t | JSONNull_t | JSONString_t | JSONNumber_t
| JSONObject_t | JSONArray_t | JSONBoolean_t.

(** Modelled from the spec: [json_value_get_type]; a null pointer has
    the error type. *)
Definition json_value_get_type (v : option JSON_Value) : JSON_Value_Type :=
  match v with
  | None => JSONError_t
  | Some JSONNull => JSONNull_t
  | Some (JSONString _) => JSONString_t
  | Some (JSONNumber _) => JSONNumber_t
  | Some (JSONObject _) => JSONObject_t
  | Some (JSONArray _) => JSONArray_t
  | Some (JSONBoolean _) => JSONBoolean_t
  end.

Definition type_eqb (a b : JSON_Value_Type) : bool :=
  match a, b with
  | JSONError_t, JSONError_t | JSONNull_t, JSONNull_t
  | JSONString_t, JSONString_t | JSONNumber_t, JSONNumber_t
  | JSONObject_t, JSONObject_t | JSONArray_t, JSONArray_t
  | JSONBoolean_t, JSONBoolean_t => true
  | _, _ => false
  end.

(** Modelled from the spec: [json_value_get_object], the members of an
    object value and nothing for any other value. *)
Definition json_value_get_object (v : option JSON_Value)
  : option (list (string * JSON_Value)) :=
  match v with
  | Some (JSONObject ms) => Some ms
  | _ => None
  end.

(** Modelled from the spec: [json_value_get_array]. *)
Definition json_value_get_array (v : option JSON_Value)
  : option (list JSON_Value) :=
  match v with
  | Some (JSONArray xs) => Some xs
  | _ => None
  end.

(** Modelled from the spec: [json_object_get_value], the value stored
    under a name. *)
Fixpoint json_object_get_value (obj : list (string * JSON_Value))
  (name : string) : option JSON_Value :=
  match obj with
  | [] => None
  | (k, v) :: rest =>
      if String.eqb k name then Some v else json_object_get_value rest name
  end.

(** Modelled from the spec: [json_object_has_value]. *)
Definition json_object_has_value (obj : list (string * JSON_Value))
  (name : string) : bool :=
  match json_object_get_value obj name with
  | Some _ => true
  | None => false
  end.

(** Modelled from the spec: [json_object_get_string], the string stored
    under a name, nothing when the member is absent or not a string. *)
Definition json_object_get_string (obj : list (string * JSON_Value))
  (name : string) : option string :=
  match json_object_get_value obj name with
  | Some (JSONString s) => Some s
  | _ => None
  end.

(** A C string ends at its first NUL. *)
Fixpoint c_str (s : string) : string :=
  match s with
  | EmptyString => EmptyString
  | String c rest =>
      if Ascii.eqb c Ascii.zero then EmptyString else String c (c_str rest)
  end.

(** [strcmp(a, b) == 0]. *)
Definition strcmp_eq (a b : string) : bool := String.eqb (c_str a) (c_str b).

(** Modelled from the spec: insertion of a member, replacing the value
    of a name already present. *)
Fixpoint object_put (obj : list (string * JSON_Value)) (name : string)
  (v : JSON_Value) : list (string * JSON_Value) :=
  match obj with
  | [] => [(name, v)]
  | (k, w) :: rest =>
      if String.eqb k name then (k, v) :: rest
      else (k, w) :: object_put rest name v
  end.

(** Modelled from the spec: the constructors of the JSON library.  Each
    of them allocates through the shim, so each may fail; its outcome is
    the allocator's next one.  A mutating call returns the updated
    value, or nothing on [JSONFailure]. *)
Definition json_value_init_object : HM (option JSON_Value) :=
  ok <- next_outcome ;; ret (if ok then Some (JSONObject []) else None).

Definition json_value_init_array : HM (option JSON_Value) :=
  ok <- next_outcome ;; ret (if ok then Some (JSONArray []) else None).

Definition json_value_init_null : HM (option JSON_Value) :=
  ok <- next_outcome ;; ret (if ok then Some JSONNull else None).

Definition json_value_deep_copy (v : JSON_Value) : HM (option JSON_Value) :=
  ok <- next_outcome ;; ret (if ok then Some v else None).

Definition json_object_set_value (obj : JSON_Value) (name : string)
  (v : JSON_Value) : HM (option JSON_Value) :=
  match obj with
  | JSONObject ms =>
      ok <- next_outcome ;;
      ret (if ok then Some (JSONObject (object_put ms name v)) else None)
  | _ => ret None
  end.

Definition json_object_set_string (obj : JSON_Value) (name s : string)
  : HM (option JSON_Value) :=
  json_object_set_value obj name (JSONString s).

(** [(double)code] for an [int32_t] code. *)
Definition double_of_int32 (c : Z) : float :=
  if c <? 0 then PrimFloat.opp (PrimFloat.of_uint63 (Uint63.of_Z (- c)))
  else PrimFloat.of_uint63 (Uint63.of_Z c).

Definition json_object_set_number (obj : JSON_Value) (name : string)
  (d : float) : HM (option JSON_Value) :=
  json_object_set_value obj name (JSONNumber d).

Definition json_array_append_value (arr : JSON_Value) (v : JSON_Value)
  : HM (option JSON_Value) :=
  match arr with
  | JSONArray xs =>
      ok <- next_outcome ;;
      ret (if ok then Some (JSONArray (xs ++ [v])) else None)
  | _ => ret None
  end.

(** [json_value_free]: recorded, the tree is gone afterwards. *)
Definition json_value_free (v : JSON_Value) : HM unit :=
  modify (log_heap (HJsonFree v)).

(* ================================================================== *)
(** ** jsonrpc.c: response builders *)

Definition is_id_type (t : JSON_Value_Type) : bool :=
  type_eqb t JSONString_t || type_eqb t JSONNumber_t || type_eqb t JSONNull_t.

(** [jsonrpc_copy_id]. *)
Definition jsonrpc_copy_id (id : option JSON_Value) : HM (option JSON_Value) :=
  match id with
  | None => json_value_init_null
  | Some v =>
      if negb (is_id_type (json_value_get_type id)) then json_value_init_null
      else
        copy <- json_value_deep_copy v ;;
        match copy with
        | None => json_value_init_null
        | Some c => ret (Some c)
        end
  end.

(** [jsonrpc_build_error]. *)
Definition jsonrpc_build_error (id : option JSON_Value) (code : Z)
  (message : option string) : HM (option JSON_Value) :=
  response <- json_value_init_object ;;
  match response with
  | None => ret None
  | Some response =>
      r <- json_object_set_string response "jsonrpc" "2.0" ;;
      match r with
      | None => json_value_free response ;;; ret None
      | Some response =>
          id_copy <- jsonrpc_copy_id id ;;
          with_id <- match id_copy with
                     | None => ret None
                     | Some c =>
                         r <- json_object_set_value response "id" c ;;
                         match r with
                         | None => json_value_free c ;;; ret None
                         | Some response' => ret (Some response')
                         end
                     end ;;
          match with_id with
          | None => json_value_free response ;;; ret None
          | Some response =>
              error_value <- json_value_init_object ;;
              match error_value with
              | None => json_value_free response ;;; ret None
              | Some error_value =>
                  r <- json_object_set_number error_value "code"
                         (double_of_int32 code) ;;
                  match r with
                  | None =>
                      json_value_free error_value ;;;
                      json_value_free response ;;; ret None
                  | Some error_value =>
                      let use_message :=
                        match message with
                        | Some m => m
                        | None => jsonrpc_default_message code
                        end in
                      r <- json_object_set_string error_value "message"
                             use_message ;;
                      match r with
                      | None =>
                          json_value_free error_value ;;;
                          json_value_free response ;;; ret None
                      | Some error_value =>
                          r <- json_object_set_value response "error"
                                 error_value ;;
                          match r with
                          | None =>
                              json_value_free error_value ;;;
                              json_value_free response ;;; ret None
                          | Some response => ret (Some response)
                          end
                      end
                  end
              end
          end
      end
  end.

(** [jsonrpc_build_result]: takes ownership of [result]. *)
Definition jsonrpc_build_result (id : option JSON_Value)
  (result : option JSON_Value) : HM (option JSON_Value) :=
  match result with
  | None => ret None
  | Some result =>
      response <- json_value_init_object ;;
      match response with
      | None => json_value_free result ;;; ret None
      | Some response =>
          r <- json_object_set_string response "jsonrpc" "2.0" ;;
          match r with
          | None =>
              json_value_free result ;;; json_value_free response ;;; ret None
          | Some response =>
              id_copy <- jsonrpc_copy_id id ;;
              with_id <- match id_copy with
                         | None => ret None
                         | Some c =>
                             r <- json_object_set_value response "id" c ;;
                             match r with
                             | None => json_value_free c ;;; ret None
                             | Some response' => ret (Some response')
                             end
                         end ;;
              match with_id with
              | None =>
                  json_value_free result ;;;
                  json_value_free response ;;; ret None
              | Some response =>
                  r <- json_object_set_value response "result" result ;;
                  match r with
                  | None =>
                      json_value_free result ;;;
                      json_value_free response ;;; ret None
                  | Some response => ret (Some response)
                  end
              end
          end
      end
  end.

(** [jsonrpc_id_is_valid]. *)
Definition jsonrpc_id_is_valid (id : option JSON_Value) : bool :=
  match id with
  | None => false
  | Some _ => is_id_type (json_value_get_type id)
  end.

(** [jsonrpc_params_is_valid]. *)
Definition jsonrpc_params_is_valid (params : option JSON_Value) : bool :=
  match params with
  | None => true
  | Some _ =>
      let t := json_value_get_type params in
      type_eqb t JSONArray_t || type_eqb t JSONObject_t
  end.

(* ================================================================== *)
(** ** jsonrpc.c: the inbound buffer *)

(** [rpc_buffer_t]: [data] is the block's address, [bytes] its first
    [len] bytes. *)
Record rpc_buffer_t : Type := mkBuffer {
  data : option Z;
  bytes : list byte;
  cap : Z
}.

Definition len (b : rpc_buffer_t) : Z := Z.of_nat (List.length (bytes b)).

(** [rpc_buffer_free]. *)
Definition rpc_buffer_free (b : rpc_buffer_t) : HM rpc_buffer_t :=
  match data b with
  | Some p => free p ;;; ret (mkBuffer None [] 0)
  | None => ret (mkBuffer None [] 0)
  end.

(** The loop [while (new_cap < desired) new_cap *= 2U] of
    [rpc_buffer_reserve], in [size_t]; 64 doublings exhaust any non-zero
    start. *)
Fixpoint grow_cap (fuel : nat) (new_cap desired : Z) : Z :=
  match fuel with
  | O => new_cap
  | S f =>
      if new_cap <? desired
      then grow_cap f ((new_cap * 2) mod 2 ^ 64) desired
      else new_cap
  end.

(** [rpc_buffer_reserve]. *)
Definition rpc_buffer_reserve (b : rpc_buffer_t) (desired : Z)
  : HM (bool * rpc_buffer_t) :=
  if desired <=? cap b then ret (true, b)
  else
    let new_cap :=
      grow_cap 64 (if cap b =? 0 then INITIAL_BUFFER_CAP else cap b) desired in
    new_data <- calloc new_cap ;;
    match new_data with
    | None => ret (false, b)
    | Some p =>
        match data b with
        | Some old => if len b >? 0 then free old else ret tt
        | None => ret tt
        end ;;;
        ret (true, mkBuffer (Some p) (bytes b) new_cap)
    end.

(** [rpc_buffer_append]. *)
Definition rpc_buffer_append (b : rpc_buffer_t) (chunk : list byte)
  : HM (bool * rpc_buffer_t) :=
  let n := Z.of_nat (List.length chunk) in
  if n =? 0 then ret (true, b)
  else
    let required := len b + n in
    if required >? MAX_BUFFER_BYTES then ret (false, b)
    else
      r <- rpc_buffer_reserve b required ;;
      let (ok, b') := r in
      if negb ok then ret (false, b')
      else ret (true, mkBuffer (data b') (bytes b' ++ chunk) (cap b')).

(** [rpc_buffer_consume]. *)
Definition rpc_buffer_consume (b : rpc_buffer_t) (count : Z) : rpc_buffer_t :=
  if (count =? 0) || (len b <? count) then b
  else mkBuffer (data b) (skipn (Z.to_nat count) (bytes b)) (cap b).

Definition newline : byte := x0a.
Definition carriage_return : byte := x0d.

(** [memchr(data, '\n', len)], as an offset. *)
Fixpoint memchr_newline (l : list byte) : option Z :=
  match l with
  | [] => None
  | c :: rest =>
      if Byte.eqb c newline then Some 0
      else match memchr_newline rest with
           | Some i => Some (i + 1)
           | None => None
           end
  end.

(** The bytes of a NUL-terminated buffer that a C string function sees. *)
Fixpoint c_bytes (l : list byte) : list byte :=
  match l with
  | [] => []
  | c :: rest => if Byte.eqb c x00 then [] else c :: c_bytes rest
  end.

(* ================================================================== *)
(** ** jsonrpc.h: transport, callbacks, connection *)

(** What the engine does to the outside: calls of the transport's
    functions and of the user's callbacks, in order. *)
Inductive event : Type :=
| EvSendRaw (payload : list byte)
| EvClose
| EvOnOpen
| EvOnClose
| EvOnRequest (method : string) (params : option JSON_Value)
| EvOnNotification (method : string) (params : option JSON_Value).

(** [jsonrpc_transport_t]: a field is [true] when the function pointer
    is set; both functions return [void], a call is an [event]. *)
Record jsonrpc_transport_t : Type := mkTransport {
  send_raw : bool;
  close : bool
}.

(** [jsonrpc_response_t]. *)
Record jsonrpc_response_t : Type := mkResponse {
  result : option JSON_Value;
  error_code : Z;
  error_message : option string
}.

Section Engine.

(** The state of the user's handlers. *)
Variable U : Type.

(** Modelled from the spec: [json_parse_string] and
    [json_serialize_to_string] of the JSON library, as functions of the
    text and of the value (nothing on a syntax error, or on a value that
    cannot be written). *)
Variable parse : list byte -> option JSON_Value.
Variable serialize : JSON_Value -> option (list byte).

(** [jsonrpc_callbacks_t]: a handler reads and updates the user's state.
    [on_request] receives the zero-initialised descriptor and returns it
    populated, with its verdict. *)
Record jsonrpc_callbacks_t : Type := mkCallbacks {
  on_open : option (U -> U);
  on_close : option (U -> U);
  on_request :
    option (U -> string -> option JSON_Value -> jsonrpc_response_t ->
            U * (bool * jsonrpc_response_t));
  on_notification : option (U -> string -> option JSON_Value -> U)
}.

(** [struct jsonrpc_conn_s]; [self] is the address of the struct. *)
Record jsonrpc_conn_t : Type := mkConn {
  self : Z;
  transport : jsonrpc_transport_t;
  callbacks : jsonrpc_callbacks_t;
  user_context : Z;
  closed : bool;
  inbound : rpc_buffer_t;
  arena : option Z
}.

(** [sizeof(struct jsonrpc_conn_s)] on LP64: the transport (three
    pointers, 24), the callbacks (four pointers, 32), [user_context]
    (8), [closed] and its padding (1 + 7), the buffer (a pointer and two
    [size_t], 24), [arena] (8). *)
Definition sizeof_conn : Z := 104.

Definition set_inbound (b : rpc_buffer_t) (c : jsonrpc_conn_t) : jsonrpc_conn_t :=
  mkConn (self c) (transport c) (callbacks c) (user_context c) (closed c)
         b (arena c).

Record world : Type := mkWorld {
  mach : machine;
  user : U;
  trace : list event
}.

Definition EM (A : Type) : Type := St world A.

Definition liftH {A : Type} (h : HM A) : EM A :=
  fun w => let (x, m') := h (mach w) in (x, mkWorld m' (user w) (trace w)).

Definition emit (e : event) : EM unit :=
  modify (fun w => mkWorld (mach w) (user w) (trace w ++ [e])).

Definition call_on_open (f : U -> U) : EM unit :=
  modify (fun w => mkWorld (mach w) (f (user w)) (trace w ++ [EvOnOpen])).

Definition call_on_close (f : U -> U) : EM unit :=
  modify (fun w => mkWorld (mach w) (f (user w)) (trace w ++ [EvOnClose])).

Definition call_on_notification
  (f : U -> string -> option JSON_Value -> U)
  (method : string) (params : option JSON_Value) : EM unit :=
  modify (fun w => mkWorld (mach w) (f (user w) method params)
                           (trace w ++ [EvOnNotification method params])).

Definition call_on_request
  (f : U -> string -> option JSON_Value -> jsonrpc_response_t ->
       U * (bool * jsonrpc_response_t))
  (method : string) (params : option JSON_Value)
  (response : jsonrpc_response_t) : EM (bool * jsonrpc_response_t) :=
  fun w =>
    let (u', r) := f (user w) method params response in
    (r, mkWorld (mach w) u' (trace w ++ [EvOnRequest method params])).

Definition free_if_present (v : option JSON_Value) : HM unit :=
  match v with
  | Some r => json_value_free r
  | None => ret tt
  end.

(* ================================================================== *)
(** ** jsonrpc.c: validator and dispatcher *)

Definition invalid_request : EM (option JSON_Value) :=
  liftH (jsonrpc_build_error None JSONRPC_ERR_INVALID_REQUEST None).

(** [jsonrpc_process_object]. *)
Definition jsonrpc_process_object (conn : jsonrpc_conn_t)
  (value : option JSON_Value) : EM (option JSON_Value) :=
  match json_value_get_object value with
  | None => invalid_request
  | Some obj =>
  match json_object_get_string obj "jsonrpc" with
  | None => invalid_request
  | Some version =>
  if negb (strcmp_eq version "2.0") then invalid_request else
  match json_object_get_string obj "method" with
  | None => invalid_request
  | Some method =>
  let has_id := json_object_has_value obj "id" in
  let id := if has_id then json_object_get_value obj "id" else None in
  if has_id && negb (jsonrpc_id_is_valid id) then invalid_request else
  let params := json_object_get_value obj "params" in
  if negb (jsonrpc_params_is_valid params) then
    if negb has_id then ret None
    else liftH (jsonrpc_build_error id JSONRPC_ERR_INVALID_PARAMS None)
  else if negb has_id then
    match on_notification (callbacks conn) with
    | Some f => call_on_notification f method params
    | None => ret tt
    end ;;;
    ret None
  else
    match on_request (callbacks conn) with
    | None => liftH (jsonrpc_build_error id JSONRPC_ERR_METHOD_NOT_FOUND None)
    | Some f =>
        r <- call_on_request f method params (mkResponse None 0 None) ;;
        let (handled, response) := r in
        if negb handled then
          liftH (free_if_present (result response)) ;;;
          liftH (jsonrpc_build_error id JSONRPC_ERR_METHOD_NOT_FOUND None)
        else if negb (error_code response =? 0) then
          liftH (free_if_present (result response)) ;;;
          liftH (jsonrpc_build_error id (error_code response)
                                     (error_message response))
        else
          match result response with
          | None =>
              liftH (jsonrpc_build_error id JSONRPC_ERR_INTERNAL
                                         (Some "Handler returned no result"%string))
          | Some _ => liftH (jsonrpc_build_result id (result response))
          end
    end
  end end end.

(** The [for] loop of [jsonrpc_process_value] over the items from index
    [i] on; nothing when an append failed (the response and the array
    are freed by then). *)
Fixpoint process_items (conn : jsonrpc_conn_t) (items : list JSON_Value)
  (response_array_value : JSON_Value) (response_count : Z)
  : EM (option (JSON_Value * Z)) :=
  match items with
  | [] => ret (Some (response_array_value, response_count))
  | item :: rest =>
      response <- jsonrpc_process_object conn (Some item) ;;
      match response with
      | None => process_items conn rest response_array_value response_count
      | Some r =>
          appended <- liftH (json_array_append_value response_array_value r) ;;
          match appended with
          | None =>
              liftH (json_value_free r) ;;;
              liftH (json_value_free response_array_value) ;;;
              ret None
          | Some arr => process_items conn rest arr (response_count + 1)
          end
      end
  end.

(** [jsonrpc_process_value]. *)
Definition jsonrpc_process_value (conn : jsonrpc_conn_t)
  (value : option JSON_Value) : EM (option JSON_Value) :=
  match value with
  | None => invalid_request
  | Some v =>
      if type_eqb (json_value_get_type value) JSONArray_t then
        match json_value_get_array value with
        | None => invalid_request
        | Some array =>
            let count := Z.of_nat (List.length array) in
            if count =? 0 then invalid_request
            else
              response_array_value <- liftH json_value_init_array ;;
              match response_array_value with
              | None =>
                  liftH (jsonrpc_build_error None JSONRPC_ERR_INTERNAL None)
              | Some arr =>
                  looped <- process_items conn array arr 0 ;;
                  match looped with
                  | None =>
                      liftH (jsonrpc_build_error None JSONRPC_ERR_INTERNAL None)
                  | Some (arr', response_count) =>
                      if response_count =? 0 then
                        liftH (json_value_free arr') ;;; ret None
                      else ret (Some arr')
                  end
              end
        end
      else jsonrpc_process_object conn value
  end.

(* ================================================================== *)
(** ** jsonrpc.c: sending *)

(** Modelled from the spec: [json_serialize_to_string] allocates the
    text it returns. *)
Definition json_serialize_to_string (v : JSON_Value)
  : HM (option (list byte)) :=
  ok <- next_outcome ;; ret (if ok then serialize v else None).

(** Modelled from the spec: [json_parse_string] reads a C string and
    allocates the tree it returns. *)
Definition json_parse_string (line : list byte) : HM (option JSON_Value) :=
  ok <- next_outcome ;; ret (if ok then parse (c_bytes line) else None).

(** [jsonrpc_send_value]. *)
Definition jsonrpc_send_value (conn : option jsonrpc_conn_t)
  (value : option JSON_Value) : EM bool :=
  match conn, value with
  | Some c, Some v =>
      if negb (send_raw (transport c)) then ret false
      else
        serialized <- liftH (json_serialize_to_string v) ;;
        match serialized with
        | None => ret false
        | Some s =>
            let n := Z.of_nat (List.length s) in
            payload <- liftH (jsonrpc_arena_malloc (n + 1)) ;;
            match payload with
            | None => ret false
            | Some p =>
                emit (EvSendRaw (s ++ [newline])) ;;;
                liftH (jsonrpc_arena_free (Some p)) ;;;
                ret true
            end
        end
  | _, _ => ret false
  end.

(** [jsonrpc_conn_send_result]. *)
Definition jsonrpc_conn_send_result (conn : option jsonrpc_conn_t)
  (id : option JSON_Value) (res : option JSON_Value) : EM bool :=
  match conn, res with
  | Some c, Some _ =>
      liftH jsonrpc_init_parson_allocator ;;;
      scope <- liftH (jsonrpc_arena_scope_begin (arena c)) ;;
      response <- liftH (jsonrpc_build_result id res) ;;
      match response with
      | None => liftH (jsonrpc_arena_scope_end (arena c) scope) ;;; ret false
      | Some r =>
          sent <- jsonrpc_send_value conn response ;;
          liftH (json_value_free r) ;;;
          liftH (jsonrpc_arena_scope_end (arena c) scope) ;;;
          ret sent
      end
  | _, _ => liftH (free_if_present res) ;;; ret false
  end.

(** [jsonrpc_conn_send_error]. *)
Definition jsonrpc_conn_send_error (conn : option jsonrpc_conn_t)
  (id : option JSON_Value) (code : Z) (message : option string) : EM bool :=
  match conn with
  | None => ret false
  | Some c =>
      liftH jsonrpc_init_parson_allocator ;;;
      scope <- liftH (jsonrpc_arena_scope_begin (arena c)) ;;
      response <- liftH (jsonrpc_build_error id code message) ;;
      match response with
      | None => liftH (jsonrpc_arena_scope_end (arena c) scope) ;;; ret false
      | Some r =>
          sent <- jsonrpc_send_value conn response ;;
          liftH (json_value_free r) ;;;
          liftH (jsonrpc_arena_scope_end (arena c) scope) ;;;
          ret sent
      end
  end.

(* ================================================================== *)
(** ** jsonrpc.c: connection life cycle and the framer *)

(** [jsonrpc_conn_new]. *)
Definition jsonrpc_conn_new (tr : jsonrpc_transport_t)
  (cb : jsonrpc_callbacks_t) (external_context : Z)
  : EM (option jsonrpc_conn_t) :=
  liftH jsonrpc_init_parson_allocator ;;;
  conn <- liftH (calloc sizeof_conn) ;;
  match conn with
  | None => ret None
  | Some p =>
      a <- liftH (arena_create JSONRPC_ARENA_BYTES) ;;
      let c := mkConn p tr cb external_context false (mkBuffer None [] 0) a in
      match on_open cb with
      | Some f => call_on_open f
      | None => ret tt
      end ;;;
      ret (Some c)
  end.

(** [jsonrpc_conn_free]; the result is the struct as it is released. *)
Definition jsonrpc_conn_free (conn : option jsonrpc_conn_t)
  : EM (option jsonrpc_conn_t) :=
  match conn with
  | None => ret None
  | Some c =>
      match on_close (callbacks c) with
      | Some f => if negb (closed c) then call_on_close f else ret tt
      | None => ret tt
      end ;;;
      b <- liftH (rpc_buffer_free (inbound c)) ;;
      match arena c with
      | Some a =>
          cur <- liftH (gets g_current_arena) ;;
          (if ptr_eqb cur (arena c) then liftH (modify (set_current None))
           else ret tt) ;;;
          liftH (arena_destroy (arena c))
      | None => ret tt
      end ;;;
      liftH (free (self c)) ;;;
      ret (Some (mkConn (self c) (transport c) (callbacks c) (user_context c)
                        true b None))
  end.

(** The byte before the newline, [data[line_len - 1]]. *)
Definition byte_at (l : list byte) (i : Z) : byte := nth (Z.to_nat i) l x00.

(** The two [if]s that follow a "Request too large" reply: close the
    transport when it can be closed. *)
Definition close_after (c : jsonrpc_conn_t) (sent : bool) : EM unit :=
  if negb sent && close (transport c) then emit EvClose
  else if close (transport c) then emit EvClose else ret tt.

(** [if (!sent && close != nullptr) { close(); close_connection = true; }] *)
Definition close_if_unsent (c : jsonrpc_conn_t) (sent : bool) : EM bool :=
  if negb sent && close (transport c) then emit EvClose ;;; ret true
  else ret false.

(** The [while (true)] loop of [jsonrpc_conn_feed].  Every iteration
    that continues has consumed at least one byte of the buffer, so
    [fuel] above the buffer's length is never used up; [None] is the
    loop cut short by [fuel]. *)
Fixpoint feed_loop (fuel : nat) (c : jsonrpc_conn_t)
  : EM (option jsonrpc_conn_t) :=
  match fuel with
  | O => ret None
  | S fuel' =>
  match memchr_newline (bytes (inbound c)) with
  | None => ret (Some c)
  | Some newline_index =>
      let consume_len := newline_index + 1 in
      let line_len :=
        if (newline_index >? 0) &&
           Byte.eqb (byte_at (bytes (inbound c)) (newline_index - 1))
                    carriage_return
        then newline_index - 1 else newline_index in
      if line_len =? 0 then
        feed_loop fuel' (set_inbound (rpc_buffer_consume (inbound c) consume_len) c)
      else if line_len >? MAX_MESSAGE_BYTES then
        sent <- jsonrpc_conn_send_error (Some c) None
                  JSONRPC_ERR_INVALID_REQUEST (Some "Request too large"%string) ;;
        close_after c sent ;;;
        ret (Some c)
      else
        scope <- liftH (jsonrpc_arena_scope_begin (arena c)) ;;
        line <- liftH (jsonrpc_arena_malloc (line_len + 1)) ;;
        match line with
        | None =>
            sent <- jsonrpc_conn_send_error (Some c) None
                      JSONRPC_ERR_INTERNAL None ;;
            close_connection <- close_if_unsent c sent ;;
            let c' := set_inbound (rpc_buffer_consume (inbound c) consume_len) c in
            liftH (jsonrpc_arena_scope_end (arena c') scope) ;;;
            if close_connection then ret (Some c') else feed_loop fuel' c'
        | Some line_ptr =>
            let line_bytes := firstn (Z.to_nat line_len) (bytes (inbound c)) in
            let c' := set_inbound (rpc_buffer_consume (inbound c) consume_len) c in
            request <- liftH (json_parse_string line_bytes) ;;
            liftH (jsonrpc_arena_free (Some line_ptr)) ;;;
            match request with
            | None =>
                sent <- jsonrpc_conn_send_error (Some c') None
                          JSONRPC_ERR_PARSE None ;;
                close_connection <- close_if_unsent c' sent ;;
                liftH (jsonrpc_arena_scope_end (arena c') scope) ;;;
                if close_connection then ret (Some c') else feed_loop fuel' c'
            | Some req =>
                response <- jsonrpc_process_value c' request ;;
                close_connection <-
                  match response with
                  | Some _ =>
                      sent <- jsonrpc_send_value (Some c') response ;;
                      close_if_unsent c' sent
                  | None => ret false
                  end ;;
                liftH (free_if_present response) ;;;
                liftH (json_value_free req) ;;;
                liftH (jsonrpc_arena_scope_end (arena c') scope) ;;;
                if close_connection then ret (Some c') else feed_loop fuel' c'
            end
        end
  end
  end.

(** [jsonrpc_conn_feed]; [chunk] is the pair [(data, len)], nothing for a
    null [data].  The result is the connection afterwards. *)
Definition jsonrpc_conn_feed (conn : option jsonrpc_conn_t)
  (chunk : option (list byte)) : EM (option jsonrpc_conn_t) :=
  match conn, chunk with
  | Some c, Some d =>
      if (Z.of_nat (List.length d) =? 0) || closed c then ret conn
      else
        liftH jsonrpc_init_parson_allocator ;;;
        r <- liftH (rpc_buffer_append (inbound c) d) ;;
        let (ok, b) := r in
        if negb ok then
          sent <- jsonrpc_conn_send_error (Some (set_inbound b c)) None
                    JSONRPC_ERR_INVALID_REQUEST (Some "Request too large"%string) ;;
          close_after c sent ;;;
          ret (Some (set_inbound b c))
        else
          feed_loop (S (List.length (bytes b))) (set_inbound b c)
  | _, _ => ret conn
  end.

(** [jsonrpc_conn_get_context]. *)
Definition jsonrpc_conn_get_context (conn : option jsonrpc_conn_t) : option Z :=
  match conn with
  | None => None
  | Some c => Some (user_context c)
  end.

End Engine.

(* ================================================================== *)
(** ** arena.c: copying one arena into another *)

(** [memcpy(dst, src, n)] on non-overlapping ranges. *)
Definition memcpy (f : mem_t) (dst src n : Z) : mem_t :=
  fun x => if (dst <=? x) && (x <? dst + n) then f (src + (x - dst)) else f x.

(** [arena_copy]. *)
Definition arena_copy (dest src : option Z) : HM Z :=
  match dest, src with
  | Some d, Some s =>
      ad <- load_arena d ;;
      asrc <- load_arena s ;;
      if (region ad =? 0) || (region asrc =? 0) then ret 0
      else
        let n := if index asrc <? size ad then index asrc else size ad in
        (if negb (n =? 0)
         then modify (fun m =>
                set_mem (memcpy (mem m) (region ad) (region asrc) n) m)
         else ret tt) ;;;
        ad' <- load_arena d ;;
        store_arena d (mkArena (region ad') n (size ad')) ;;;
        ret n
  | _, _ => ret 0
  end.

(* ================================================================== *)
(** ** main.c: the request handler of the example server *)

Section Handlers.

(** The two constructors of the JSON library that only the handlers
    call; what they return is the library's business. *)
Variable json_value_init_number : float -> HM (option JSON_Value).
Variable json_value_init_string : string -> HM (option JSON_Value).

(** [response->error_code = code; response->error_message = message]. *)
Definition set_error (code : Z) (message : string)
  (response : jsonrpc_response_t) : jsonrpc_response_t :=
  mkResponse (result response) code (Some message).

(** [response->result = value] and, when the value is null, the
    out-of-memory error. *)
Definition set_result (value : option JSON_Value)
  (response : jsonrpc_response_t) : jsonrpc_response_t :=
  match value with
  | Some _ => mkResponse value (error_code response) (error_message response)
  | None => mkResponse None JSONRPC_ERR_INTERNAL (Some "Out of memory"%string)
  end.

(** The [for] loop of [handle_add]: the sum, or nothing at the first
    element that is not a number. *)
Fixpoint handle_add_loop (items : list JSON_Value) (sum : float)
  : option float :=
  match items with
  | [] => Some sum
  | JSONNumber d :: rest => handle_add_loop rest (PrimFloat.add sum d)
  | _ :: _ => None
  end.

(** [handle_add]. *)
Definition handle_add (params : option JSON_Value)
  (response : jsonrpc_response_t) : HM (bool * jsonrpc_response_t) :=
  match params with
  | Some (JSONArray items) =>
      match handle_add_loop items 0%float with
      | None =>
          ret (true, set_error JSONRPC_ERR_INVALID_PARAMS
                       "All params must be numbers" response)
      | Some sum =>
          value <- json_value_init_number sum ;;
          ret (true, set_result value response)
      end
  | _ =>
      ret (true, set_error JSONRPC_ERR_INVALID_PARAMS
                   "Expected array params" response)
  end.

(** [my_on_request]. *)
Definition my_on_request (method : string) (params : option JSON_Value)
  (response : jsonrpc_response_t) : HM (bool * jsonrpc_response_t) :=
  if strcmp_eq method "ping" then
    value <- json_value_init_string "pong" ;;
    ret (true, set_result value response)
  else if strcmp_eq method "echo" then
    match params with
    | None =>
        ret (true, set_error JSONRPC_ERR_INVALID_PARAMS "Missing params"
                     response)
    | Some p =>
        value <- json_value_deep_copy p ;;
        ret (true, set_result value response)
    end
  else if strcmp_eq method "add" then handle_add params response
  else ret (false, response).

End Handlers.

(* ================================================================== *)
(** ** server.c: the transport of the example server *)

Definition UINT_MAX : Z := 2 ^ 32 - 1.

(** [memcpy] of a payload into memory. *)
Fixpoint store_bytes (f : mem_t) (a : Z) (data : list byte) : mem_t :=
  match data with
  | [] => f
  | b :: rest => store_bytes (store8 f a (Z.of_N (Byte.to_N b))) (a + 1) rest
  end.

Section Transport.

(** [sizeof(write_ctx_t)], which is the size of libuv's write request,
    and the status [uv_write] returns for a payload: both are libuv's. *)
Variable sizeof_write_ctx : Z.
Variable uv_write : list byte -> Z.

(** [transport_send_raw].  The function returns [void]: the result here
    is the payload it has handed to libuv, nothing when it drops the
    payload.  A request that libuv took is freed later, by
    [on_uv_write]. *)
Definition transport_send_raw (data : list byte)
  : HM (option (list byte)) :=
  let len := Z.of_nat (List.length data) in
  if len =? 0 then ret None
  else if len >? UINT_MAX then ret None
  else if len >? SIZE_MAX - sizeof_write_ctx then ret None
  else
    let alloc_size := sizeof_write_ctx + len in
    write_ctx <- calloc alloc_size ;;
    match write_ctx with
    | None => ret None
    | Some p =>
        modify (fun m =>
          set_mem (store_bytes (mem m) (p + sizeof_write_ctx) data) m) ;;;
        let write_status := uv_write data in
        if negb (write_status =? 0) then free p ;;; ret None
        else ret (Some data)
    end.

End Transport.

(* ================================================================== *)
(** ** Vocabulary of the statements *)

(** An [Arena] struct that describes a real region: a non-null base,
    the bump index within the capacity, the region (and the address one
    past its end) inside the address
    space. *)
Definition arena_wf (s : Arena) : Prop :=
  0 < region s /\ 0 <= index s <= size s /\ region s + size s < 2 ^ 64.

(** The padding [arena_alloc_aligned] inserts before a block. *)
Definition padding_for (s : Arena) (alignment : Z) : Z :=
  if alignment =? 0 then 0
  else
    let misalignment := (region s + index s) mod alignment in
    if misalignment =? 0 then 0 else alignment - misalignment.

(** Every byte of [[p, p + n)] is zero. *)
Definition zeroed (f : mem_t) (p n : Z) : Prop :=
  forall x, p <= x < p + n -> f x = 0.

(** A machine at start-up: nothing allocated, no arena bound, the heap
    starting at [base], allocations failing as [o] says. *)
Definition boot (base : Z) (o : list bool) : machine :=
  mkMachine o base (fun _ => 0) (fun _ => Arena_zero) None false [].

(** Run a computation for its result, or for its final state. *)
Definition eval {S A : Type} (c : St S A) (s : S) : A := fst (c s).
Definition exec {S A : Type} (c : St S A) (s : S) : S := snd (c s).

(** Two machine states that differ at most in the [Arena] struct at
    address [a]. *)
Definition only_arena_changed (a : Z) (m m' : machine) : Prop :=
  oracle m' = oracle m /\ brk m' = brk m /\ mem m' = mem m /\
  g_current_arena m' = g_current_arena m /\
  g_parson_allocator_initialized m' = g_parson_allocator_initialized m /\
  heap_log m' = heap_log m /\
  forall x, x <> a -> arenas m' x = arenas m x.

(** A message cycle's use of an arena of 64 bytes: create it, bind it,
    take one block from the shim, end the scope (which clears the
    arena). *)
Definition one_cycle_on_small_arena : HM (option Z) :=
  a <- arena_create 64 ;;
  scope <- jsonrpc_arena_scope_begin a ;;
  jsonrpc_arena_malloc 8 ;;;
  jsonrpc_arena_scope_end a scope ;;;
  ret a.

Definition machine_after_one_cycle : machine :=
  exec one_cycle_on_small_arena (boot 4096 []).

(** The header the shim writes, read back. *)
Definition header_tag (m : machine) (p : Z) : Z :=
  load32 (mem m) (p - JSONRPC_ALLOC_HEADER_BYTES).
Definition header_origin (m : machine) (p : Z) : Z :=
  load32 (mem m) (p - JSONRPC_ALLOC_HEADER_BYTES + 4).


(** Two blocks from the shim while an arena of 64 bytes is bound: the
    first fits in the arena, the second does not and comes from the
    system heap. *)
Definition two_blocks : HM (option Z * option Z) :=
  a <- arena_create 64 ;;
  jsonrpc_arena_scope_begin a ;;;
  p1 <- jsonrpc_arena_malloc 8 ;;
  p2 <- jsonrpc_arena_malloc 100 ;;
  ret (p1, p2).

Definition machine_with_two_blocks : machine := exec two_blocks (boot 4096 []).

(** A computation whose every run relates the state before to the state
    after by [R]. *)
Definition keeps {S A : Type} (R : S -> S -> Prop) (c : St S A) : Prop :=
  forall s, R s (exec c s).

(** A log entry that is not an allocation served by an arena. *)
Definition heap_origin (e : heap_event) : Prop :=
  match e with
  | HShimAlloc _ o => o = JSONRPC_ALLOC_ORIGIN_HEAP
  | _ => True
  end.

(** From a state with no arena bound to a state with no arena bound,
    every allocation of the shim in between having come from the system
    heap. *)
Definition unbound_step (m m' : machine) : Prop :=
  g_current_arena m = None ->
  g_current_arena m' = None /\
  exists l, heap_log m' = heap_log m ++ l /\ Forall heap_origin l.

(** A machine computation that keeps it so. *)
Definition HK {A : Type} (c : HM A) : Prop := keeps unbound_step c.

(** The same for the engine's state. *)
Definition WK {U A : Type} (e : EM U A) : Prop :=
  keeps (fun w w' => unbound_step (mach w) (mach w')) e.

(** *** Envelopes and requests, in the words of the specification *)

(** [{jsonrpc: "2.0", id, error: {code, message}}]. *)
Definition error_envelope (id : JSON_Value) (code : Z) (message : string)
  : JSON_Value :=
  JSONObject
    [("jsonrpc"%string, JSONString "2.0");
     ("id"%string, id);
     ("error"%string,
      JSONObject [("code"%string, JSONNumber (double_of_int32 code));
                  ("message"%string, JSONString message)])].

(** [{jsonrpc: "2.0", id, result}]. *)
Definition result_envelope (id res : JSON_Value) : JSON_Value :=
  JSONObject
    [("jsonrpc"%string, JSONString "2.0");
     ("id"%string, id);
     ("result"%string, res)].

(** The ["id"] member of a response. *)
Definition response_id (r : JSON_Value) : option JSON_Value :=
  match r with
  | JSONObject ms => json_object_get_value ms "id"
  | _ => None
  end.

(** An id is a string, a number or null. *)
Definition id_ok (i : JSON_Value) : Prop :=
  match i with
  | JSONString _ | JSONNumber _ | JSONNull => True
  | _ => False
  end.

(** Params are absent, an array or an object. *)
Definition params_ok (p : option JSON_Value) : Prop :=
  match p with
  | None | Some (JSONArray _) | Some (JSONObject _) => True
  | Some _ => False
  end.

(** A valid request object carrying the id [i]. *)
Definition valid_request (ms : list (string * JSON_Value)) (i : JSON_Value)
  : Prop :=
  json_object_get_string ms "jsonrpc" = Some "2.0"%string /\
  (exists method, json_object_get_string ms "method" = Some method) /\
  json_object_get_value ms "id" = Some i /\ id_ok i /\
  params_ok (json_object_get_value ms "params").

(** A valid notification: the same shape without the ["id"] key. *)
Definition valid_notification (ms : list (string * JSON_Value)) : Prop :=
  json_object_get_string ms "jsonrpc" = Some "2.0"%string /\
  (exists method, json_object_get_string ms "method" = Some method) /\
  json_object_get_value ms "id" = None /\
  params_ok (json_object_get_value ms "params").

(** An element of a batch that is a valid request or a valid
    notification. *)
Definition valid_item (v : JSON_Value) : Prop :=
  match v with
  | JSONObject ms =>
      (exists i, valid_request ms i) \/ valid_notification ms
  | _ => False
  end.

(** The ids of the requests of a batch, in order. *)
Definition request_ids (items : list JSON_Value) : list JSON_Value :=
  flat_map
    (fun v =>
       match v with
       | JSONObject ms =>
           match json_object_get_value ms "id" with
           | Some i => [i]
           | None => []
           end
       | _ => []
       end) items.

(** What [json_value_free] is called on when a handler's result is
    dropped. *)
Definition dropped (res : option JSON_Value) : list heap_event :=
  match res with
  | Some r => [HJsonFree r]
  | None => []
  end.

(** The machine with [l] added to what the heap has seen. *)
Definition logged (l : list heap_event) (m : machine) : machine :=
  mkMachine (oracle m) (brk m) (mem m) (arenas m) (g_current_arena m)
            (g_parson_allocator_initialized m) (heap_log m ++ l).

(* ================================================================== *)
(** ** The engine in the words of the specification

    A second description of the dispatcher, the sender and the framer
    (sections 4.4 to 4.6 of the specification): pure functions of the
    handlers' state that return a value, the new state and the calls
    made, with no memory in sight.  The theorems relate the code above to
    them. *)

Section Spec.

Variable U : Type.
Variable parse : list byte -> option JSON_Value.
Variable serialize : JSON_Value -> option (list byte).

Definition Pure (A : Type) : Type := U -> A * (U * list event).

Definition pret {A : Type} (x : A) : Pure A := fun u => (x, (u, [])).

Definition pbind {A B : Type} (p : Pure A) (q : A -> Pure B) : Pure B :=
  fun u =>
    let '(x, (u1, e1)) := p u in
    let '(y, (u2, e2)) := q x u1 in
    (y, (u2, e1 ++ e2)).

Definition pcall (e : event) : Pure unit := fun u => (tt, (u, [e])).

(** "The id in every response is a deep copy of the incoming id (or
    null if invalid/absent)." *)
Definition copied_id (id : option JSON_Value) : JSON_Value :=
  match id with
  | Some (JSONString s) => JSONString s
  | Some (JSONNumber d) => JSONNumber d
  | _ => JSONNull
  end.

(** [build_error(id, code, message)]. *)
Definition error_reply (id : option JSON_Value) (code : Z)
  (message : option string) : JSON_Value :=
  error_envelope (copied_id id) code
    match message with
    | Some s => s
    | None => jsonrpc_default_message code
    end.

(** Section 4.5, the single-object path. *)
Definition answer_object (cb : jsonrpc_callbacks_t U)
  (v : option JSON_Value) : Pure (option JSON_Value) :=
  let invalid :=
    pret (Some (error_reply None JSONRPC_ERR_INVALID_REQUEST None)) in
  match v with
  | Some (JSONObject o) =>
      match json_object_get_string o "jsonrpc",
            json_object_get_string o "method" with
      | Some version, Some method =>
          if negb (strcmp_eq version "2.0") then invalid
          else
            let params := json_object_get_value o "params" in
            match json_object_get_value o "id" with
            | Some id =>
                if negb (jsonrpc_id_is_valid (Some id)) then invalid
                else if negb (jsonrpc_params_is_valid params) then
                  pret (Some (error_reply (Some id)
                                JSONRPC_ERR_INVALID_PARAMS None))
                else
                  match on_request cb with
                  | None =>
                      pret (Some (error_reply (Some id)
                                    JSONRPC_ERR_METHOD_NOT_FOUND None))
                  | Some f =>
                      fun u =>
                        let '(u', (handled, d)) :=
                          f u method params (mkResponse None 0 None) in
                        (Some
                           (if negb handled then
                              error_reply (Some id)
                                JSONRPC_ERR_METHOD_NOT_FOUND None
                            else if negb (error_code d =? 0) then
                              error_reply (Some id) (error_code d)
                                          (error_message d)
                            else
                              match result d with
                              | None =>
                                  error_reply (Some id) JSONRPC_ERR_INTERNAL
                                    (Some "Handler returned no result"%string)
                              | Some r => result_envelope (copied_id (Some id)) r
                              end),
                         (u', [EvOnRequest method params]))
                  end
            | None =>
                if negb (jsonrpc_params_is_valid params) then pret None
                else
                  match on_notification cb with
                  | Some f =>
                      fun u =>
                        (None, (f u method params,
                                [EvOnNotification method params]))
                  | None => pret None
                  end
            end
      | _, _ => invalid
      end
  | _ => invalid
  end.

(** Section 4.5, the elements of a batch in order: the responses that
    are present. *)
Fixpoint answer_items (cb : jsonrpc_callbacks_t U) (items : list JSON_Value)
  : Pure (list JSON_Value) :=
  match items with
  | [] => pret []
  | item :: rest =>
      pbind (answer_object cb (Some item)) (fun r =>
      pbind (answer_items cb rest) (fun rs =>
      pret match r with
           | Some x => x :: rs
           | None => rs
           end))
  end.

(** Section 4.5, the single-message path. *)
Definition answer_value (cb : jsonrpc_callbacks_t U) (v : JSON_Value)
  : Pure (option JSON_Value) :=
  match v with
  | JSONArray [] =>
      pret (Some (error_reply None JSONRPC_ERR_INVALID_REQUEST None))
  | JSONArray items =>
      pbind (answer_items cb items) (fun rs =>
      pret match rs with
           | [] => None
           | _ => Some (JSONArray rs)
           end)
  | _ => answer_object cb (Some v)
  end.

(** Section 4.6, [send(value)]: one line on the wire, or a failure. *)
Definition send_spec (tr : jsonrpc_transport_t) (v : JSON_Value) : Pure bool :=
  if send_raw tr then
    match serialize v with
    | Some s =>
        if Z.of_nat (List.length s) + 1 >?
           SIZE_MAX - JSONRPC_ALLOC_HEADER_BYTES
        then pret false
        else pbind (pcall (EvSendRaw (s ++ [newline]))) (fun _ => pret true)
    | None => pret false
    end
  else pret false.

(** What [send(value)] puts on the wire: one line, or nothing when it
    fails. *)
Definition on_wire (tr : jsonrpc_transport_t) (v : JSON_Value)
  : list (list byte) :=
  if send_raw tr then
    match serialize v with
    | Some s =>
        if Z.of_nat (List.length s) + 1 >?
           SIZE_MAX - JSONRPC_ALLOC_HEADER_BYTES
        then []
        else [s ++ [newline]]
    | None => []
    end
  else [].

(** "If a send fails and the transport exposes close, close the
    transport and return without processing further lines." *)
Definition close_if_unsent_spec (tr : jsonrpc_transport_t) (sent : bool)
  : Pure bool :=
  if negb sent && close tr then pbind (pcall EvClose) (fun _ => pret true)
  else pret false.

Definition close_spec (tr : jsonrpc_transport_t) : Pure unit :=
  if close tr then pcall EvClose else pret tt.

(** Section 4.4, steps 5 to 7 on one line; the result tells whether the
    connection was closed. *)
Definition message_cycle (tr : jsonrpc_transport_t)
  (cb : jsonrpc_callbacks_t U) (line : list byte) : Pure bool :=
  match parse (c_bytes line) with
  | None =>
      pbind (send_spec tr (error_reply None JSONRPC_ERR_PARSE None))
            (close_if_unsent_spec tr)
  | Some request =>
      pbind (answer_value cb request) (fun response =>
      match response with
      | Some r => pbind (send_spec tr r) (close_if_unsent_spec tr)
      | None => pret false
      end)
  end.

(** A line without the carriage return that may end it. *)
Definition strip_cr (raw : list byte) : list byte :=
  match rev raw with
  | c :: before => if Byte.eqb c carriage_return then rev before else raw
  | [] => raw
  end.

(** Section 4.4 on the complete lines of the buffer, in order.  The
    result is nothing when every line was dispatched, and the lines left
    in the buffer when the framer returned early. *)
Fixpoint run_lines (tr : jsonrpc_transport_t) (cb : jsonrpc_callbacks_t U)
  (ls : list (list byte)) : Pure (option (list (list byte))) :=
  match ls with
  | [] => pret None
  | raw :: rest =>
      let line := strip_cr raw in
      if Z.of_nat (List.length line) =? 0 then run_lines tr cb rest
      else if Z.of_nat (List.length line) >? MAX_MESSAGE_BYTES then
        pbind (send_spec tr (error_reply None JSONRPC_ERR_INVALID_REQUEST
                               (Some "Request too large"%string)))
              (fun _ => pbind (close_spec tr) (fun _ => pret (Some (raw :: rest))))
      else
        pbind (message_cycle tr cb line) (fun close_connection =>
        if close_connection then pret (Some rest) else run_lines tr cb rest)
  end.

End Spec.

(** The complete lines of a buffer (without their newline) and the
    incomplete rest. *)
Fixpoint split_lines (buf : list byte) : list (list byte) * list byte :=
  match buf with
  | [] => ([], [])
  | b :: rest =>
      let (ls, r) := split_lines rest in
      if Byte.eqb b newline then ([] :: ls, r)
      else
        match ls with
        | l :: ls' => ((b :: l) :: ls', r)
        | [] => ([], b :: r)
        end
  end.

(** Lines back in a buffer. *)
Definition join_lines (ls : list (list byte)) (rest : list byte) : list byte :=
  fold_right (fun l acc => l ++ newline :: acc) rest ls.

(** The byte ranges handed to [send_raw], one per call, in order. *)
Definition sent_lines (t : list event) : list (list byte) :=
  flat_map (fun e => match e with EvSendRaw p => [p] | _ => [] end) t.

(** The bytes handed to [send_raw], in order. *)
Definition sent_bytes (t : list event) : list byte :=
  flat_map (fun e => match e with EvSendRaw p => p | _ => [] end) t.

(** Successive calls of [jsonrpc_conn_feed], one per chunk; nothing when
    a call did not return a connection. *)
Fixpoint feed_chunks {U : Type} (parse : list byte -> option JSON_Value)
  (serialize : JSON_Value -> option (list byte))
  (conn : option (jsonrpc_conn_t U)) (chunks : list (list byte))
  : EM U (option (jsonrpc_conn_t U)) :=
  match chunks with
  | [] => ret conn
  | chunk :: rest =>
      conn' <- jsonrpc_conn_feed parse serialize conn (Some chunk) ;;
      feed_chunks parse serialize conn' rest
  end.

(** Every chunk fits in the inbound buffer when it arrives: what the
    buffer holds at that call and the chunk are at most
    [MAX_BUFFER_BYTES] together, so [rpc_buffer_append] refuses none of
    them for its size. *)
Fixpoint chunks_fit {U : Type} (parse : list byte -> option JSON_Value)
  (serialize : JSON_Value -> option (list byte))
  (conn : option (jsonrpc_conn_t U)) (chunks : list (list byte))
  (w : world U) : bool :=
  match chunks with
  | [] => true
  | chunk :: rest =>
      match conn with
      | Some c =>
          len (inbound c) + Z.of_nat (List.length chunk) <=? MAX_BUFFER_BYTES
      | None => true
      end &&
      chunks_fit parse serialize
        (eval (jsonrpc_conn_feed parse serialize conn (Some chunk)) w) rest
        (exec (jsonrpc_conn_feed parse serialize conn (Some chunk)) w)
  end.

(** Allocation that has not failed so far keeps not failing. *)
Definition calm_step (m m' : machine) : Prop :=
  oracle m = [] -> oracle m' = [].

Definition calm {A : Type} (h : HM A) : Prop := keeps calm_step h.

(** The code [e] does what the description [p] says, as long as no
    allocation fails: related results, the same handler state, the same
    calls appended to the trace. *)
Definition refines {U A B : Type} (Rel : A -> B -> Prop)
  (e : EM U A) (p : Pure U B) : Prop :=
  forall w, oracle (mach w) = [] ->
    Rel (eval e w) (fst (p (user w))) /\
    user (exec e w) = fst (snd (p (user w))) /\
    trace (exec e w) = trace w ++ snd (snd (p (user w))) /\
    oracle (mach (exec e w)) = [].

(** A connection with other bytes in its inbound buffer. *)
Definition with_bytes {U : Type} (bs : list byte) (c : jsonrpc_conn_t U)
  : jsonrpc_conn_t U :=
  set_inbound (mkBuffer (data (inbound c)) bs (cap (inbound c))) c.

(** Two states of one connection: everything but the inbound buffer is
    the same. *)
Definition same_conn {U : Type} (c c' : jsonrpc_conn_t U) : Prop :=
  self c' = self c /\ transport c' = transport c /\
  callbacks c' = callbacks c /\ user_context c' = user_context c /\
  closed c' = closed c /\ arena c' = arena c.

(** The bytes the framer leaves in the buffer: the lines it did not
    dispatch, then the incomplete rest. *)
Definition leftover_bytes (left : option (list (list byte)))
  (rest : list byte) : list byte :=
  match left with
  | None => rest
  | Some ls => join_lines ls rest
  end.

(** ** A small server, for the examples

    The theorems hold for every parser, printer, transport and handler;
    the examples run them on these. *)

Definition text (s : string) : list byte := list_byte_of_string s.

Definition quoted (s : string) : list byte := x22 :: text s ++ [x22].

(** The integer a double holds (examples only use integers). *)
Definition integer_of_double (d : float) : Z :=
  match Prim2SF d with
  | S754_finite neg m e => (if neg then -1 else 1) * Z.shiftl (Zpos m) e
  | _ => 0
  end.

(** A compact printer, without escapes. *)
Fixpoint toy_render (v : JSON_Value) : list byte :=
  match v with
  | JSONNull => text "null"
  | JSONString s => quoted s
  | JSONNumber d =>
      text (NilZero.string_of_int (Z.to_int (integer_of_double d)))
  | JSONBoolean b => text (if b then "true" else "false")
  | JSONArray xs =>
      x5b ::
      (fix items (l : list JSON_Value) : list byte :=
         match l with
         | [] => []
         | x :: rest =>
             toy_render x ++
             match rest with
             | [] => []
             | _ => x2c :: items rest
             end
         end) xs ++ [x5d]
  | JSONObject ms =>
      x7b ::
      (fix members (l : list (string * JSON_Value)) : list byte :=
         match l with
         | [] => []
         | (k, x) :: rest =>
             quoted k ++ x3a :: toy_render x ++
             match rest with
             | [] => []
             | _ => x2c :: members rest
             end
         end) ms ++ [x7d]
  end.

Definition toy_serialize (v : JSON_Value) : option (list byte) :=
  Some (toy_render v).

Fixpoint bytes_eqb (a b : list byte) : bool :=
  match a, b with
  | [], [] => true
  | x :: a', y :: b' => Byte.eqb x y && bytes_eqb a' b'
  | _, _ => false
  end.

Definition ping_members : list (string * JSON_Value) :=
  [("jsonrpc"%string, JSONString "2.0");
   ("id"%string, JSONNumber (double_of_int32 7));
   ("method"%string, JSONString "ping")].

Definition log_members : list (string * JSON_Value) :=
  [("jsonrpc"%string, JSONString "2.0");
   ("method"%string, JSONString "log");
   ("params"%string, JSONArray [JSONString "hello"])].

Definition sum_members : list (string * JSON_Value) :=
  [("jsonrpc"%string, JSONString "2.0");
   ("id"%string, JSONString "s1");
   ("method"%string, JSONString "sum");
   ("params"%string, JSONArray [JSONNumber (double_of_int32 1);
                                JSONNumber (double_of_int32 2)])].

Definition fail_members : list (string * JSON_Value) :=
  [("jsonrpc"%string, JSONString "2.0");
   ("id"%string, JSONString "f1");
   ("method"%string, JSONString "fail")].

Definition toy_batch : list JSON_Value :=
  [JSONObject ping_members; JSONObject log_members; JSONObject sum_members].

(** A request whose id is an array, and one whose params are a string. *)
Definition bad_id_members : list (string * JSON_Value) :=
  [("jsonrpc"%string, JSONString "2.0");
   ("id"%string, JSONArray []);
   ("method"%string, JSONString "ping")].

Definition bad_params_members : list (string * JSON_Value) :=
  [("jsonrpc"%string, JSONString "2.0");
   ("id"%string, JSONNumber (double_of_int32 7));
   ("method"%string, JSONString "ping");
   ("params"%string, JSONString "oops")].

(** The messages the toy parser knows. *)
Definition toy_messages : list JSON_Value :=
  [JSONObject ping_members; JSONObject log_members; JSONObject sum_members;
   JSONObject fail_members; JSONArray toy_batch].

(** A parser that reads back what [toy_render] printed, for the
    messages of [toy_messages]; any other text is a syntax error. *)
Definition toy_parse (s : list byte) : option JSON_Value :=
  find (fun v => bytes_eqb (toy_render v) s) toy_messages.

(** The handlers keep the names of the methods they served, newest
    first. *)
Definition toy_on_request (u : list string) (method : string)
  (params : option JSON_Value) (d : jsonrpc_response_t)
  : list string * (bool * jsonrpc_response_t) :=
  if String.eqb method "ping" then
    (method :: u, (true, mkResponse (Some (JSONString "pong")) 0 None))
  else if String.eqb method "sum" then
    (method :: u,
     (true, mkResponse (Some (JSONNumber (double_of_int32 3))) 0 None))
  else if String.eqb method "fail" then
    (u, (true, mkResponse (Some (JSONString "partial")) (-32000)
                          (Some "failed"%string)))
  else if String.eqb method "none" then (u, (true, d))
  else (u, (false, d)).

Definition toy_callbacks : jsonrpc_callbacks_t (list string) :=
  mkCallbacks (Some (fun u => "open"%string :: u))
              (Some (fun u => "close"%string :: u))
              (Some toy_on_request)
              (Some (fun u method _ => method :: u)).

Definition toy_transport : jsonrpc_transport_t := mkTransport true true.

(** A connection without an arena, its buffer empty. *)
Definition toy_conn : jsonrpc_conn_t (list string) :=
  mkConn 4096 toy_transport toy_callbacks 0 false (mkBuffer None [] 0) None.

(** A world in which no allocation fails. *)
Definition toy_world : world (list string) :=
  mkWorld (boot 8192 []) [] [].

(** A stream that fills the inbound buffer: an empty line, then
    [MAX_BUFFER_BYTES] letters. *)
Definition filler (n : Z) : list byte := repeat x61 (Z.to_nat n).

Definition full_stream_chunks : list (list byte) :=
  [[newline]; filler MAX_BUFFER_BYTES].

(** A world in which the second allocation fails: the one of the
    [Arena] struct, in [jsonrpc_conn_new]. *)
Definition starved_world : world (list string) :=
  mkWorld (boot 4096 [true; false]) [] [].

(** Two lines, and the same bytes cut elsewhere. *)
Definition ping_text : list byte := toy_render (JSONObject ping_members).

Definition batch_text : list byte := toy_render (JSONArray toy_batch).

Definition ping_line : list byte := ping_text ++ [newline].

Definition log_line : list byte :=
  toy_render (JSONObject log_members) ++ [newline].

Definition toy_chunks : list (list byte) :=
  [firstn 5 ping_line; skipn 5 ping_line ++ firstn 9 log_line;
   skipn 9 log_line].

(* ================================================================== *)
(** ** Vocabulary of the further properties *)

(** Whether the [k]-th allocation attempt from now on succeeds. *)
Definition alloc_ok (m : machine) (k : nat) : bool := nth k (oracle m) true.

(** The blocks of the system heap that were handed out by [calloc] and
    not passed to [free] since, oldest first. *)
Definition live_step (live : list Z) (e : heap_event) : list Z :=
  match e with
  | HCalloc p _ => live ++ [p]
  | HFree p => remove Z.eq_dec p live
  | _ => live
  end.

Definition live_blocks (l : list heap_event) : list Z :=
  fold_left live_step l [].

(** An arena of 64 bytes on a fresh machine (the struct is at 4096, the
    region at 4128), and the same with one byte taken. *)
Definition small_arena : machine := exec (arena_create 64) (boot 4096 []).

Definition small_arena_used : machine :=
  exec (arena_alloc_aligned (Some 4096) 1 1) small_arena.

(** The inbound buffer as the growth policy leaves it: the bytes fit in
    the capacity, and the capacity is nothing or [INITIAL_BUFFER_CAP]
    doubled at most nine times, which is [MAX_BUFFER_BYTES]. *)
Definition buffer_ok (b : rpc_buffer_t) : Prop :=
  len b <= cap b /\
  (cap b = 0 \/
   exists k : nat, (k <= 9)%nat /\ cap b = INITIAL_BUFFER_CAP * 2 ^ Z.of_nat k).

(** What [jsonrpc_conn_new] does to the machine: the struct, then the
    arena. *)
Definition conn_new_allocs : HM (option (Z * option Z)) :=
  jsonrpc_init_parson_allocator ;;;
  p <- calloc sizeof_conn ;;
  match p with
  | None => ret None
  | Some p => a <- arena_create JSONRPC_ARENA_BYTES ;; ret (Some (p, a))
  end.

(** What [jsonrpc_conn_free] does to the machine: the buffer's block,
    the arena (unbound first if it is the current one), the struct. *)
Definition conn_free_frees {U : Type} (c : jsonrpc_conn_t U) : HM unit :=
  rpc_buffer_free (inbound c) ;;;
  match arena c with
  | Some a =>
      cur <- gets g_current_arena ;;
      (if ptr_eqb cur (arena c) then modify (set_current None) else ret tt) ;;;
      arena_destroy (arena c)
  | None => ret tt
  end ;;;
  free (self c).

(** The machine once the shim has written its header in the block at
    [b] and recorded the pointer it returns. *)
Definition tagged (b origin : Z) (m : machine) : machine :=
  log_heap (HShimAlloc (b + JSONRPC_ALLOC_HEADER_BYTES) origin)
    (set_mem (store32 (store32 (mem m) b JSONRPC_ALLOC_TAG) (b + 4) origin) m).

(** The arena of 64 bytes, bound as the current arena. *)
Definition small_arena_bound : machine :=
  exec (jsonrpc_arena_scope_begin (Some 4096)) small_arena.

(** The current arena is the same before and after. *)
Definition same_binding (m m' : machine) : Prop :=
  g_current_arena m' = g_current_arena m.

(** A machine computation, and a computation of the engine, that leaves
    the current arena as it found it. *)
Definition HB {A : Type} (h : HM A) : Prop := keeps same_binding h.

Definition WB {U A : Type} (e : EM U A) : Prop :=
  keeps (fun w w' => same_binding (mach w) (mach w')) e.

(** The rest of a scope: started in a scope that changed the binding, or
    with [p] current, it ends with [p] current. *)
Definition restores {U A : Type} (p : option Z) (changed : bool)
  (e : EM U A) : Prop :=
  forall w, changed = true \/ g_current_arena (mach w) = p ->
            g_current_arena (mach (exec e w)) = p.

(** A connection without handlers, and a transport that cannot send
    but can be closed. *)
Definition bare_conn : jsonrpc_conn_t (list string) :=
  mkConn 4096 toy_transport (mkCallbacks None None None None) 0 false
         (mkBuffer None [] 0) None.

Definition mute_transport : jsonrpc_transport_t := mkTransport false true.

Definition mute_conn : jsonrpc_conn_t (list string) :=
  mkConn 4096 mute_transport toy_callbacks 0 false (mkBuffer None [] 0) None.

(** The heap log only grows. *)
Definition log_grows (m m' : machine) : Prop :=
  exists l, heap_log m' = heap_log m ++ l.

Definition HG {A : Type} (h : HM A) : Prop := keeps log_grows h.

Definition WG {U A : Type} (e : EM U A) : Prop :=
  keeps (fun w w' => log_grows (mach w) (mach w')) e.

(** A JSON value that is [x] or a result envelope around [x]. *)
Definition holds_result (x v : JSON_Value) : Prop :=
  v = x \/ exists i, v = result_envelope i x.

(** Between [m] and [m'] a JSON value that holds [x] was freed. *)
Definition consumed (x : JSON_Value) (m m' : machine) : Prop :=
  exists l v,
    heap_log m' = heap_log m ++ l /\ In (HJsonFree v) l /\ holds_result x v.

(** The arena of 64 bytes, bound, with [k] bytes taken. *)
Definition small_arena_bound_at (k : Z) : machine :=
  exec (arena_alloc_aligned (Some 4096) k 1) small_arena_bound.

(** For the examples: a libuv whose write request takes 192 bytes and
    whose [uv_write] fails with [UV_EPIPE], the peer being gone. *)
Definition sizeof_uv_write_t : Z := 192.
Definition UV_EPIPE : Z := -32.
Definition uv_write_broken_pipe (data : list byte) : Z := UV_EPIPE.

(* ================================================================== *)
(** * Theorems *)

(** ** The state monad *)

Lemma bind_run {S A B : Type} (m : St S A) (k : A -> St S B) (s : S) :
  bind m k s = k (fst (m s)) (snd (m s)).
Proof. unfold bind. destruct (m s); reflexivity. Qed.

Lemma eval_exec {S A : Type} (c : St S A) (s : S) : c s = (eval c s, exec c s).
Proof. unfold eval, exec. destruct (c s); reflexivity. Qed.

(** ** The arena *)

Section ArenaFacts.

Variable m : machine.
Variable a : Z.
Let s : Arena := arenas m a.

Lemma store_arena_same (v : Arena) :
  arenas (exec (store_arena a v) m) a = v.
Proof. unfold exec, store_arena, modify; simpl. now rewrite Z.eqb_refl. Qed.

Lemma arena_alloc_aligned_zero (alignment : Z) :
  arena_alloc_aligned (Some a) 0 alignment m = (None, m).
Proof. reflexivity. Qed.

Lemma padding_for_range (alignment : Z) :
  0 <= alignment -> 0 <= padding_for s alignment <= alignment.
Proof.
  intros Ha. unfold padding_for.
  destruct (Z.eqb_spec alignment 0) as [->|Hne]; [lia|].
  pose proof (Z.mod_pos_bound (region s + index s) alignment ltac:(lia)).
  destruct (Z.eqb_spec ((region s + index s) mod alignment) 0); lia.
Qed.

Lemma padding_for_aligned (alignment : Z) :
  0 < alignment ->
  (region s + index s + padding_for s alignment) mod alignment = 0.
Proof.
  intros Ha. unfold padding_for.
  destruct (Z.eqb_spec alignment 0) as [->|Hne]; [lia|].
  destruct (Z.eqb_spec ((region s + index s) mod alignment) 0) as [E|E].
  - now rewrite Z.add_0_r.
  - rewrite (Z.div_mod (region s + index s) alignment) at 1 by lia.
    replace (alignment * ((region s + index s) / alignment) +
             (region s + index s) mod alignment +
             (alignment - (region s + index s) mod alignment))
      with (((region s + index s) / alignment + 1) * alignment) by ring.
    apply Z.mod_mul; lia.
Qed.

(** The block is granted: where it lies and what the arena becomes. *)
Lemma arena_alloc_aligned_fits (n alignment : Z) :
  arena_wf s -> 0 <= alignment -> 0 < n ->
  index s + padding_for s alignment + n <= size s ->
  let m' := exec (arena_alloc_aligned (Some a) n alignment) m in
  eval (arena_alloc_aligned (Some a) n alignment) m =
    Some (region s + index s + padding_for s alignment) /\
  arenas m' a =
    mkArena (region s) (index s + padding_for s alignment + n) (size s) /\
  only_arena_changed a m m'.
Proof.
  intros (Hr & Hi & Hs) Ha Hn Hfit.
  pose proof (padding_for_range Ha) as Hp.
  unfold eval, exec, arena_alloc_aligned.
  destruct (Z.eqb_spec n 0); [lia|].
  rewrite bind_run. unfold load_arena, gets; simpl. fold s.
  destruct (Z.eqb_spec (region s) 0); [lia|].
  destruct (Z.gtb_spec (index s) (size s)); [lia|].
  rewrite (Z.mod_small (region s + index s)) by lia.
  unfold padding_for in *.
  destruct (Z.eqb_spec alignment 0) as [E|E].
  - simpl. rewrite bind_run. unfold store_arena, modify, ret; simpl.
    destruct (Z.gtb_spec n (size s - index s)); [lia|].
    rewrite bind_run; simpl. rewrite Z.eqb_refl.
    repeat split; try (f_equal; lia).
    intros x Hx; simpl. destruct (Z.eqb_spec x a); [contradiction|reflexivity].
  - set (mis := (region s + index s) mod alignment) in *.
    destruct (Z.eqb_spec mis 0) as [E0|E0]; simpl.
    + rewrite bind_run. unfold store_arena, modify, ret; simpl.
      destruct (Z.gtb_spec n (size s - index s)); [lia|].
      rewrite bind_run; simpl. rewrite Z.eqb_refl.
      repeat split; try (f_equal; lia).
      intros x Hx; simpl. destruct (Z.eqb_spec x a); [contradiction|reflexivity].
    + destruct (Z.gtb_spec (alignment - mis) (size s - index s)); [lia|].
      simpl. rewrite bind_run. unfold store_arena, modify, ret; simpl.
      destruct (Z.gtb_spec n (size s - (index s + (alignment - mis)))); [lia|].
      rewrite bind_run; simpl. rewrite Z.eqb_refl.
      repeat split; try (f_equal; lia).
      intros x Hx; simpl. destruct (Z.eqb_spec x a); [contradiction|reflexivity].
Qed.

(** The block is refused: the padding or the size does not fit. *)
Lemma arena_alloc_aligned_exhausted (n alignment : Z) :
  arena_wf s -> 0 <= alignment -> 0 < n ->
  size s < index s + padding_for s alignment + n ->
  eval (arena_alloc_aligned (Some a) n alignment) m = None.
Proof.
  intros (Hr & Hi & Hs) Ha Hn Hfit.
  pose proof (padding_for_range Ha) as Hp.
  unfold eval, arena_alloc_aligned.
  destruct (Z.eqb_spec n 0); [lia|].
  rewrite bind_run. unfold load_arena, gets; simpl. fold s.
  destruct (Z.eqb_spec (region s) 0); [lia|].
  destruct (Z.gtb_spec (index s) (size s)); [lia|].
  rewrite (Z.mod_small (region s + index s)) by lia.
  unfold padding_for in *.
  destruct (Z.eqb_spec alignment 0) as [E|E].
  - simpl. rewrite bind_run. unfold store_arena, modify, ret; simpl.
    destruct (Z.gtb_spec n (size s - index s)); [reflexivity|lia].
  - set (mis := (region s + index s) mod alignment) in *.
    destruct (Z.eqb_spec mis 0) as [E0|E0]; simpl.
    + rewrite bind_run. unfold store_arena, modify, ret; simpl.
      destruct (Z.gtb_spec n (size s - index s)); [reflexivity|lia].
    + destruct (Z.gtb_spec (alignment - mis) (size s - index s));
        [reflexivity|].
      simpl. rewrite bind_run. unfold store_arena, modify, ret; simpl.
      destruct (Z.gtb_spec n (size s - (index s + (alignment - mis))));
        [reflexivity|lia].
Qed.

End ArenaFacts.

Lemma arena_clear_wf (m : machine) (a : Z) :
  arena_wf (arenas m a) ->
  let m' := exec (arena_clear (Some a)) m in
  arena_wf (arenas m' a) /\ index (arenas m' a) = 0 /\
  only_arena_changed a m m'.
Proof.
  intros (Hr & Hi & Hs). unfold exec, arena_clear.
  rewrite bind_run. unfold load_arena, store_arena, gets, modify; simpl.
  rewrite Z.eqb_refl. unfold arena_wf; simpl.
  repeat split; try lia.
  intros x Hx; simpl. destruct (Z.eqb_spec x a); [contradiction|reflexivity].
Qed.

(** A created arena is well formed, empty, and its region is zero
    filled. *)
Lemma arena_create_fresh (m : machine) (sz : Z) :
  oracle m = [] -> 0 < brk m -> 0 < sz ->
  align_up (brk m + sizeof_Arena) max_align + sz < 2 ^ 64 ->
  let a := brk m in
  let m' := exec (arena_create sz) m in
  let s := arenas m' a in
  eval (arena_create sz) m = Some a /\
  arena_wf s /\ index s = 0 /\ size s = sz /\
  zeroed (mem m') (region s) (size s).
Proof.
  intros Ho Hb Hsz Hfit. destruct m as [o b f ar g i l]; simpl in *; subst o.
  unfold eval, exec, arena_create.
  destruct (Z.eqb_spec sz 0); [lia|]. cbn.
  destruct (Z.eqb_spec sz 0); [lia|]. cbn.
  rewrite Z.eqb_refl. cbn.
  assert (Hal : b + sizeof_Arena <= align_up (b + sizeof_Arena) max_align).
  { unfold align_up, max_align, sizeof_Arena.
    pose proof (Z.div_mod (b + 24 + 16 - 1) 16 ltac:(lia)).
    pose proof (Z.mod_pos_bound (b + 24 + 16 - 1) 16 ltac:(lia)). lia. }
  unfold sizeof_Arena in *.
  replace (Z.max 24 1) with 24 by reflexivity.
  set (r := align_up (b + 24) max_align) in *.
  repeat split; cbn; try lia.
  intros x Hx. unfold zero_fill.
  destruct (Z.leb_spec r x), (Z.ltb_spec x (r + sz)); cbn; try lia.
Qed.

(** C8, as the code has it: for every well-formed arena state -- those
    that [arena_clear] leaves included -- a request of [n > 0] bytes that
    fits behind the alignment padding yields a pointer aligned to
    [alignment], with the block inside the region and the index past it;
    the allocation does not touch memory, so the block is zero exactly
    if that part of the region still is (as after [arena_create], which
    zero-fills it; [arena_clear] only resets the index).  [n = 0] yields
    nothing, and so does a request whose padding or size exceeds the
    remaining capacity.  [arena_alloc] is the same with the default
    alignment. *)
Theorem arena_alloc_aligned_spec (m : machine) (a n alignment : Z) :
  arena_wf (arenas m a) -> 0 <= alignment -> 0 <= n ->
  let s := arenas m a in
  let p := region s + index s + padding_for s alignment in
  let r := eval (arena_alloc_aligned (Some a) n alignment) m in
  let m' := exec (arena_alloc_aligned (Some a) n alignment) m in
  (n = 0 -> r = None /\ m' = m) /\
  (0 < n -> index s + padding_for s alignment + n <= size s ->
     r = Some p /\
     (alignment <> 0 -> p mod alignment = 0) /\
     region s <= p /\ p + n <= region s + size s /\
     arena_wf (arenas m' a) /\
     index (arenas m' a) = index s + padding_for s alignment + n /\
     mem m' = mem m /\
     (zeroed (mem m) p n <-> zeroed (mem m') p n)) /\
  (0 < n -> size s < index s + padding_for s alignment + n -> r = None) /\
  arena_alloc (Some a) n m =
    arena_alloc_aligned (Some a) n arena_default_alignment m.
Proof.
  intros Hwf Ha Hn s p r m'.
  split; [|split; [|split]].
  - intros ->. subst r m'. unfold eval, exec.
    now rewrite (arena_alloc_aligned_zero m a).
  - intros Hpos Hfit.
    destruct (arena_alloc_aligned_fits m a Hwf Ha Hpos Hfit)
      as (Hr & Hs & Hsame).
    fold s in Hr, Hs. fold m' in Hs, Hsame.
    pose proof (padding_for_range m a Ha) as Hp. fold s in Hp.
    destruct Hwf as (W1 & W2 & W3). fold s in W1, W2, W3.
    destruct Hsame as (_ & _ & Hmem & _).
    split; [exact Hr|]. split.
    { intros Hne. apply (padding_for_aligned m a). lia. }
    split; [subst p; lia|]. split; [subst p; lia|].
    split; [rewrite Hs; unfold arena_wf; simpl; lia|].
    split; [now rewrite Hs|]. split; [exact Hmem|].
    now rewrite Hmem.
  - intros Hpos Hover.
    apply (arena_alloc_aligned_exhausted m a Hwf Ha Hpos Hover).
  - reflexivity.
Qed.

Lemma arena_alloc_aligned_spec_witness :
  arena_wf (arenas machine_after_one_cycle 4096) /\
  eval (arena_alloc_aligned (Some 4096) 8 16) machine_after_one_cycle
    = Some 4128 /\
  eval (arena_alloc_aligned (Some 4096) 0 16) machine_after_one_cycle = None /\
  eval (arena_alloc_aligned (Some 4096) 65 16) machine_after_one_cycle = None /\
  index (arenas (exec (arena_alloc_aligned (Some 4096) 1 1)
                      machine_after_one_cycle) 4096) = 1 /\
  eval (arena_alloc (Some 4096) 8)
       (exec (arena_alloc_aligned (Some 4096) 1 1) machine_after_one_cycle)
    = Some 4136.
Proof.
  assert (Hwf : arena_wf (arenas machine_after_one_cycle 4096)).
  { vm_compute. repeat split; congruence. }
  assert (Hwf1 : arena_wf
                   (arenas (exec (arena_alloc_aligned (Some 4096) 1 1)
                                 machine_after_one_cycle) 4096)).
  { vm_compute. repeat split; congruence. }
  destruct (arena_alloc_aligned_spec
              (exec (arena_alloc_aligned (Some 4096) 1 1)
                    machine_after_one_cycle) 4096
              (n := 8) (alignment := arena_default_alignment) Hwf1
              ltac:(unfold arena_default_alignment, alignof_size_t; lia)
              ltac:(lia))
    as (_ & Hpad & _ & Halloc).
  destruct (arena_alloc_aligned_spec machine_after_one_cycle 4096
              (n := 8) (alignment := 16) Hwf ltac:(lia) ltac:(lia))
    as (_ & Hfit & _).
  destruct (arena_alloc_aligned_spec machine_after_one_cycle 4096
              (n := 0) (alignment := 16) Hwf ltac:(lia) ltac:(lia))
    as (Hzero & _).
  destruct (arena_alloc_aligned_spec machine_after_one_cycle 4096
              (n := 65) (alignment := 16) Hwf ltac:(lia) ltac:(lia))
    as (_ & _ & Hover & _).
  split; [exact Hwf|]. split.
  - destruct (Hfit ltac:(lia) ltac:(vm_compute; congruence)) as (H & _).
    rewrite H. reflexivity.
  - split; [exact (proj1 (Hzero eq_refl))|].
    split; [apply Hover; [lia | vm_compute; reflexivity]|].
    split; [reflexivity|].
    unfold eval. rewrite Halloc.
    destruct (Hpad ltac:(lia) ltac:(vm_compute; congruence)) as (H & _).
    exact H.
Defined.

(** C8 as stated fails on "zero-initialized": after one message cycle
    the arena is cleared, well formed and empty, and the next block it
    hands out starts with the allocation tag the shim wrote there. *)
Lemma arena_alloc_after_clear_not_zeroed :
  arena_wf (arenas machine_after_one_cycle 4096) /\
  index (arenas machine_after_one_cycle 4096) = 0 /\
  eval (arena_alloc_aligned (Some 4096) 8 16) machine_after_one_cycle
    = Some 4128 /\
  mem (exec (arena_alloc_aligned (Some 4096) 8 16) machine_after_one_cycle)
      4128 = 67 /\
  ~ zeroed
      (mem (exec (arena_alloc_aligned (Some 4096) 8 16) machine_after_one_cycle))
      4128 8.
Proof.
  split; [vm_compute; repeat split; congruence|].
  split; [reflexivity|]. split; [reflexivity|]. split; [reflexivity|].
  intros Hz. specialize (Hz 4128 ltac:(lia)). vm_compute in Hz. discriminate.
Qed.

(** ** Memory *)

Ltac eqb_cases :=
  repeat match goal with
         | |- context [?x =? ?y] => destruct (Z.eqb_spec x y); try lia
         end.

Lemma load32_store32_same (f : mem_t) (a v : Z) :
  0 <= v < 2 ^ 32 -> load32 (store32 f a v) a = v.
Proof.
  intros Hv. unfold load32, store32, store8. eqb_cases.
  replace (2 ^ 16) with (2 ^ 8 * 2 ^ 8) by reflexivity.
  replace (2 ^ 24) with (2 ^ 8 * 2 ^ 8 * 2 ^ 8) by reflexivity.
  rewrite <- !Z.div_div by lia.
  change (2 ^ 8) with 256.
  pose proof (Z.div_mod v 256 ltac:(lia)).
  pose proof (Z.div_mod (v / 256) 256 ltac:(lia)).
  pose proof (Z.div_mod (v / 256 / 256) 256 ltac:(lia)).
  assert (0 <= v / 256 / 256 / 256 < 256).
  { split.
    - repeat apply Z.div_pos; lia.
    - repeat (apply Z.div_lt_upper_bound; [lia|]). simpl in *. lia. }
  rewrite (Z.mod_small (v / 256 / 256 / 256)) by lia. lia.
Qed.

Lemma load32_store32_other (f : mem_t) (a b v : Z) :
  b + 4 <= a \/ a + 4 <= b -> load32 (store32 f a v) b = load32 f b.
Proof.
  intros H. unfold load32, store32, store8. eqb_cases; reflexivity.
Qed.

(** ** The allocator shim *)

Lemma arena_alloc_aligned_frame (m : machine) (arena : option Z)
  (n alignment : Z) :
  let m' := exec (arena_alloc_aligned arena n alignment) m in
  oracle m' = oracle m /\ brk m' = brk m /\ mem m' = mem m /\
  g_current_arena m' = g_current_arena m /\
  g_parson_allocator_initialized m' = g_parson_allocator_initialized m /\
  heap_log m' = heap_log m.
Proof.
  unfold exec, arena_alloc_aligned.
  destruct (n =? 0); [cbn; auto 10|].
  destruct arena as [a|]; [|cbn; auto 10].
  rewrite bind_run. unfold load_arena, gets; simpl.
  repeat match goal with
         | |- context [if ?c then _ else _] => destruct c; cbn; auto 10
         end.
Qed.

(** What a successful [jsonrpc_arena_malloc] leaves behind: a tagged
    header, and either a block taken from the bound arena (no system
    allocation happened) or a block obtained from [calloc]. *)
Lemma jsonrpc_arena_malloc_header (m m' : machine) (sz p : Z) :
  jsonrpc_arena_malloc sz m = (Some p, m') ->
  header_tag m' p = JSONRPC_ALLOC_TAG /\
  ((header_origin m' p = JSONRPC_ALLOC_ORIGIN_ARENA /\
    g_current_arena m <> None /\
    heap_log m' = heap_log m ++ [HShimAlloc p JSONRPC_ALLOC_ORIGIN_ARENA]) \/
   (header_origin m' p = JSONRPC_ALLOC_ORIGIN_HEAP /\
    heap_log m' =
      heap_log m ++
      [HCalloc (p - JSONRPC_ALLOC_HEADER_BYTES)
               (sz + JSONRPC_ALLOC_HEADER_BYTES);
       HShimAlloc p JSONRPC_ALLOC_ORIGIN_HEAP])).
Proof.
  unfold jsonrpc_arena_malloc, header_tag, header_origin.
  destruct (sz =? 0); [discriminate|].
  destruct (sz >? SIZE_MAX - JSONRPC_ALLOC_HEADER_BYTES); [discriminate|].
  rewrite bind_run. unfold gets at 1; simpl fst; simpl snd.
  rewrite bind_run.
  set (total := sz + JSONRPC_ALLOC_HEADER_BYTES).
  assert (Hstore : forall f b o, 0 <= o < 2 ^ 32 ->
            load32 (store32 (store32 f b JSONRPC_ALLOC_TAG) (b + 4) o)
                   (b + JSONRPC_ALLOC_HEADER_BYTES - JSONRPC_ALLOC_HEADER_BYTES)
              = JSONRPC_ALLOC_TAG /\
            load32 (store32 (store32 f b JSONRPC_ALLOC_TAG) (b + 4) o)
                   (b + JSONRPC_ALLOC_HEADER_BYTES - JSONRPC_ALLOC_HEADER_BYTES + 4)
              = o).
  { intros f b o Ho.
    replace (b + JSONRPC_ALLOC_HEADER_BYTES - JSONRPC_ALLOC_HEADER_BYTES)
      with b by lia.
    split.
    - rewrite load32_store32_other by lia.
      apply load32_store32_same. unfold JSONRPC_ALLOC_TAG. lia.
    - now apply load32_store32_same. }
  destruct (g_current_arena m) as [a|] eqn:Hcur.
  - pose proof (arena_alloc_aligned_frame m (Some a) total
                  arena_default_alignment) as Hfr.
    unfold arena_alloc.
    unfold exec in Hfr.
    destruct (arena_alloc_aligned (Some a) total arena_default_alignment m)
      as [[b|] m1]; simpl in *.
    + rewrite bind_run. cbn. intros H; inversion H; subst; clear H. cbn.
      destruct Hfr as (_ & _ & _ & _ & _ & Hlog).
      destruct (Hstore (mem m1) b JSONRPC_ALLOC_ORIGIN_ARENA) as [Ht Ho];
        [unfold JSONRPC_ALLOC_ORIGIN_ARENA; lia|].
      split; [exact Ht|]. left. repeat split; auto; [discriminate|].
      now rewrite Hlog.
    + rewrite bind_run. unfold calloc. rewrite !bind_run.
      destruct (eval next_outcome m1) eqn:Hok; unfold eval in Hok; rewrite Hok.
      * cbn. intros H; inversion H; subst; clear H. cbn.
        destruct Hfr as (_ & _ & _ & _ & _ & Hlog).
        destruct (Hstore
                    (zero_fill (mem (snd (next_outcome m1)))
                               (brk (snd (next_outcome m1))) total)
                    (brk (snd (next_outcome m1))) JSONRPC_ALLOC_ORIGIN_HEAP)
          as [Ht Ho]; [unfold JSONRPC_ALLOC_ORIGIN_HEAP; lia|].
        split; [exact Ht|]. right. split; [exact Ho|].
        rewrite ?Z.add_simpl_r. rewrite <- Hlog.
        unfold next_outcome. destruct (oracle m1); cbn;
          now rewrite <- app_assoc.
      * cbn. discriminate.
  - cbn [fst snd ret]. unfold ret at 1. cbn [fst snd].
    rewrite bind_run. unfold calloc. rewrite !bind_run. cbn.
    destruct (fst (next_outcome m)) eqn:Hok.
    + cbn. intros H; inversion H; subst; clear H. cbn.
      destruct (Hstore
                  (zero_fill (mem (snd (next_outcome m)))
                             (brk (snd (next_outcome m))) total)
                  (brk (snd (next_outcome m))) JSONRPC_ALLOC_ORIGIN_HEAP)
        as [Ht Ho]; [unfold JSONRPC_ALLOC_ORIGIN_HEAP; lia|].
      split; [exact Ht|]. right. split; [exact Ho|].
      rewrite ?Z.add_simpl_r.
      unfold next_outcome. destruct (oracle m); cbn;
        now rewrite <- app_assoc.
    + cbn. discriminate.
Qed.

(** C9: [jsonrpc_arena_free] on a non-null pointer does nothing when the
    header's tag is not the magic tag, nothing when the header's origin
    is the arena, and hands the raw block to [free] when the origin is
    the heap -- and in no other case.  For a pointer that
    [jsonrpc_arena_malloc] has just returned this means: a block taken
    from the arena (no [calloc] stands behind it) never reaches [free],
    a block from the heap is released at the address [calloc] gave. *)
Theorem jsonrpc_arena_free_spec (m : machine) (p : Z) :
  let raw := p - JSONRPC_ALLOC_HEADER_BYTES in
  let m' := exec (jsonrpc_arena_free (Some p)) m in
  (header_tag m p <> JSONRPC_ALLOC_TAG -> m' = m) /\
  (header_tag m p = JSONRPC_ALLOC_TAG ->
   header_origin m p = JSONRPC_ALLOC_ORIGIN_ARENA -> m' = m) /\
  (header_tag m p = JSONRPC_ALLOC_TAG ->
   header_origin m p = JSONRPC_ALLOC_ORIGIN_HEAP ->
   m' = log_heap (HFree raw) m) /\
  (m' = m \/
   (header_tag m p = JSONRPC_ALLOC_TAG /\
    header_origin m p = JSONRPC_ALLOC_ORIGIN_HEAP /\
    m' = log_heap (HFree raw) m)) /\
  exec (jsonrpc_arena_free None) m = m /\
  (forall m0 sz, jsonrpc_arena_malloc sz m0 = (Some p, m) ->
     (header_origin m p = JSONRPC_ALLOC_ORIGIN_ARENA /\
      heap_log m = heap_log m0 ++ [HShimAlloc p JSONRPC_ALLOC_ORIGIN_ARENA] /\
      m' = m) \/
     (header_origin m p = JSONRPC_ALLOC_ORIGIN_HEAP /\
      heap_log m =
        heap_log m0 ++
        [HCalloc raw (sz + JSONRPC_ALLOC_HEADER_BYTES);
         HShimAlloc p JSONRPC_ALLOC_ORIGIN_HEAP] /\
      m' = log_heap (HFree raw) m)).
Proof.
  intros raw m'.
  assert (Hrun : m' = if negb (header_tag m p =? JSONRPC_ALLOC_TAG) then m
                      else if header_origin m p =? JSONRPC_ALLOC_ORIGIN_HEAP
                           then log_heap (HFree raw) m else m).
  { subst m' raw. unfold exec, jsonrpc_arena_free, header_tag, header_origin.
    rewrite bind_run. unfold gets. cbn [fst snd].
    destruct (load32 (mem m) (p - JSONRPC_ALLOC_HEADER_BYTES)
              =? JSONRPC_ALLOC_TAG); cbn [negb]; [|reflexivity].
    rewrite bind_run. cbn [fst snd].
    destruct (load32 (mem m) (p - JSONRPC_ALLOC_HEADER_BYTES + 4)
              =? JSONRPC_ALLOC_ORIGIN_HEAP); reflexivity. }
  assert (Harena : header_origin m p = JSONRPC_ALLOC_ORIGIN_ARENA ->
                   (header_origin m p =? JSONRPC_ALLOC_ORIGIN_HEAP) = false).
  { intros ->. reflexivity. }
  split; [|split; [|split; [|split; [|split]]]].
  - intros Ht. rewrite Hrun.
    destruct (Z.eqb_spec (header_tag m p) JSONRPC_ALLOC_TAG);
      [contradiction|reflexivity].
  - intros Ht Ho. rewrite Hrun, Ht, (Harena Ho). reflexivity.
  - intros Ht Ho. rewrite Hrun, Ht, Ho. reflexivity.
  - rewrite Hrun.
    destruct (Z.eqb_spec (header_tag m p) JSONRPC_ALLOC_TAG); cbn [negb];
      [|now left].
    destruct (Z.eqb_spec (header_origin m p) JSONRPC_ALLOC_ORIGIN_HEAP);
      [right; auto|now left].
  - reflexivity.
  - intros m0 sz Hm.
    destruct (@jsonrpc_arena_malloc_header _ _ _ _ Hm) as (Ht & [(Ho & _ & Hl)|(Ho & Hl)]).
    + left. repeat split; auto. rewrite Hrun, Ht, (Harena Ho). reflexivity.
    + right. repeat split; auto. rewrite Hrun, Ht, Ho. reflexivity.
Qed.

Lemma jsonrpc_arena_free_spec_witness :
  eval two_blocks (boot 4096 []) = (Some 4144, Some 4208) /\
  exec (jsonrpc_arena_free (Some 4144)) machine_with_two_blocks
    = machine_with_two_blocks /\
  exec (jsonrpc_arena_free (Some 4208)) machine_with_two_blocks
    = log_heap (HFree 4192) machine_with_two_blocks.
Proof.
  split; [reflexivity|].
  destruct (jsonrpc_arena_free_spec machine_with_two_blocks 4144)
    as (_ & Harena & _).
  destruct (jsonrpc_arena_free_spec machine_with_two_blocks 4208)
    as (_ & _ & Hheap & _).
  split.
  - apply Harena; reflexivity.
  - apply Hheap; reflexivity.
Defined.

(** ** Relations kept by every step *)

Section Keeps.

Variables (S : Type) (R : S -> S -> Prop).
Hypothesis R_refl : forall s, R s s.
Hypothesis R_trans : forall s1 s2 s3, R s1 s2 -> R s2 s3 -> R s1 s3.

Lemma keeps_ret {A : Type} (x : A) : keeps R (ret x).
Proof. intros s. apply R_refl. Qed.

Lemma keeps_gets {A : Type} (f : S -> A) : keeps R (gets f).
Proof. intros s. apply R_refl. Qed.

Lemma keeps_bind {A B : Type} (m : St S A) (k : A -> St S B) :
  keeps R m -> (forall x, keeps R (k x)) -> keeps R (bind m k).
Proof.
  intros Hm Hk s. unfold exec. rewrite bind_run.
  eapply R_trans; [apply Hm | apply Hk].
Qed.

End Keeps.

Lemma unbound_step_refl (m : machine) : unbound_step m m.
Proof.
  intros H. split; [exact H|]. exists []. now rewrite app_nil_r.
Qed.

Lemma unbound_step_trans (m1 m2 m3 : machine) :
  unbound_step m1 m2 -> unbound_step m2 m3 -> unbound_step m1 m3.
Proof.
  intros H12 H23 H1. destruct (H12 H1) as (H2 & l1 & E1 & F1).
  destruct (H23 H2) as (H3 & l2 & E2 & F2). split; [exact H3|].
  exists (l1 ++ l2). rewrite E2, E1, app_assoc. split; [reflexivity|].
  apply Forall_app; auto.
Qed.

(** A step that leaves the binding alone and logs only [l]. *)
Lemma unbound_step_log (m m' : machine) (l : list heap_event) :
  g_current_arena m' = g_current_arena m ->
  heap_log m' = heap_log m ++ l -> Forall heap_origin l ->
  unbound_step m m'.
Proof.
  intros Hc Hl Hf H. split; [congruence|]. exists l. auto.
Qed.

Lemma HK_ret {A : Type} (x : A) : HK (ret x).
Proof. apply keeps_ret, unbound_step_refl. Qed.

Lemma HK_bind {A B : Type} (m : HM A) (k : A -> HM B) :
  HK m -> (forall x, HK (k x)) -> HK (bind m k).
Proof. apply keeps_bind, unbound_step_trans. Qed.

Lemma HK_next_outcome : HK next_outcome.
Proof.
  intros m. unfold exec, next_outcome.
  destruct (oracle m); apply unbound_step_log with (l := []);
    cbn; auto using app_nil_r.
Qed.

Lemma HK_log (e : heap_event) : heap_origin e -> HK (modify (log_heap e)).
Proof.
  intros He m. apply unbound_step_log with (l := [e]); cbn; auto.
Qed.

Lemma HK_calloc (n : Z) : HK (calloc n).
Proof.
  unfold calloc. apply HK_bind; [apply HK_next_outcome|].
  intros [|]; [|apply HK_ret].
  intros m. apply unbound_step_log with (l := [HCalloc (brk m) n]);
    cbn; auto. repeat constructor.
Qed.

Lemma HK_free (p : Z) : HK (free p).
Proof. apply HK_log. exact I. Qed.

Lemma HK_json_value_free (v : JSON_Value) : HK (json_value_free v).
Proof. apply HK_log. exact I. Qed.

Lemma HK_set_initialized : HK (modify (set_initialized true)).
Proof.
  intros m. apply unbound_step_log with (l := []); cbn; auto using app_nil_r.
Qed.

(** With no arena bound the shim allocates from the system heap. *)
Lemma HK_jsonrpc_arena_malloc (sz : Z) : HK (jsonrpc_arena_malloc sz).
Proof.
  intros m Hcur. unfold exec.
  assert (Hkeep : g_current_arena (snd (jsonrpc_arena_malloc sz m)) = None /\
                  (fst (jsonrpc_arena_malloc sz m) = None ->
                   heap_log (snd (jsonrpc_arena_malloc sz m)) = heap_log m)).
  { destruct m as [o b f ar g i l]; cbn in Hcur; subst g.
    unfold jsonrpc_arena_malloc.
    destruct (sz =? 0); [cbn; auto|].
    destruct (sz >? SIZE_MAX - JSONRPC_ALLOC_HEADER_BYTES); [cbn; auto|].
    destruct o as [|[|] o]; cbn; split; auto; discriminate. }
  destruct Hkeep as [Hc Hn].
  destruct (jsonrpc_arena_malloc sz m) as [[p|] m'] eqn:E; cbn in *.
  - destruct (@jsonrpc_arena_malloc_header _ _ _ _ E)
      as (_ & [(_ & Hne & _)|(_ & Hl)]); [congruence|].
    split; [exact Hc|].
    eexists; split; [exact Hl|]. repeat constructor.
  - split; [exact Hc|]. exists []. rewrite app_nil_r. auto.
Qed.

Create HintDb hk.
#[local] Hint Resolve HK_ret HK_next_outcome HK_calloc HK_free
  HK_json_value_free HK_set_initialized HK_jsonrpc_arena_malloc : hk.

Ltac hk_step :=
  first
    [ solve [auto with hk]
    | apply HK_bind; [|intros ?]
    | match goal with
      | |- HK (match ?x with _ => _ end) => destruct x
      end
    | progress cbv zeta ].

Ltac hk := repeat hk_step.

Lemma HK_gets {A : Type} (f : machine -> A) : HK (gets f).
Proof. apply keeps_gets, unbound_step_refl. Qed.
#[local] Hint Resolve HK_gets : hk.

Lemma HK_jsonrpc_arena_free (ptr : option Z) : HK (jsonrpc_arena_free ptr).
Proof. unfold jsonrpc_arena_free. hk. Qed.

Lemma HK_jsonrpc_init_parson_allocator : HK jsonrpc_init_parson_allocator.
Proof. unfold jsonrpc_init_parson_allocator. hk. Qed.

Lemma HK_json_value_init_object : HK json_value_init_object.
Proof. unfold json_value_init_object. hk. Qed.

Lemma HK_json_value_init_array : HK json_value_init_array.
Proof. unfold json_value_init_array. hk. Qed.

Lemma HK_json_value_init_null : HK json_value_init_null.
Proof. unfold json_value_init_null. hk. Qed.

Lemma HK_json_value_deep_copy (v : JSON_Value) : HK (json_value_deep_copy v).
Proof. unfold json_value_deep_copy. hk. Qed.

Lemma HK_json_object_set_value (obj : JSON_Value) (name : string)
  (v : JSON_Value) : HK (json_object_set_value obj name v).
Proof. unfold json_object_set_value. hk. Qed.

Lemma HK_json_array_append_value (arr v : JSON_Value) :
  HK (json_array_append_value arr v).
Proof. unfold json_array_append_value. hk. Qed.

#[local] Hint Resolve HK_jsonrpc_arena_free HK_jsonrpc_init_parson_allocator
  HK_json_value_init_object HK_json_value_init_array HK_json_value_init_null
  HK_json_value_deep_copy HK_json_object_set_value
  HK_json_array_append_value : hk.

Lemma HK_json_object_set_string (obj : JSON_Value) (name s : string) :
  HK (json_object_set_string obj name s).
Proof. unfold json_object_set_string. hk. Qed.

Lemma HK_json_object_set_number (obj : JSON_Value) (name : string) (d : float) :
  HK (json_object_set_number obj name d).
Proof. unfold json_object_set_number. hk. Qed.

#[local] Hint Resolve HK_json_object_set_string HK_json_object_set_number : hk.

Lemma HK_jsonrpc_copy_id (id : option JSON_Value) : HK (jsonrpc_copy_id id).
Proof. unfold jsonrpc_copy_id. hk. Qed.
#[local] Hint Resolve HK_jsonrpc_copy_id : hk.

Lemma HK_jsonrpc_build_error (id : option JSON_Value) (code : Z)
  (message : option string) : HK (jsonrpc_build_error id code message).
Proof. unfold jsonrpc_build_error. hk. Qed.

Lemma HK_jsonrpc_build_result (id res : option JSON_Value) :
  HK (jsonrpc_build_result id res).
Proof. unfold jsonrpc_build_result. hk. Qed.

Lemma HK_free_if_present (v : option JSON_Value) : HK (free_if_present v).
Proof. unfold free_if_present. hk. Qed.

Lemma HK_rpc_buffer_free (b : rpc_buffer_t) : HK (rpc_buffer_free b).
Proof. unfold rpc_buffer_free. hk. Qed.

Lemma HK_rpc_buffer_reserve (b : rpc_buffer_t) (desired : Z) :
  HK (rpc_buffer_reserve b desired).
Proof.
  unfold rpc_buffer_reserve. hk.
Qed.
#[local] Hint Resolve HK_rpc_buffer_reserve : hk.

Lemma HK_rpc_buffer_append (b : rpc_buffer_t) (chunk : list byte) :
  HK (rpc_buffer_append b chunk).
Proof. unfold rpc_buffer_append. hk. Qed.

#[local] Hint Resolve HK_jsonrpc_build_error HK_jsonrpc_build_result
  HK_free_if_present HK_rpc_buffer_free HK_rpc_buffer_append : hk.

(** A scope begun on a null arena binds nothing, and ending it does
    nothing. *)
Lemma jsonrpc_arena_scope_begin_null (m : machine) :
  jsonrpc_arena_scope_begin None m = (mkScope (g_current_arena m) false, m).
Proof. reflexivity. Qed.

Lemma jsonrpc_arena_scope_end_unchanged (arena prev : option Z) (m : machine) :
  jsonrpc_arena_scope_end arena (mkScope prev false) m = (tt, m).
Proof. reflexivity. Qed.

Section EngineKeeps.

Variable U : Type.
Variable parse : list byte -> option JSON_Value.
Variable serialize : JSON_Value -> option (list byte).

Lemma WK_ret {A : Type} (x : A) : WK (ret (S := world U) x).
Proof. intros w. apply unbound_step_refl. Qed.

Lemma WK_bind {A B : Type} (m : EM U A) (k : A -> EM U B) :
  WK m -> (forall x, WK (k x)) -> WK (bind m k).
Proof.
  apply keeps_bind. intros s1 s2 s3. apply unbound_step_trans.
Qed.

Lemma WK_liftH {A : Type} (h : HM A) : HK h -> WK (liftH (U := U) h).
Proof.
  intros Hh w. unfold exec, liftH. specialize (Hh (mach w)). unfold exec in Hh.
  destruct (h (mach w)); exact Hh.
Qed.

Lemma WK_emit (e : event) : WK (emit (U := U) e).
Proof. intros w. apply unbound_step_refl. Qed.

Lemma WK_call_on_open (f : U -> U) : WK (call_on_open f).
Proof. intros w. apply unbound_step_refl. Qed.

Lemma WK_call_on_close (f : U -> U) : WK (call_on_close f).
Proof. intros w. apply unbound_step_refl. Qed.

Lemma WK_call_on_notification f method params :
  WK (call_on_notification (U := U) f method params).
Proof. intros w. apply unbound_step_refl. Qed.

Lemma WK_call_on_request f method params response :
  WK (call_on_request (U := U) f method params response).
Proof.
  intros w. unfold exec, call_on_request.
  destruct (f (user w) method params response). apply unbound_step_refl.
Qed.

(** A scope on a null arena: whatever was bound stays, the scope is
    unchanged. *)
Lemma WK_bind_scope_null {B : Type} (k : jsonrpc_arena_scope_t -> EM U B) :
  (forall p, WK (k (mkScope p false))) ->
  WK (bind (liftH (jsonrpc_arena_scope_begin None)) k).
Proof.
  intros Hk w. unfold exec. rewrite bind_run. unfold liftH at 1 2.
  rewrite jsonrpc_arena_scope_begin_null. cbn [fst snd].
  destruct w as [m u t]. apply Hk.
Qed.

Lemma HK_scope_end_unchanged (a p : option Z) :
  HK (jsonrpc_arena_scope_end a (mkScope p false)).
Proof. intros m. apply unbound_step_refl. Qed.

Lemma HK_json_serialize_to_string (v : JSON_Value) :
  HK (json_serialize_to_string serialize v).
Proof. unfold json_serialize_to_string. hk. Qed.

Lemma HK_json_parse_string (l : list byte) : HK (json_parse_string parse l).
Proof. unfold json_parse_string. hk. Qed.

Hint Resolve WK_ret WK_emit WK_call_on_open WK_call_on_close
  WK_call_on_notification WK_call_on_request HK_scope_end_unchanged
  HK_json_serialize_to_string HK_json_parse_string : hk.

Ltac wk_step :=
  first
    [ solve [auto with hk]
    | apply WK_liftH; solve [auto with hk | hk]
    | apply WK_bind_scope_null; intros ?
    | apply WK_bind; [|intros ?]
    | match goal with
      | |- WK (match ?x with _ => _ end) => destruct x
      end
    | progress cbv zeta ].

Ltac wk := repeat wk_step.

Lemma WK_jsonrpc_process_object (c : jsonrpc_conn_t U) (v : option JSON_Value) :
  WK (jsonrpc_process_object c v).
Proof. unfold jsonrpc_process_object, invalid_request. wk. Qed.
Hint Resolve WK_jsonrpc_process_object : hk.

Lemma WK_process_items (c : jsonrpc_conn_t U) (items : list JSON_Value) :
  forall arr n, WK (process_items c items arr n).
Proof.
  induction items as [|item rest IH]; intros arr n; simpl; wk.
Qed.
Hint Resolve WK_process_items : hk.

Lemma WK_jsonrpc_process_value (c : jsonrpc_conn_t U) (v : option JSON_Value) :
  WK (jsonrpc_process_value c v).
Proof. unfold jsonrpc_process_value, invalid_request. wk. Qed.

Lemma WK_jsonrpc_send_value (c : option (jsonrpc_conn_t U))
  (v : option JSON_Value) : WK (jsonrpc_send_value serialize c v).
Proof. unfold jsonrpc_send_value. wk. Qed.
Hint Resolve WK_jsonrpc_process_value WK_jsonrpc_send_value : hk.

Lemma WK_jsonrpc_conn_send_error (c : jsonrpc_conn_t U) id code message :
  arena c = None ->
  WK (jsonrpc_conn_send_error serialize (Some c) id code message).
Proof. intros Hc. unfold jsonrpc_conn_send_error. rewrite Hc. wk. Qed.

Lemma WK_close_after (c : jsonrpc_conn_t U) (sent : bool) :
  WK (close_after c sent).
Proof. unfold close_after. wk. Qed.

Lemma WK_close_if_unsent (c : jsonrpc_conn_t U) (sent : bool) :
  WK (close_if_unsent c sent).
Proof. unfold close_if_unsent. wk. Qed.
Hint Resolve WK_close_after WK_close_if_unsent : hk.

Lemma WK_feed_loop (fuel : nat) :
  forall c : jsonrpc_conn_t U,
    arena c = None -> WK (feed_loop parse serialize fuel c).
Proof.
  induction fuel as [|fuel IH]; intros c Hc; cbn [feed_loop]; [wk|].
  assert (Hs : forall b, arena (set_inbound b c) = None) by (intros; exact Hc).
  pose proof (fun id code message =>
                @WK_jsonrpc_conn_send_error c id code message Hc) as He.
  pose proof (fun b id code message =>
                @WK_jsonrpc_conn_send_error (set_inbound b c) id code message
                  (Hs b)) as He'.
  rewrite Hc. cbn [arena set_inbound].
  wk; try rewrite Hc; wk.
Qed.

Lemma WK_jsonrpc_conn_feed (c : jsonrpc_conn_t U) (chunk : option (list byte)) :
  arena c = None ->
  WK (jsonrpc_conn_feed parse serialize (Some c) chunk).
Proof.
  intros Hc. unfold jsonrpc_conn_feed.
  pose proof (fun b id code message =>
                @WK_jsonrpc_conn_send_error (set_inbound b c) id code message
                  Hc) as He'.
  pose proof (fun fuel b => @WK_feed_loop fuel (set_inbound b c) Hc) as Hl.
  wk.
Qed.

End EngineKeeps.

(** ** Connections without an arena *)

Section NoArena.

Variable U : Type.
Variable parse : list byte -> option JSON_Value.
Variable serialize : JSON_Value -> option (list byte).

(** C10: when [arena_create] fails inside [jsonrpc_conn_new] (the
    struct or the region cannot be allocated) the connection is returned
    all the same, open, with a null arena, and [on_open] has been called
    by then.  A scope begun on its arena binds nothing; with nothing
    bound the shim takes every block from [calloc] and marks it as
    heap; so across any later [jsonrpc_conn_feed] on this connection,
    entered with no arena bound, no arena is bound at the end and every
    allocation the shim made came from the system heap. *)
Theorem conn_new_without_arena (w : world U) (tr : jsonrpc_transport_t)
  (cb : jsonrpc_callbacks_t U) (ctx : Z) (o : list bool) :
  oracle (mach w) = true :: false :: o \/
  oracle (mach w) = true :: true :: false :: o ->
  exists c,
    eval (jsonrpc_conn_new tr cb ctx) w = Some c /\
    arena c = None /\ closed c = false /\
    transport c = tr /\ callbacks c = cb /\
    trace (exec (jsonrpc_conn_new tr cb ctx) w) =
      trace w ++ match on_open cb with Some _ => [EvOnOpen] | None => [] end /\
    g_current_arena (mach (exec (jsonrpc_conn_new tr cb ctx) w)) =
      g_current_arena (mach w) /\
    (forall m,
       jsonrpc_arena_scope_begin (arena c) m =
         (mkScope (g_current_arena m) false, m)) /\
    (forall m sz p m',
       g_current_arena m = None ->
       jsonrpc_arena_malloc sz m = (Some p, m') ->
       header_origin m' p = JSONRPC_ALLOC_ORIGIN_HEAP /\
       heap_log m' =
         heap_log m ++
         [HCalloc (p - JSONRPC_ALLOC_HEADER_BYTES)
                  (sz + JSONRPC_ALLOC_HEADER_BYTES);
          HShimAlloc p JSONRPC_ALLOC_ORIGIN_HEAP]) /\
    (forall b w' chunk,
       unbound_step
         (mach w')
         (mach (exec (jsonrpc_conn_feed parse serialize
                        (Some (set_inbound b c)) chunk) w'))).
Proof.
  intros Ho. destruct w as [[o' b f ar g i l] u t]. cbn in Ho.
  assert (Hrest :
    forall c : jsonrpc_conn_t U, arena c = None ->
    (forall m,
       jsonrpc_arena_scope_begin (arena c) m =
         (mkScope (g_current_arena m) false, m)) /\
    (forall m sz p m',
       g_current_arena m = None ->
       jsonrpc_arena_malloc sz m = (Some p, m') ->
       header_origin m' p = JSONRPC_ALLOC_ORIGIN_HEAP /\
       heap_log m' =
         heap_log m ++
         [HCalloc (p - JSONRPC_ALLOC_HEADER_BYTES)
                  (sz + JSONRPC_ALLOC_HEADER_BYTES);
          HShimAlloc p JSONRPC_ALLOC_ORIGIN_HEAP]) /\
    (forall b w' chunk,
       unbound_step
         (mach w')
         (mach (exec (jsonrpc_conn_feed parse serialize
                        (Some (set_inbound b c)) chunk) w')))).
  { intros c Hc. split; [|split].
    - intros m. rewrite Hc. apply jsonrpc_arena_scope_begin_null.
    - intros m sz p m' Hcur Hm.
      destruct (@jsonrpc_arena_malloc_header _ _ _ _ Hm)
        as (_ & [(_ & Hne & _)|(Horigin & Hl)]); [congruence|auto].
    - intros b0 w' chunk.
      apply (@WK_jsonrpc_conn_feed U parse serialize (set_inbound b0 c) chunk Hc). }
  destruct Ho as [->| ->];
    destruct cb as [[fo|] fc fr fn]; destruct i;
    (eexists; split; [reflexivity|]);
    (split; [reflexivity|]); (split; [reflexivity|]);
    (split; [reflexivity|]); (split; [reflexivity|]);
    (split; [first [reflexivity | cbn; now rewrite app_nil_r]|]);
    (split; [reflexivity|]);
    apply Hrest; reflexivity.
Qed.

End NoArena.

(** ** Response builders when no allocation fails *)

Lemma id_ok_type (i : JSON_Value) :
  id_ok i <-> is_id_type (json_value_get_type (Some i)) = true.
Proof. destruct i; cbn; intuition discriminate. Qed.

Lemma jsonrpc_build_error_ok (m : machine) (id : JSON_Value) (code : Z)
  (message : option string) :
  oracle m = [] -> id_ok id ->
  jsonrpc_build_error (Some id) code message m =
    (Some (error_envelope id code
             match message with
             | Some s => s
             | None => jsonrpc_default_message code
             end), m).
Proof.
  intros Ho Hid. destruct m as [o b f ar g i l]; cbn in Ho; subst o.
  destruct id; cbn in Hid; try contradiction; reflexivity.
Qed.

Lemma jsonrpc_build_error_null (m : machine) (code : Z)
  (message : option string) :
  oracle m = [] ->
  jsonrpc_build_error None code message m =
    (Some (error_envelope JSONNull code
             match message with
             | Some s => s
             | None => jsonrpc_default_message code
             end), m).
Proof.
  intros Ho. destruct m as [o b f ar g i l]; cbn in Ho; subst o. reflexivity.
Qed.

Lemma jsonrpc_build_result_ok (m : machine) (id res : JSON_Value) :
  oracle m = [] -> id_ok id ->
  jsonrpc_build_result (Some id) (Some res) m =
    (Some (result_envelope id res), m).
Proof.
  intros Ho Hid. destruct m as [o b f ar g i l]; cbn in Ho; subst o.
  destruct id; cbn in Hid; try contradiction; reflexivity.
Qed.

Lemma logged_nil (m : machine) : logged [] m = m.
Proof. destruct m; unfold logged; cbn. now rewrite app_nil_r. Qed.

Lemma oracle_logged (l : list heap_event) (m : machine) :
  oracle (logged l m) = oracle m.
Proof. reflexivity. Qed.

(** ** The dispatcher *)

Section Dispatcher.

Variable U : Type.
Variable c : jsonrpc_conn_t U.

Lemma params_ok_valid (p : option JSON_Value) :
  params_ok p <-> jsonrpc_params_is_valid p = true.
Proof.
  destruct p as [[]|]; cbn; intuition discriminate.
Qed.

Lemma id_ok_valid (i : JSON_Value) :
  id_ok i <-> jsonrpc_id_is_valid (Some i) = true.
Proof. destruct i; cbn; intuition discriminate. Qed.

Lemma has_value_get (ms : list (string * JSON_Value)) (name : string) :
  json_object_has_value ms name =
    match json_object_get_value ms name with Some _ => true | None => false end.
Proof. reflexivity. Qed.

(** The request path of [jsonrpc_process_object] up to the handler. *)
Lemma process_object_request (w : world U) (ms : list (string * JSON_Value))
  (method : string) (idv : JSON_Value) :
  json_object_get_string ms "jsonrpc" = Some "2.0"%string ->
  json_object_get_string ms "method" = Some method ->
  json_object_get_value ms "id" = Some idv -> id_ok idv ->
  params_ok (json_object_get_value ms "params") ->
  jsonrpc_process_object c (Some (JSONObject ms)) w =
    match on_request (callbacks c) with
    | None =>
        liftH (jsonrpc_build_error (Some idv) JSONRPC_ERR_METHOD_NOT_FOUND None) w
    | Some f =>
        (r <- call_on_request f method (json_object_get_value ms "params")
                (mkResponse None 0 None) ;;
         let (handled, response) := r in
         if negb handled then
           liftH (free_if_present (result response)) ;;;
           liftH (jsonrpc_build_error (Some idv) JSONRPC_ERR_METHOD_NOT_FOUND None)
         else if negb (error_code response =? 0) then
           liftH (free_if_present (result response)) ;;;
           liftH (jsonrpc_build_error (Some idv) (error_code response)
                                      (error_message response))
         else
           match result response with
           | None =>
               liftH (jsonrpc_build_error (Some idv) JSONRPC_ERR_INTERNAL
                        (Some "Handler returned no result"%string))
           | Some _ => liftH (jsonrpc_build_result (Some idv) (result response))
           end) w
    end.
Proof.
  intros Hv Hm Hid Hok Hp.
  unfold jsonrpc_process_object. cbn [json_value_get_object].
  rewrite Hv, Hm, has_value_get, Hid.
  change (strcmp_eq "2.0" "2.0") with true. cbn [negb andb].
  rewrite (proj1 (id_ok_valid idv) Hok).
  rewrite (proj1 (params_ok_valid _) Hp). cbn [negb].
  destruct (on_request (callbacks c)); reflexivity.
Qed.

(** C6: the four outcomes of a handler called on a valid request.  The
    descriptor's result is released exactly once: by [json_value_free]
    when the reply is an error, by becoming the ["result"] member of the
    reply (which its receiver frees with the reply) otherwise. *)
Theorem on_request_outcomes (w : world U) (ms : list (string * JSON_Value))
  (method : string) (idv : JSON_Value)
  (f : U -> string -> option JSON_Value -> jsonrpc_response_t ->
       U * (bool * jsonrpc_response_t))
  (u' : U) (handled : bool) (resp : jsonrpc_response_t) :
  oracle (mach w) = [] ->
  json_object_get_string ms "jsonrpc" = Some "2.0"%string ->
  json_object_get_string ms "method" = Some method ->
  json_object_get_value ms "id" = Some idv -> id_ok idv ->
  params_ok (json_object_get_value ms "params") ->
  on_request (callbacks c) = Some f ->
  f (user w) method (json_object_get_value ms "params") (mkResponse None 0 None)
    = (u', (handled, resp)) ->
  let run := jsonrpc_process_object c (Some (JSONObject ms)) w in
  let called := trace w ++ [EvOnRequest method (json_object_get_value ms "params")] in
  (handled = false ->
   run = (Some (error_envelope idv JSONRPC_ERR_METHOD_NOT_FOUND "Method not found"),
          mkWorld (logged (dropped (result resp)) (mach w)) u' called)) /\
  (handled = true -> error_code resp <> 0 ->
   run = (Some (error_envelope idv (error_code resp)
                  match error_message resp with
                  | Some s => s
                  | None => jsonrpc_default_message (error_code resp)
                  end),
          mkWorld (logged (dropped (result resp)) (mach w)) u' called)) /\
  (handled = true -> error_code resp = 0 -> result resp = None ->
   run = (Some (error_envelope idv JSONRPC_ERR_INTERNAL
                  "Handler returned no result"),
          mkWorld (mach w) u' called)) /\
  (forall r, handled = true -> error_code resp = 0 -> result resp = Some r ->
   run = (Some (result_envelope idv r), mkWorld (mach w) u' called) /\
   json_value_get_object (Some (result_envelope idv r)) <> None /\
   (forall rms, json_value_get_object (Some (result_envelope idv r)) = Some rms ->
                json_object_get_value rms "result" = Some r)).
Proof.
  intros Ho Hv Hm Hid Hok Hp Hreq Hf run called. subst run called.
  rewrite (process_object_request w _ Hv Hm Hid Hok Hp), Hreq.
  rewrite bind_run. unfold call_on_request. rewrite Hf. cbn [fst snd].
  destruct w as [m u t]. cbn [mach user trace] in *.
  split; [|split; [|split]].
  - intros ->. cbn [negb]. rewrite bind_run.
    destruct (result resp) as [r|]; cbn [free_if_present dropped].
    + unfold liftH at 1 2, json_value_free, modify. cbn [fst snd mach user trace].
      unfold liftH. cbn [mach user trace].
      rewrite jsonrpc_build_error_ok by (auto). reflexivity.
    + unfold liftH at 1 2, ret. cbn [fst snd mach user trace].
      unfold liftH. cbn [mach user trace].
      rewrite jsonrpc_build_error_ok by auto. now rewrite logged_nil.
  - intros -> Hcode. cbn [negb].
    destruct (Z.eqb_spec (error_code resp) 0); [contradiction|]. cbn [negb].
    rewrite bind_run.
    destruct (result resp) as [r|]; cbn [free_if_present dropped].
    + unfold liftH at 1 2, json_value_free, modify. cbn [fst snd mach user trace].
      unfold liftH. cbn [mach user trace].
      rewrite jsonrpc_build_error_ok by (auto). reflexivity.
    + unfold liftH at 1 2, ret. cbn [fst snd mach user trace].
      unfold liftH. cbn [mach user trace].
      rewrite jsonrpc_build_error_ok by auto. now rewrite logged_nil.
  - intros -> Hcode Hres. cbn [negb]. rewrite Hcode, Hres. cbn [Z.eqb negb].
    unfold liftH. cbn [mach user trace].
    rewrite jsonrpc_build_error_ok by auto. reflexivity.
  - intros r -> Hcode Hres. cbn [negb]. rewrite Hcode, Hres. cbn [Z.eqb negb].
    unfold liftH. cbn [mach user trace].
    rewrite jsonrpc_build_result_ok by auto.
    split; [reflexivity|]. split; [discriminate|].
    intros rms Hr. inversion Hr; subst. reflexivity.
Qed.


(** The notification path of [jsonrpc_process_object]. *)
Lemma process_object_notification (w : world U)
  (ms : list (string * JSON_Value)) (method : string) :
  json_object_get_string ms "jsonrpc" = Some "2.0"%string ->
  json_object_get_string ms "method" = Some method ->
  json_object_get_value ms "id" = None ->
  params_ok (json_object_get_value ms "params") ->
  jsonrpc_process_object c (Some (JSONObject ms)) w =
    (None,
     match on_notification (callbacks c) with
     | Some f =>
         mkWorld (mach w)
           (f (user w) method (json_object_get_value ms "params"))
           (trace w ++
            [EvOnNotification method (json_object_get_value ms "params")])
     | None => w
     end).
Proof.
  intros Hv Hm Hid Hp.
  unfold jsonrpc_process_object. cbn [json_value_get_object].
  rewrite Hv, Hm, has_value_get, Hid.
  change (strcmp_eq "2.0" "2.0") with true. cbn [negb andb].
  rewrite (proj1 (params_ok_valid _) Hp). cbn [negb].
  destruct (on_notification (callbacks c)); reflexivity.
Qed.

(** A valid request is answered by one object that carries its id, and
    allocation keeps succeeding afterwards. *)
Lemma process_object_valid_request (w : world U)
  (ms : list (string * JSON_Value)) (i : JSON_Value) :
  oracle (mach w) = [] -> valid_request ms i ->
  exists reply w',
    jsonrpc_process_object c (Some (JSONObject ms)) w = (Some reply, w') /\
    response_id reply = Some i /\
    json_value_get_type (Some reply) = JSONObject_t /\
    oracle (mach w') = [].
Proof.
  intros Ho (Hv & (method & Hm) & Hid & Hok & Hp).
  rewrite (process_object_request w _ Hv Hm Hid Hok Hp).
  destruct (on_request (callbacks c)) as [f|].
  - rewrite bind_run. unfold call_on_request.
    destruct (f (user w) method (json_object_get_value ms "params")
                (mkResponse None 0 None)) as [u' [handled resp]].
    cbn [fst snd]. destruct w as [m u t]. cbn [mach user trace] in *.
    assert (Hdrop : forall res,
              liftH (free_if_present res)
                (mkWorld m u' (t ++ [EvOnRequest method
                                       (json_object_get_value ms "params")]))
              = (tt, mkWorld (logged (dropped res) m) u'
                       (t ++ [EvOnRequest method
                                (json_object_get_value ms "params")]))).
    { intros [r|]; cbn; [reflexivity | now rewrite logged_nil]. }
    destruct handled; cbn [negb].
    + destruct (Z.eqb_spec (error_code resp) 0) as [E|E]; cbn [negb].
      * destruct (result resp) as [r|] eqn:Hr; unfold liftH; cbn [mach user trace].
        -- rewrite jsonrpc_build_result_ok by auto.
           do 2 eexists. repeat split; auto.
        -- rewrite jsonrpc_build_error_ok by auto.
           do 2 eexists. repeat split; auto.
      * rewrite bind_run, Hdrop. cbn [fst snd]. unfold liftH. cbn [mach user trace].
        rewrite jsonrpc_build_error_ok by auto.
        do 2 eexists. repeat split; auto.
    + rewrite bind_run, Hdrop. cbn [fst snd]. unfold liftH. cbn [mach user trace].
      rewrite jsonrpc_build_error_ok by auto.
      do 2 eexists. repeat split; auto.
  - unfold liftH. rewrite jsonrpc_build_error_ok by auto.
    destruct w as [m u t]. do 2 eexists. repeat split; auto.
Qed.

Lemma process_object_valid_notification (w : world U)
  (ms : list (string * JSON_Value)) :
  valid_notification ms ->
  exists w',
    jsonrpc_process_object c (Some (JSONObject ms)) w = (None, w') /\
    oracle (mach w') = oracle (mach w).
Proof.
  intros (Hv & (method & Hm) & Hid & Hp).
  rewrite (process_object_notification w _ Hv Hm Hid Hp).
  eexists; split; [reflexivity|].
  destruct (on_notification (callbacks c)); reflexivity.
Qed.

(** The dispatcher on one object: a valid request with id [i] gets one
    response object, whose id is [i]; a valid notification gets
    nothing. *)
Lemma process_value_valid_object (w : world U)
  (ms : list (string * JSON_Value)) :
  oracle (mach w) = [] ->
  (forall i, valid_request ms i ->
     exists reply w',
       jsonrpc_process_value c (Some (JSONObject ms)) w = (Some reply, w') /\
       json_value_get_type (Some reply) = JSONObject_t /\
       response_id reply = Some i) /\
  (valid_notification ms ->
     exists w', jsonrpc_process_value c (Some (JSONObject ms)) w = (None, w')).
Proof.
  intros Ho. split.
  - intros i Hreq.
    destruct (process_object_valid_request w Ho Hreq)
      as (reply & w' & Hrun & Hid & Hty & _).
    exists reply, w'. auto.
  - intros Hn.
    destruct (process_object_valid_notification w Hn) as (w' & Hrun & _).
    exists w'. exact Hrun.
Qed.

(** C5: an id of the wrong type is an Invalid Request with a null id,
    whatever else the object holds; params of the wrong type are Invalid
    params under the request's id, and on a notification they are
    dropped: no reply, no callback, nothing changes. *)
Theorem bad_id_and_bad_params (w : world U) (ms : list (string * JSON_Value)) :
  oracle (mach w) = [] ->
  (forall idv,
     json_object_get_value ms "id" = Some idv -> ~ id_ok idv ->
     jsonrpc_process_object c (Some (JSONObject ms)) w =
       (Some (error_envelope JSONNull JSONRPC_ERR_INVALID_REQUEST
                "Invalid Request"), w)) /\
  (forall method params,
     json_object_get_string ms "jsonrpc" = Some "2.0"%string ->
     json_object_get_string ms "method" = Some method ->
     json_object_get_value ms "params" = Some params ->
     ~ params_ok (Some params) ->
     (forall idv,
        json_object_get_value ms "id" = Some idv -> id_ok idv ->
        jsonrpc_process_object c (Some (JSONObject ms)) w =
          (Some (error_envelope idv JSONRPC_ERR_INVALID_PARAMS
                   "Invalid params"), w)) /\
     (json_object_get_value ms "id" = None ->
      jsonrpc_process_object c (Some (JSONObject ms)) w = (None, w))).
Proof.
  intros Ho. destruct w as [m u t]. cbn [mach] in Ho.
  assert (Hinv : invalid_request (mkWorld m u t) =
                 (Some (error_envelope JSONNull JSONRPC_ERR_INVALID_REQUEST
                          "Invalid Request"), mkWorld m u t)).
  { unfold invalid_request, liftH. cbn [mach user trace].
    now rewrite jsonrpc_build_error_null by auto. }
  split.
  - intros idv Hid Hbad.
    assert (Hv : jsonrpc_id_is_valid (Some idv) = false).
    { destruct (jsonrpc_id_is_valid (Some idv)) eqn:E; [|reflexivity].
      apply id_ok_valid in E. contradiction. }
    unfold jsonrpc_process_object. cbn [json_value_get_object].
    destruct (json_object_get_string ms "jsonrpc") as [version|]; [|exact Hinv].
    destruct (strcmp_eq version "2.0"); cbn [negb]; [|exact Hinv].
    destruct (json_object_get_string ms "method") as [method|]; [|exact Hinv].
    rewrite has_value_get, Hid, Hv. cbn [negb andb]. exact Hinv.
  - intros method params Hv Hm Hp Hbad.
    assert (Hpv : jsonrpc_params_is_valid (Some params) = false).
    { destruct (jsonrpc_params_is_valid (Some params)) eqn:E; [|reflexivity].
      apply params_ok_valid in E. contradiction. }
    split.
    + intros idv Hid Hok.
      unfold jsonrpc_process_object. cbn [json_value_get_object].
      rewrite Hv, Hm, has_value_get, Hid, Hp, Hpv.
      change (strcmp_eq "2.0" "2.0") with true. cbn [negb andb].
      rewrite (proj1 (id_ok_valid idv) Hok). cbn [negb].
      unfold liftH. cbn [mach user trace].
      now rewrite jsonrpc_build_error_ok by auto.
    + intros Hid.
      unfold jsonrpc_process_object. cbn [json_value_get_object].
      rewrite Hv, Hm, has_value_get, Hid, Hp, Hpv.
      reflexivity.
Qed.


(** The batch loop on valid items: one reply per request, in order. *)
Lemma process_items_valid (items : list JSON_Value) :
  forall (acc : list JSON_Value) (n : Z) (w : world U),
    oracle (mach w) = [] -> Forall valid_item items ->
    exists replies w',
      process_items c items (JSONArray acc) n w =
        (Some (JSONArray (acc ++ replies),
               n + Z.of_nat (List.length replies)), w') /\
      map response_id replies = map Some (request_ids items) /\
      Forall (fun r => json_value_get_type (Some r) = JSONObject_t) replies /\
      oracle (mach w') = [].
Proof.
  induction items as [|item rest IH]; intros acc n w Ho Hall.
  - exists [], w. cbn. rewrite app_nil_r, Z.add_0_r. auto.
  - inversion Hall as [|x xs Hitem Hrest]; subst.
    destruct item as [| | |ms| |]; cbn in Hitem; try contradiction.
    cbn [process_items]. rewrite bind_run.
    destruct Hitem as [(i & Hreq)|Hnot].
    + destruct (process_object_valid_request w Ho Hreq)
        as (reply & w1 & Hrun & Hid & Hty & Ho1).
      rewrite Hrun. cbn [fst snd]. rewrite bind_run.
      assert (Happ : liftH (json_array_append_value (JSONArray acc) reply) w1
                     = (Some (JSONArray (acc ++ [reply])), w1)).
      { destruct w1 as [[o b f ar g i0 l] u t]. cbn in Ho1. subst o.
        reflexivity. }
      rewrite Happ. cbn [fst snd].
      destruct (IH (acc ++ [reply]) (n + 1) w1 Ho1 Hrest)
        as (replies & w' & Hloop & Hids & Hobj & Ho').
      exists (reply :: replies), w'.
      rewrite Hloop. rewrite <- app_assoc. cbn [app List.length].
      split; [do 3 f_equal; lia|].
      split; [|split; [constructor; auto|exact Ho']].
      cbn [map request_ids flat_map].
      destruct Hreq as (_ & _ & Hi & _). rewrite Hi. cbn [app map].
      rewrite Hid. f_equal. exact Hids.
    + destruct (process_object_valid_notification w Hnot) as (w1 & Hrun & Ho1).
      rewrite Hrun. cbn [fst snd].
      destruct (IH acc n w1 ltac:(congruence) Hrest)
        as (replies & w' & Hloop & Hids & Hobj & Ho').
      exists replies, w'. rewrite Hloop.
      split; [reflexivity|]. split; [|split; [exact Hobj|exact Ho']].
      cbn [request_ids flat_map].
      destruct Hnot as (_ & _ & Hi & _). rewrite Hi. cbn [app]. exact Hids.
Qed.

(** The dispatcher on a batch: an empty batch is an Invalid Request with
    a null id; a batch of valid requests and notifications gets one array
    that holds one response object per request, in the order of the
    requests, and nothing at all when it holds no request. *)
Lemma process_value_batch (w : world U) (items : list JSON_Value) :
  oracle (mach w) = [] ->
  eval (jsonrpc_process_value c (Some (JSONArray []))) w =
    Some (error_envelope JSONNull JSONRPC_ERR_INVALID_REQUEST "Invalid Request") /\
  (items <> [] -> Forall valid_item items ->
   (List.length (request_ids items) <= List.length items)%nat /\
   (request_ids items = [] ->
    eval (jsonrpc_process_value c (Some (JSONArray items))) w = None) /\
   (request_ids items <> [] ->
    exists replies,
      eval (jsonrpc_process_value c (Some (JSONArray items))) w =
        Some (JSONArray replies) /\
      List.length replies = List.length (request_ids items) /\
      Forall (fun r => json_value_get_type (Some r) = JSONObject_t) replies /\
      map response_id replies = map Some (request_ids items))).
Proof.
  intros Ho. split.
  - unfold eval, jsonrpc_process_value. cbn. unfold invalid_request, liftH.
    now rewrite jsonrpc_build_error_null by auto.
  - intros Hne Hall.
    assert (Hlen : (List.length (request_ids items) <= List.length items)%nat).
    { clear. induction items as [|v vs IH]; [auto|].
      cbn [request_ids flat_map]. rewrite length_app. fold (request_ids vs).
      cbn [List.length].
      destruct v as [| | |ms| |]; cbn [List.length]; try lia.
      destruct (json_object_get_value ms "id"); cbn [List.length]; lia. }
    split; [exact Hlen|].
    assert (Hrun :
      exists replies w',
        jsonrpc_process_value c (Some (JSONArray items)) w =
          (if Z.of_nat (List.length replies) =? 0 then None
           else Some (JSONArray replies), w') /\
        map response_id replies = map Some (request_ids items) /\
        Forall (fun r => json_value_get_type (Some r) = JSONObject_t) replies).
    { unfold jsonrpc_process_value.
      cbn [json_value_get_type type_eqb json_value_get_array].
      destruct (Z.eqb_spec (Z.of_nat (List.length items)) 0) as [E|E].
      { destruct items; [contradiction|discriminate]. }
      rewrite bind_run.
      assert (Hinit : liftH json_value_init_array w = (Some (JSONArray []), w)).
      { destruct w as [[o b f ar g i0 l] u t]. cbn in Ho. subst o. reflexivity. }
      rewrite Hinit. cbn [fst snd]. rewrite bind_run.
      destruct (@process_items_valid items [] 0 w Ho Hall)
        as (replies & w1 & Hloop & Hids & Hobj & Ho1).
      rewrite Hloop. cbn [fst snd app]. rewrite Z.add_0_l.
      exists replies.
      destruct (Z.of_nat (List.length replies) =? 0).
      - eexists. split; [|auto].
        unfold liftH, json_value_free, modify, bind, ret. reflexivity.
      - exists w1. auto. }
    destruct Hrun as (replies & w' & Hrun & Hids & Hobj).
    assert (Hl : List.length replies = List.length (request_ids items)).
    { rewrite <- (length_map response_id), Hids, length_map. reflexivity. }
    unfold eval. rewrite Hrun. cbn [fst]. split.
    + intros Hnone. rewrite Hnone in Hl. cbn in Hl. rewrite Hl. reflexivity.
    + intros Hsome. exists replies.
      destruct (Z.eqb_spec (Z.of_nat (List.length replies)) 0) as [E|E].
      * destruct (request_ids items); [contradiction|]. cbn in Hl. lia.
      * auto.
Qed.

End Dispatcher.

(** ** Sending *)

Section Sending.

Variable U : Type.
Variable serialize : JSON_Value -> option (list byte).

Lemma json_serialize_to_string_some (v : JSON_Value) (m m1 : machine)
  (s : list byte) :
  json_serialize_to_string serialize v m = (Some s, m1) -> serialize v = Some s.
Proof.
  unfold json_serialize_to_string, next_outcome, bind, ret.
  destruct (oracle m) as [|[|] o]; intros H; inversion H; auto.
Qed.

(** [jsonrpc_send_value] step by step. *)
Lemma jsonrpc_send_value_run (c : jsonrpc_conn_t U) (v : JSON_Value)
  (w : world U) :
  jsonrpc_send_value serialize (Some c) (Some v) w =
    if send_raw (transport c) then
      match json_serialize_to_string serialize v (mach w) with
      | (Some s, m1) =>
          match jsonrpc_arena_malloc (Z.of_nat (List.length s) + 1) m1 with
          | (Some p, m2) =>
              (true,
               mkWorld (exec (jsonrpc_arena_free (Some p)) m2) (user w)
                       (trace w ++ [EvSendRaw (s ++ [newline])]))
          | (None, m2) => (false, mkWorld m2 (user w) (trace w))
          end
      | (None, m1) => (false, mkWorld m1 (user w) (trace w))
      end
    else (false, w).
Proof.
  unfold jsonrpc_send_value.
  destruct (send_raw (transport c)); cbn [negb]; [|reflexivity].
  unfold bind, liftH, emit, modify, ret, exec.
  destruct (json_serialize_to_string serialize v (mach w)) as [[s|] m1];
    cbn [mach user trace]; [|reflexivity].
  destruct (jsonrpc_arena_malloc (Z.of_nat (List.length s) + 1) m1)
    as [[p|] m2]; cbn [mach user trace]; [|reflexivity].
  destruct (jsonrpc_arena_free (Some p) m2) as [[] m3]. reflexivity.
Qed.

(** With nothing to fail, the shim serves any request of a sane size. *)
Lemma jsonrpc_arena_malloc_succeeds (m : machine) (sz : Z) :
  oracle m = [] -> 0 < sz <= SIZE_MAX - JSONRPC_ALLOC_HEADER_BYTES ->
  exists p m', jsonrpc_arena_malloc sz m = (Some p, m') /\ oracle m' = [].
Proof.
  intros Ho Hsz. unfold jsonrpc_arena_malloc.
  destruct (Z.eqb_spec sz 0); [lia|].
  destruct (Z.gtb_spec sz (SIZE_MAX - JSONRPC_ALLOC_HEADER_BYTES)); [lia|].
  set (total := sz + JSONRPC_ALLOC_HEADER_BYTES).
  assert (Hcalloc : forall m0, oracle m0 = [] ->
            exists b m3, calloc total m0 = (Some b, m3) /\ oracle m3 = []).
  { intros [o b f ar g i l] Hom. cbn in Hom. subst o.
    do 2 eexists. split; reflexivity. }
  unfold bind at 1, gets.
  destruct (g_current_arena m) as [a|].
  - pose proof (arena_alloc_aligned_frame m (Some a) total
                  arena_default_alignment) as (Hfo & _).
    unfold arena_alloc. unfold exec in Hfo. unfold bind.
    destruct (arena_alloc_aligned (Some a) total arena_default_alignment m)
      as [[b|] m2'] eqn:Ha; cbn [fst snd] in *.
    + cbn. do 2 eexists. split; [reflexivity|]. cbn. congruence.
    + destruct (Hcalloc m2' ltac:(congruence)) as (b & m3 & Hc & Ho3).
      fold (bind (calloc total) (fun b => ret (b, JSONRPC_ALLOC_ORIGIN_HEAP))).
      unfold bind. rewrite Hc.
      cbn. do 2 eexists. split; [reflexivity|]. exact Ho3.
  - unfold bind. cbn [ret].
    destruct (Hcalloc m Ho) as (b & m3 & Hc & Ho3).
    rewrite Hc.
    cbn. do 2 eexists. split; [reflexivity|]. exact Ho3.
Qed.

Ltac send_fails :=
  split;
  [ split;
    [ discriminate
    | intros (c0 & v0 & s0 & m0 & E1 & E2 & E3 & E4 & E5);
      try discriminate; try congruence ]
  | split;
    [ discriminate
    | split;
      [ reflexivity
      | split;
        [ reflexivity
        | intros c0 v0 s0 E1 E2 E3 Ho Hs0 Hfit;
          try discriminate; try congruence ] ] ] ].

(** C7, amended: [jsonrpc_send_value] returns [true] exactly when the
    transport has a [send_raw] and both allocations (the serialized
    text, the payload buffer) succeed; it has then called [send_raw]
    once, on the text followed by one newline byte, [len + 1] bytes in
    all; when it returns [false] it has called nothing.  What the
    transport does with the payload has no part in the result:
    [send_raw] returns [void]. *)
Theorem jsonrpc_send_value_spec (conn : option (jsonrpc_conn_t U))
  (value : option JSON_Value) (w : world U) :
  let sent := eval (jsonrpc_send_value serialize conn value) w in
  let w' := exec (jsonrpc_send_value serialize conn value) w in
  (sent = true <->
   exists c v s m1,
     conn = Some c /\ value = Some v /\ send_raw (transport c) = true /\
     json_serialize_to_string serialize v (mach w) = (Some s, m1) /\
     eval (jsonrpc_arena_malloc (Z.of_nat (List.length s) + 1)) m1 <> None) /\
  (sent = true ->
   exists v s,
     value = Some v /\ serialize v = Some s /\
     trace w' = trace w ++ [EvSendRaw (s ++ [newline])] /\
     Z.of_nat (List.length (s ++ [newline])) = Z.of_nat (List.length s) + 1) /\
  (sent = false -> trace w' = trace w) /\
  user w' = user w /\
  (forall c v s,
     conn = Some c -> value = Some v -> send_raw (transport c) = true ->
     oracle (mach w) = [] -> serialize v = Some s ->
     Z.of_nat (List.length s) + 1 <= SIZE_MAX - JSONRPC_ALLOC_HEADER_BYTES ->
     sent = true).
Proof.
  intros sent w'. subst sent w'. unfold eval, exec.
  assert (Hser_ok : forall v m, oracle m = [] ->
            json_serialize_to_string serialize v m = (serialize v, m)).
  { intros v0 [o b f ar g i l] Ho. cbn in Ho. subst o.
    unfold json_serialize_to_string. cbn. now destruct (serialize v0). }
  destruct conn as [c|]; [|cbn; send_fails].
  destruct value as [v|]; [|cbn; send_fails].
  rewrite jsonrpc_send_value_run.
  destruct (send_raw (transport c)) eqn:Hraw; [|cbn; send_fails].
  destruct (json_serialize_to_string serialize v (mach w)) as [[s|] m1] eqn:Hser.
  2:{ cbn. send_fails. rewrite (Hser_ok _ _ Ho) in Hser. congruence. }
  pose proof (json_serialize_to_string_some _ _ Hser) as Hs.
  destruct (jsonrpc_arena_malloc (Z.of_nat (List.length s) + 1) m1)
    as [[p|] m2] eqn:Hmal; cbn [fst snd mach user trace].
  - split; [split; [intros _|reflexivity]|].
    { exists c, v, s, m1. repeat split; auto. unfold eval. rewrite Hmal.
      discriminate. }
    split.
    { intros _. exists v, s. repeat split; auto. rewrite length_app. cbn. lia. }
    repeat split; auto; discriminate.
  - send_fails.
    + assert (v0 = v) by congruence. subst v0.
      rewrite Hser in E4. inversion E4; subst. unfold eval in E5.
      rewrite Hmal in E5. now contradiction E5.
    + assert (v0 = v) by congruence. subst v0.
      assert (s0 = s) by congruence. subst s0.
      rewrite (Hser_ok _ _ Ho) in Hser. inversion Hser; subst.
      destruct (@jsonrpc_arena_malloc_succeeds (mach w)
                  (Z.of_nat (List.length s) + 1) Ho ltac:(lia))
        as (p & m' & Hne & _).
      congruence.
Qed.

End Sending.

(** ** Allocation keeps succeeding *)

Lemma calm_step_refl (m : machine) : calm_step m m.
Proof. intros H; exact H. Qed.

Lemma calm_step_trans (m1 m2 m3 : machine) :
  calm_step m1 m2 -> calm_step m2 m3 -> calm_step m1 m3.
Proof. unfold calm_step; auto. Qed.

Lemma calm_ret {A : Type} (x : A) : calm (ret x).
Proof. apply keeps_ret, calm_step_refl. Qed.

Lemma calm_gets {A : Type} (f : machine -> A) : calm (gets f).
Proof. apply keeps_gets, calm_step_refl. Qed.

Lemma calm_bind {A B : Type} (m : HM A) (k : A -> HM B) :
  calm m -> (forall x, calm (k x)) -> calm (bind m k).
Proof. apply keeps_bind, calm_step_trans. Qed.

Lemma calm_modify (f : machine -> machine) :
  (forall m, oracle (f m) = oracle m) -> calm (modify f).
Proof. intros Hf m Ho. unfold exec, modify; cbn. now rewrite Hf. Qed.

Lemma calm_next_outcome : calm next_outcome.
Proof. intros m Ho. unfold exec, next_outcome. now rewrite Ho. Qed.

Lemma calm_calloc (n : Z) : calm (calloc n).
Proof.
  intros [o b f ar g i l] Ho. cbn in Ho. subst o. reflexivity.
Qed.

Lemma calm_arena_alloc_aligned (arena : option Z) (n alignment : Z) :
  calm (arena_alloc_aligned arena n alignment).
Proof.
  intros m Ho.
  destruct (arena_alloc_aligned_frame m arena n alignment) as (H & _).
  congruence.
Qed.

Create HintDb calm.
#[local] Hint Resolve calm_ret calm_gets calm_next_outcome calm_calloc
  calm_arena_alloc_aligned : calm.
#[local] Hint Extern 1 (calm (modify _)) =>
  (apply calm_modify; intros; reflexivity) : calm.
#[local] Hint Extern 1 (calm (free _)) =>
  (apply calm_modify; intros; reflexivity) : calm.
#[local] Hint Extern 1 (calm (json_value_free _)) =>
  (apply calm_modify; intros; reflexivity) : calm.
#[local] Hint Extern 1 (calm (store_arena _ _)) =>
  (apply calm_modify; intros; reflexivity) : calm.
#[local] Hint Extern 1 (calm (load_arena _)) => (apply calm_gets) : calm.

Ltac ck_step :=
  first
    [ solve [auto with calm]
    | apply calm_bind; [|intros ?]
    | match goal with
      | |- calm (match ?x with _ => _ end) => destruct x
      end
    | progress cbv zeta ].

Ltac ck := repeat ck_step.

Lemma calm_arena_alloc (arena : option Z) (n : Z) : calm (arena_alloc arena n).
Proof. unfold arena_alloc. ck. Qed.

Lemma calm_arena_clear (arena : option Z) : calm (arena_clear arena).
Proof. unfold arena_clear. ck. Qed.
#[local] Hint Resolve calm_arena_alloc calm_arena_clear : calm.

Lemma calm_jsonrpc_arena_malloc (sz : Z) : calm (jsonrpc_arena_malloc sz).
Proof. unfold jsonrpc_arena_malloc. ck. Qed.

Lemma calm_jsonrpc_arena_free (ptr : option Z) : calm (jsonrpc_arena_free ptr).
Proof. unfold jsonrpc_arena_free. ck. Qed.

Lemma calm_jsonrpc_init_parson_allocator : calm jsonrpc_init_parson_allocator.
Proof. unfold jsonrpc_init_parson_allocator. ck. Qed.

Lemma calm_jsonrpc_arena_scope_begin (arena : option Z) :
  calm (jsonrpc_arena_scope_begin arena).
Proof. unfold jsonrpc_arena_scope_begin. ck. Qed.

Lemma calm_jsonrpc_arena_scope_end (arena : option Z)
  (scope : jsonrpc_arena_scope_t) : calm (jsonrpc_arena_scope_end arena scope).
Proof. unfold jsonrpc_arena_scope_end. ck. Qed.

Lemma calm_free_if_present (v : option JSON_Value) : calm (free_if_present v).
Proof. unfold free_if_present. ck. Qed.

Lemma calm_rpc_buffer_reserve (b : rpc_buffer_t) (desired : Z) :
  calm (rpc_buffer_reserve b desired).
Proof. unfold rpc_buffer_reserve. ck. Qed.
#[local] Hint Resolve calm_rpc_buffer_reserve : calm.

Lemma calm_rpc_buffer_append (b : rpc_buffer_t) (chunk : list byte) :
  calm (rpc_buffer_append b chunk).
Proof. unfold rpc_buffer_append. ck. Qed.

#[local] Hint Resolve calm_jsonrpc_arena_malloc calm_jsonrpc_arena_free
  calm_jsonrpc_init_parson_allocator calm_jsonrpc_arena_scope_begin
  calm_jsonrpc_arena_scope_end calm_free_if_present
  calm_rpc_buffer_append : calm.

Lemma calm_json_value_init_array : calm json_value_init_array.
Proof. unfold json_value_init_array. ck. Qed.

Lemma calm_json_array_append_value (arr v : JSON_Value) :
  calm (json_array_append_value arr v).
Proof. unfold json_array_append_value. ck. Qed.
#[local] Hint Resolve calm_json_value_init_array
  calm_json_array_append_value : calm.

(** ** Builders on any id *)

Lemma jsonrpc_build_error_any (m : machine) (id : option JSON_Value)
  (code : Z) (message : option string) :
  oracle m = [] ->
  jsonrpc_build_error id code message m =
    (Some (error_reply id code message), m).
Proof.
  intros Ho. destruct m as [o b f ar g i l]; cbn in Ho; subst o.
  destruct id as [[]|]; reflexivity.
Qed.

Lemma jsonrpc_build_result_any (m : machine) (id : option JSON_Value)
  (res : JSON_Value) :
  oracle m = [] ->
  jsonrpc_build_result id (Some res) m =
    (Some (result_envelope (copied_id id) res), m).
Proof.
  intros Ho. destruct m as [o b f ar g i l]; cbn in Ho; subst o.
  destruct id as [[]|]; reflexivity.
Qed.

(** ** The code against the description *)

Section Refinement.

Variable U : Type.
Variable parse : list byte -> option JSON_Value.
Variable serialize : JSON_Value -> option (list byte).

Lemma refines_ret {A B : Type} (Rel : A -> B -> Prop) (x : A) (y : B) :
  Rel x y -> refines (U := U) Rel (ret x) (pret y).
Proof.
  intros H w Ho. cbn. rewrite app_nil_r. auto.
Qed.

Lemma refines_bind {A A' B B' : Type} (RelA : A -> A' -> Prop)
  (RelB : B -> B' -> Prop) (m : EM U A) (p : Pure U A')
  (k : A -> EM U B) (q : A' -> Pure U B') :
  refines RelA m p ->
  (forall x y, RelA x y -> refines RelB (k x) (q y)) ->
  refines RelB (bind m k) (pbind p q).
Proof.
  intros Hm Hk w Ho. destruct (Hm w Ho) as (Hr & Hu & Ht & Ho1).
  specialize (Hk _ _ Hr (exec m w) Ho1).
  unfold eval, exec in *. rewrite bind_run. unfold pbind.
  destruct (p (user w)) as [y [u1 e1]]. cbn [fst snd] in *.
  rewrite Hu, Ht in Hk. destruct (q y u1) as [z [u2 e2]]. cbn [fst snd] in *.
  destruct Hk as (Hr2 & Hu2 & Ht2 & Ho2).
  rewrite app_assoc. auto.
Qed.

Lemma refines_ext {A B : Type} (Rel : A -> B -> Prop) (e : EM U A)
  (p q : Pure U B) :
  (forall u, p u = q u) -> refines Rel e p -> refines Rel e q.
Proof. intros Hpq He w Ho. rewrite <- Hpq. now apply He. Qed.

(** A step on the machine alone, whose result satisfies [Q]. *)
Lemma refines_machine {A B B' : Type} (Rel : B -> B' -> Prop) (Q : A -> Prop)
  (h : HM A) (k : A -> EM U B) (p : Pure U B') :
  calm h -> (forall m, oracle m = [] -> Q (eval h m)) ->
  (forall x, Q x -> refines Rel (k x) p) ->
  refines Rel (bind (liftH h) k) p.
Proof.
  intros Hc HQ Hk w Ho. unfold eval, exec. rewrite bind_run.
  specialize (Hc (mach w) Ho). specialize (HQ (mach w) Ho).
  unfold eval, exec in Hc, HQ.
  assert (E : liftH h w = (fst (h (mach w)),
                           mkWorld (snd (h (mach w))) (user w) (trace w))).
  { unfold liftH. destruct (h (mach w)); reflexivity. }
  rewrite E. cbn [fst snd].
  apply (Hk _ HQ (mkWorld (snd (h (mach w))) (user w) (trace w)) Hc).
Qed.

Lemma refines_machine_seq {A B B' : Type} (Rel : B -> B' -> Prop)
  (h : HM A) (k : EM U B) (p : Pure U B') :
  calm h -> refines Rel k p -> refines Rel (bind (liftH h) (fun _ => k)) p.
Proof.
  intros Hc Hk. apply refines_machine with (Q := fun _ => True); auto.
Qed.

Lemma refines_liftH {A : Type} (h : HM A) (x : A) :
  (forall m, oracle m = [] -> h m = (x, m)) ->
  refines (U := U) eq (liftH h) (pret x).
Proof.
  intros Hh w Ho. unfold eval, exec, liftH. rewrite (Hh _ Ho). cbn.
  rewrite app_nil_r. auto.
Qed.

Lemma refines_emit (e : event) : refines (U := U) eq (emit e) (pcall e).
Proof. intros w Ho. cbn. auto. Qed.

(** The dispatcher on one object. *)
Lemma refines_process_object (c : jsonrpc_conn_t U) (v : option JSON_Value) :
  refines eq (jsonrpc_process_object c v) (answer_object (callbacks c) v).
Proof.
  intros [[o b f ar g i l] u t] Ho. cbn in Ho. subst o.
  unfold eval, exec, jsonrpc_process_object, answer_object.
  destruct v as [[| | |ms| |]|];
    try solve [cbn; rewrite ?app_nil_r; auto].
  cbn [json_value_get_object].
  destruct (json_object_get_string ms "jsonrpc") as [version|];
    [|cbn; rewrite ?app_nil_r; auto].
  destruct (json_object_get_string ms "method") as [method|];
    [|destruct (strcmp_eq version "2.0"); cbn; rewrite ?app_nil_r; auto].
  destruct (strcmp_eq version "2.0"); [|cbn; rewrite ?app_nil_r; auto].
  cbn [negb]. rewrite has_value_get.
  destruct (json_object_get_value ms "id") as [id|].
  - destruct (jsonrpc_id_is_valid (Some id)) eqn:Hid; cbn [negb andb];
      [|cbn; rewrite ?app_nil_r; auto].
    destruct (jsonrpc_params_is_valid (json_object_get_value ms "params"));
      cbn [negb].
    2:{ unfold liftH. cbn [mach user trace].
        rewrite jsonrpc_build_error_any by auto. cbn. rewrite app_nil_r. auto. }
    destruct (on_request (callbacks c)) as [h|].
    2:{ unfold liftH. cbn [mach user trace].
        rewrite jsonrpc_build_error_any by auto. cbn. rewrite app_nil_r. auto. }
    unfold bind, call_on_request. cbn [mach user trace].
    destruct (h u method (json_object_get_value ms "params")
                (mkResponse None 0 None)) as [u' [handled d]].
    destruct handled; cbn [negb].
    + destruct (error_code d =? 0); cbn [negb].
      * destruct (result d) as [r|]; unfold liftH; cbn [mach user trace].
        -- rewrite jsonrpc_build_result_any by auto. cbn. auto.
        -- rewrite jsonrpc_build_error_any by auto. cbn. auto.
      * unfold liftH. cbn [mach user trace].
        destruct (free_if_present (result d)
                    (mkMachine [] b f ar g i l)) as [[] m1] eqn:Hfree.
        assert (Ho1 : oracle m1 = []).
        { pose proof (@calm_free_if_present (result d)
                        (mkMachine [] b f ar g i l) eq_refl) as H.
          unfold exec in H. now rewrite Hfree in H. }
        rewrite jsonrpc_build_error_any by auto. cbn. auto.
    + unfold liftH. cbn [mach user trace].
      destruct (free_if_present (result d)
                  (mkMachine [] b f ar g i l)) as [[] m1] eqn:Hfree.
      assert (Ho1 : oracle m1 = []).
      { pose proof (@calm_free_if_present (result d)
                      (mkMachine [] b f ar g i l) eq_refl) as H.
        unfold exec in H. now rewrite Hfree in H. }
      rewrite jsonrpc_build_error_any by auto. cbn. auto.
  - cbn [andb].
    destruct (jsonrpc_params_is_valid (json_object_get_value ms "params"));
      cbn [negb]; [|cbn; rewrite ?app_nil_r; auto].
    destruct (on_notification (callbacks c)) as [h|]; cbn;
      rewrite ?app_nil_r; auto.
Qed.


Lemma pbind_pret {A : Type} (p : Pure U A) (u : U) :
  pbind p (fun x => pret x) u = p u.
Proof.
  unfold pbind, pret. destruct (p u) as [x [u1 e1]]. now rewrite app_nil_r.
Qed.

Lemma refines_map {A B C : Type} (RelA : A -> B -> Prop)
  (RelC : A -> C -> Prop) (e : EM U A) (p : Pure U B) (f : B -> C) :
  refines RelA e p -> (forall x y, RelA x y -> RelC x (f y)) ->
  refines RelC e (pbind p (fun y => pret (f y))).
Proof.
  intros He Hf w Ho. destruct (He w Ho) as (Hr & Hu & Ht & Ho1).
  unfold pbind, pret. destruct (p (user w)) as [y [u1 e1]]. cbn [fst snd] in *.
  rewrite app_nil_r. auto.
Qed.

Lemma refines_bind_ret {A B : Type} (m : EM U A) (p : Pure U A)
  (k : A -> EM U B) (f : A -> B) :
  refines eq m p -> (forall x, refines eq (k x) (pret (f x))) ->
  refines eq (bind m k) (pbind p (fun y => pret (f y))).
Proof.
  intros Hm Hk. apply refines_bind with (RelA := eq); [exact Hm|].
  intros x y <-. apply Hk.
Qed.

Lemma refines_weaken {A B : Type} (Rel Rel' : A -> B -> Prop) (e : EM U A)
  (p : Pure U B) :
  (forall x y, Rel x y -> Rel' x y) -> refines Rel e p -> refines Rel' e p.
Proof.
  intros H He w Ho. destruct (He w Ho) as (Hr & Hrest). auto.
Qed.

(** The batch loop. *)
Lemma refines_process_items (c : jsonrpc_conn_t U) (items : list JSON_Value) :
  forall (acc : list JSON_Value) (n : Z),
    refines
      (fun r rs =>
         r = Some (JSONArray (acc ++ rs), n + Z.of_nat (List.length rs)))
      (process_items c items (JSONArray acc) n)
      (answer_items (callbacks c) items).
Proof.
  induction items as [|item rest IH]; intros acc n.
  - cbn [process_items answer_items]. apply refines_ret.
    cbn. now rewrite app_nil_r, Z.add_0_r.
  - cbn [process_items answer_items].
    apply refines_bind with (RelA := eq);
      [apply refines_process_object|].
    intros x y <-. destruct x as [r|].
    + apply refines_machine
        with (Q := fun a => a = Some (JSONArray (acc ++ [r]))).
      * auto with calm.
      * intros [o b f ar g i l] Ho. cbn in Ho. subst o. reflexivity.
      * intros a ->. eapply refines_map; [apply (IH (acc ++ [r]) (n + 1))|].
        intros x rs ->. rewrite <- app_assoc. cbn [app List.length].
        replace (n + 1 + Z.of_nat (List.length rs))
          with (n + Z.of_nat (S (List.length rs))) by lia.
        reflexivity.
    + eapply refines_map; [apply (IH acc n)|]. auto.
Qed.

(** The dispatcher on a parsed value. *)
Lemma refines_process_value (c : jsonrpc_conn_t U) (v : JSON_Value) :
  refines eq (jsonrpc_process_value c (Some v)) (answer_value (callbacks c) v).
Proof.
  destruct v as [| | | |items|];
    try apply (refines_process_object c (Some _)).
  unfold jsonrpc_process_value, answer_value.
  cbn [json_value_get_type type_eqb json_value_get_array].
  destruct items as [|item rest].
  - cbn. unfold invalid_request. apply refines_liftH.
    intros m Ho. now apply jsonrpc_build_error_any.
  - replace (Z.of_nat (List.length (item :: rest)) =? 0) with false
      by (symmetry; apply Z.eqb_neq; cbn [List.length]; lia).
    apply refines_machine with (Q := fun a => a = Some (JSONArray [])).
    + auto with calm.
    + intros [o b f ar g i l] Ho. cbn in Ho. subst o. reflexivity.
    + intros a ->.
      eapply refines_bind; [apply (refines_process_items c (item :: rest) [] 0)|].
      intros x rs ->. cbn [app]. rewrite Z.add_0_l.
      destruct rs as [|r rs].
      * cbn. apply refines_machine_seq; [|now apply refines_ret].
        apply calm_modify. reflexivity.
      * replace (Z.of_nat (List.length (r :: rs)) =? 0) with false
          by (symmetry; apply Z.eqb_neq; cbn [List.length]; lia).
        now apply refines_ret.
Qed.

Lemma json_serialize_to_string_calm (v : JSON_Value) (m : machine) :
  oracle m = [] -> json_serialize_to_string serialize v m = (serialize v, m).
Proof.
  intros Ho. destruct m as [o b f ar g i l]. cbn in Ho. subst o.
  unfold json_serialize_to_string. cbn. now destruct (serialize v).
Qed.

Lemma json_parse_string_calm (line : list byte) (m : machine) :
  oracle m = [] -> json_parse_string parse line m = (parse (c_bytes line), m).
Proof.
  intros Ho. destruct m as [o b f ar g i l]. cbn in Ho. subst o.
  unfold json_parse_string. cbn. now destruct (parse (c_bytes line)).
Qed.

(** The sender. *)
Lemma refines_send_value (c : jsonrpc_conn_t U) (v : JSON_Value) :
  refines eq (jsonrpc_send_value serialize (Some c) (Some v))
             (send_spec serialize (transport c) v).
Proof.
  intros w Ho. unfold eval, exec. rewrite jsonrpc_send_value_run.
  unfold send_spec.
  destruct (send_raw (transport c));
    [|cbn; rewrite app_nil_r; auto].
  rewrite json_serialize_to_string_calm by auto.
  destruct (serialize v) as [s|]; [|cbn; rewrite app_nil_r; auto].
  destruct (Z.gtb_spec (Z.of_nat (List.length s) + 1)
                       (SIZE_MAX - JSONRPC_ALLOC_HEADER_BYTES)) as [Hbig|Hfit].
  - assert (E : jsonrpc_arena_malloc (Z.of_nat (List.length s) + 1) (mach w)
                = (None, mach w)).
    { unfold jsonrpc_arena_malloc.
      destruct (Z.eqb_spec (Z.of_nat (List.length s) + 1) 0); [lia|].
      destruct (Z.gtb_spec (Z.of_nat (List.length s) + 1)
                           (SIZE_MAX - JSONRPC_ALLOC_HEADER_BYTES));
        [reflexivity|lia]. }
    rewrite E. cbn. rewrite app_nil_r. auto.
  - destruct (@jsonrpc_arena_malloc_succeeds (mach w)
                (Z.of_nat (List.length s) + 1) Ho ltac:(lia))
      as (p & m' & E & Ho').
    rewrite E. cbn. repeat split; auto.
    apply (@calm_jsonrpc_arena_free (Some p) m' Ho').
Qed.

Lemma refines_send_error (c : jsonrpc_conn_t U) (id : option JSON_Value)
  (code : Z) (message : option string) :
  refines eq (jsonrpc_conn_send_error serialize (Some c) id code message)
             (send_spec serialize (transport c) (error_reply id code message)).
Proof.
  unfold jsonrpc_conn_send_error.
  apply refines_machine_seq; [auto with calm|].
  apply refines_machine with (Q := fun _ => True); [auto with calm|auto|].
  intros scope _.
  apply refines_machine
    with (Q := fun a => a = Some (error_reply id code message)).
  - intros m Ho. unfold exec. now rewrite jsonrpc_build_error_any.
  - intros m Ho. unfold eval. now rewrite jsonrpc_build_error_any.
  - intros a ->.
    apply refines_ext
      with (p := pbind (send_spec serialize (transport c)
                          (error_reply id code message))
                       (fun y => pret y));
      [intros u; apply pbind_pret|].
    apply refines_bind_ret with (f := fun y => y);
      [apply refines_send_value|].
    intros sent.
    apply refines_machine_seq; [apply calm_modify; reflexivity|].
    apply refines_machine_seq; [auto with calm|].
    now apply refines_ret.
Qed.

Lemma refines_close_if_unsent (c : jsonrpc_conn_t U) (sent : bool) :
  refines eq (close_if_unsent c sent)
             (close_if_unsent_spec (U := U) (transport c) sent).
Proof.
  unfold close_if_unsent, close_if_unsent_spec.
  destruct (negb sent && close (transport c)).
  - apply refines_bind with (RelA := eq); [apply refines_emit|].
    intros ? ? _. now apply refines_ret.
  - now apply refines_ret.
Qed.

Lemma refines_close_after (c : jsonrpc_conn_t U) (sent : bool) :
  refines eq (close_after c sent) (close_spec (U := U) (transport c)).
Proof.
  unfold close_after, close_spec.
  destruct sent, (close (transport c)); cbn [negb andb];
    first [apply refines_emit | now apply refines_ret].
Qed.

End Refinement.

(** ** Lines of a buffer *)

Lemma memchr_newline_app (raw rest : list byte) :
  memchr_newline raw = None ->
  memchr_newline (raw ++ newline :: rest) = Some (Z.of_nat (List.length raw)).
Proof.
  induction raw as [|b raw IH]; cbn [memchr_newline app List.length].
  - intros _. reflexivity.
  - destruct (Byte.eqb b newline); [discriminate|].
    destruct (memchr_newline raw); [discriminate|]. intros _.
    rewrite IH by reflexivity. f_equal. lia.
Qed.

(** A newline found: the line before it, the buffer after it. *)
Lemma memchr_newline_some (buf : list byte) (i : Z) :
  memchr_newline buf = Some i ->
  exists raw rest,
    buf = raw ++ newline :: rest /\ i = Z.of_nat (List.length raw) /\
    memchr_newline raw = None.
Proof.
  revert i. induction buf as [|b buf IH]; intros i; cbn [memchr_newline].
  - discriminate.
  - destruct (Byte.eqb b newline) eqn:E.
    + intros H; inversion H; subst. exists [], buf.
      apply Byte.byte_dec_bl in E. subst b. auto.
    + destruct (memchr_newline buf) as [j|]; [|discriminate].
      intros H; inversion H; subst.
      destruct (IH j eq_refl) as (raw & rest & -> & -> & Hn).
      exists (b :: raw), rest. cbn [app List.length memchr_newline].
      rewrite E, Hn. repeat split. lia.
Qed.

Lemma memchr_newline_app_none (a b : list byte) :
  memchr_newline (a ++ b) = None <->
  memchr_newline a = None /\ memchr_newline b = None.
Proof.
  induction a as [|x a IH]; cbn [app memchr_newline].
  - tauto.
  - destruct (Byte.eqb x newline).
    + split; [discriminate | intros [H _]; discriminate].
    + destruct (memchr_newline (a ++ b)) eqn:Eab, (memchr_newline a) eqn:Ea.
      * split; [discriminate | intros [H _]; discriminate].
      * split; [discriminate|]. intros [_ Hb]. destruct IH as [_ IH].
        discriminate (IH (conj eq_refl Hb)).
      * split; [|intros [H _]; discriminate]. intros _.
        destruct IH as [IH _]. destruct (IH eq_refl) as [H _]. discriminate.
      * split; [|reflexivity]. intros _. split; [reflexivity|].
        apply IH. reflexivity.
Qed.

Lemma split_lines_none (buf : list byte) :
  memchr_newline buf = None -> split_lines buf = ([], buf).
Proof.
  induction buf as [|b buf IH]; cbn [memchr_newline split_lines]; auto.
  destruct (Byte.eqb b newline); [discriminate|].
  destruct (memchr_newline buf); [discriminate|]. intros _.
  now rewrite IH.
Qed.

Lemma split_lines_line (raw rest : list byte) :
  memchr_newline raw = None ->
  split_lines (raw ++ newline :: rest) =
    (raw :: fst (split_lines rest), snd (split_lines rest)).
Proof.
  induction raw as [|b raw IH]; cbn [app memchr_newline].
  - intros _. cbn [split_lines]. destruct (split_lines rest). reflexivity.
  - destruct (Byte.eqb b newline) eqn:E; [discriminate|].
    destruct (memchr_newline raw); [discriminate|]. intros _.
    cbn [split_lines]. rewrite IH by reflexivity. now rewrite E.
Qed.

Lemma split_lines_rest_none (buf : list byte) :
  memchr_newline (snd (split_lines buf)) = None.
Proof.
  induction buf as [|b buf IH]; cbn [split_lines]; auto.
  destruct (split_lines buf) as [ls r]. cbn [snd] in IH.
  destruct (Byte.eqb b newline) eqn:E; [exact IH|].
  destruct ls; cbn [snd memchr_newline]; [|exact IH].
  now rewrite E, IH.
Qed.

Lemma join_split_lines (buf : list byte) :
  join_lines (fst (split_lines buf)) (snd (split_lines buf)) = buf.
Proof.
  induction buf as [|b buf IH]; cbn [split_lines]; auto.
  destruct (split_lines buf) as [ls r]. cbn [fst snd] in IH.
  destruct (Byte.eqb b newline) eqn:E.
  - apply Byte.byte_dec_bl in E. subst b. cbn [fst snd join_lines fold_right app].
    fold (join_lines ls r). now rewrite IH.
  - destruct ls as [|l ls]; cbn [fst snd join_lines fold_right app] in *;
      now rewrite <- IH.
Qed.

Lemma memchr_newline_join (ls : list (list byte)) (rest : list byte) :
  ls <> [] -> memchr_newline (join_lines ls rest) <> None.
Proof.
  destruct ls as [|l ls]; [contradiction|]. intros _ H.
  cbn [join_lines fold_right] in H.
  apply memchr_newline_app_none in H. destruct H as [_ H].
  cbn in H. discriminate.
Qed.

(** Splitting a buffer that arrives in two parts. *)
Lemma split_lines_app (a b : list byte) :
  split_lines (a ++ b) =
    (fst (split_lines a) ++ fst (split_lines (snd (split_lines a) ++ b)),
     snd (split_lines (snd (split_lines a) ++ b))).
Proof.
  induction a as [|x a IH]; cbn [app split_lines].
  - cbn. now destruct (split_lines b).
  - rewrite IH. destruct (split_lines a) as [ls r]. cbn [fst snd].
    destruct (Byte.eqb x newline) eqn:E; [reflexivity|].
    destruct ls as [|l ls]; cbn [app fst snd]; [|reflexivity].
    cbn [split_lines app]. rewrite E.
    destruct (split_lines (r ++ b)) as [[|l2 ls2] r2]; reflexivity.
Qed.

(** The line the framer sees: with the carriage return stripped. *)
Lemma strip_cr_spec (raw rest : list byte) :
  let buf := raw ++ newline :: rest in
  let i := Z.of_nat (List.length raw) in
  let line_len :=
    if (i >? 0) && Byte.eqb (byte_at buf (i - 1)) carriage_return
    then i - 1 else i in
  Z.of_nat (List.length (strip_cr raw)) = line_len /\
  firstn (Z.to_nat line_len) buf = strip_cr raw.
Proof.
  cbn zeta. unfold strip_cr.
  destruct (rev raw) as [|c before] eqn:Hrev.
  - assert (raw = []) by (now rewrite <- (rev_involutive raw), Hrev). subst.
    cbn. auto.
  - assert (Hraw : raw = rev before ++ [c])
      by (now rewrite <- (rev_involutive raw), Hrev).
    subst raw. rewrite length_app. cbn [List.length].
    set (n := List.length (rev before)).
    replace (Z.of_nat (n + 1) >? 0) with true
      by (symmetry; apply Z.gtb_lt; lia).
    cbn [andb].
    assert (Hat : byte_at ((rev before ++ [c]) ++ newline :: rest)
                          (Z.of_nat (n + 1) - 1) = c).
    { unfold byte_at.
      replace (Z.to_nat (Z.of_nat (n + 1) - 1)) with n by lia.
      rewrite <- app_assoc. rewrite app_nth2 by (unfold n; lia).
      unfold n. now rewrite Nat.sub_diag. }
    rewrite Hat.
    destruct (Byte.eqb c carriage_return).
    + split; [unfold n; lia|].
      replace (Z.to_nat (Z.of_nat (n + 1) - 1)) with n by lia.
      rewrite <- !app_assoc. unfold n. rewrite firstn_app, Nat.sub_diag.
      rewrite firstn_all. cbn. now rewrite app_nil_r.
    + split; [rewrite length_app; cbn; unfold n; lia|].
      rewrite Nat2Z.id.
      replace (n + 1)%nat with (List.length (rev before ++ [c]))
        by (rewrite length_app; cbn; unfold n; lia).
      rewrite firstn_app, Nat.sub_diag, firstn_all. cbn.
      now rewrite app_nil_r.
Qed.

Lemma split_join_lines (ls : list (list byte)) (rest : list byte) :
  Forall (fun l => memchr_newline l = None) ls ->
  split_lines (join_lines ls rest) =
    (ls ++ fst (split_lines rest), snd (split_lines rest)).
Proof.
  induction 1 as [|l ls Hl _ IH]; cbn [join_lines fold_right app].
  - now destruct (split_lines rest).
  - fold (join_lines ls rest). rewrite (split_lines_line _ _ Hl), IH.
    reflexivity.
Qed.

Lemma split_lines_no_newline (buf : list byte) :
  Forall (fun l => memchr_newline l = None) (fst (split_lines buf)).
Proof.
  induction buf as [|b buf IH]; cbn [split_lines]; [apply Forall_nil|].
  destruct (split_lines buf) as [ls r]. cbn [fst] in IH.
  destruct (Byte.eqb b newline) eqn:E; cbn [fst].
  - apply Forall_cons; [reflexivity|exact IH].
  - destruct ls as [|l ls]; [apply Forall_nil|].
    inversion IH as [|? ? Hl Hls]; subst.
    apply Forall_cons; [|exact Hls].
    cbn [memchr_newline]. now rewrite E, Hl.
Qed.

(** ** The framer against its description *)

Section Framer.

Variable U : Type.
Variable parse : list byte -> option JSON_Value.
Variable serialize : JSON_Value -> option (list byte).

Lemma pbind_assoc {A B C : Type} (p : Pure U A) (q : A -> Pure U B)
  (k : B -> Pure U C) (u : U) :
  pbind (pbind p q) k u = pbind p (fun x => pbind (q x) k) u.
Proof.
  unfold pbind. destruct (p u) as [x [u1 e1]].
  destruct (q x u1) as [y [u2 e2]]. destruct (k y u2) as [z [u3 e3]].
  now rewrite app_assoc.
Qed.

Lemma with_bytes_same (c : jsonrpc_conn_t U) :
  with_bytes (bytes (inbound c)) c = c.
Proof. destruct c as [s t cb uc cl [d bs cp] a]. reflexivity. Qed.

Lemma rpc_buffer_consume_line (b : rpc_buffer_t) (raw rest : list byte) :
  bytes b = raw ++ newline :: rest ->
  rpc_buffer_consume b (Z.of_nat (List.length raw) + 1) =
    mkBuffer (data b) rest (cap b).
Proof.
  intros Hb. unfold rpc_buffer_consume, len. rewrite Hb, length_app.
  cbn [List.length].
  destruct (Z.eqb_spec (Z.of_nat (List.length raw) + 1) 0); [lia|].
  destruct (Z.ltb_spec (Z.of_nat (List.length raw + S (List.length rest)))
                       (Z.of_nat (List.length raw) + 1)); [lia|].
  cbn [orb]. f_equal.
  replace (Z.to_nat (Z.of_nat (List.length raw) + 1))
    with (List.length raw + 1)%nat by lia.
  rewrite skipn_app.
  replace (List.length raw + 1 - List.length raw)%nat with 1%nat by lia.
  rewrite skipn_all2 by lia. reflexivity.
Qed.

Lemma calm_json_parse_string (l : list byte) : calm (json_parse_string parse l).
Proof.
  intros m Ho. unfold exec. now rewrite json_parse_string_calm.
Qed.

(** The loop of [jsonrpc_conn_feed] dispatches the complete lines of the
    buffer as the description says, and leaves what the description
    leaves; [fuel] above the buffer's length is enough fuel. *)
Lemma refines_feed_loop (fuel : nat) :
  forall c : jsonrpc_conn_t U,
    (List.length (bytes (inbound c)) < fuel)%nat ->
    refines
      (fun r left =>
         r = Some (with_bytes
                     (leftover_bytes left
                        (snd (split_lines (bytes (inbound c))))) c))
      (feed_loop parse serialize fuel c)
      (run_lines parse serialize (transport c) (callbacks c)
                 (fst (split_lines (bytes (inbound c))))).
Proof.
  induction fuel as [|fuel IH]; intros c Hlen; [lia|].
  cbn [feed_loop].
  destruct (memchr_newline (bytes (inbound c))) as [i|] eqn:Hnl.
  2:{ rewrite (split_lines_none _ Hnl). cbn [fst snd run_lines].
      apply refines_ret. cbn [leftover_bytes]. now rewrite with_bytes_same. }
  destruct (memchr_newline_some _ Hnl) as (raw & rest & Hbuf & -> & Hraw).
  assert (Hc1 : set_inbound (rpc_buffer_consume (inbound c)
                               (Z.of_nat (List.length raw) + 1)) c
                = with_bytes rest c).
  { unfold with_bytes. now rewrite (rpc_buffer_consume_line _ _ _ Hbuf). }
  rewrite Hc1. clear Hc1.
  assert (Hlt : (List.length (bytes (inbound (with_bytes rest c))) < fuel)%nat).
  { cbn. rewrite Hbuf, length_app in Hlen. cbn in Hlen. lia. }
  pose proof (IH (with_bytes rest c) Hlt) as IHc.
  cbn [with_bytes set_inbound inbound bytes transport callbacks] in IHc.
  assert (Hjoin : join_lines (fst (split_lines rest)) (snd (split_lines rest))
                  = rest) by apply join_split_lines.
  rewrite Hbuf.
  rewrite (@split_lines_line raw rest Hraw). cbn [fst snd run_lines].
  destruct (strip_cr_spec raw rest) as [Hll Hfirst]. cbn zeta in Hll, Hfirst.
  rewrite Hfirst, Hll.
  set (line_len :=
         if (Z.of_nat (List.length raw) >? 0) &&
            Byte.eqb (byte_at (raw ++ newline :: rest)
                              (Z.of_nat (List.length raw) - 1))
                     carriage_return
         then Z.of_nat (List.length raw) - 1
         else Z.of_nat (List.length raw)) in *.
  assert (Hrec :
    refines
      (fun r left =>
         r = Some (with_bytes
                     (leftover_bytes left (snd (split_lines rest))) c))
      (feed_loop parse serialize fuel (with_bytes rest c))
      (run_lines parse serialize (transport c) (callbacks c)
                 (fst (split_lines rest)))).
  { eapply refines_weaken; [|exact IHc]. intros x y ->. reflexivity. }
  assert (Hstop :
    refines (U := U)
      (fun r left =>
         r = Some (with_bytes
                     (leftover_bytes left (snd (split_lines rest))) c))
      (ret (Some (with_bytes rest c)))
      (pret (Some (fst (split_lines rest))))).
  { apply refines_ret. cbn [leftover_bytes]. now rewrite Hjoin. }
  destruct (Z.eqb_spec line_len 0) as [Hz|Hnz]; [exact Hrec|].
  destruct (Z.gtb_spec line_len MAX_MESSAGE_BYTES) as [Hbig|Hfit].
  - apply refines_bind with (RelA := eq); [apply refines_send_error|].
    intros sent ? _.
    apply refines_bind with (RelA := eq); [apply refines_close_after|].
    intros ? ? _. apply refines_ret.
    cbn [leftover_bytes join_lines fold_right].
    fold (join_lines (fst (split_lines rest)) (snd (split_lines rest))).
    now rewrite Hjoin, <- Hbuf, with_bytes_same.
  - apply refines_machine with (Q := fun _ => True); [auto with calm|auto|].
    intros scope _.
    apply refines_machine with (Q := fun x => x <> None).
    { auto with calm. }
    { intros m Ho.
      destruct (@jsonrpc_arena_malloc_succeeds m (line_len + 1) Ho)
        as (p & m' & E & _).
      - change JSONRPC_ALLOC_HEADER_BYTES with 16.
        unfold SIZE_MAX, MAX_MESSAGE_BYTES in *. lia.
      - unfold eval. rewrite E. discriminate. }
    intros [line_ptr|] Hq; [|contradiction].
    apply refines_machine
      with (Q := fun x => x = parse (c_bytes (strip_cr raw))).
    { apply calm_json_parse_string. }
    { intros m Ho. unfold eval. now rewrite json_parse_string_calm. }
    intros request ->.
    apply refines_machine_seq; [auto with calm|].
    unfold message_cycle.
    destruct (parse (c_bytes (strip_cr raw))) as [req|].
    + eapply refines_ext; [intros u; symmetry; apply pbind_assoc|].
      apply refines_bind with (RelA := eq);
        [apply (refines_process_value (with_bytes rest c) req)|].
      intros response ? <-. cbv beta.
      assert (Hsend :
        refines eq
          match response with
          | Some _ =>
              sent <- jsonrpc_send_value serialize
                        (Some (with_bytes rest c)) response ;;
              close_if_unsent (with_bytes rest c) sent
          | None => ret false
          end
          match response with
          | Some r =>
              pbind (send_spec serialize (transport c) r)
                    (close_if_unsent_spec (transport c))
          | None => pret false
          end).
      { destruct response as [r|]; [|now apply refines_ret].
        apply refines_bind with (RelA := eq);
          [apply (refines_send_value serialize (with_bytes rest c))|].
        intros sent ? <-. apply (refines_close_if_unsent (with_bytes rest c)). }
      apply refines_bind with (RelA := eq); [exact Hsend|].
      intros close_connection ? <-.
      apply refines_machine_seq; [auto with calm|].
      apply refines_machine_seq; [apply calm_modify; reflexivity|].
      apply refines_machine_seq; [auto with calm|].
      destruct close_connection; [exact Hstop|exact Hrec].
    + eapply refines_ext; [intros u; symmetry; apply pbind_assoc|].
      apply refines_bind with (RelA := eq);
        [apply (refines_send_error serialize (with_bytes rest c))|].
      intros sent ? <-.
      apply refines_bind with (RelA := eq);
        [apply (refines_close_if_unsent (with_bytes rest c))|].
      intros close_connection ? <-.
      apply refines_machine_seq; [auto with calm|].
      destruct close_connection; [exact Hstop|exact Hrec].
Qed.


Lemma rpc_buffer_append_ok (b : rpc_buffer_t) (chunk : list byte)
  (m : machine) :
  oracle m = [] -> chunk <> [] ->
  len b + Z.of_nat (List.length chunk) <= MAX_BUFFER_BYTES ->
  exists b',
    eval (rpc_buffer_append b chunk) m = (true, b') /\
    bytes b' = bytes b ++ chunk.
Proof.
  intros Ho Hne Hfit. destruct m as [o br f ar g i l]. cbn in Ho. subst o.
  unfold eval, rpc_buffer_append.
  destruct (Z.eqb_spec (Z.of_nat (List.length chunk)) 0) as [E|E].
  { destruct chunk; [contradiction|discriminate]. }
  destruct (Z.gtb_spec (len b + Z.of_nat (List.length chunk)) MAX_BUFFER_BYTES);
    [lia|].
  unfold rpc_buffer_reserve.
  destruct (len b + Z.of_nat (List.length chunk) <=? cap b).
  - cbn. eexists. split; reflexivity.
  - destruct (data b) as [old|]; [destruct (len b >? 0)|];
      cbn; eexists; split; reflexivity.
Qed.

Lemma rpc_buffer_append_too_large (b : rpc_buffer_t) (chunk : list byte)
  (m : machine) :
  chunk <> [] ->
  MAX_BUFFER_BYTES < len b + Z.of_nat (List.length chunk) ->
  rpc_buffer_append b chunk m = ((false, b), m).
Proof.
  intros Hne Hbig. unfold rpc_buffer_append.
  destruct (Z.eqb_spec (Z.of_nat (List.length chunk)) 0) as [E|E].
  { destruct chunk; [contradiction|discriminate]. }
  destruct (Z.gtb_spec (len b + Z.of_nat (List.length chunk)) MAX_BUFFER_BYTES);
    [reflexivity|lia].
Qed.

(** One call of [jsonrpc_conn_feed] on an open connection, within the
    cap of the buffer. *)
Lemma refines_feed (c : jsonrpc_conn_t U) (chunk : list byte) :
  closed c = false ->
  memchr_newline (bytes (inbound c)) = None ->
  len (inbound c) + Z.of_nat (List.length chunk) <= MAX_BUFFER_BYTES ->
  refines
    (fun r left =>
       exists c',
         r = Some c' /\ same_conn c c' /\
         bytes (inbound c') =
           leftover_bytes left
             (snd (split_lines (bytes (inbound c) ++ chunk))))
    (jsonrpc_conn_feed parse serialize (Some c) (Some chunk))
    (run_lines parse serialize (transport c) (callbacks c)
               (fst (split_lines (bytes (inbound c) ++ chunk)))).
Proof.
  intros Hopen Hdrained Hfit. unfold jsonrpc_conn_feed. rewrite Hopen.
  destruct chunk as [|x chunk].
  - cbn [List.length Z.of_nat Z.eqb orb]. rewrite app_nil_r.
    rewrite (split_lines_none _ Hdrained). cbn [fst snd run_lines].
    apply refines_ret. exists c. cbn. unfold same_conn. auto 10.
  - replace (Z.of_nat (List.length (x :: chunk)) =? 0) with false
      by (symmetry; apply Z.eqb_neq; cbn [List.length]; lia).
    cbn [orb].
    apply refines_machine_seq; [auto with calm|].
    apply refines_machine
      with (Q := fun r => exists b', r = (true, b') /\
                          bytes b' = bytes (inbound c) ++ x :: chunk).
    + auto with calm.
    + intros m Ho.
      destruct (@rpc_buffer_append_ok (inbound c) (x :: chunk) m Ho
                  ltac:(discriminate) Hfit) as (b' & E & Hb).
      exists b'. auto.
    + intros r (b' & -> & Hb). cbn [negb].
      pose proof (@refines_feed_loop (S (List.length (bytes b')))
                    (set_inbound b' c) ltac:(cbn; lia)) as H.
      cbn [set_inbound inbound transport callbacks] in H. rewrite <- Hb.
      eapply refines_weaken; [|exact H].
      intros r left ->. eexists. split; [reflexivity|].
      split; [unfold same_conn; cbn; auto 10|reflexivity].
Qed.

(** A chunk that does not fit in the buffer: the error, the close, and
    the chunk is not kept. *)
Lemma refines_feed_too_large (c : jsonrpc_conn_t U) (chunk : list byte) :
  closed c = false -> chunk <> [] ->
  MAX_BUFFER_BYTES < len (inbound c) + Z.of_nat (List.length chunk) ->
  refines
    (fun r (_ : unit) => r = Some c)
    (jsonrpc_conn_feed parse serialize (Some c) (Some chunk))
    (pbind (send_spec serialize (transport c)
              (error_reply None JSONRPC_ERR_INVALID_REQUEST
                 (Some "Request too large"%string)))
           (fun _ => close_spec (transport c))).
Proof.
  intros Hopen Hne Hbig. unfold jsonrpc_conn_feed. rewrite Hopen.
  replace (Z.of_nat (List.length chunk) =? 0) with false
    by (symmetry; apply Z.eqb_neq; destruct chunk;
        [contradiction|cbn [List.length]; lia]).
  cbn [orb].
  apply refines_machine_seq; [auto with calm|].
  apply refines_machine with (Q := fun r => r = (false, inbound c)).
  - auto with calm.
  - intros m _. unfold eval. now rewrite rpc_buffer_append_too_large.
  - intros r ->. cbn [negb].
    apply refines_bind with (RelA := eq).
    + apply (@refines_send_error U serialize (set_inbound (inbound c) c)).
    + intros sent ? <-.
      apply refines_ext with
        (p := pbind (close_spec (U := U) (transport c))
                    (fun x => pret x)).
      { intros u. unfold pbind, pret.
        destruct (close_spec (transport c) u) as [x [u1 e1]].
        now rewrite app_nil_r. }
      apply refines_bind with (RelA := eq);
        [apply refines_close_after|].
      intros ? ? _. apply refines_ret. now destruct c.
Qed.

Lemma feed_closed (c : jsonrpc_conn_t U) (chunk : option (list byte))
  (w : world U) :
  closed c = true ->
  jsonrpc_conn_feed parse serialize (Some c) chunk w = (Some c, w).
Proof.
  intros Hc. unfold jsonrpc_conn_feed. destruct chunk; [|reflexivity].
  rewrite Hc. now rewrite orb_true_r.
Qed.

Lemma feed_chunks_closed (c : jsonrpc_conn_t U) (chunks : list (list byte))
  (w : world U) :
  closed c = true ->
  feed_chunks parse serialize (Some c) chunks w = (Some c, w).
Proof.
  intros Hc. induction chunks as [|x xs IH]; [reflexivity|].
  cbn [feed_chunks]. rewrite bind_run, feed_closed by exact Hc. exact IH.
Qed.

(** *** Properties of the description *)

Lemma close_if_unsent_spec_true (tr : jsonrpc_transport_t) (sent : bool)
  (u u' : U) (ev : list event) :
  close_if_unsent_spec tr sent u = (true, (u', ev)) -> In EvClose ev.
Proof.
  unfold close_if_unsent_spec.
  destruct (negb sent && close tr); cbn; intros H; inversion H; subst.
  now left.
Qed.

Lemma message_cycle_true (tr : jsonrpc_transport_t)
  (cb : jsonrpc_callbacks_t U) (line : list byte) (u u' : U)
  (ev : list event) :
  message_cycle parse serialize tr cb line u = (true, (u', ev)) ->
  In EvClose ev.
Proof.
  unfold message_cycle.
  destruct (parse (c_bytes line)) as [req|]; unfold pbind.
  - destruct (answer_value cb req u) as [[r|] [u1 e1]].
    + destruct (send_spec serialize tr r u1) as [sent [u2 e2]].
      destruct (close_if_unsent_spec tr sent u2) as [cc [u3 e3]] eqn:E.
      intros H; inversion H; subst.
      apply close_if_unsent_spec_true in E.
      apply in_or_app. right. apply in_or_app. now right.
    + cbn. discriminate.
  - destruct (send_spec serialize tr _ u) as [sent [u2 e2]].
    destruct (close_if_unsent_spec tr sent u2) as [cc [u3 e3]] eqn:E.
    intros H; inversion H; subst.
    apply close_if_unsent_spec_true in E. apply in_or_app. now right.
Qed.

(** One step of [run_lines], with its cases named. *)
Lemma run_lines_cons (tr : jsonrpc_transport_t) (cb : jsonrpc_callbacks_t U)
  (raw : list byte) (rest : list (list byte)) (u : U) :
  run_lines parse serialize tr cb (raw :: rest) u =
    if Z.of_nat (List.length (strip_cr raw)) =? 0 then
      run_lines parse serialize tr cb rest u
    else if Z.of_nat (List.length (strip_cr raw)) >? MAX_MESSAGE_BYTES then
      let '(_, (u1, e1)) :=
        send_spec serialize tr
          (error_reply None JSONRPC_ERR_INVALID_REQUEST
             (Some "Request too large"%string)) u in
      let '(_, (u2, e2)) := close_spec tr u1 in
      (Some (raw :: rest), (u2, e1 ++ e2))
    else
      let '(cc, (u1, e1)) :=
        message_cycle parse serialize tr cb (strip_cr raw) u in
      if cc then (Some rest, (u1, e1))
      else
        let '(r, (u2, e2)) := run_lines parse serialize tr cb rest u1 in
        (r, (u2, e1 ++ e2)).
Proof.
  cbn [run_lines].
  destruct (Z.of_nat (List.length (strip_cr raw)) =? 0); [reflexivity|].
  destruct (Z.of_nat (List.length (strip_cr raw)) >? MAX_MESSAGE_BYTES).
  - unfold pbind, pret.
    destruct (send_spec serialize tr _ u) as [sent [u1 e1]].
    destruct (close_spec tr u1) as [[] [u2 e2]]. now rewrite app_nil_r.
  - unfold pbind, pret.
    destruct (message_cycle parse serialize tr cb (strip_cr raw) u)
      as [[|] [u1 e1]]; [now rewrite app_nil_r|reflexivity].
Qed.

Lemma run_lines_stopped_at_end (tr : jsonrpc_transport_t)
  (cb : jsonrpc_callbacks_t U) (ls : list (list byte)) :
  forall u u' ev,
    run_lines parse serialize tr cb ls u = (Some [], (u', ev)) ->
    In EvClose ev.
Proof.
  induction ls as [|raw rest IH]; intros u u' ev.
  - cbn. discriminate.
  - rewrite run_lines_cons.
    destruct (Z.of_nat (List.length (strip_cr raw)) =? 0); [apply IH|].
    destruct (Z.of_nat (List.length (strip_cr raw)) >? MAX_MESSAGE_BYTES).
    + destruct (send_spec serialize tr _ u) as [sent [u1 e1]].
      destruct (close_spec tr u1) as [[] [u2 e2]]. discriminate.
    + destruct (message_cycle parse serialize tr cb (strip_cr raw) u)
        as [[|] [u1 e1]] eqn:E.
      * intros H; inversion H; subst. eapply message_cycle_true; eauto.
      * destruct (run_lines parse serialize tr cb rest u1)
          as [r [u2 e2]] eqn:E2.
        intros H; inversion H; subst.
        apply in_or_app. right. eapply IH; eauto.
Qed.

Lemma run_lines_app (tr : jsonrpc_transport_t) (cb : jsonrpc_callbacks_t U)
  (l1 l2 : list (list byte)) :
  forall u u' ev,
    run_lines parse serialize tr cb (l1 ++ l2) u = (None, (u', ev)) ->
    exists u1 e1 e2,
      run_lines parse serialize tr cb l1 u = (None, (u1, e1)) /\
      run_lines parse serialize tr cb l2 u1 = (None, (u', e2)) /\
      ev = e1 ++ e2.
Proof.
  induction l1 as [|raw rest IH]; intros u u' ev.
  - cbn [app]. intros H. exists u, [], ev. auto.
  - cbn [app]. rewrite !run_lines_cons.
    destruct (Z.of_nat (List.length (strip_cr raw)) =? 0); [apply IH|].
    destruct (Z.of_nat (List.length (strip_cr raw)) >? MAX_MESSAGE_BYTES).
    + destruct (send_spec serialize tr _ u) as [sent [u1 e1]].
      destruct (close_spec tr u1) as [[] [u2 e2]]. discriminate.
    + destruct (message_cycle parse serialize tr cb (strip_cr raw) u)
        as [[|] [ua ea]]; [discriminate|].
      destruct (run_lines parse serialize tr cb (rest ++ l2) ua)
        as [r [ub eb]] eqn:E.
      intros H; inversion H; subst.
      destruct (IH _ _ _ E) as (u1 & e1 & e2 & H1 & H2 & ->).
      rewrite H1. exists u1, (ea ++ e1), e2.
      rewrite app_assoc. auto.
Qed.

Lemma split_lines_rest_length (buf : list byte) :
  (List.length (snd (split_lines buf)) <= List.length buf)%nat.
Proof.
  rewrite <- (join_split_lines buf) at 2.
  induction (fst (split_lines buf)) as [|l ls IH]; cbn [join_lines fold_right].
  - lia.
  - rewrite length_app. cbn [List.length].
    fold (join_lines ls (snd (split_lines buf))). lia.
Qed.


(** One call on a chunk that is not empty: the buffer need not be free
    of complete lines. *)
Lemma refines_feed_nonempty (c : jsonrpc_conn_t U) (chunk : list byte) :
  closed c = false -> chunk <> [] ->
  len (inbound c) + Z.of_nat (List.length chunk) <= MAX_BUFFER_BYTES ->
  refines
    (fun r left =>
       exists c',
         r = Some c' /\ same_conn c c' /\
         bytes (inbound c') =
           leftover_bytes left
             (snd (split_lines (bytes (inbound c) ++ chunk))))
    (jsonrpc_conn_feed parse serialize (Some c) (Some chunk))
    (run_lines parse serialize (transport c) (callbacks c)
               (fst (split_lines (bytes (inbound c) ++ chunk)))).
Proof.
  intros Hopen Hne Hfit. unfold jsonrpc_conn_feed. rewrite Hopen.
  destruct chunk as [|x chunk]; [contradiction|].
  replace (Z.of_nat (List.length (x :: chunk)) =? 0) with false
    by (symmetry; apply Z.eqb_neq; cbn [List.length]; lia).
  cbn [orb].
  apply refines_machine_seq; [auto with calm|].
  apply refines_machine
    with (Q := fun r => exists b', r = (true, b') /\
                        bytes b' = bytes (inbound c) ++ x :: chunk).
  - auto with calm.
  - intros m Ho.
    destruct (@rpc_buffer_append_ok (inbound c) (x :: chunk) m Ho
                ltac:(discriminate) Hfit) as (b' & E & Hb).
    exists b'. auto.
  - intros r (b' & -> & Hb). cbn [negb].
    pose proof (@refines_feed_loop (S (List.length (bytes b')))
                  (set_inbound b' c) ltac:(cbn; lia)) as H.
    cbn [set_inbound inbound transport callbacks] in H. rewrite <- Hb.
    eapply refines_weaken; [|exact H].
    intros r left ->. eexists. split; [reflexivity|].
    split; [unfold same_conn; cbn; auto 10|reflexivity].
Qed.

Lemma feed_chunks_cons (conn : option (jsonrpc_conn_t U))
  (chunk : list byte) (rest : list (list byte)) (w : world U) :
  feed_chunks parse serialize conn (chunk :: rest) w =
    feed_chunks parse serialize
      (eval (jsonrpc_conn_feed parse serialize conn (Some chunk)) w) rest
      (exec (jsonrpc_conn_feed parse serialize conn (Some chunk)) w).
Proof. cbn [feed_chunks]. now rewrite bind_run. Qed.

Lemma feed_chunks_all_empty (chunks : list (list byte))
  (c : jsonrpc_conn_t U) (w : world U) :
  List.concat chunks = [] ->
  feed_chunks parse serialize (Some c) chunks w = (Some c, w).
Proof.
  induction chunks as [|chunk rest IH]; [reflexivity|].
  cbn [List.concat]. intros H. apply app_eq_nil in H. destruct H as [-> H].
  rewrite feed_chunks_cons. now apply IH.
Qed.

(** Why the loop stops before the last line: it closed the transport,
    or it met a line that is too long, which it leaves in the buffer. *)
Lemma run_lines_left (tr : jsonrpc_transport_t) (cb : jsonrpc_callbacks_t U)
  (ls : list (list byte)) :
  forall u left u' ev,
    run_lines parse serialize tr cb ls u = (Some left, (u', ev)) ->
    In EvClose ev \/
    exists raw rest pre,
      left = raw :: rest /\ ls = pre ++ raw :: rest /\
      MAX_MESSAGE_BYTES < Z.of_nat (List.length (strip_cr raw)).
Proof.
  induction ls as [|raw rest IH]; intros u left u' ev.
  - cbn. discriminate.
  - rewrite run_lines_cons.
    destruct (Z.of_nat (List.length (strip_cr raw)) =? 0).
    { intros H. destruct (IH _ _ _ _ H)
        as [Hc|(raw' & rest' & pre & -> & -> & Hbig)]; [now left|].
      right. exists raw', rest', (raw :: pre). auto. }
    destruct (Z.gtb_spec (Z.of_nat (List.length (strip_cr raw)))
                MAX_MESSAGE_BYTES) as [Hbig|Hfit].
    + destruct (send_spec serialize tr _ u) as [sent [u1 e1]].
      destruct (close_spec tr u1) as [[] [u2 e2]].
      intros H; inversion H; subst. right. exists raw, rest, []. auto.
    + destruct (message_cycle parse serialize tr cb (strip_cr raw) u)
        as [[|] [u1 e1]] eqn:E.
      * intros H; inversion H; subst. left.
        eapply message_cycle_true; eauto.
      * destruct (run_lines parse serialize tr cb rest u1)
          as [r [u2 e2]] eqn:E2.
        intros H; inversion H; subst.
        destruct (IH _ _ _ _ E2)
          as [Hc|(raw' & rest' & pre & -> & -> & Hbig)].
        { left. apply in_or_app. now right. }
        right. exists raw', rest', (raw :: pre). auto.
Qed.

(** Lines that are all dispatched, then more lines. *)
Lemma run_lines_app_none (tr : jsonrpc_transport_t)
  (cb : jsonrpc_callbacks_t U) (l1 l2 : list (list byte)) :
  forall u u1 e1,
    run_lines parse serialize tr cb l1 u = (None, (u1, e1)) ->
    run_lines parse serialize tr cb (l1 ++ l2) u =
      (fst (run_lines parse serialize tr cb l2 u1),
       (fst (snd (run_lines parse serialize tr cb l2 u1)),
        e1 ++ snd (snd (run_lines parse serialize tr cb l2 u1)))).
Proof.
  induction l1 as [|raw rest IH]; intros u u1 e1.
  - cbn [run_lines pret app]. intros H; inversion H; subst.
    now destruct (run_lines parse serialize tr cb l2 u1) as [r [u2 e2]].
  - cbn [app]. rewrite !run_lines_cons.
    destruct (Z.of_nat (List.length (strip_cr raw)) =? 0); [apply IH|].
    destruct (Z.of_nat (List.length (strip_cr raw)) >? MAX_MESSAGE_BYTES).
    + destruct (send_spec serialize tr _ u) as [sent [ua ea]].
      destruct (close_spec tr ua) as [[] [ub eb]]. discriminate.
    + destruct (message_cycle parse serialize tr cb (strip_cr raw) u)
        as [[|] [ua ea]]; [discriminate|].
      destruct (run_lines parse serialize tr cb rest ua)
        as [r [ub eb]] eqn:E.
      intros H; inversion H; subst.
      rewrite (IH _ _ _ E).
      destruct (run_lines parse serialize tr cb l2 u1) as [r2 [u2 e2]].
      cbn [fst snd]. now rewrite app_assoc.
Qed.

(** A line that is too long at the head of the buffer stays there, and
    the calls made so far stay made. *)
Lemma feed_chunks_progress (chunks : list (list byte)) :
  forall (c : jsonrpc_conn_t U) (w : world U),
    oracle (mach w) = [] -> closed c = false ->
    chunks_fit parse serialize (Some c) chunks w = true ->
    exists cf ev,
      eval (feed_chunks parse serialize (Some c) chunks) w = Some cf /\
      trace (exec (feed_chunks parse serialize (Some c) chunks) w)
        = trace w ++ ev /\
      ((exists raw rest,
          fst (split_lines (bytes (inbound c))) = raw :: rest /\
          MAX_MESSAGE_BYTES < Z.of_nat (List.length (strip_cr raw))) ->
       memchr_newline (bytes (inbound cf)) <> None).
Proof.
  induction chunks as [|chunk rest IH]; intros c w Ho Hopen Hfit.
  - exists c, []. cbn [feed_chunks]. unfold eval, exec. cbn [ret fst snd].
    split; [reflexivity|]. split; [now rewrite app_nil_r|].
    intros (raw & rest & Hl & _) Hn.
    rewrite (split_lines_none _ Hn) in Hl. discriminate.
  - cbn [chunks_fit] in Hfit. apply andb_true_iff in Hfit.
    destruct Hfit as [Hfit1 Hfit2]. apply Z.leb_le in Hfit1.
    unfold eval, exec. rewrite feed_chunks_cons.
    destruct chunk as [|x chunk].
    { change (jsonrpc_conn_feed parse serialize (Some c) (Some []) w)
        with (Some c, w) in *.
      unfold eval, exec in Hfit2. cbn [fst snd] in Hfit2 |- *.
      exact (IH c w Ho Hopen Hfit2). }
    destruct (@refines_feed_nonempty c (x :: chunk) Hopen
                ltac:(discriminate) Hfit1 w Ho)
      as ((c' & Ec & Hsame & Hb) & Hu & Ht & Ho').
    rewrite Ec in Hfit2 |- *.
    set (w' := exec (jsonrpc_conn_feed parse serialize (Some c)
                       (Some (x :: chunk))) w) in *.
    assert (Hopen' : closed c' = false).
    { destruct Hsame as (_ & _ & _ & _ & Hcl & _). congruence. }
    destruct (IH c' w' Ho' Hopen' Hfit2) as (cf & ev & Ef & Htf & Hstuck).
    exists cf, (snd (snd (run_lines parse serialize (transport c)
                            (callbacks c)
                            (fst (split_lines
                                    (bytes (inbound c) ++ x :: chunk)))
                            (user w))) ++ ev).
    split; [exact Ef|]. split.
    { unfold exec in Htf. rewrite Htf, Ht. now rewrite app_assoc. }
    intros (raw & rest0 & Hl & Hbig). apply Hstuck.
    rewrite split_lines_app, Hl in Hb. cbn [fst snd app] in Hb.
    rewrite run_lines_cons in Hb.
    replace (Z.of_nat (List.length (strip_cr raw)) =? 0) with false in Hb
      by (symmetry; apply Z.eqb_neq; unfold MAX_MESSAGE_BYTES in Hbig; lia).
    replace (Z.of_nat (List.length (strip_cr raw)) >? MAX_MESSAGE_BYTES)
      with true in Hb by (symmetry; apply Z.gtb_lt; lia).
    destruct (send_spec serialize (transport c) _ (user w))
      as [sent [u1 e1]].
    destruct (close_spec (transport c) u1) as [[] [u2 e2]].
    cbn [fst leftover_bytes] in Hb.
    pose proof (split_lines_no_newline (bytes (inbound c) ++ x :: chunk))
      as Hnl.
    rewrite split_lines_app, Hl in Hnl. cbn [fst app] in Hnl.
    rewrite Hb, (split_join_lines _ Hnl). cbn [fst app].
    exists raw. eexists. split; [reflexivity|exact Hbig].
Qed.

(** Chunks fed one after the other, each fitting in the buffer when it
    arrives, when the lines of the whole stream are all dispatched. *)
Lemma feed_chunks_complete (chunks : list (list byte)) :
  forall (c : jsonrpc_conn_t U) (w : world U) (u' : U) (ev : list event),
    oracle (mach w) = [] -> closed c = false ->
    chunks_fit parse serialize (Some c) chunks w = true ->
    List.concat chunks <> [] \/ memchr_newline (bytes (inbound c)) = None ->
    run_lines parse serialize (transport c) (callbacks c)
      (fst (split_lines (bytes (inbound c) ++ List.concat chunks))) (user w)
      = (None, (u', ev)) ->
    exists c2,
      eval (feed_chunks parse serialize (Some c) chunks) w = Some c2 /\
      same_conn c c2 /\
      bytes (inbound c2) =
        snd (split_lines (bytes (inbound c) ++ List.concat chunks)) /\
      user (exec (feed_chunks parse serialize (Some c) chunks) w) = u' /\
      trace (exec (feed_chunks parse serialize (Some c) chunks) w)
        = trace w ++ ev.
Proof.
  induction chunks as [|chunk rest IH]; intros c w u' ev Ho Hopen Hfit Hpre Hrun.
  - destruct Hpre as [Hpre|Hdr]; [now contradiction Hpre|].
    cbn [List.concat feed_chunks] in *. rewrite app_nil_r in *.
    rewrite (split_lines_none _ Hdr) in *. cbn in Hrun. inversion Hrun; subst.
    exists c. cbn. rewrite app_nil_r. unfold same_conn. auto 10.
  - cbn [chunks_fit] in Hfit. apply andb_true_iff in Hfit.
    destruct Hfit as [Hfit1 Hfit2]. apply Z.leb_le in Hfit1.
    unfold eval, exec. rewrite feed_chunks_cons.
    destruct chunk as [|x chunk].
    { change (jsonrpc_conn_feed parse serialize (Some c) (Some []) w)
        with (Some c, w) in *.
      unfold eval, exec in Hfit2. cbn [fst snd List.concat app] in *.
      exact (IH c w u' ev Ho Hopen Hfit2 Hpre Hrun). }
    cbn [List.concat] in Hrun |- *.
    rewrite app_assoc, split_lines_app in Hrun. cbn [fst] in Hrun.
    apply run_lines_app in Hrun.
    destruct Hrun as (u1 & e1 & e2 & H1 & H2 & ->).
    destruct (@refines_feed_nonempty c (x :: chunk) Hopen
                ltac:(discriminate) Hfit1 w Ho)
      as ((c' & Ec' & Hsame & Hb') & Hu & Ht & Ho').
    rewrite H1 in Hb', Hu, Ht. cbn [fst snd leftover_bytes] in Hb', Hu, Ht.
    rewrite Ec' in Hfit2 |- *.
    destruct Hsame as (Hs1 & Htr & Hcb & Hs4 & Hcl & Hs6).
    destruct (IH c' (exec (jsonrpc_conn_feed parse serialize (Some c)
                             (Some (x :: chunk))) w) u' e2 Ho')
      as (c2 & E2 & Hsame2 & Hb2 & Hu2 & Ht2).
    + congruence.
    + exact Hfit2.
    + right. rewrite Hb'. apply split_lines_rest_none.
    + rewrite Htr, Hcb, Hb', Hu. exact H2.
    + exists c2. unfold eval, exec in *.
      split; [exact E2|]. split.
      { destruct Hsame2 as (? & ? & ? & ? & ? & ?).
        unfold same_conn. repeat split; congruence. }
      split.
      { rewrite Hb2, Hb'. rewrite (app_assoc (bytes (inbound c))).
        now rewrite (split_lines_app (bytes (inbound c) ++ x :: chunk)). }
      split; [exact Hu2|]. rewrite Ht2, Ht. now rewrite app_assoc.
Qed.

(** Chunks fed one after the other, each fitting in the buffer when it
    arrives: when the run has not closed the transport and ends with no
    complete line in the buffer, no call of it returned before the last
    line. *)
Lemma feed_chunks_dispatched (chunks : list (list byte)) :
  forall (c cf : jsonrpc_conn_t U) (w : world U),
    oracle (mach w) = [] -> closed c = false ->
    chunks_fit parse serialize (Some c) chunks w = true ->
    List.concat chunks <> [] \/ memchr_newline (bytes (inbound c)) = None ->
    eval (feed_chunks parse serialize (Some c) chunks) w = Some cf ->
    memchr_newline (bytes (inbound cf)) = None ->
    ~ In EvClose (trace (exec (feed_chunks parse serialize (Some c) chunks) w)) ->
    fst (run_lines parse serialize (transport c) (callbacks c)
           (fst (split_lines (bytes (inbound c) ++ List.concat chunks)))
           (user w)) = None.
Proof.
  induction chunks as [|chunk rest IH];
    intros c cf w Ho Hopen Hfit Hpre Hcf Hdrf Hnc.
  - destruct Hpre as [Hpre|Hdr]; [now contradiction Hpre|].
    cbn [List.concat]. rewrite app_nil_r, (split_lines_none _ Hdr).
    reflexivity.
  - cbn [chunks_fit] in Hfit. apply andb_true_iff in Hfit.
    destruct Hfit as [Hfit1 Hfit2]. apply Z.leb_le in Hfit1.
    unfold eval, exec in Hcf, Hnc. rewrite feed_chunks_cons in Hcf, Hnc.
    destruct chunk as [|x chunk].
    { change (jsonrpc_conn_feed parse serialize (Some c) (Some []) w)
        with (Some c, w) in *.
      unfold eval, exec in Hfit2, Hcf, Hnc.
      cbn [fst snd List.concat app] in *.
      exact (IH c cf w Ho Hopen Hfit2 Hpre Hcf Hdrf Hnc). }
    cbn [List.concat].
    rewrite app_assoc, split_lines_app. cbn [fst].
    destruct (@refines_feed_nonempty c (x :: chunk) Hopen
                ltac:(discriminate) Hfit1 w Ho)
      as ((c' & Ec' & Hsame & Hb') & Hu & Ht & Ho').
    rewrite Ec' in Hfit2, Hcf, Hnc.
    set (w' := exec (jsonrpc_conn_feed parse serialize (Some c)
                       (Some (x :: chunk))) w) in *.
    destruct (run_lines parse serialize (transport c) (callbacks c)
                (fst (split_lines (bytes (inbound c) ++ x :: chunk)))
                (user w)) as [left [u1 e1]] eqn:H1.
    cbn [fst snd] in Hb', Hu, Ht.
    destruct Hsame as (Hs1 & Htr & Hcb & Hs4 & Hcl & Hs6).
    assert (Hopen' : closed c' = false) by congruence.
    destruct (feed_chunks_progress rest c' w' Ho' Hopen' Hfit2)
      as (cf' & ev & Ef & Htf & Hstuck).
    unfold eval, exec in Ef, Htf.
    assert (cf' = cf) by congruence. subst cf'.
    destruct left as [ls|].
    + exfalso.
      destruct (run_lines_left _ _ _ _ H1)
        as [Hc|(raw & rest' & pre & -> & Hls & Hbig)].
      * apply Hnc. rewrite Htf, Ht.
        apply in_or_app. left. apply in_or_app. now right.
      * apply Hstuck; [|exact Hdrf].
        pose proof (split_lines_no_newline (bytes (inbound c) ++ x :: chunk))
          as Hnl.
        rewrite Hls in Hnl. apply Forall_app in Hnl. destruct Hnl as [_ Hnl].
        cbn [leftover_bytes] in Hb'.
        rewrite Hb', (split_join_lines _ Hnl). cbn [fst app].
        exists raw. eexists. split; [reflexivity|exact Hbig].
    + cbn [leftover_bytes] in Hb'.
      rewrite (run_lines_app_none _ _ _ _ _ H1). cbn [fst].
      pose proof (IH c' cf w' Ho' Hopen' Hfit2) as IHc.
      rewrite Htr, Hcb, Hb', Hu in IHc. apply IHc.
      * right. apply split_lines_rest_none.
      * exact Hcf.
      * exact Hdrf.
      * exact Hnc.
Qed.

(** C3, amended: two ways of delivering one stream in chunks give the
    same calls on the transport and the handlers, hence the same
    responses in the same order, the same handler state and the same
    buffered rest, whatever the length of the stream, provided that no
    allocation fails, that in both deliveries every chunk fits in the
    inbound buffer when it arrives, and that the first delivery
    dispatches every complete line: it ends with no newline in the
    buffer and has not closed the transport. *)
Theorem feed_chunking_independent (c : jsonrpc_conn_t U) (w : world U)
  (chunks1 chunks2 : list (list byte)) :
  let run1 := feed_chunks parse serialize (Some c) chunks1 in
  let run2 := feed_chunks parse serialize (Some c) chunks2 in
  oracle (mach w) = [] ->
  List.concat chunks1 = List.concat chunks2 ->
  chunks_fit parse serialize (Some c) chunks1 w = true ->
  chunks_fit parse serialize (Some c) chunks2 w = true ->
  (exists c1, eval run1 w = Some c1 /\
              memchr_newline (bytes (inbound c1)) = None) ->
  ~ In EvClose (trace (exec run1 w)) ->
  trace (exec run2 w) = trace (exec run1 w) /\
  sent_bytes (trace (exec run2 w)) = sent_bytes (trace (exec run1 w)) /\
  user (exec run2 w) = user (exec run1 w) /\
  exists c1 c2,
    eval run1 w = Some c1 /\ eval run2 w = Some c2 /\
    bytes (inbound c2) = bytes (inbound c1).
Proof.
  intros run1 run2 Ho Hcat Hfit1 Hfit2 (c1 & E1 & Hc1) Hnc.
  destruct (closed c) eqn:Hopen.
  { subst run1 run2. unfold eval, exec in *.
    rewrite !feed_chunks_closed by exact Hopen.
    cbn. repeat split. exists c, c. auto. }
  destruct (list_eq_dec Byte.byte_eq_dec (List.concat chunks1) [])
    as [Hnil|Hne].
  { subst run1 run2. unfold eval, exec in *.
    rewrite (feed_chunks_all_empty chunks1 c w Hnil).
    rewrite (feed_chunks_all_empty chunks2 c w) by congruence.
    cbn. repeat split. exists c, c. auto. }
  pose proof (feed_chunks_dispatched chunks1 c w Ho Hopen Hfit1
                (or_introl Hne) E1 Hc1 Hnc) as Hall.
  destruct (run_lines parse serialize (transport c) (callbacks c)
              (fst (split_lines (bytes (inbound c) ++ List.concat chunks1)))
              (user w)) as [left [u1 ev]] eqn:ERL.
  cbn [fst] in Hall. subst left.
  destruct (@feed_chunks_complete chunks1 c w u1 ev Ho Hopen Hfit1
              (or_introl Hne) ERL)
    as (d1 & D1 & _ & Hb1 & Hu1 & Ht1).
  rewrite Hcat in ERL, Hne.
  destruct (@feed_chunks_complete chunks2 c w u1 ev Ho Hopen Hfit2
              (or_introl Hne) ERL)
    as (d2 & D2 & _ & Hb2 & Hu2 & Ht2).
  fold run1 in D1, Hu1, Ht1. fold run2 in D2, Hu2, Ht2.
  rewrite Ht2, Ht1, Hu2, Hu1. repeat split.
  exists d1, d2. repeat split; auto. rewrite Hb2, Hb1. now rewrite Hcat.
Qed.

(** C4: a line of exactly [MAX_MESSAGE_BYTES] bytes goes through the
    message cycle like any other line and is consumed; a line one byte
    longer gets the error -32600 [Request too large], the transport is
    closed, and nothing else is processed: no handler runs, whatever
    follows the line. *)
Theorem message_size_boundary (c : jsonrpc_conn_t U) (w : world U)
  (line : list byte) :
  oracle (mach w) = [] -> closed c = false -> bytes (inbound c) = [] ->
  memchr_newline line = None -> strip_cr line = line ->
  (Z.of_nat (List.length line) = MAX_MESSAGE_BYTES ->
   let run := jsonrpc_conn_feed parse serialize (Some c)
                (Some (line ++ [newline])) in
   let cycle := message_cycle parse serialize (transport c) (callbacks c)
                  line (user w) in
   trace (exec run w) = trace w ++ snd (snd cycle) /\
   user (exec run w) = fst (snd cycle) /\
   exists c', eval run w = Some c' /\ bytes (inbound c') = []) /\
  (Z.of_nat (List.length line) = MAX_MESSAGE_BYTES + 1 ->
   forall (rest s : list byte),
     send_raw (transport c) = true -> close (transport c) = true ->
     serialize (error_envelope JSONNull JSONRPC_ERR_INVALID_REQUEST
                  "Request too large") = Some s ->
     Z.of_nat (List.length s) + 1 <= SIZE_MAX - JSONRPC_ALLOC_HEADER_BYTES ->
     let run := jsonrpc_conn_feed parse serialize (Some c)
                  (Some (line ++ newline :: rest)) in
     trace (exec run w) = trace w ++ [EvSendRaw (s ++ [newline]); EvClose] /\
     user (exec run w) = user w).
Proof.
  intros Ho Hopen Hempty Hline Hcr.
  assert (Hdr : memchr_newline (bytes (inbound c)) = None)
    by now rewrite Hempty.
  split.
  - intros Hlen run cycle.
    assert (Hfit : len (inbound c) + Z.of_nat (List.length (line ++ [newline]))
                   <= MAX_BUFFER_BYTES).
    { unfold len. rewrite Hempty, length_app. cbn [List.length].
      unfold MAX_BUFFER_BYTES, MAX_MESSAGE_BYTES in *. lia. }
    destruct (@refines_feed c (line ++ [newline]) Hopen Hdr Hfit w Ho)
      as ((c' & Ec' & _ & Hb') & Hu & Ht & _).
    fold run in Ec', Hu, Ht.
    rewrite Hempty in Hb', Hu, Ht. cbn [app] in Hb', Hu, Ht.
    rewrite (@split_lines_line line [] Hline) in Hb', Hu, Ht.
    cbn [split_lines fst snd] in Hb', Hu, Ht.
    rewrite run_lines_cons, Hcr in Hb', Hu, Ht.
    replace (Z.of_nat (List.length line) =? 0) with false in Hb', Hu, Ht
      by (symmetry; apply Z.eqb_neq; unfold MAX_MESSAGE_BYTES in *; lia).
    replace (Z.of_nat (List.length line) >? MAX_MESSAGE_BYTES) with false
      in Hb', Hu, Ht by (symmetry; rewrite Z.gtb_ltb; apply Z.ltb_ge; lia).
    fold cycle in Hb', Hu, Ht.
    destruct cycle as [[|] [u1 e1]]; cbn in Hb', Hu, Ht |- *.
    + rewrite Ht, Hu. repeat split. exists c'. auto.
    + rewrite app_nil_r in Ht. rewrite Ht, Hu. repeat split. exists c'. auto.
  - intros Hlen rest s Hsend Hclose Hser Hsize run.
    assert (Hspec :
      forall u : U,
        send_spec serialize (transport c)
          (error_reply None JSONRPC_ERR_INVALID_REQUEST
             (Some "Request too large"%string)) u
        = (true, (u, [EvSendRaw (s ++ [newline])]))).
    { intros u. unfold send_spec, error_reply, copied_id.
      rewrite Hsend, Hser.
      destruct (Z.gtb_spec (Z.of_nat (List.length s) + 1)
                  (SIZE_MAX - JSONRPC_ALLOC_HEADER_BYTES)); [lia|].
      reflexivity. }
    assert (Hcls : forall u : U, close_spec (transport c) u = (tt, (u, [EvClose]))).
    { intros u. unfold close_spec. now rewrite Hclose. }
    destruct (Z.le_gt_cases
                (len (inbound c)
                 + Z.of_nat (List.length (line ++ newline :: rest)))
                MAX_BUFFER_BYTES) as [Hfit|Hbig].
    + destruct (@refines_feed c (line ++ newline :: rest) Hopen Hdr Hfit w Ho)
        as (_ & Hu & Ht & _).
      fold run in Hu, Ht.
      rewrite Hempty in Hu, Ht. cbn [app] in Hu, Ht.
      rewrite (@split_lines_line line rest Hline) in Hu, Ht.
      cbn [fst] in Hu, Ht.
      rewrite run_lines_cons, Hcr in Hu, Ht.
      replace (Z.of_nat (List.length line) =? 0) with false in Hu, Ht
        by (symmetry; apply Z.eqb_neq; unfold MAX_MESSAGE_BYTES in *; lia).
      replace (Z.of_nat (List.length line) >? MAX_MESSAGE_BYTES) with true
        in Hu, Ht by (symmetry; rewrite Z.gtb_ltb; apply Z.ltb_lt; lia).
      rewrite Hspec, Hcls in Hu, Ht. cbn in Hu, Ht. auto.
    + subst run. unfold jsonrpc_conn_feed. rewrite Hopen.
      replace (Z.of_nat (List.length (line ++ newline :: rest)) =? 0)
        with false
        by (symmetry; apply Z.eqb_neq; rewrite length_app;
            cbn [List.length]; lia).
      cbn [orb].
      pose proof (@refines_feed_too_large c (line ++ newline :: rest) Hopen
                    ltac:(destruct line; discriminate) Hbig) as R.
      unfold jsonrpc_conn_feed in R. rewrite Hopen in R.
      replace (Z.of_nat (List.length (line ++ newline :: rest)) =? 0)
        with false in R
        by (symmetry; apply Z.eqb_neq; rewrite length_app;
            cbn [List.length]; lia).
      cbn [orb] in R.
      destruct (R w Ho) as (_ & Hu & Ht & _).
      unfold pbind in Hu, Ht. rewrite Hspec, Hcls in Hu, Ht.
      cbn in Hu, Ht. auto.
Qed.


(** An empty line, then a chunk without a newline: nothing is called. *)
Lemma feed_empty_line_then_partial (c : jsonrpc_conn_t U) (w : world U)
  (tail : list byte) :
  oracle (mach w) = [] -> closed c = false -> bytes (inbound c) = [] ->
  memchr_newline tail = None ->
  Z.of_nat (List.length tail) <= MAX_BUFFER_BYTES ->
  trace (exec (feed_chunks parse serialize (Some c) [[newline]; tail]) w)
    = trace w.
Proof.
  intros Ho Hopen Hempty Htail Hfit.
  assert (Hdr : memchr_newline (bytes (inbound c)) = None)
    by now rewrite Hempty.
  destruct (@refines_feed c [newline] Hopen Hdr
              ltac:(unfold len; rewrite Hempty; cbn; unfold MAX_BUFFER_BYTES; lia)
              w Ho)
    as ((c1 & E1 & Hsame & Hb1) & _ & Ht1 & Ho1).
  rewrite Hempty in Hb1, Ht1.
  change (split_lines ([] ++ [newline])) with ([@nil byte], @nil byte)
    in Hb1, Ht1.
  cbn [fst snd] in Hb1, Ht1.
  change (run_lines parse serialize (transport c) (callbacks c) [[]] (user w))
    with (@None (list (list byte)), (user w, @nil event)) in Hb1, Ht1.
  cbn [fst snd leftover_bytes] in Hb1, Ht1. rewrite app_nil_r in Ht1.
  destruct Hsame as (_ & _ & _ & _ & Hcl & _).
  destruct (@refines_feed c1 tail ltac:(congruence)
              ltac:(now rewrite Hb1)
              ltac:(unfold len; rewrite Hb1; cbn [List.length Z.of_nat]; lia)
              _ Ho1)
    as (_ & _ & Ht2 & _).
  rewrite Hb1 in Ht2. cbn [app] in Ht2.
  rewrite (split_lines_none _ Htail) in Ht2.
  cbn [fst snd run_lines pret] in Ht2. rewrite app_nil_r in Ht2.
  cbn [feed_chunks]. unfold eval, exec in *.
  rewrite !bind_run. rewrite E1. cbn [ret snd]. congruence.
Qed.


(** *** The loop terminates

    Whatever the allocator and the handlers do, the fuel
    [jsonrpc_conn_feed] gives the loop is enough. *)

Lemma feed_loop_returns (fuel : nat) :
  forall (c : jsonrpc_conn_t U) (w : world U),
    (List.length (bytes (inbound c)) < fuel)%nat ->
    eval (feed_loop parse serialize fuel c) w <> None.
Proof.
  induction fuel as [|fuel IH]; intros c w Hlen; [lia|].
  cbn [feed_loop].
  destruct (memchr_newline (bytes (inbound c))) as [i|] eqn:Hnl;
    [|discriminate].
  destruct (memchr_newline_some _ Hnl) as (raw & rest & Hb & -> & _).
  assert (Hshort :
    forall w',
      fst (feed_loop parse serialize fuel
             (set_inbound
                (rpc_buffer_consume (inbound c)
                   (Z.of_nat (List.length raw) + 1)) c) w') <> None).
  { intros w'. apply IH. cbn [set_inbound inbound].
    rewrite (rpc_buffer_consume_line _ _ _ Hb). cbn [bytes].
    rewrite Hb, length_app in Hlen. cbn [List.length] in Hlen. lia. }
  cbv zeta. unfold eval.
  destruct (_ =? 0); [apply Hshort|].
  destruct (_ >? MAX_MESSAGE_BYTES).
  { rewrite !bind_run. discriminate. }
  repeat first
    [ rewrite bind_run
    | apply Hshort
    | discriminate
    | match goal with
      | |- context [match ?x with _ => _ end] => destruct x
      end ].
Qed.

Lemma jsonrpc_conn_feed_returns (c : jsonrpc_conn_t U)
  (chunk : option (list byte)) (w : world U) :
  eval (jsonrpc_conn_feed parse serialize (Some c) chunk) w <> None.
Proof.
  unfold jsonrpc_conn_feed, eval.
  destruct chunk as [d|]; [|discriminate].
  destruct (_ || _); [discriminate|].
  rewrite !bind_run.
  destruct (fst (liftH (rpc_buffer_append (inbound c) d) _)) as [[|] b];
    cbn [negb].
  - apply feed_loop_returns. cbn [set_inbound inbound]. lia.
  - rewrite !bind_run. discriminate.
Qed.

(** *** What a line puts on the wire *)

Lemma sent_lines_app (a b : list event) :
  sent_lines (a ++ b) = sent_lines a ++ sent_lines b.
Proof. apply flat_map_app. Qed.

Lemma answer_object_silent (cb : jsonrpc_callbacks_t U)
  (v : option JSON_Value) (u : U) :
  sent_lines (snd (snd (answer_object cb v u))) = [].
Proof.
  unfold answer_object, pret.
  repeat match goal with
         | |- context [match ?x with _ => _ end] => destruct x
         end; reflexivity.
Qed.

Lemma answer_items_silent (cb : jsonrpc_callbacks_t U)
  (items : list JSON_Value) :
  forall u, sent_lines (snd (snd (answer_items cb items u))) = [].
Proof.
  induction items as [|item rest IH]; intros u; [reflexivity|].
  cbn [answer_items]. unfold pbind, pret.
  pose proof (answer_object_silent cb (Some item) u) as H1.
  destruct (answer_object cb (Some item) u) as [r [u1 e1]].
  specialize (IH u1).
  destruct (answer_items cb rest u1) as [rs [u2 e2]].
  cbn [fst snd] in *. now rewrite !sent_lines_app, H1, IH.
Qed.

Lemma answer_value_silent (cb : jsonrpc_callbacks_t U) (v : JSON_Value)
  (u : U) :
  sent_lines (snd (snd (answer_value cb v u))) = [].
Proof.
  destruct v as [| | | |items|]; try apply answer_object_silent.
  destruct items as [|item rest]; [reflexivity|].
  unfold answer_value, pbind, pret.
  pose proof (answer_items_silent cb (item :: rest) u) as H.
  destruct (answer_items cb (item :: rest) u) as [rs [u1 e1]].
  cbn [fst snd] in *. now rewrite sent_lines_app, H.
Qed.

Lemma send_then_close_lines (tr : jsonrpc_transport_t) (r : JSON_Value)
  (u : U) :
  sent_lines
    (snd (snd (pbind (send_spec serialize tr r) (close_if_unsent_spec tr) u)))
  = on_wire serialize tr r.
Proof.
  unfold pbind, send_spec, on_wire, close_if_unsent_spec, pcall, pret.
  destruct (send_raw tr); [|now destruct (close tr)].
  destruct (serialize r) as [s|]; [|now destruct (close tr)].
  destruct (Z.of_nat (List.length s) + 1 >?
            SIZE_MAX - JSONRPC_ALLOC_HEADER_BYTES);
    [now destruct (close tr)|reflexivity].
Qed.

Lemma message_cycle_lines (tr : jsonrpc_transport_t)
  (cb : jsonrpc_callbacks_t U) (line : list byte) (req : JSON_Value) (u : U) :
  parse (c_bytes line) = Some req ->
  sent_lines (snd (snd (message_cycle parse serialize tr cb line u))) =
    match fst (answer_value cb req u) with
    | Some r => on_wire serialize tr r
    | None => []
    end.
Proof.
  intros Hp. unfold message_cycle. rewrite Hp. unfold pbind at 1.
  pose proof (answer_value_silent cb req u) as H.
  destruct (answer_value cb req u) as [[r|] [u1 e1]]; cbn [fst snd] in *.
  - pose proof (send_then_close_lines tr r u1) as H2.
    destruct (pbind (send_spec serialize tr r) (close_if_unsent_spec tr) u1)
      as [cc [u2 e2]].
    cbn [fst snd] in *. now rewrite sent_lines_app, H, H2.
  - cbn. now rewrite sent_lines_app, H.
Qed.

(** One line fed to an open connection with an empty buffer: the
    dispatcher's response, if any, is what goes on the wire. *)
Lemma feed_line_sends (c : jsonrpc_conn_t U) (w : world U)
  (line : list byte) (req : JSON_Value) :
  oracle (mach w) = [] -> closed c = false -> bytes (inbound c) = [] ->
  memchr_newline line = None -> strip_cr line = line ->
  0 < Z.of_nat (List.length line) <= MAX_MESSAGE_BYTES ->
  parse (c_bytes line) = Some req ->
  sent_lines
    (trace (exec (jsonrpc_conn_feed parse serialize (Some c)
                    (Some (line ++ [newline]))) w))
  = sent_lines (trace w) ++
    match eval (jsonrpc_process_value c (Some req)) w with
    | Some r => on_wire serialize (transport c) r
    | None => []
    end.
Proof.
  intros Ho Hopen Hempty Hline Hcr Hlen Hp.
  assert (Hdr : memchr_newline (bytes (inbound c)) = None)
    by now rewrite Hempty.
  assert (Hfit : len (inbound c) + Z.of_nat (List.length (line ++ [newline]))
                 <= MAX_BUFFER_BYTES).
  { unfold len. rewrite Hempty, length_app. cbn [List.length].
    unfold MAX_BUFFER_BYTES, MAX_MESSAGE_BYTES in *. lia. }
  destruct (@refines_feed c (line ++ [newline]) Hopen Hdr Hfit w Ho)
    as (_ & _ & Ht & _).
  rewrite Hempty in Ht. cbn [app] in Ht.
  rewrite (@split_lines_line line [] Hline) in Ht.
  cbn [split_lines fst snd] in Ht.
  rewrite run_lines_cons, Hcr in Ht.
  replace (Z.of_nat (List.length line) =? 0) with false in Ht
    by (symmetry; apply Z.eqb_neq; lia).
  replace (Z.of_nat (List.length line) >? MAX_MESSAGE_BYTES) with false
    in Ht by (symmetry; rewrite Z.gtb_ltb; apply Z.ltb_ge; lia).
  destruct (refines_process_value c req w Ho) as (Hr & _).
  rewrite Hr, Ht, sent_lines_app.
  rewrite <- (@message_cycle_lines (transport c) (callbacks c) line req
                (user w) Hp).
  destruct (message_cycle parse serialize (transport c) (callbacks c) line
              (user w)) as [[|] [u1 e1]]; cbn [fst snd run_lines pret].
  - reflexivity.
  - now rewrite app_nil_r.
Qed.

(** C1: a line that parses to a valid request with id [i] makes the
    dispatcher return one response object whose id is [i], and
    [jsonrpc_conn_feed] hands [send_raw] exactly one line, the text of
    that response; a line that parses to a valid notification makes the
    dispatcher return nothing, and nothing is sent. *)
Theorem request_gets_one_response (c : jsonrpc_conn_t U) (w : world U)
  (line : list byte) (ms : list (string * JSON_Value)) :
  oracle (mach w) = [] -> closed c = false -> bytes (inbound c) = [] ->
  memchr_newline line = None -> strip_cr line = line ->
  0 < Z.of_nat (List.length line) <= MAX_MESSAGE_BYTES ->
  parse (c_bytes line) = Some (JSONObject ms) ->
  let run := jsonrpc_conn_feed parse serialize (Some c)
               (Some (line ++ [newline])) in
  (forall i, valid_request ms i ->
     exists reply,
       eval (jsonrpc_process_value c (Some (JSONObject ms))) w = Some reply /\
       json_value_get_type (Some reply) = JSONObject_t /\
       response_id reply = Some i /\
       forall s,
         send_raw (transport c) = true -> serialize reply = Some s ->
         Z.of_nat (List.length s) + 1
           <= SIZE_MAX - JSONRPC_ALLOC_HEADER_BYTES ->
         sent_lines (trace (exec run w))
           = sent_lines (trace w) ++ [s ++ [newline]]) /\
  (valid_notification ms ->
     eval (jsonrpc_process_value c (Some (JSONObject ms))) w = None /\
     sent_lines (trace (exec run w)) = sent_lines (trace w)).
Proof.
  intros Ho Hopen Hempty Hline Hcr Hlen Hp run. subst run.
  rewrite (feed_line_sends c w Ho Hopen Hempty Hline Hcr Hlen Hp).
  destruct (process_value_valid_object c w ms Ho) as (Hreq & Hnot).
  unfold eval. split.
  - intros i Hi. destruct (Hreq i Hi) as (reply & w' & E & Hty & Hid).
    exists reply. rewrite E. cbn [fst].
    repeat split; auto.
    intros s Hraw Hs Hsz. unfold on_wire. rewrite Hraw, Hs.
    destruct (Z.gtb_spec (Z.of_nat (List.length s) + 1)
                (SIZE_MAX - JSONRPC_ALLOC_HEADER_BYTES)); [lia|reflexivity].
  - intros Hn. destruct (Hnot Hn) as (w' & E). rewrite E. cbn [fst].
    now rewrite app_nil_r.
Qed.

(** C2: a line that parses to an empty array is answered by one line,
    the Invalid Request error with a null id; a line that parses to a
    batch of [n] valid requests and notifications, [k] of them requests,
    is answered by one line, the array of the [k] response objects in
    the order of their requests, and by nothing at all when [k = 0]. *)
Theorem batch_responses (c : jsonrpc_conn_t U) (w : world U)
  (line : list byte) (items : list JSON_Value) :
  oracle (mach w) = [] -> closed c = false -> bytes (inbound c) = [] ->
  memchr_newline line = None -> strip_cr line = line ->
  0 < Z.of_nat (List.length line) <= MAX_MESSAGE_BYTES ->
  parse (c_bytes line) = Some (JSONArray items) ->
  let run := jsonrpc_conn_feed parse serialize (Some c)
               (Some (line ++ [newline])) in
  let reply := eval (jsonrpc_process_value c (Some (JSONArray items))) w in
  let sent r :=
    sent_lines (trace (exec run w))
      = sent_lines (trace w) ++ on_wire serialize (transport c) r in
  (items = [] ->
   reply = Some (error_envelope JSONNull JSONRPC_ERR_INVALID_REQUEST
                   "Invalid Request") /\
   sent (error_envelope JSONNull JSONRPC_ERR_INVALID_REQUEST
           "Invalid Request")) /\
  (items <> [] -> Forall valid_item items ->
   (List.length (request_ids items) <= List.length items)%nat /\
   (request_ids items = [] ->
    reply = None /\
    sent_lines (trace (exec run w)) = sent_lines (trace w)) /\
   (request_ids items <> [] ->
    exists replies,
      reply = Some (JSONArray replies) /\
      List.length replies = List.length (request_ids items) /\
      Forall (fun r => json_value_get_type (Some r) = JSONObject_t) replies /\
      map response_id replies = map Some (request_ids items) /\
      sent (JSONArray replies))).
Proof.
  intros Ho Hopen Hempty Hline Hcr Hlen Hp run reply sent.
  subst run reply sent. cbv beta.
  rewrite (feed_line_sends c w Ho Hopen Hempty Hline Hcr Hlen Hp).
  split.
  - intros ->.
    destruct (process_value_batch c w [] Ho) as (E & _).
    rewrite E. auto.
  - intros Hne Hall.
    destruct (process_value_batch c w items Ho) as (_ & H).
    destruct (H Hne Hall) as (Hk & Hzero & Hsome).
    split; [exact Hk|]. split.
    + intros Hz. rewrite (Hzero Hz). now rewrite app_nil_r.
    + intros Hnz. destruct (Hsome Hnz) as (replies & E & L & Hobj & Hids).
      exists replies. rewrite E. auto.
Qed.

End Framer.

(** ** Examples *)

Lemma filler_length (n : Z) :
  0 <= n -> Z.of_nat (List.length (filler n)) = n.
Proof. intros Hn. unfold filler. rewrite repeat_length. now apply Z2Nat.id. Qed.

Lemma memchr_newline_repeat (n : nat) : memchr_newline (repeat x61 n) = None.
Proof.
  induction n as [|n IH]; [reflexivity|].
  cbn [repeat memchr_newline]. now rewrite IH.
Qed.

Lemma memchr_newline_filler (n : Z) : memchr_newline (filler n) = None.
Proof. apply memchr_newline_repeat. Qed.

Lemma strip_cr_filler (n : Z) : strip_cr (filler n) = filler n.
Proof.
  unfold strip_cr, filler. rewrite rev_repeat.
  now destruct (Z.to_nat n).
Qed.

Lemma concat_pair (a b : list byte) : List.concat [a; b] = a ++ b.
Proof. cbn [List.concat]. now rewrite app_nil_r. Qed.

Lemma request_gets_one_response_witness :
  oracle (mach toy_world) = [] /\
  toy_parse (c_bytes ping_text) = Some (JSONObject ping_members) /\
  valid_request ping_members (JSONNumber (double_of_int32 7)) /\
  sent_lines
    (trace (exec (jsonrpc_conn_feed toy_parse toy_serialize (Some toy_conn)
                    (Some (ping_text ++ [newline]))) toy_world))
  = [toy_render (result_envelope (JSONNumber (double_of_int32 7))
                   (JSONString "pong")) ++ [newline]].
Proof.
  assert (H : valid_request ping_members (JSONNumber (double_of_int32 7))).
  { unfold valid_request. repeat split; try reflexivity.
    eexists. reflexivity. }
  split; [reflexivity|]. split; [reflexivity|]. split; [exact H|].
  destruct (proj1 (@request_gets_one_response _ toy_parse toy_serialize
                     toy_conn toy_world ping_text ping_members
                     eq_refl eq_refl eq_refl eq_refl eq_refl
                     ltac:(vm_compute; split; [reflexivity|discriminate])
                     eq_refl)
              _ H) as (reply & E & _ & _ & Hs).
  vm_compute in E. injection E as <-.
  apply (Hs _ eq_refl eq_refl).
  apply Z.leb_le. vm_compute. reflexivity.
Defined.

Lemma batch_responses_witness :
  oracle (mach toy_world) = [] /\
  toy_parse (c_bytes batch_text) = Some (JSONArray toy_batch) /\
  Forall valid_item toy_batch /\
  exists replies,
    eval (jsonrpc_process_value toy_conn (Some (JSONArray toy_batch))) toy_world
      = Some (JSONArray replies) /\
    List.length replies = 2%nat /\
    map response_id replies =
      [Some (JSONNumber (double_of_int32 7)); Some (JSONString "s1")] /\
    sent_lines
      (trace (exec (jsonrpc_conn_feed toy_parse toy_serialize (Some toy_conn)
                      (Some (batch_text ++ [newline]))) toy_world))
    = [toy_render (JSONArray replies) ++ [newline]].
Proof.
  assert (H : Forall valid_item toy_batch).
  { unfold toy_batch.
    apply Forall_cons; [|apply Forall_cons; [|apply Forall_cons;
                                               [|apply Forall_nil]]].
    - left. eexists. unfold valid_request. repeat split; try reflexivity.
      eexists. reflexivity.
    - right. unfold valid_notification. repeat split; try reflexivity.
      eexists. reflexivity.
    - left. eexists. unfold valid_request. repeat split; try reflexivity.
      eexists. reflexivity. }
  split; [reflexivity|]. split; [reflexivity|]. split; [exact H|].
  destruct (proj2 (@batch_responses _ toy_parse toy_serialize
                     toy_conn toy_world batch_text toy_batch
                     eq_refl eq_refl eq_refl eq_refl eq_refl
                     ltac:(vm_compute; split; [reflexivity|discriminate])
                     eq_refl)
              ltac:(discriminate) H) as (_ & _ & Hk).
  destruct (Hk ltac:(discriminate)) as (replies & E & L & _ & M & Hs).
  exists replies. split; [exact E|]. split; [exact L|]. split; [exact M|].
  pose proof E as E'. vm_compute in E'. injection E' as <-.
  exact Hs.
Defined.

Lemma bad_id_and_bad_params_witness :
  oracle (mach toy_world) = [] /\
  jsonrpc_process_object toy_conn (Some (JSONObject bad_id_members)) toy_world
    = (Some (error_envelope JSONNull JSONRPC_ERR_INVALID_REQUEST
               "Invalid Request"), toy_world) /\
  jsonrpc_process_object toy_conn (Some (JSONObject bad_params_members))
    toy_world
    = (Some (error_envelope (JSONNumber (double_of_int32 7))
               JSONRPC_ERR_INVALID_PARAMS "Invalid params"), toy_world).
Proof.
  split; [reflexivity|]. split.
  - apply (proj1 (bad_id_and_bad_params toy_conn toy_world bad_id_members
                    eq_refl) (JSONArray []) eq_refl).
    intros H. exact H.
  - refine (proj1 (proj2 (bad_id_and_bad_params toy_conn toy_world
                            bad_params_members eq_refl)
                     "ping"%string (JSONString "oops") eq_refl eq_refl eq_refl
                     (fun H => H))
              (JSONNumber (double_of_int32 7)) eq_refl I).
Defined.

Lemma on_request_outcomes_witness :
  oracle (mach toy_world) = [] /\
  on_request (callbacks toy_conn) = Some toy_on_request /\
  jsonrpc_process_object toy_conn (Some (JSONObject ping_members)) toy_world
    = (Some (result_envelope (JSONNumber (double_of_int32 7))
               (JSONString "pong")),
       mkWorld (mach toy_world) ["ping"%string] [EvOnRequest "ping" None]) /\
  jsonrpc_process_object toy_conn (Some (JSONObject fail_members)) toy_world
    = (Some (error_envelope (JSONString "f1") (-32000) "failed"),
       mkWorld (logged [HJsonFree (JSONString "partial")] (mach toy_world))
               [] [EvOnRequest "fail" None]).
Proof.
  split; [reflexivity|]. split; [reflexivity|]. split.
  - destruct (@on_request_outcomes _ toy_conn toy_world ping_members
                "ping"%string (JSONNumber (double_of_int32 7)) toy_on_request
                ["ping"%string] true
                (mkResponse (Some (JSONString "pong")) 0 None)
                eq_refl eq_refl eq_refl eq_refl I I eq_refl eq_refl)
      as (_ & _ & _ & H).
    exact (proj1 (H (JSONString "pong") eq_refl eq_refl eq_refl)).
  - destruct (@on_request_outcomes _ toy_conn toy_world fail_members
                "fail"%string (JSONString "f1") toy_on_request
                [] true
                (mkResponse (Some (JSONString "partial")) (-32000)
                            (Some "failed"%string))
                eq_refl eq_refl eq_refl eq_refl I I eq_refl eq_refl)
      as (_ & H & _).
    exact (H eq_refl ltac:(discriminate)).
Defined.

Lemma jsonrpc_send_value_spec_witness :
  oracle (mach toy_world) = [] /\
  eval (jsonrpc_send_value toy_serialize (Some toy_conn)
          (Some (JSONString "pong"))) toy_world = true /\
  trace (exec (jsonrpc_send_value toy_serialize (Some toy_conn)
                 (Some (JSONString "pong"))) toy_world)
    = [EvSendRaw (quoted "pong" ++ [newline])].
Proof.
  destruct (@jsonrpc_send_value_spec _ toy_serialize (Some toy_conn)
              (Some (JSONString "pong")) toy_world)
    as (_ & Hsent & _ & _ & Hok).
  assert (E : eval (jsonrpc_send_value toy_serialize (Some toy_conn)
                      (Some (JSONString "pong"))) toy_world = true).
  { apply (Hok toy_conn (JSONString "pong") (quoted "pong")
               eq_refl eq_refl eq_refl eq_refl eq_refl).
    apply Z.leb_le. vm_compute. reflexivity. }
  split; [reflexivity|]. split; [exact E|].
  destruct (Hsent E) as (v & s & Hv & Hs & Ht & _).
  injection Hv as <-. injection Hs as <-. exact Ht.
Defined.

(** C7 as stated does not hold: [jsonrpc_send_value] returns [true]
    once it has called [send_raw], and [send_raw] returns nothing.  Here
    no allocation fails, the engine sends a response and reports
    success, and the transport of server.c, run on the payload it was
    handed, drops it because [uv_write] fails. *)
Lemma send_value_ignores_transport_failure :
  oracle (mach toy_world) = [] /\
  eval (jsonrpc_send_value toy_serialize (Some toy_conn)
          (Some (JSONString "pong"))) toy_world = true /\
  trace (exec (jsonrpc_send_value toy_serialize (Some toy_conn)
                 (Some (JSONString "pong"))) toy_world)
  = [EvSendRaw (toy_render (JSONString "pong") ++ [newline])] /\
  eval (transport_send_raw sizeof_uv_write_t uv_write_broken_pipe
          (toy_render (JSONString "pong") ++ [newline]))
       (mach (exec (jsonrpc_send_value toy_serialize (Some toy_conn)
                      (Some (JSONString "pong"))) toy_world))
  = None /\
  oracle
    (exec (transport_send_raw sizeof_uv_write_t uv_write_broken_pipe
             (toy_render (JSONString "pong") ++ [newline]))
          (mach (exec (jsonrpc_send_value toy_serialize (Some toy_conn)
                         (Some (JSONString "pong"))) toy_world)))
  = [].
Proof. repeat split; vm_compute; reflexivity. Qed.

Lemma conn_new_without_arena_witness :
  oracle (mach starved_world) = [true; false] /\
  exists c,
    eval (jsonrpc_conn_new toy_transport toy_callbacks 0) starved_world
      = Some c /\
    arena c = None /\ closed c = false /\
    trace (exec (jsonrpc_conn_new toy_transport toy_callbacks 0) starved_world)
      = [EvOnOpen].
Proof.
  split; [reflexivity|].
  destruct (@conn_new_without_arena _ toy_parse toy_serialize starved_world
              toy_transport toy_callbacks 0 [] (or_introl eq_refl))
    as (c & E & Ha & Hc & _ & _ & Ht & _).
  exists c. split; [exact E|]. split; [exact Ha|]. split; [exact Hc|exact Ht].
Defined.

Lemma feed_chunking_independent_witness :
  oracle (mach toy_world) = [] /\
  List.concat toy_chunks = List.concat [ping_line; log_line] /\
  chunks_fit toy_parse toy_serialize (Some toy_conn) toy_chunks toy_world
    = true /\
  chunks_fit toy_parse toy_serialize (Some toy_conn) [ping_line; log_line]
    toy_world = true /\
  sent_bytes
    (trace (exec (feed_chunks toy_parse toy_serialize (Some toy_conn)
                    [ping_line; log_line]) toy_world))
  = sent_bytes
      (trace (exec (feed_chunks toy_parse toy_serialize (Some toy_conn)
                      toy_chunks) toy_world)).
Proof.
  split; [reflexivity|]. split; [reflexivity|].
  split; [reflexivity|]. split; [reflexivity|].
  refine (proj1 (proj2 (@feed_chunking_independent _ toy_parse toy_serialize
                          toy_conn toy_world toy_chunks [ping_line; log_line]
                          eq_refl eq_refl eq_refl eq_refl _ _))).
  - vm_compute. eexists. split; reflexivity.
  - vm_compute. intros [H|[H|[H|[]]]]; discriminate.
Defined.

Lemma message_size_boundary_witness :
  oracle (mach toy_world) = [] /\
  memchr_newline (filler MAX_MESSAGE_BYTES) = None /\
  strip_cr (filler MAX_MESSAGE_BYTES) = filler MAX_MESSAGE_BYTES /\
  Z.of_nat (List.length (filler MAX_MESSAGE_BYTES)) = MAX_MESSAGE_BYTES /\
  (exists c',
     eval (jsonrpc_conn_feed toy_parse toy_serialize (Some toy_conn)
             (Some (filler MAX_MESSAGE_BYTES ++ [newline]))) toy_world
       = Some c' /\
     bytes (inbound c') = []) /\
  trace (exec (jsonrpc_conn_feed toy_parse toy_serialize (Some toy_conn)
                 (Some (filler (MAX_MESSAGE_BYTES + 1)
                          ++ newline :: ping_line))) toy_world)
    = [EvSendRaw
         (toy_render (error_envelope JSONNull JSONRPC_ERR_INVALID_REQUEST
                        "Request too large") ++ [newline]);
       EvClose].
Proof.
  assert (L : Z.of_nat (List.length (filler MAX_MESSAGE_BYTES))
              = MAX_MESSAGE_BYTES).
  { apply filler_length. unfold MAX_MESSAGE_BYTES. lia. }
  assert (L1 : Z.of_nat (List.length (filler (MAX_MESSAGE_BYTES + 1)))
               = MAX_MESSAGE_BYTES + 1).
  { apply filler_length. unfold MAX_MESSAGE_BYTES. lia. }
  split; [reflexivity|].
  split; [apply memchr_newline_filler|].
  split; [apply strip_cr_filler|].
  split; [exact L|]. split.
  - exact (proj2 (proj2 (proj1
             (@message_size_boundary _ toy_parse toy_serialize toy_conn
                toy_world (filler MAX_MESSAGE_BYTES) eq_refl eq_refl eq_refl
                (memchr_newline_filler _) (strip_cr_filler _)) L))).
  - refine (proj1 (proj2
             (@message_size_boundary _ toy_parse toy_serialize toy_conn
                toy_world (filler (MAX_MESSAGE_BYTES + 1)) eq_refl eq_refl
                eq_refl (memchr_newline_filler _) (strip_cr_filler _))
             L1 ping_line
             (toy_render (error_envelope JSONNull JSONRPC_ERR_INVALID_REQUEST
                            "Request too large"))
             eq_refl eq_refl eq_refl _)).
    apply Z.leb_le. vm_compute. reflexivity.
Defined.

(** C3 as stated does not hold: the same stream, an empty line and then
    as many letters as the inbound buffer holds, is answered by nothing
    when the empty line comes in a chunk of its own, and by the error
    [Request too large] when it all comes in one chunk. *)
Lemma feed_chunking_matters :
  sent_bytes
    (trace (exec (feed_chunks toy_parse toy_serialize (Some toy_conn)
                    full_stream_chunks) toy_world))
  = [] /\
  sent_bytes
    (trace (exec (jsonrpc_conn_feed toy_parse toy_serialize (Some toy_conn)
                    (Some (List.concat full_stream_chunks))) toy_world))
  = toy_render (error_envelope JSONNull JSONRPC_ERR_INVALID_REQUEST
                  "Request too large") ++ [newline].
Proof.
  assert (L : Z.of_nat (List.length (filler MAX_BUFFER_BYTES))
              = MAX_BUFFER_BYTES).
  { apply filler_length. unfold MAX_BUFFER_BYTES. lia. }
  split.
  - unfold full_stream_chunks.
    rewrite (@feed_empty_line_then_partial _ toy_parse toy_serialize toy_conn
               toy_world (filler MAX_BUFFER_BYTES) eq_refl eq_refl eq_refl
               (memchr_newline_filler _) ltac:(rewrite L; lia)).
    reflexivity.
  - unfold full_stream_chunks. rewrite concat_pair.
    assert (Hbig : MAX_BUFFER_BYTES
                   < len (inbound toy_conn)
                     + Z.of_nat (List.length
                                   ([newline] ++ filler MAX_BUFFER_BYTES))).
    { rewrite length_app, Nat2Z.inj_add, L.
      change (len (inbound toy_conn)) with 0.
      cbn [List.length Z.of_nat]. lia. }
    destruct (@refines_feed_too_large _ toy_parse toy_serialize toy_conn
                ([newline] ++ filler MAX_BUFFER_BYTES) eq_refl
                ltac:(destruct (filler MAX_BUFFER_BYTES); discriminate)
                Hbig toy_world eq_refl)
      as (_ & _ & Ht & _).
    rewrite Ht. vm_compute. reflexivity.
Qed.

(* ================================================================== *)
(** * Further properties of the code *)

(** ** Helpers *)

Lemma calloc_result (n : Z) (m : machine) :
  fst (calloc n m) = if alloc_ok m 0 then Some (brk m) else None.
Proof.
  unfold calloc, alloc_ok, next_outcome. rewrite bind_run.
  destruct (oracle m) as [|[] o]; reflexivity.
Qed.

Lemma live_blocks_app (l l' : list heap_event) :
  live_blocks (l ++ l') = fold_left live_step l' (live_blocks l).
Proof. unfold live_blocks. apply fold_left_app. Qed.

Lemma remove_last_fresh (p : Z) (live : list Z) :
  ~ In p live -> remove Z.eq_dec p (live ++ [p]) = live.
Proof.
  intros H. rewrite remove_app, (notin_remove Z.eq_dec live p H).
  cbn. destruct (Z.eq_dec p p); [apply app_nil_r|contradiction].
Qed.

Lemma align_up_after (b n : Z) : b + n <= align_up (b + n) max_align.
Proof.
  unfold align_up, max_align.
  pose proof (Z.div_mod (b + n + 16 - 1) 16 ltac:(lia)).
  pose proof (Z.mod_pos_bound (b + n + 16 - 1) 16 ltac:(lia)). lia.
Qed.


Lemma calloc_log (n : Z) (m : machine) :
  heap_log (snd (calloc n m)) =
    heap_log m ++ (if alloc_ok m 0 then [HCalloc (brk m) n] else []).
Proof.
  unfold calloc, alloc_ok, next_outcome. rewrite bind_run.
  destruct m as [o b f ar g i l].
  destruct o as [|[] o]; cbn; now rewrite ?app_nil_r.
Qed.

Lemma calloc_keeps (n : Z) (m : machine) :
  arenas (snd (calloc n m)) = arenas m /\
  g_current_arena (snd (calloc n m)) = g_current_arena m /\
  oracle (snd (calloc n m)) = tl (oracle m).
Proof.
  unfold calloc, next_outcome. rewrite bind_run.
  destruct m as [o b f ar g i l].
  destruct o as [|[] o]; cbn; auto.
Qed.

(** [jsonrpc_arena_malloc] on a size it accepts: the bound arena first,
    then the system heap. *)
Lemma jsonrpc_arena_malloc_run (sz : Z) (m : machine) :
  0 < sz <= SIZE_MAX - JSONRPC_ALLOC_HEADER_BYTES ->
  let total := sz + JSONRPC_ALLOC_HEADER_BYTES in
  let r1 := match g_current_arena m with
            | Some a => arena_alloc (Some a) total m
            | None => (None, m)
            end in
  jsonrpc_arena_malloc sz m =
    match fst r1 with
    | Some b =>
        (Some (b + JSONRPC_ALLOC_HEADER_BYTES),
         tagged b JSONRPC_ALLOC_ORIGIN_ARENA (snd r1))
    | None =>
        match fst (calloc total (snd r1)) with
        | Some b =>
            (Some (b + JSONRPC_ALLOC_HEADER_BYTES),
             tagged b JSONRPC_ALLOC_ORIGIN_HEAP (snd (calloc total (snd r1))))
        | None => (None, snd (calloc total (snd r1)))
        end
    end.
Proof.
  intros Hsz total r1. subst r1. unfold jsonrpc_arena_malloc.
  destruct (Z.eqb_spec sz 0); [lia|].
  destruct (Z.gtb_spec sz (SIZE_MAX - JSONRPC_ALLOC_HEADER_BYTES)); [lia|].
  fold total. rewrite !bind_run. unfold gets. cbn [fst snd].
  destruct (g_current_arena m) as [a|].
  - destruct (fst (arena_alloc (Some a) total m)) as [b|].
    + cbn [fst snd ret]. rewrite !bind_run. reflexivity.
    + rewrite !bind_run.
      destruct (fst (calloc total (snd (arena_alloc (Some a) total m))))
        as [b|]; cbn [fst snd ret]; rewrite ?bind_run; reflexivity.
  - cbn [fst snd ret]. rewrite !bind_run.
    destruct (fst (calloc total m)) as [b|]; cbn [fst snd ret];
      rewrite ?bind_run; reflexivity.
Qed.

Lemma tagged_header (b origin : Z) (m : machine) :
  0 <= origin < 2 ^ 32 ->
  header_tag (tagged b origin m) (b + JSONRPC_ALLOC_HEADER_BYTES)
    = JSONRPC_ALLOC_TAG /\
  header_origin (tagged b origin m) (b + JSONRPC_ALLOC_HEADER_BYTES) = origin.
Proof.
  intros Ho. unfold header_tag, header_origin, tagged.
  replace (b + JSONRPC_ALLOC_HEADER_BYTES - JSONRPC_ALLOC_HEADER_BYTES)
    with b by lia.
  cbn [mem log_heap set_mem]. split.
  - rewrite load32_store32_other by lia.
    apply load32_store32_same. unfold JSONRPC_ALLOC_TAG. lia.
  - now apply load32_store32_same.
Qed.

Lemma liftH_run {U A : Type} (h : HM A) (w : world U) :
  liftH h w =
    (fst (h (mach w)), mkWorld (snd (h (mach w))) (user w) (trace w)).
Proof. unfold liftH. now destruct (h (mach w)). Qed.

Lemma send_spec_on_wire {U : Type}
  (serialize : JSON_Value -> option (list byte))
  (tr : jsonrpc_transport_t) (v : JSON_Value) (u : U) :
  send_spec serialize tr v u =
    (match on_wire serialize tr v with [] => false | _ :: _ => true end,
     (u, map EvSendRaw (on_wire serialize tr v))).
Proof.
  unfold send_spec, on_wire. destruct (send_raw tr); [|reflexivity].
  destruct (serialize v); [|reflexivity].
  destruct (_ >? _); reflexivity.
Qed.

(** ** arena.c *)

(** X1: [arena_create] by allocation outcome.  A size of zero is
    refused before anything is allocated; when the struct cannot be
    allocated nothing is; when the region cannot be allocated the struct
    is given back to [free]; otherwise the arena is the struct at the
    first block and the region at the second, empty, with the requested
    capacity, its region zero-filled. *)
Theorem arena_create_outcomes (m : machine) (sz : Z) :
  let r := eval (arena_create sz) m in
  let m' := exec (arena_create sz) m in
  let a := brk m in
  let reg := align_up (brk m + sizeof_Arena) max_align in
  (sz = 0 -> r = None /\ m' = m) /\
  (sz <> 0 -> alloc_ok m 0 = false ->
   r = None /\ heap_log m' = heap_log m) /\
  (sz <> 0 -> alloc_ok m 0 = true -> alloc_ok m 1 = false ->
   r = None /\
   heap_log m' = heap_log m ++ [HCalloc a sizeof_Arena; HFree a]) /\
  (sz <> 0 -> alloc_ok m 0 = true -> alloc_ok m 1 = true ->
   r = Some a /\
   arenas m' a = mkArena reg 0 sz /\
   zeroed (mem m') reg sz /\
   a + sizeof_Arena <= reg /\
   heap_log m' = heap_log m ++ [HCalloc a sizeof_Arena; HCalloc reg sz]).
Proof.
  intros r m' a reg. subst r m' a reg. unfold eval, exec, alloc_ok.
  destruct m as [o b f ar g i l]. cbn [oracle brk heap_log].
  assert (Hal : b + sizeof_Arena <= align_up (b + sizeof_Arena) max_align).
  { unfold align_up, max_align, sizeof_Arena.
    pose proof (Z.div_mod (b + 24 + 16 - 1) 16 ltac:(lia)).
    pose proof (Z.mod_pos_bound (b + 24 + 16 - 1) 16 ltac:(lia)). lia. }
  assert (Hbrk : align_up (b + Z.max sizeof_Arena 1) max_align
                 = align_up (b + sizeof_Arena) max_align) by reflexivity.
  unfold arena_create.
  split; [intros ->; split; reflexivity|].
  split; [|split].
  - intros Hsz Hk. destruct (Z.eqb_spec sz 0); [contradiction|].
    destruct o as [|[] o]; cbn in Hk; try discriminate.
    cbn. auto.
  - intros Hsz H0 H1. destruct (Z.eqb_spec sz 0); [contradiction|].
    destruct o as [|[] [|[] o]]; cbn in H0, H1; try discriminate.
    cbn. rewrite <- app_assoc. auto.
  - intros Hsz H0 H1. destruct (Z.eqb_spec sz 0); [contradiction|].
    assert (Hz : forall x,
               align_up (b + sizeof_Arena) max_align <= x
                 < align_up (b + sizeof_Arena) max_align + sz ->
               zero_fill (zero_fill f b sizeof_Arena)
                 (align_up (b + sizeof_Arena) max_align) sz x = 0).
    { intros x Hx. unfold zero_fill at 1.
      destruct (Z.leb_spec (align_up (b + sizeof_Arena) max_align) x),
               (Z.ltb_spec x (align_up (b + sizeof_Arena) max_align + sz));
        cbn; lia. }
    destruct o as [|[] [|[] o]]; cbn in H0, H1; try discriminate; cbn;
      destruct (Z.eqb_spec sz 0); try contradiction; cbn;
      rewrite Z.eqb_refl, <- app_assoc; cbn;
      (split; [reflexivity|]); (split; [reflexivity|]);
      (split; [exact Hz|]); (split; [exact Hal|reflexivity]).
Qed.

(** X2: a request that [arena_alloc_aligned] refuses leaves the region,
    the capacity and the memory alone, and the arena well formed, but it
    is not without effect: when the padding fits and the block does not,
    the padding stays consumed. *)
Theorem arena_alloc_refused (m : machine) (a n alignment : Z) :
  arena_wf (arenas m a) -> 0 <= alignment -> 0 < n ->
  eval (arena_alloc_aligned (Some a) n alignment) m = None ->
  let s := arenas m a in
  let m' := exec (arena_alloc_aligned (Some a) n alignment) m in
  let s' := arenas m' a in
  region s' = region s /\ size s' = size s /\ arena_wf s' /\
  index s' =
    (if padding_for s alignment <=? size s - index s
     then index s + padding_for s alignment else index s) /\
  mem m' = mem m /\ heap_log m' = heap_log m.
Proof.
  intros Hwf Ha Hn Hnone s m' s'.
  pose proof Hwf as (Hr & Hi & Hs).
  pose proof (padding_for_range m a Ha) as Hp. fold s in Hp, Hr, Hi, Hs.
  destruct (arena_alloc_aligned_frame m (Some a) n alignment)
    as (_ & _ & Hmem & _ & _ & Hlog).
  fold m' in Hmem, Hlog.
  assert (Hfit : size s < index s + padding_for s alignment + n).
  { destruct (Z.lt_ge_cases (size s) (index s + padding_for s alignment + n))
      as [H|H]; [exact H|].
    destruct (@arena_alloc_aligned_fits m a n alignment Hwf Ha Hn H)
      as (E & _).
    congruence. }
  clear Hnone.
  enough (H : s' = mkArena (region s)
                     (if padding_for s alignment <=? size s - index s
                      then index s + padding_for s alignment else index s)
                     (size s)).
  { rewrite H. unfold arena_wf. cbn [region index size].
    repeat split; auto; try lia;
      destruct (Z.leb_spec (padding_for s alignment) (size s - index s)); lia. }
  subst s' m'. unfold exec, arena_alloc_aligned.
  destruct (Z.eqb_spec n 0); [lia|].
  rewrite bind_run. unfold load_arena, gets; simpl. fold s.
  destruct (Z.eqb_spec (region s) 0); [lia|].
  destruct (Z.gtb_spec (index s) (size s)); [lia|].
  rewrite (Z.mod_small (region s + index s)) by lia.
  unfold padding_for in *.
  destruct (Z.eqb_spec alignment 0) as [E|E].
  - simpl. rewrite bind_run. unfold store_arena, modify, ret; simpl.
    destruct (Z.gtb_spec n (size s - index s)); [|lia].
    simpl. rewrite Z.eqb_refl.
    destruct (Z.leb_spec 0 (size s - index s)); [|lia].
    f_equal; lia.
  - set (mis := (region s + index s) mod alignment) in *.
    destruct (Z.eqb_spec mis 0) as [E0|E0]; simpl.
    + rewrite bind_run. unfold store_arena, modify, ret; simpl.
      destruct (Z.gtb_spec n (size s - index s)); [|lia].
      simpl. rewrite Z.eqb_refl.
      destruct (Z.leb_spec 0 (size s - index s)); [|lia].
      f_equal; lia.
    + destruct (Z.gtb_spec (alignment - mis) (size s - index s)); simpl.
      * destruct (Z.leb_spec (alignment - mis) (size s - index s)); [lia|].
        fold s. now destruct s.
      * rewrite bind_run. unfold store_arena, modify, ret; simpl.
        destruct (Z.gtb_spec n (size s - (index s + (alignment - mis))));
          [|lia].
        simpl. rewrite Z.eqb_refl.
        destruct (Z.leb_spec (alignment - mis) (size s - index s)); [|lia].
        reflexivity.
Qed.

(** X3: two blocks that [arena_alloc_aligned] grants one after the
    other do not overlap: the second starts at or after the end of the
    first, and both lie within the region. *)
Theorem arena_alloc_blocks_disjoint (m m1 : machine)
  (a n1 al1 n2 al2 p1 p2 : Z) :
  arena_wf (arenas m a) -> 0 <= al1 -> 0 <= al2 -> 0 <= n1 -> 0 <= n2 ->
  arena_alloc_aligned (Some a) n1 al1 m = (Some p1, m1) ->
  eval (arena_alloc_aligned (Some a) n2 al2) m1 = Some p2 ->
  region (arenas m a) <= p1 /\ p1 + n1 <= p2 /\
  p2 + n2 <= region (arenas m a) + size (arenas m a).
Proof.
  intros Hwf Ha1 Ha2 Hn1 Hn2 E1 E2.
  assert (Hgrant :
    forall m0 n al p,
      arena_wf (arenas m0 a) -> 0 <= al -> 0 <= n ->
      eval (arena_alloc_aligned (Some a) n al) m0 = Some p ->
      0 < n /\
      index (arenas m0 a) + padding_for (arenas m0 a) al + n
        <= size (arenas m0 a)).
  { intros m0 n al p W Hal Hn E.
    assert (0 < n).
    { destruct (Z.eq_dec n 0) as [->|]; [|lia].
      unfold eval in E. rewrite arena_alloc_aligned_zero in E. discriminate. }
    split; [assumption|].
    destruct (Z.le_gt_cases
                (index (arenas m0 a) + padding_for (arenas m0 a) al + n)
                (size (arenas m0 a))) as [Hle|Hgt]; [exact Hle|].
    rewrite (@arena_alloc_aligned_exhausted m0 a n al W Hal H) in E by lia.
    discriminate. }
  assert (E1' : eval (arena_alloc_aligned (Some a) n1 al1) m = Some p1)
    by (unfold eval; now rewrite E1).
  destruct (Hgrant _ _ _ _ Hwf Ha1 Hn1 E1') as (Hp1 & Hfit1).
  destruct (@arena_alloc_aligned_fits m a n1 al1 Hwf Ha1 Hp1 Hfit1)
    as (R1 & S1 & _).
  unfold exec in S1. rewrite E1 in S1. cbn [snd] in S1.
  rewrite E1' in R1. injection R1 as ->.
  pose proof (padding_for_range m a Ha1) as Hpad1.
  destruct Hwf as (W1 & W2 & W3).
  assert (Hwf1 : arena_wf (arenas m1 a)).
  { rewrite S1. unfold arena_wf. cbn [region index size]. lia. }
  destruct (Hgrant _ _ _ _ Hwf1 Ha2 Hn2 E2) as (Hp2 & Hfit2).
  destruct (@arena_alloc_aligned_fits m1 a n2 al2 Hwf1 Ha2 Hp2 Hfit2)
    as (R2 & _).
  rewrite E2 in R2. injection R2 as ->.
  pose proof (padding_for_range m1 a Ha2) as Hpad2.
  rewrite S1 in Hfit2, Hpad2 |- *. cbn [region index size] in *.
  set (q := padding_for _ al2) in *. lia.
Qed.

(** X4: after [arena_clear] the whole capacity is available again: on
    an arena whose region is aligned, the next request of up to [size]
    bytes is granted at the base of the region, whatever was allocated
    before. *)
Theorem arena_clear_restores_capacity (m : machine) (a n : Z) :
  arena_wf (arenas m a) ->
  region (arenas m a) mod arena_default_alignment = 0 ->
  0 < n <= size (arenas m a) ->
  eval (arena_clear (Some a) ;;; arena_alloc (Some a) n) m
    = Some (region (arenas m a)).
Proof.
  intros Hwf Hal Hn.
  destruct (arena_clear_wf m a Hwf) as (Hwf' & Hidx & _).
  assert (Hs : arenas (exec (arena_clear (Some a)) m) a
               = mkArena (region (arenas m a)) 0 (size (arenas m a))).
  { unfold exec, arena_clear. rewrite bind_run.
    unfold load_arena, store_arena, gets, modify; simpl.
    now rewrite Z.eqb_refl. }
  unfold eval. rewrite bind_run. unfold arena_alloc.
  fold (exec (arena_clear (Some a)) m).
  fold (eval (arena_alloc_aligned (Some a) n arena_default_alignment)
             (exec (arena_clear (Some a)) m)).
  assert (Hpad : padding_for (arenas (exec (arena_clear (Some a)) m) a)
                   arena_default_alignment = 0).
  { rewrite Hs. unfold padding_for. cbn [region index].
    rewrite Z.add_0_r, Hal. reflexivity. }
  destruct (@arena_alloc_aligned_fits (exec (arena_clear (Some a)) m) a n
              arena_default_alignment Hwf'
              ltac:(unfold arena_default_alignment, alignof_size_t; lia)
              ltac:(lia)
              ltac:(rewrite Hpad, Hs; cbn [index size]; lia)) as (E & _).
  rewrite E, Hpad, Hs. cbn [region index]. f_equal. lia.
Qed.

(** X5: [arena_copy] copies the used part of [src] into [dest], cut to
    the capacity of [dest]: it returns [min(src.index, dest.size)],
    makes that the index of [dest], and the first bytes of [dest]'s
    region are then those of [src]'s; nothing else in memory changes.
    With a null arena or an arena without a region it returns 0 and
    does nothing. *)
Theorem arena_copy_spec (m : machine) (d s : Z) :
  let n := eval (arena_copy (Some d) (Some s)) m in
  let m' := exec (arena_copy (Some d) (Some s)) m in
  (region (arenas m d) = 0 \/ region (arenas m s) = 0 -> n = 0 /\ m' = m) /\
  (region (arenas m d) <> 0 -> region (arenas m s) <> 0 ->
   n = Z.min (index (arenas m s)) (size (arenas m d)) /\
   arenas m' d = mkArena (region (arenas m d)) n (size (arenas m d)) /\
   (forall x, x <> d -> arenas m' x = arenas m x) /\
   (forall i, 0 <= i < n ->
      mem m' (region (arenas m d) + i) = mem m (region (arenas m s) + i)) /\
   (forall x, ~ region (arenas m d) <= x < region (arenas m d) + n ->
      mem m' x = mem m x) /\
   heap_log m' = heap_log m) /\
  eval (arena_copy None (Some s)) m = 0 /\
  eval (arena_copy (Some d) None) m = 0.
Proof.
  intros n m'. subst n m'. unfold eval, exec, arena_copy.
  rewrite !bind_run. unfold load_arena, gets. cbn [fst snd].
  split; [|split; [|split; reflexivity]].
  - intros [H|H]; rewrite H; cbn [Z.eqb orb]; [auto|].
    rewrite orb_true_r. auto.
  - intros Hd Hs.
    destruct (Z.eqb_spec (region (arenas m d)) 0); [contradiction|].
    destruct (Z.eqb_spec (region (arenas m s)) 0); [contradiction|].
    cbn [orb].
    assert (Hmin : (if index (arenas m s) <? size (arenas m d)
                    then index (arenas m s) else size (arenas m d))
                   = Z.min (index (arenas m s)) (size (arenas m d))).
    { destruct (Z.ltb_spec (index (arenas m s)) (size (arenas m d))); lia. }
    rewrite Hmin. set (k := Z.min _ _).
    destruct (Z.eqb_spec k 0) as [E|E]; cbn [negb].
    + unfold ret, store_arena, modify. rewrite !bind_run. cbn.
      rewrite Z.eqb_refl.
      repeat split; auto.
      * intros x Hx. now destruct (Z.eqb_spec x d).
      * intros i Hi. lia.
    + unfold ret, store_arena, modify. rewrite !bind_run. cbn.
      rewrite Z.eqb_refl.
      repeat split; auto.
      * intros x Hx. now destruct (Z.eqb_spec x d).
      * intros i Hi. unfold memcpy.
        destruct (Z.leb_spec (region (arenas m d)) (region (arenas m d) + i)),
                 (Z.ltb_spec (region (arenas m d) + i)
                             (region (arenas m d) + k));
          cbn [andb]; try lia.
        f_equal. lia.
      * intros x Hx. unfold memcpy.
        destruct (Z.leb_spec (region (arenas m d)) x),
                 (Z.ltb_spec x (region (arenas m d) + k));
          cbn [andb]; try lia; reflexivity.
Qed.

(** ** jsonrpc.c: the inbound buffer *)

Lemma grow_cap_doubles (desired : Z) (fuel k : nat) :
  (k <= 9)%nat -> (9 - k < fuel)%nat ->
  desired <= INITIAL_BUFFER_CAP * 2 ^ 9 ->
  exists j : nat,
    (k <= j <= 9)%nat /\
    grow_cap fuel (INITIAL_BUFFER_CAP * 2 ^ Z.of_nat k) desired
      = INITIAL_BUFFER_CAP * 2 ^ Z.of_nat j /\
    desired <= INITIAL_BUFFER_CAP * 2 ^ Z.of_nat j /\
    (j = k \/ INITIAL_BUFFER_CAP * 2 ^ Z.of_nat j < 2 * desired).
Proof.
  unfold INITIAL_BUFFER_CAP. intros Hk Hfuel Hd. revert k Hk Hfuel.
  induction fuel as [|fuel IH]; intros k Hk Hfuel; [lia|].
  cbn [grow_cap].
  destruct (Z.ltb_spec (4096 * 2 ^ Z.of_nat k) desired) as [Hlt|Hge].
  - assert (Hk9 : (k < 9)%nat).
    { destruct (Nat.eq_dec k 9) as [->|]; [|lia].
      change (Z.of_nat 9) with 9 in Hlt. lia. }
    assert (Hpow : 4096 * 2 ^ Z.of_nat (S k) = 4096 * 2 ^ Z.of_nat k * 2).
    { rewrite Nat2Z.inj_succ, Z.pow_succ_r by lia. ring. }
    assert (Hsmall : 4096 * 2 ^ Z.of_nat (S k) <= 4096 * 2 ^ 9).
    { apply Z.mul_le_mono_nonneg_l; [lia|].
      apply Z.pow_le_mono_r; lia. }
    assert (Hpos : 0 < 4096 * 2 ^ Z.of_nat (S k)).
    { apply Z.mul_pos_pos; [lia|]. apply Z.pow_pos_nonneg; lia. }
    rewrite <- Hpow, Z.mod_small
      by (split; [lia|]; change (2 ^ 9) with 512 in Hsmall; lia).
    destruct (IH (S k) ltac:(lia) ltac:(lia)) as (j & Hj & E & Hdj & Hlast).
    exists j. split; [lia|]. split; [exact E|]. split; [exact Hdj|].
    right. destruct Hlast as [Hjk|H]; [|exact H].
    subst j. lia.
  - exists k. repeat split; try lia.
Qed.

(** X6: [rpc_buffer_append] keeps the buffer within its bounds and
    never appends in part.  From a buffer whose bytes fit in a capacity
    that is 0 or 4096 doubled up to nine times, it returns such a buffer
    again, with a capacity of at most [MAX_BUFFER_BYTES]; on success the
    bytes are the old ones followed by the chunk; on failure the buffer
    is exactly as before.  It fails for a non-empty chunk that would
    take the length over [MAX_BUFFER_BYTES], or when the buffer has to
    grow and the allocation fails, and in no other case. *)
Theorem rpc_buffer_append_bounds (b : rpc_buffer_t) (chunk : list byte)
  (m : machine) :
  buffer_ok b ->
  let ok := fst (eval (rpc_buffer_append b chunk) m) in
  let b' := snd (eval (rpc_buffer_append b chunk) m) in
  buffer_ok b' /\ cap b <= cap b' <= MAX_BUFFER_BYTES /\
  (ok = true -> bytes b' = bytes b ++ chunk) /\
  (ok = false -> b' = b) /\
  (ok = false <->
   chunk <> [] /\
   (MAX_BUFFER_BYTES < len b + Z.of_nat (List.length chunk) \/
    (cap b < len b + Z.of_nat (List.length chunk) /\ alloc_ok m 0 = false))).
Proof.
  intros (Hlen & Hcap) ok b'. subst ok b'.
  assert (Hmax : cap b <= MAX_BUFFER_BYTES).
  { destruct Hcap as [->|(k & Hk & ->)]; [unfold MAX_BUFFER_BYTES; lia|].
    change MAX_BUFFER_BYTES with (INITIAL_BUFFER_CAP * 2 ^ 9).
    apply Z.mul_le_mono_nonneg_l; [unfold INITIAL_BUFFER_CAP; lia|].
    apply Z.pow_le_mono_r; lia. }
  assert (Hb : buffer_ok b) by (split; assumption).
  assert (Hfin :
    forall (ok : bool) (b' : rpc_buffer_t),
      (ok = true ->
       bytes b' = bytes b ++ chunk /\ cap b <= cap b' <= MAX_BUFFER_BYTES /\
       len b + Z.of_nat (List.length chunk) <= cap b' /\
       (cap b' = 0 \/
        exists k : nat,
          (k <= 9)%nat /\ cap b' = INITIAL_BUFFER_CAP * 2 ^ Z.of_nat k) /\
       ~ (chunk <> [] /\
          (MAX_BUFFER_BYTES < len b + Z.of_nat (List.length chunk) \/
           (cap b < len b + Z.of_nat (List.length chunk) /\
            alloc_ok m 0 = false)))) ->
      (ok = false ->
       b' = b /\
       chunk <> [] /\
       (MAX_BUFFER_BYTES < len b + Z.of_nat (List.length chunk) \/
        (cap b < len b + Z.of_nat (List.length chunk) /\
         alloc_ok m 0 = false))) ->
      buffer_ok b' /\ cap b <= cap b' <= MAX_BUFFER_BYTES /\
      (ok = true -> bytes b' = bytes b ++ chunk) /\
      (ok = false -> b' = b) /\
      (ok = false <->
       chunk <> [] /\
       (MAX_BUFFER_BYTES < len b + Z.of_nat (List.length chunk) \/
        (cap b < len b + Z.of_nat (List.length chunk) /\
         alloc_ok m 0 = false)))).
  { intros [|] b' Ht Hf.
    - destruct (Ht eq_refl) as (Hbytes & Hc & Hroom & Hshape & Hnot).
      split.
      { split; [|exact Hshape].
        unfold len. rewrite Hbytes, length_app, Nat2Z.inj_add.
        exact Hroom. }
      split; [exact Hc|]. split; [auto|]. split; [discriminate|].
      split; [discriminate|]. intros H. contradiction.
    - destruct (Hf eq_refl) as (-> & Hwhy).
      split; [exact Hb|]. split; [lia|]. split; [discriminate|].
      split; [reflexivity|]. split; auto. }
  assert (Hne0 : 0 <= len b) by (unfold len; lia).
  unfold eval, rpc_buffer_append.
  destruct (Z.eqb_spec (Z.of_nat (List.length chunk)) 0) as [E|E].
  { assert (chunk = []) as -> by (destruct chunk; [reflexivity|discriminate]).
    cbn [fst snd ret]. apply Hfin; [intros _|discriminate].
    rewrite app_nil_r.
    split; [reflexivity|]. split; [lia|]. split; [cbn; lia|].
    split; [exact Hcap|]. intros (H & _). congruence. }
  assert (Hne : chunk <> []) by (intros ->; apply E; reflexivity).
  destruct (Z.gtb_spec (len b + Z.of_nat (List.length chunk)) MAX_BUFFER_BYTES)
    as [Hbig|Hfit].
  { cbn [fst snd ret]. apply Hfin; [discriminate|intros _]. auto. }
  rewrite bind_run. unfold rpc_buffer_reserve.
  destruct (Z.leb_spec (len b + Z.of_nat (List.length chunk)) (cap b))
    as [Hroom|Hgrow].
  { cbn [fst snd ret negb]. apply Hfin; [intros _|discriminate].
    cbn [bytes cap].
    split; [reflexivity|]. split; [lia|]. split; [exact Hroom|].
    split; [exact Hcap|]. intros (_ & [H|(H & _)]); lia. }
  set (desired := len b + Z.of_nat (List.length chunk)) in *.
  assert (Hgc : exists j : nat,
            (j <= 9)%nat /\
            grow_cap 64 (if cap b =? 0 then INITIAL_BUFFER_CAP else cap b)
                     desired = INITIAL_BUFFER_CAP * 2 ^ Z.of_nat j /\
            desired <= INITIAL_BUFFER_CAP * 2 ^ Z.of_nat j /\
            cap b <= INITIAL_BUFFER_CAP * 2 ^ Z.of_nat j).
  { assert (Hd : desired <= INITIAL_BUFFER_CAP * 2 ^ 9) by exact Hfit.
    destruct Hcap as [E0|(k & Hk & Ek)].
    - rewrite E0. cbn [Z.eqb].
      destruct (@grow_cap_doubles desired 64 0 ltac:(lia) ltac:(lia) Hd)
        as (j & Hj & Eg & Hdj & _).
      change (2 ^ Z.of_nat 0) with 1 in Eg. rewrite Z.mul_1_r in Eg.
      exists j. repeat split; auto; lia.
    - assert (Hpos : 0 < cap b).
      { rewrite Ek. apply Z.mul_pos_pos; [unfold INITIAL_BUFFER_CAP; lia|].
        apply Z.pow_pos_nonneg; lia. }
      destruct (Z.eqb_spec (cap b) 0); [lia|].
      rewrite Ek.
      destruct (@grow_cap_doubles desired 64 k Hk ltac:(lia) Hd)
        as (j & Hj & Eg & Hdj & _).
      exists j. repeat split; auto; try lia;
        (apply Z.mul_le_mono_nonneg_l; [unfold INITIAL_BUFFER_CAP; lia|]);
        apply Z.pow_le_mono_r; lia. }
  destruct Hgc as (j & Hj & Eg & Hdj & Hcj). rewrite Eg.
  assert (Hjmax : INITIAL_BUFFER_CAP * 2 ^ Z.of_nat j <= MAX_BUFFER_BYTES).
  { change MAX_BUFFER_BYTES with (INITIAL_BUFFER_CAP * 2 ^ 9).
    apply Z.mul_le_mono_nonneg_l; [unfold INITIAL_BUFFER_CAP; lia|].
    apply Z.pow_le_mono_r; lia. }
  assert (Hgranted :
    forall d' : option Z,
      bytes (mkBuffer d' (bytes b ++ chunk)
                      (INITIAL_BUFFER_CAP * 2 ^ Z.of_nat j))
        = bytes b ++ chunk /\
      cap b <= cap (mkBuffer d' (bytes b ++ chunk)
                             (INITIAL_BUFFER_CAP * 2 ^ Z.of_nat j))
        <= MAX_BUFFER_BYTES /\
      desired <= cap (mkBuffer d' (bytes b ++ chunk)
                               (INITIAL_BUFFER_CAP * 2 ^ Z.of_nat j)) /\
      (cap (mkBuffer d' (bytes b ++ chunk)
                     (INITIAL_BUFFER_CAP * 2 ^ Z.of_nat j)) = 0 \/
       exists k : nat,
         (k <= 9)%nat /\
         cap (mkBuffer d' (bytes b ++ chunk)
                       (INITIAL_BUFFER_CAP * 2 ^ Z.of_nat j))
           = INITIAL_BUFFER_CAP * 2 ^ Z.of_nat k)).
  { intros d'. cbn [bytes cap]. repeat split; auto; try lia.
    right. exists j. auto. }
  rewrite bind_run, calloc_result.
  destruct (alloc_ok m 0) eqn:Hok.
  - destruct (data b) as [old|]; [destruct (len b >? 0)|];
      rewrite ?bind_run; cbn [fst snd ret negb];
      (apply Hfin; [intros _|discriminate]);
      (split; [apply Hgranted|]); (split; [apply Hgranted|]);
      (split; [apply Hgranted|]); (split; [apply Hgranted|]);
      intros (_ & [H|(_ & H)]); try lia; discriminate.
  - cbn [fst snd ret negb]. apply Hfin; [discriminate|intros _]. auto.
Qed.

(** X7: when [rpc_buffer_reserve] has to grow it takes a new block, and
    gives the old one back to [free] only if the buffer holds bytes: the
    block of an empty buffer is dropped without being freed, and stays
    allocated. *)
Theorem rpc_buffer_reserve_growth (b : rpc_buffer_t) (desired old : Z)
  (m : machine) :
  data b = Some old -> cap b < desired -> alloc_ok m 0 = true ->
  let r := eval (rpc_buffer_reserve b desired) m in
  let m' := exec (rpc_buffer_reserve b desired) m in
  fst r = true /\ data (snd r) = Some (brk m) /\ bytes (snd r) = bytes b /\
  heap_log m' =
    heap_log m ++
    HCalloc (brk m) (cap (snd r)) ::
    (if len b >? 0 then [HFree old] else []) /\
  (bytes b = [] -> old <> brk m ->
   In old (live_blocks (heap_log m)) -> In old (live_blocks (heap_log m'))).
Proof.
  intros Hd Hgrow Hok r m'. subst r m'. unfold eval, exec, rpc_buffer_reserve.
  destruct (Z.leb_spec desired (cap b)); [lia|].
  rewrite Hd. unfold alloc_ok in Hok.
  destruct m as [o br f ar g i l]. cbn [oracle] in Hok.
  unfold calloc, next_outcome. rewrite !bind_run. cbn [oracle].
  assert (Hfinal :
    forall m1 : machine,
      heap_log m1 = l ++ [HCalloc br (grow_cap 64 (if cap b =? 0
                                         then INITIAL_BUFFER_CAP else cap b)
                                         desired)] ->
      let m2 := snd ((if len b >? 0 then free old else ret tt) m1) in
      heap_log m2 =
        l ++ HCalloc br (grow_cap 64 (if cap b =? 0 then INITIAL_BUFFER_CAP
                                      else cap b) desired)
          :: (if len b >? 0 then [HFree old] else []) /\
      (bytes b = [] -> old <> br ->
       In old (live_blocks l) -> In old (live_blocks (heap_log m2)))).
  { intros m1 Hl m2. subst m2. split.
    - destruct (len b >? 0); cbn; rewrite Hl, <- ?app_assoc; reflexivity.
    - intros Hb Hne Hin. unfold len. rewrite Hb. cbn [List.length Z.of_nat].
      cbn. rewrite Hl, live_blocks_app. cbn.
      apply in_or_app. now left. }
  destruct o as [|[] o]; cbn [nth] in Hok; try discriminate;
    cbn [fst snd ret]; rewrite ?bind_run;
    cbn [fst snd ret brk cap data bytes];
    (split; [reflexivity|]); (split; [reflexivity|]);
    (split; [reflexivity|]); apply Hfinal; reflexivity.
Qed.

(** X8: [rpc_buffer_consume] drops a prefix and keeps the block and the
    capacity; a count of zero or beyond the length changes nothing;
    consuming [j] and then [k] bytes is consuming [j + k] bytes. *)
Theorem rpc_buffer_consume_compose (b : rpc_buffer_t) (j k : Z) :
  (j = 0 \/ len b < j -> rpc_buffer_consume b j = b) /\
  (0 < j <= len b ->
   bytes (rpc_buffer_consume b j) = skipn (Z.to_nat j) (bytes b) /\
   len (rpc_buffer_consume b j) = len b - j /\
   data (rpc_buffer_consume b j) = data b /\
   cap (rpc_buffer_consume b j) = cap b) /\
  (0 < j -> 0 < k -> j + k <= len b ->
   rpc_buffer_consume (rpc_buffer_consume b j) k
     = rpc_buffer_consume b (j + k)).
Proof.
  assert (Hone :
    forall (x : rpc_buffer_t) (n : Z),
      0 < n <= len x ->
      rpc_buffer_consume x n
        = mkBuffer (data x) (skipn (Z.to_nat n) (bytes x)) (cap x)).
  { intros x n Hn. unfold rpc_buffer_consume.
    destruct (Z.eqb_spec n 0); [lia|].
    destruct (Z.ltb_spec (len x) n); [lia|]. reflexivity. }
  assert (Hlen :
    forall (x : rpc_buffer_t) (n : Z),
      0 < n <= len x -> len (rpc_buffer_consume x n) = len x - n).
  { intros x n Hn. rewrite Hone by exact Hn. unfold len in *. cbn [bytes].
    rewrite length_skipn. lia. }
  split; [|split].
  - intros [->|H]; unfold rpc_buffer_consume.
    + reflexivity.
    + destruct (Z.ltb_spec (len b) j); [|lia]. now rewrite orb_true_r.
  - intros Hj. rewrite Hlen by exact Hj. rewrite Hone by exact Hj. auto.
  - intros Hj Hk Hjk.
    rewrite (Hone (rpc_buffer_consume b j) k)
      by (rewrite Hlen by lia; lia).
    rewrite !Hone by lia. cbn [data bytes cap].
    rewrite skipn_skipn. do 2 f_equal. lia.
Qed.

(** ** Life cycles: what is allocated is freed *)

(** X9: an arena that is created and then destroyed leaves the system
    heap as it was, whatever the allocator does: the region and the
    struct are both freed when both were allocated, the struct alone is
    freed when the region could not be, and destroying the null arena
    that a failed [arena_create] returns frees nothing. *)
Theorem arena_create_destroy_balanced (m : machine) (sz : Z) :
  0 < brk m ->
  (forall p, In p (live_blocks (heap_log m)) -> p < brk m) ->
  live_blocks
    (heap_log (exec (a <- arena_create sz ;; arena_destroy a) m))
  = live_blocks (heap_log m).
Proof.
  intros Hb Hlive. unfold exec. rewrite bind_run.
  destruct m as [o b f ar g i l]. cbn [brk heap_log] in *.
  pose proof (align_up_after b sizeof_Arena) as Hal.
  assert (Hbrk : align_up (b + Z.max sizeof_Arena 1) max_align
                 = align_up (b + sizeof_Arena) max_align) by reflexivity.
  set (reg := align_up (b + sizeof_Arena) max_align) in *.
  assert (Hfresh_a : ~ In b (live_blocks l)).
  { intros H. apply Hlive in H. lia. }
  assert (Hfresh_r : ~ In reg (live_blocks l ++ [b])).
  { intros H. apply in_app_or in H. destruct H as [H|[H|[]]].
    - apply Hlive in H. unfold sizeof_Arena in *. lia.
    - unfold sizeof_Arena in *. lia. }
  unfold arena_create.
  destruct (Z.eqb_spec sz 0) as [E|E]; [reflexivity|].
  assert (Hz : (sz =? 0) = false) by now apply Z.eqb_neq.
  destruct o as [|[] [|[] o]]; cbn; rewrite ?Hz; cbn; rewrite ?Hbrk; fold reg;
    rewrite ?Z.eqb_refl; cbn;
    try (destruct (Z.eqb_spec reg 0) as [E0|E0];
         [unfold sizeof_Arena in *; lia|]; cbn);
    unfold live_blocks; rewrite ?fold_left_app;
    cbn [fold_left live_step]; fold (live_blocks l);
    rewrite ?remove_last_fresh by assumption;
    try reflexivity.
Qed.

Section Life.

Variable U : Type.

Ltac run_world :=
  repeat first
    [ rewrite bind_run
    | rewrite liftH_run
    | progress cbn [fst snd ret modify gets mach user trace call_on_close
                    call_on_open negb] ].

Lemma conn_new_mach (w : world U) (tr : jsonrpc_transport_t)
  (cb : jsonrpc_callbacks_t U) (ctx : Z) :
  let run := jsonrpc_conn_new tr cb ctx in
  mach (exec run w) = exec conn_new_allocs (mach w) /\
  eval run w =
    option_map
      (fun pa => mkConn (fst pa) tr cb ctx false (mkBuffer None [] 0) (snd pa))
      (eval conn_new_allocs (mach w)) /\
  trace (exec run w) =
    trace w ++
    match eval conn_new_allocs (mach w), on_open cb with
    | Some _, Some _ => [EvOnOpen]
    | _, _ => []
    end /\
  user (exec run w) =
    match eval conn_new_allocs (mach w), on_open cb with
    | Some _, Some f => f (user w)
    | _, _ => user w
    end.
Proof.
  cbv zeta. unfold jsonrpc_conn_new, conn_new_allocs, eval, exec.
  rewrite !bind_run, !liftH_run. cbn [fst snd mach user trace].
  destruct (fst (calloc sizeof_conn
                   (snd (jsonrpc_init_parson_allocator (mach w)))))
    as [p|].
  - rewrite !bind_run, !liftH_run. cbn [fst snd mach user trace option_map].
    destruct (on_open cb) as [f|]; cbn; rewrite ?app_nil_r; auto.
  - cbn. rewrite app_nil_r. auto.
Qed.

Lemma conn_free_mach (w : world U) (c : jsonrpc_conn_t U) :
  let run := jsonrpc_conn_free (Some c) in
  mach (exec run w) = exec (conn_free_frees c) (mach w) /\
  eval run w =
    Some (mkConn (self c) (transport c) (callbacks c) (user_context c) true
                 (mkBuffer None [] 0) None) /\
  trace (exec run w) =
    trace w ++
    match on_close (callbacks c) with
    | Some _ => if closed c then [] else [EvOnClose]
    | None => []
    end /\
  user (exec run w) =
    match on_close (callbacks c) with
    | Some f => if closed c then user w else f (user w)
    | None => user w
    end.
Proof.
  cbv zeta. unfold jsonrpc_conn_free, conn_free_frees, eval, exec.
  assert (Hbuf : forall m, fst (rpc_buffer_free (inbound c) m)
                           = mkBuffer None [] 0).
  { intros m. unfold rpc_buffer_free.
    destruct (data (inbound c)); [rewrite bind_run|]; reflexivity. }
  destruct (on_close (callbacks c)) as [f|]; [destruct (closed c)|];
    destruct (arena c) as [a|]; run_world; rewrite ?Hbuf;
    try (destruct (ptr_eqb _ (Some a))); run_world;
    rewrite ?app_nil_r; auto.
Qed.


Lemma conn_allocs_none (m : machine) :
  alloc_ok m 0 = false -> eval conn_new_allocs m = None.
Proof.
  unfold alloc_ok. destruct m as [o b f ar g i l]. cbn [oracle].
  unfold eval, conn_new_allocs.
  destruct i; destruct o as [|[] o]; cbn [nth]; try discriminate; reflexivity.
Qed.

Lemma conn_allocs_then_frees (m : machine) :
  0 < brk m ->
  (forall p, In p (live_blocks (heap_log m)) -> p < brk m) ->
  match eval conn_new_allocs m with
  | None =>
      alloc_ok m 0 = false /\
      heap_log (exec conn_new_allocs m) = heap_log m
  | Some (p, a) =>
      alloc_ok m 0 = true /\
      forall c : jsonrpc_conn_t U,
        self c = p -> arena c = a -> data (inbound c) = None ->
        live_blocks
          (heap_log (exec (conn_free_frees c) (exec conn_new_allocs m)))
        = live_blocks (heap_log m)
  end.
Proof.
  intros Hb Hlive.
  destruct m as [o b f ar g i l]. cbn [brk heap_log] in *.
  unfold alloc_ok. cbn [oracle].
  pose proof (align_up_after b sizeof_conn) as Hal.
  assert (Hbrk : align_up (b + Z.max sizeof_conn 1) max_align
                 = align_up (b + sizeof_conn) max_align) by reflexivity.
  set (a := align_up (b + sizeof_conn) max_align) in *.
  pose proof (align_up_after a sizeof_Arena) as Hal2.
  assert (Hbrk2 : align_up (a + Z.max sizeof_Arena 1) max_align
                  = align_up (a + sizeof_Arena) max_align) by reflexivity.
  set (reg := align_up (a + sizeof_Arena) max_align) in *.
  assert (Hpos : 0 < sizeof_conn /\ 0 < sizeof_Arena)
    by (unfold sizeof_conn, sizeof_Arena; lia).
  assert (F1 : ~ In b (live_blocks l)).
  { intros H. apply Hlive in H. lia. }
  assert (F2 : ~ In a (live_blocks l ++ [b])).
  { intros H. apply in_app_or in H. destruct H as [H|[H|[]]].
    - apply Hlive in H. lia.
    - lia. }
  assert (F3 : ~ In reg ((live_blocks l ++ [b]) ++ [a])).
  { intros H. apply in_app_or in H. destruct H as [H|[H|[]]]; [|lia].
    apply in_app_or in H. destruct H as [H|[H|[]]].
    - apply Hlive in H. lia.
    - lia. }
  assert (Hreg : (reg =? 0) = false) by (apply Z.eqb_neq; lia).
  assert (Hinit :
    exists i',
      snd (jsonrpc_init_parson_allocator (mkMachine o b f ar g i l))
      = mkMachine o b f ar g i' l)
    by (destruct i; eexists; reflexivity).
  unfold eval, exec, conn_new_allocs. rewrite !bind_run.
  destruct Hinit as (i' & ->). clear i.
  destruct o as [|[] [|[] [|[] o]]];
    cbn -[align_up]; rewrite ?Hbrk; fold a; rewrite ?Hbrk2; fold reg;
    (split; [reflexivity|]); try reflexivity;
    intros c Hself Harena Hdata;
    unfold conn_free_frees, rpc_buffer_free;
    rewrite Hself, Harena, Hdata;
    repeat first
      [ rewrite bind_run
      | rewrite Z.eqb_refl
      | rewrite Hreg
      | progress cbn -[align_up]
      | match goal with
        | |- context [ptr_eqb g (Some a)] => destruct (ptr_eqb g (Some a))
        end ];
    unfold live_blocks; rewrite ?fold_left_app;
    cbn [fold_left live_step]; fold (live_blocks l);
    rewrite ?remove_last_fresh by assumption;
    reflexivity.
Qed.


(** X10: a connection that is created and then freed.  [on_open] and
    [on_close] are each called once when the connection exists and the
    callback is set, and not at all when [jsonrpc_conn_new] returns
    null; and on every allocation outcome the system heap is left as it
    was: the struct, the arena's struct and the arena's region are
    freed exactly when they were allocated. *)
Theorem conn_new_free_balanced (w : world U) (tr : jsonrpc_transport_t)
  (cb : jsonrpc_callbacks_t U) (ctx : Z) :
  0 < brk (mach w) ->
  (forall p, In p (live_blocks (heap_log (mach w))) -> p < brk (mach w)) ->
  let w' := exec (c <- jsonrpc_conn_new tr cb ctx ;; jsonrpc_conn_free c) w in
  live_blocks (heap_log (mach w')) = live_blocks (heap_log (mach w)) /\
  trace w' =
    trace w ++
    (if alloc_ok (mach w) 0 then
       match on_open cb with Some _ => [EvOnOpen] | None => [] end ++
       match on_close cb with Some _ => [EvOnClose] | None => [] end
     else []).
Proof.
  intros Hb Hlive w'. subst w'. unfold exec. rewrite bind_run.
  destruct (conn_new_mach w tr cb ctx) as (Hm & He & Ht & _).
  pose proof (conn_allocs_then_frees (mach w) Hb Hlive) as Hbal.
  unfold eval, exec in Hm, He, Ht, Hbal. rewrite He.
  destruct (fst (conn_new_allocs (mach w))) as [[p a]|];
    cbn [option_map fst snd].
  - destruct Hbal as (Hok & Hbal). rewrite Hok.
    set (c := mkConn p tr cb ctx false (mkBuffer None [] 0) a).
    destruct (conn_free_mach (snd (jsonrpc_conn_new tr cb ctx w)) c)
      as (Hm2 & _ & Ht2 & _).
    unfold exec in Hm2, Ht2. rewrite Hm2, Ht2, Hm, Ht.
    split; [apply (Hbal c); reflexivity|].
    cbn [callbacks closed c].
    destruct (on_open cb), (on_close cb); now rewrite <- app_assoc.
  - destruct Hbal as (Hok & Hlog). rewrite Hok. cbn [jsonrpc_conn_free ret snd].
    rewrite Hm, Ht, app_nil_r. now rewrite Hlog.
Qed.


Lemma conn_new_allocs_granted (m : machine) :
  alloc_ok m 0 = true -> alloc_ok m 1 = true -> alloc_ok m 2 = true ->
  let a := align_up (brk m + sizeof_conn) max_align in
  let reg := align_up (a + sizeof_Arena) max_align in
  eval conn_new_allocs m = Some (brk m, Some a) /\
  arenas (exec conn_new_allocs m) a = mkArena reg 0 JSONRPC_ARENA_BYTES /\
  g_parson_allocator_initialized (exec conn_new_allocs m) = true /\
  g_current_arena (exec conn_new_allocs m) = g_current_arena m /\
  heap_log (exec conn_new_allocs m) =
    heap_log m ++ [HCalloc (brk m) sizeof_conn; HCalloc a sizeof_Arena;
                   HCalloc reg JSONRPC_ARENA_BYTES].
Proof.
  intros H0 H1 H2 a reg. subst a reg. unfold alloc_ok in *.
  destruct m as [o b f ar g i l]. cbn [oracle brk] in *.
  unfold eval, exec, conn_new_allocs.
  destruct i; destruct o as [|[] [|[] [|[] o]]];
    cbn [nth] in H0, H1, H2; try discriminate;
    cbn -[align_up]; rewrite Z.eqb_refl, <- ?app_assoc; auto.
Qed.

(** X11: [jsonrpc_conn_new] by allocation outcome.  When the struct
    cannot be allocated it returns null and calls nothing.  When all
    three allocations succeed it returns an open connection whose buffer
    is empty and whose arena is empty with a capacity of
    [JSONRPC_ARENA_BYTES], after one call of [on_open] if it is set;
    the allocator shim is installed, no arena is bound by the call, and
    [jsonrpc_conn_get_context] gives back the context it was created
    with. *)
Theorem conn_new_outcomes (w : world U) (tr : jsonrpc_transport_t)
  (cb : jsonrpc_callbacks_t U) (ctx : Z) :
  let run := jsonrpc_conn_new tr cb ctx in
  (alloc_ok (mach w) 0 = false ->
   eval run w = None /\ trace (exec run w) = trace w /\
   user (exec run w) = user w) /\
  (alloc_ok (mach w) 0 = true -> alloc_ok (mach w) 1 = true ->
   alloc_ok (mach w) 2 = true ->
   exists c a,
     eval run w = Some c /\ arena c = Some a /\
     index (arenas (mach (exec run w)) a) = 0 /\
     size (arenas (mach (exec run w)) a) = JSONRPC_ARENA_BYTES /\
     closed c = false /\ inbound c = mkBuffer None [] 0 /\
     transport c = tr /\ callbacks c = cb /\
     jsonrpc_conn_get_context (Some c) = Some ctx /\
     g_parson_allocator_initialized (mach (exec run w)) = true /\
     g_current_arena (mach (exec run w)) = g_current_arena (mach w) /\
     trace (exec run w) =
       trace w ++ match on_open cb with Some _ => [EvOnOpen] | None => [] end).
Proof.
  intros run. subst run.
  destruct (conn_new_mach w tr cb ctx) as (Hm & He & Ht & Hu).
  split.
  - intros H0.
    pose proof (conn_allocs_none (mach w) H0) as E.
    rewrite He, Ht, Hu, E. cbn. now rewrite app_nil_r.
  - intros H0 H1 H2.
    destruct (conn_new_allocs_granted (mach w) H0 H1 H2)
      as (E & Har & Hinit & Hcur & _).
    rewrite He, Ht, Hm, E. cbn [option_map fst snd].
    eexists. eexists. split; [reflexivity|]. cbn [arena closed inbound
      transport callbacks jsonrpc_conn_get_context user_context].
    rewrite Har. cbn [index size]. repeat split; auto.
Qed.

Lemma conn_free_frees_run (c : jsonrpc_conn_t U) (m : machine) :
  heap_log (exec (conn_free_frees c) m) =
    heap_log m ++
    match data (inbound c) with Some p => [HFree p] | None => [] end ++
    match arena c with
    | Some a =>
        (if region (arenas m a) =? 0 then []
         else [HFree (region (arenas m a))]) ++ [HFree a]
    | None => []
    end ++
    [HFree (self c)] /\
  g_current_arena (exec (conn_free_frees c) m) =
    match arena c with
    | Some a => if ptr_eqb (g_current_arena m) (Some a) then None
                else g_current_arena m
    | None => g_current_arena m
    end.
Proof.
  destruct m as [o b f ar g i l].
  unfold exec, conn_free_frees, rpc_buffer_free, arena_destroy.
  destruct (data (inbound c)) as [p|]; destruct (arena c) as [a|];
    repeat first
      [ rewrite bind_run
      | progress cbn
      | match goal with
        | |- context [ptr_eqb g (Some a)] => destruct (ptr_eqb g (Some a))
        | |- context [region (ar a) =? 0] => destruct (region (ar a) =? 0)
        end ];
    rewrite <- ?app_assoc; auto.
Qed.

(** X12: [jsonrpc_conn_free].  It calls [on_close] once if the callback
    is set and the connection is not marked closed, and never
    otherwise; it frees the buffer's block if there is one, the arena's
    region and struct if there is an arena, and the connection's
    struct, in that order; and it does not leave the destroyed arena
    bound: the current arena afterwards is never the connection's. *)
Theorem conn_free_spec (w : world U) (c : jsonrpc_conn_t U) :
  let run := jsonrpc_conn_free (Some c) in
  let m := mach w in
  trace (exec run w) =
    trace w ++
    match on_close (callbacks c) with
    | Some _ => if closed c then [] else [EvOnClose]
    | None => []
    end /\
  heap_log (mach (exec run w)) =
    heap_log m ++
    match data (inbound c) with Some p => [HFree p] | None => [] end ++
    match arena c with
    | Some a =>
        (if region (arenas m a) =? 0 then []
         else [HFree (region (arenas m a))]) ++ [HFree a]
    | None => []
    end ++
    [HFree (self c)] /\
  (forall a, arena c = Some a -> g_current_arena (mach (exec run w)) <> Some a) /\
  (forall a, arena c = Some a -> g_current_arena m <> Some a ->
             g_current_arena (mach (exec run w)) = g_current_arena m) /\
  (arena c = None -> g_current_arena (mach (exec run w)) = g_current_arena m) /\
  jsonrpc_conn_free None w = (None, w).
Proof.
  intros run m. subst run m.
  destruct (conn_free_mach w c) as (Hm & _ & Ht & _).
  destruct (conn_free_frees_run c (mach w)) as (Hlog & Hcur).
  rewrite Ht, Hm, Hlog, Hcur.
  split; [reflexivity|]. split; [reflexivity|].
  split; [|split; [|split; [|reflexivity]]].
  - intros a ->.
    destruct (g_current_arena (mach w)) as [x|]; cbn [ptr_eqb];
      [|discriminate].
    destruct (Z.eqb_spec x a); [discriminate|congruence].
  - intros a -> Hne.
    destruct (g_current_arena (mach w)) as [x|]; cbn [ptr_eqb];
      [|reflexivity].
    destruct (Z.eqb_spec x a); [congruence|reflexivity].
  - now intros ->.
Qed.

End Life.

(** ** jsonrpc.c: the allocator shim and the arena scope *)

(** X13: where [jsonrpc_arena_malloc] takes a block from while an arena
    is bound.  If the request and its header fit in the arena, the
    block comes from the arena, marked as such, and the system
    allocator is not called; if they do not fit, the block comes from
    [calloc], marked as heap; nothing is returned only when [calloc]
    fails too.  The returned pointer is [JSONRPC_ALLOC_HEADER_BYTES]
    past the start of the block. *)
Theorem jsonrpc_arena_malloc_sources (m : machine) (a sz : Z) :
  g_current_arena m = Some a -> arena_wf (arenas m a) ->
  0 < sz <= SIZE_MAX - JSONRPC_ALLOC_HEADER_BYTES ->
  let s := arenas m a in
  let total := sz + JSONRPC_ALLOC_HEADER_BYTES in
  let pad := padding_for s arena_default_alignment in
  let r := eval (jsonrpc_arena_malloc sz) m in
  let m' := exec (jsonrpc_arena_malloc sz) m in
  (index s + pad + total <= size s ->
   let p := region s + index s + pad + JSONRPC_ALLOC_HEADER_BYTES in
   r = Some p /\
   header_origin m' p = JSONRPC_ALLOC_ORIGIN_ARENA /\
   heap_log m' = heap_log m ++ [HShimAlloc p JSONRPC_ALLOC_ORIGIN_ARENA]) /\
  (size s < index s + pad + total -> alloc_ok m 0 = true ->
   let p := brk m + JSONRPC_ALLOC_HEADER_BYTES in
   r = Some p /\
   header_origin m' p = JSONRPC_ALLOC_ORIGIN_HEAP /\
   heap_log m' =
     heap_log m ++ [HCalloc (brk m) total;
                    HShimAlloc p JSONRPC_ALLOC_ORIGIN_HEAP]) /\
  (size s < index s + pad + total -> alloc_ok m 0 = false ->
   r = None /\ heap_log m' = heap_log m).
Proof.
  intros Hcur Hwf Hsz s total pad r m'. subst r m'.
  unfold eval, exec. rewrite (jsonrpc_arena_malloc_run m Hsz), Hcur.
  fold total. unfold arena_alloc.
  assert (Hal : 0 <= arena_default_alignment)
    by (unfold arena_default_alignment, alignof_size_t; lia).
  assert (Ht : 0 < total)
    by (unfold total, JSONRPC_ALLOC_HEADER_BYTES, sizeof_header, max_align;
        cbn; lia).
  destruct (arena_alloc_aligned_frame m (Some a) total arena_default_alignment)
    as (Hor & Hbrk & _ & _ & _ & Hlog).
  unfold exec in Hor, Hbrk, Hlog.
  split; [|split].
  - intros Hfit. cbv zeta.
    destruct (@arena_alloc_aligned_fits m a total arena_default_alignment
                Hwf Hal Ht Hfit) as (E & _).
    unfold eval in E. rewrite E. cbn [fst snd].
    split; [reflexivity|]. split.
    + apply tagged_header. unfold JSONRPC_ALLOC_ORIGIN_ARENA. lia.
    + unfold tagged. cbn [heap_log log_heap set_mem]. now rewrite Hlog.
  - intros Hover Hok. cbv zeta.
    pose proof (@arena_alloc_aligned_exhausted m a total arena_default_alignment
                  Hwf Hal Ht Hover) as E.
    unfold eval in E. rewrite E.
    rewrite calloc_result. unfold alloc_ok in *. rewrite Hor, Hok, Hbrk.
    cbn [fst snd].
    split; [reflexivity|]. split.
    + apply tagged_header. unfold JSONRPC_ALLOC_ORIGIN_HEAP. lia.
    + unfold tagged. cbn [heap_log log_heap set_mem].
      rewrite calloc_log. unfold alloc_ok. rewrite Hor, Hok, Hbrk, Hlog.
      now rewrite <- app_assoc.
  - intros Hover Hok.
    pose proof (@arena_alloc_aligned_exhausted m a total arena_default_alignment
                  Hwf Hal Ht Hover) as E.
    unfold eval in E. rewrite E.
    rewrite calloc_result. unfold alloc_ok in *. rewrite Hor, Hok.
    cbn [fst snd]. split; [reflexivity|].
    rewrite calloc_log. unfold alloc_ok. rewrite Hor, Hok, Hlog.
    apply app_nil_r.
Qed.

(** X14: a block from [jsonrpc_arena_malloc] handed to
    [jsonrpc_arena_free] leaves the system heap as it was: a block that
    came from [calloc] goes to [free], and it is the very block that
    [calloc] returned; a block that came from the arena goes
    nowhere. *)
Theorem jsonrpc_arena_malloc_free_balanced (m m1 : machine) (sz p : Z) :
  0 < brk m ->
  (forall q, In q (live_blocks (heap_log m)) -> q < brk m) ->
  0 <= sz ->
  jsonrpc_arena_malloc sz m = (Some p, m1) ->
  let m2 := exec (jsonrpc_arena_free (Some p)) m1 in
  live_blocks (heap_log m2) = live_blocks (heap_log m) /\
  (header_origin m1 p = JSONRPC_ALLOC_ORIGIN_HEAP ->
   p = brk m + JSONRPC_ALLOC_HEADER_BYTES /\
   heap_log m2 = heap_log m1 ++ [HFree (brk m)]) /\
  (header_origin m1 p = JSONRPC_ALLOC_ORIGIN_ARENA -> heap_log m2 = heap_log m1).
Proof.
  intros Hb Hlive Hnn Hm m2. subst m2.
  assert (Hsz : 0 < sz <= SIZE_MAX - JSONRPC_ALLOC_HEADER_BYTES).
  { unfold jsonrpc_arena_malloc in Hm.
    destruct (Z.eqb_spec sz 0); [discriminate|].
    destruct (Z.gtb_spec sz (SIZE_MAX - JSONRPC_ALLOC_HEADER_BYTES));
      [discriminate|]. lia. }
  rewrite (jsonrpc_arena_malloc_run m Hsz) in Hm.
  set (total := sz + JSONRPC_ALLOC_HEADER_BYTES) in *.
  set (r1 := match g_current_arena m with
             | Some a => arena_alloc (Some a) total m
             | None => (None, m)
             end) in *.
  assert (Hr1 : heap_log (snd r1) = heap_log m /\ brk (snd r1) = brk m /\
                oracle (snd r1) = oracle m).
  { subst r1. destruct (g_current_arena m) as [a|]; [|auto].
    destruct (arena_alloc_aligned_frame m (Some a) total
                arena_default_alignment) as (Hor & Hbrk & _ & _ & _ & Hlog).
    unfold arena_alloc. auto. }
  destruct Hr1 as (Hlog1 & Hbrk1 & Hor1).
  assert (Hfree :
    forall b origin mm,
      0 <= origin < 2 ^ 32 ->
      exec (jsonrpc_arena_free (Some (b + JSONRPC_ALLOC_HEADER_BYTES)))
           (tagged b origin mm)
      = if origin =? JSONRPC_ALLOC_ORIGIN_HEAP
        then log_heap (HFree b) (tagged b origin mm)
        else tagged b origin mm).
  { intros b origin mm Ho.
    destruct (tagged_header b mm Ho) as (Htag & Horigin).
    unfold header_tag, header_origin in Htag, Horigin.
    unfold exec, jsonrpc_arena_free. cbv zeta.
    rewrite bind_run. unfold gets. cbn [fst snd].
    rewrite Htag, Z.eqb_refl. cbn [negb].
    rewrite bind_run. cbn [fst snd].
    rewrite Horigin.
    replace (b + JSONRPC_ALLOC_HEADER_BYTES - JSONRPC_ALLOC_HEADER_BYTES)
      with b by lia.
    destruct (origin =? JSONRPC_ALLOC_ORIGIN_HEAP); reflexivity. }
  destruct (fst r1) as [b|].
  - injection Hm as <- <-.
    rewrite Hfree by (unfold JSONRPC_ALLOC_ORIGIN_ARENA; lia).
    change (JSONRPC_ALLOC_ORIGIN_ARENA =? JSONRPC_ALLOC_ORIGIN_HEAP)
      with false. cbv iota.
    destruct (@tagged_header b JSONRPC_ALLOC_ORIGIN_ARENA (snd r1)
                ltac:(unfold JSONRPC_ALLOC_ORIGIN_ARENA; lia)) as (_ & Ho).
    split; [|split].
    + unfold tagged. cbn [heap_log log_heap set_mem]. rewrite Hlog1.
      rewrite live_blocks_app. reflexivity.
    + rewrite Ho. discriminate.
    + reflexivity.
  - rewrite calloc_result in Hm.
    pose proof (calloc_log total (snd r1)) as Hclog.
    unfold alloc_ok in Hm, Hclog. rewrite Hor1 in Hm, Hclog.
    destruct (nth 0 (oracle m) true); [|discriminate].
    injection Hm as <- <-. rewrite Hbrk1 in *.
    rewrite Hfree by (unfold JSONRPC_ALLOC_ORIGIN_HEAP; lia).
    rewrite Z.eqb_refl.
    destruct (@tagged_header (brk m) JSONRPC_ALLOC_ORIGIN_HEAP
                (snd (calloc total (snd r1)))
                ltac:(unfold JSONRPC_ALLOC_ORIGIN_HEAP; lia)) as (_ & Ho).
    split; [|split].
    + unfold tagged. cbn [heap_log log_heap set_mem].
      rewrite Hclog, Hlog1.
      unfold live_blocks. rewrite !fold_left_app.
      cbn [fold_left live_step]. fold (live_blocks (heap_log m)).
      apply remove_last_fresh. intros H. apply Hlive in H. lia.
    + intros _. split; reflexivity.
    + rewrite Ho. discriminate.
Qed.

(** X15: an arena scope that is begun and ended leaves the current
    arena as it found it.  Begun on a null arena, or on the arena that
    is already current, it changes nothing at all, so a scope nested in
    a scope on the same arena does not clear it; begun on another
    arena, it ends by resetting that arena's index to zero, its region
    and capacity untouched. *)
Theorem jsonrpc_arena_scope_round_trip (m : machine) (arena : option Z) :
  let run := scope <- jsonrpc_arena_scope_begin arena ;;
             jsonrpc_arena_scope_end arena scope in
  g_current_arena (exec run m) = g_current_arena m /\
  (arena = None \/ arena = g_current_arena m -> exec run m = m) /\
  (forall a, arena = Some a -> g_current_arena m <> Some a ->
     arenas (exec run m) a =
       mkArena (region (arenas m a)) 0 (size (arenas m a)) /\
     (forall x, x <> a -> arenas (exec run m) x = arenas m x) /\
     g_current_arena (exec (jsonrpc_arena_scope_begin arena) m) = Some a /\
     mem (exec run m) = mem m /\ heap_log (exec run m) = heap_log m).
Proof.
  intros run. subst run. unfold exec.
  assert (Hsame :
    forall x a, ptr_eqb x (Some a) = true <-> x = Some a).
  { intros [x|] a; cbn; [|split; discriminate].
    destruct (Z.eqb_spec x a); split; congruence. }
  unfold jsonrpc_arena_scope_begin, jsonrpc_arena_scope_end.
  rewrite !bind_run. unfold gets. cbn [fst snd].
  destruct arena as [a|].
  - cbn [ptr_eqb orb].
    destruct (ptr_eqb (g_current_arena m) (Some a)) eqn:E.
    + cbn [fst snd ret changed negb].
      split; [reflexivity|]. split; [reflexivity|].
      intros a' Ha Hne. injection Ha as <-.
      apply Hsame in E. contradiction.
    + destruct m as [o b f ar g i l]. cbn in E |- *.
      split; [reflexivity|]. split.
      * intros [H|H]; [discriminate|].
        symmetry in H. apply Hsame in H. cbn in H. congruence.
      * intros a' Ha _. injection Ha as <-. rewrite Z.eqb_refl.
        repeat split; auto. intros x Hx. now destruct (Z.eqb_spec x a).
  - cbn [ptr_eqb orb fst snd ret changed negb].
    split; [reflexivity|]. split; [reflexivity|]. discriminate.
Qed.

(** ** jsonrpc.c: the dispatcher on what is not a valid message *)

Section DispatcherEdges.

Variable U : Type.
Variable c : jsonrpc_conn_t U.

Lemma invalid_request_run (w : world U) :
  oracle (mach w) = [] ->
  invalid_request w =
    (Some (error_envelope JSONNull JSONRPC_ERR_INVALID_REQUEST
             "Invalid Request"), w).
Proof.
  intros Ho. destruct w as [m u t]. cbn [mach] in Ho.
  unfold invalid_request, liftH. cbn [mach user trace].
  now rewrite jsonrpc_build_error_null by auto.
Qed.

(** X16: what is not a request at all is answered by Invalid Request
    (-32600) with a null id, and no callback runs: a null value, a value
    that is not an object, an object whose ["jsonrpc"] member is missing,
    not a string, or a string other than ["2.0"], an object whose
    ["method"] member is missing or not a string.  The id the object may
    carry is not echoed. *)
Theorem malformed_request_is_invalid (w : world U) (v : option JSON_Value) :
  oracle (mach w) = [] ->
  let invalid :=
    (Some (error_envelope JSONNull JSONRPC_ERR_INVALID_REQUEST
             "Invalid Request"), w) in
  jsonrpc_process_value c None w = invalid /\
  (json_value_get_object v = None ->
   jsonrpc_process_object c v w = invalid) /\
  (forall ms,
     v = Some (JSONObject ms) ->
     (forall version,
        json_object_get_string ms "jsonrpc" = Some version ->
        c_str version <> "2.0"%string) ->
     jsonrpc_process_object c v w = invalid) /\
  (forall ms,
     v = Some (JSONObject ms) ->
     json_object_get_string ms "method" = None ->
     jsonrpc_process_object c v w = invalid).
Proof.
  intros Ho invalid. subst invalid.
  pose proof (invalid_request_run w Ho) as Hinv.
  split; [exact Hinv|]. split; [|split].
  - intros Hobj. unfold jsonrpc_process_object. now rewrite Hobj.
  - intros ms -> Hver. unfold jsonrpc_process_object.
    cbn [json_value_get_object].
    destruct (json_object_get_string ms "jsonrpc") as [version|];
      [|exact Hinv].
    assert (E : strcmp_eq version "2.0" = false).
    { unfold strcmp_eq. apply String.eqb_neq.
      change (c_str "2.0") with "2.0"%string. now apply Hver. }
    rewrite E. exact Hinv.
  - intros ms -> Hm. unfold jsonrpc_process_object.
    cbn [json_value_get_object].
    destruct (json_object_get_string ms "jsonrpc") as [version|];
      [|exact Hinv].
    destruct (strcmp_eq version "2.0"); cbn [negb]; [|exact Hinv].
    rewrite Hm. exact Hinv.
Qed.

(** X17: without handlers.  A valid request on a connection that has no
    [on_request] is answered by Method not found (-32601) under the
    request's id; a valid notification on a connection that has no
    [on_notification] is dropped; in both cases nothing is called and
    nothing changes. *)
Theorem requests_without_handlers (w : world U)
  (ms : list (string * JSON_Value)) :
  oracle (mach w) = [] ->
  (on_request (callbacks c) = None ->
   forall i, valid_request ms i ->
     jsonrpc_process_object c (Some (JSONObject ms)) w =
       (Some (error_envelope i JSONRPC_ERR_METHOD_NOT_FOUND
                "Method not found"), w)) /\
  (on_notification (callbacks c) = None ->
   valid_notification ms ->
   jsonrpc_process_object c (Some (JSONObject ms)) w = (None, w)).
Proof.
  intros Ho. split.
  - intros Hreq i (Hv & (method & Hm) & Hid & Hok & Hp).
    rewrite (process_object_request c w ms Hv Hm Hid Hok Hp), Hreq.
    destruct w as [m u t]. cbn [mach] in Ho. unfold liftH.
    cbn [mach user trace].
    now rewrite jsonrpc_build_error_ok by auto.
  - intros Hnot (Hv & (method & Hm) & Hid & Hp).
    now rewrite (process_object_notification c w ms Hv Hm Hid Hp), Hnot.
Qed.

Lemma process_items_non_objects (items : list JSON_Value) :
  forall (acc : list JSON_Value) (n : Z) (w : world U),
    oracle (mach w) = [] ->
    Forall (fun v => json_value_get_object (Some v) = None) items ->
    process_items c items (JSONArray acc) n w =
      (Some (JSONArray
               (acc ++
                map (fun _ => error_envelope JSONNull
                                JSONRPC_ERR_INVALID_REQUEST "Invalid Request")
                    items),
             n + Z.of_nat (List.length items)), w).
Proof.
  induction items as [|item rest IH]; intros acc n w Ho Hall.
  - cbn. now rewrite app_nil_r, Z.add_0_r.
  - inversion Hall as [|x xs Hitem Hrest]; subst.
    assert (Hobj : jsonrpc_process_object c (Some item) w =
                   (Some (error_envelope JSONNull JSONRPC_ERR_INVALID_REQUEST
                            "Invalid Request"), w)).
    { unfold jsonrpc_process_object. rewrite Hitem.
      exact (invalid_request_run w Ho). }
    cbn [process_items]. rewrite bind_run, Hobj. cbn [fst snd].
    rewrite bind_run.
    assert (E : liftH (U := U)
                  (json_array_append_value (JSONArray acc)
                     (error_envelope JSONNull JSONRPC_ERR_INVALID_REQUEST
                        "Invalid Request")) w
                = (Some (JSONArray
                           (acc ++ [error_envelope JSONNull
                                      JSONRPC_ERR_INVALID_REQUEST
                                      "Invalid Request"])), w)).
    { destruct w as [[o b f ar g i l] u t]. cbn in Ho. subst o. reflexivity. }
    rewrite E. cbn [fst snd].
    rewrite (IH _ _ w Ho Hrest). cbn [map List.length].
    rewrite <- app_assoc. cbn [app]. do 3 f_equal. lia.
Qed.

(** X18: a batch none of whose elements is an object (numbers, strings,
    nested arrays, ...) is answered by an array with one Invalid Request
    error, id null, per element; no callback runs. *)
Theorem batch_of_non_objects (w : world U) (items : list JSON_Value) :
  oracle (mach w) = [] -> items <> [] ->
  Forall (fun v => json_value_get_object (Some v) = None) items ->
  jsonrpc_process_value c (Some (JSONArray items)) w =
    (Some (JSONArray
             (map (fun _ => error_envelope JSONNull
                              JSONRPC_ERR_INVALID_REQUEST "Invalid Request")
                  items)), w).
Proof.
  intros Ho Hne Hall. unfold jsonrpc_process_value.
  cbn [json_value_get_type type_eqb json_value_get_array].
  destruct (Z.eqb_spec (Z.of_nat (List.length items)) 0) as [E|E].
  { destruct items; [contradiction|discriminate]. }
  rewrite bind_run.
  assert (Hinit : liftH (U := U) json_value_init_array w
                  = (Some (JSONArray []), w)).
  { destruct w as [[o b f ar g i l] u t]. cbn in Ho. subst o. reflexivity. }
  rewrite Hinit. cbn [fst snd]. rewrite bind_run.
  rewrite (process_items_non_objects [] 0 w Ho Hall). cbn [fst snd app].
  destruct (Z.eqb_spec (0 + Z.of_nat (List.length items)) 0); [lia|].
  reflexivity.
Qed.

End DispatcherEdges.

(** ** jsonrpc.c: the response builders when allocation may fail *)

(** One more outcome of the allocator is looked at, until the goal no
    longer depends on the outcomes left. *)
Ltac split_outcomes o fin :=
  cbv beta iota zeta delta -[double_of_int32 jsonrpc_default_message app map];
  first
    [ solve [fin]
    | match goal with
      | |- context [match o with _ => _ end] => destruct o as [|[|] o]
      end;
      split_outcomes o fin ].

Ltac freed_list :=
  rewrite <- ?app_assoc; cbn [app];
  first
    [ exists nil; cbn [map]; now rewrite ?app_nil_r
    | eexists (cons _ nil); reflexivity
    | eexists (cons _ (cons _ nil)); reflexivity
    | eexists (cons _ (cons _ (cons _ nil))); reflexivity ].

Ltac build_error_done :=
  split;
  [ intros v E;
    first [discriminate E | inversion E; subst; split; [auto|reflexivity]]
  | intros E; first [discriminate | freed_list] ].

(** X19: [jsonrpc_build_error] is all or nothing, whichever allocations
    fail.  What it returns is the complete error envelope, whose id is
    the copy of the given id, or null when that copy could not be made,
    and then nothing has been freed; or it returns nothing, and then it
    has done nothing to the heap but free JSON values it had built. *)
Theorem jsonrpc_build_error_all_or_nothing (m : machine)
  (id : option JSON_Value) (code : Z) (message : option string) :
  let r := eval (jsonrpc_build_error id code message) m in
  let m' := exec (jsonrpc_build_error id code message) m in
  (forall v, r = Some v ->
     (v = error_reply id code message \/
      v = error_reply None code message) /\
     heap_log m' = heap_log m) /\
  (r = None ->
     exists freed, heap_log m' = heap_log m ++ map HJsonFree freed).
Proof.
  intros r m'. subst r m'. unfold eval, exec, error_reply.
  destruct m as [o b f ar g i l].
  destruct id as [[]|]; split_outcomes o build_error_done.
Qed.

Ltac freed_around x :=
  rewrite <- ?app_assoc; cbn [app];
  first
    [ exists nil, nil; reflexivity
    | eexists nil, (cons _ nil); reflexivity
    | eexists (cons _ nil), nil; reflexivity
    | eexists (cons _ nil), (cons _ nil); reflexivity ].

Ltac build_result_done x :=
  split;
  [ intros v E;
    first [discriminate E | inversion E; subst; split; [auto|reflexivity]]
  | intros E; first [discriminate | freed_around x] ].

Lemma jsonrpc_build_result_cases (m : machine) (id : option JSON_Value)
  (x : JSON_Value) :
  (forall v, eval (jsonrpc_build_result id (Some x)) m = Some v ->
     (v = result_envelope (copied_id id) x \/
      v = result_envelope JSONNull x) /\
     heap_log (exec (jsonrpc_build_result id (Some x)) m) = heap_log m) /\
  (eval (jsonrpc_build_result id (Some x)) m = None ->
     exists before after,
       heap_log (exec (jsonrpc_build_result id (Some x)) m) =
         heap_log m ++ map HJsonFree (before ++ x :: after)).
Proof.
  unfold eval, exec.
  destruct m as [o b f ar g i l].
  destruct id as [[]|];
    split_outcomes o ltac:(build_result_done x).
Qed.

(** X20: [jsonrpc_build_result] takes the result over, whichever
    allocations fail.  What it returns is the complete envelope that
    holds the result, under the copy of the given id or under null, and
    then nothing has been freed; or it returns nothing, and then the
    result is among the JSON values it has freed, which is all it has
    done to the heap.  Without a result it returns nothing and does
    nothing. *)
Theorem jsonrpc_build_result_owns_result (m : machine)
  (id : option JSON_Value) :
  jsonrpc_build_result id None m = (None, m) /\
  forall x,
    let r := eval (jsonrpc_build_result id (Some x)) m in
    let m' := exec (jsonrpc_build_result id (Some x)) m in
    (forall v, r = Some v ->
       (v = result_envelope (copied_id id) x \/
        v = result_envelope JSONNull x) /\
       heap_log m' = heap_log m) /\
    (r = None ->
       exists before after,
         heap_log m' =
           heap_log m ++ map HJsonFree (before ++ x :: after)).
Proof.
  split; [reflexivity|].
  intros x r m'. subst r m'. apply jsonrpc_build_result_cases.
Qed.

(** ** The heap log only grows *)

Lemma log_grows_refl (m : machine) : log_grows m m.
Proof. exists []. now rewrite app_nil_r. Qed.

Lemma log_grows_trans (m1 m2 m3 : machine) :
  log_grows m1 m2 -> log_grows m2 m3 -> log_grows m1 m3.
Proof.
  intros (l1 & E1) (l2 & E2). exists (l1 ++ l2).
  now rewrite E2, E1, app_assoc.
Qed.

Lemma grows_consumed (x : JSON_Value) (m m1 m2 : machine) :
  log_grows m m1 -> consumed x m1 m2 -> consumed x m m2.
Proof.
  intros (l1 & E1) (l2 & v & E2 & Hin & Hv). exists (l1 ++ l2), v.
  rewrite E2, E1, app_assoc. split; [reflexivity|].
  split; [apply in_or_app; now right|exact Hv].
Qed.

Lemma consumed_grows (x : JSON_Value) (m m1 m2 : machine) :
  consumed x m m1 -> log_grows m1 m2 -> consumed x m m2.
Proof.
  intros (l1 & v & E1 & Hin & Hv) (l2 & E2). exists (l1 ++ l2), v.
  rewrite E2, E1, app_assoc. split; [reflexivity|].
  split; [apply in_or_app; now left|exact Hv].
Qed.

Lemma HG_ret {A : Type} (x : A) : HG (ret x).
Proof. apply keeps_ret, log_grows_refl. Qed.

Lemma HG_gets {A : Type} (f : machine -> A) : HG (gets f).
Proof. apply keeps_gets, log_grows_refl. Qed.

Lemma HG_bind {A B : Type} (m : HM A) (k : A -> HM B) :
  HG m -> (forall x, HG (k x)) -> HG (bind m k).
Proof. apply keeps_bind, log_grows_trans. Qed.

Lemma HG_modify (f : machine -> machine) (l : list heap_event) :
  (forall m, heap_log (f m) = heap_log m ++ l) -> HG (modify f).
Proof. intros Hf m. exists l. apply Hf. Qed.

Lemma HG_quiet (f : machine -> machine) :
  (forall m, heap_log (f m) = heap_log m) -> HG (modify f).
Proof.
  intros Hf. apply HG_modify with (l := []). intros m.
  now rewrite app_nil_r.
Qed.

Lemma HG_next_outcome : HG next_outcome.
Proof.
  intros m. unfold exec, next_outcome.
  destruct (oracle m); exists []; cbn; now rewrite app_nil_r.
Qed.

Lemma HG_calloc (n : Z) : HG (calloc n).
Proof.
  unfold calloc. apply HG_bind; [apply HG_next_outcome|].
  intros [|]; [|apply HG_ret]. intros m.
  exists [HCalloc (brk m) n]. reflexivity.
Qed.

Create HintDb hg.
#[local] Hint Resolve HG_ret HG_gets HG_next_outcome HG_calloc : hg.
#[local] Hint Extern 1 (HG (modify (log_heap _))) =>
  (eapply HG_modify; intros; reflexivity) : hg.
#[local] Hint Extern 2 (HG (modify _)) =>
  (apply HG_quiet; intros; reflexivity) : hg.
#[local] Hint Extern 1 (HG (free _)) =>
  (eapply HG_modify; intros; reflexivity) : hg.
#[local] Hint Extern 1 (HG (store_arena _ _)) =>
  (apply HG_quiet; intros; reflexivity) : hg.
#[local] Hint Extern 1 (HG (load_arena _)) => (apply HG_gets) : hg.

Ltac hg_step :=
  first
    [ solve [auto with hg]
    | apply HG_bind; [|intros ?]
    | match goal with
      | |- HG (match ?x with _ => _ end) => destruct x
      end
    | progress cbv zeta ].

Ltac hg := repeat hg_step.

Lemma HG_arena_alloc_aligned (arena : option Z) (n alignment : Z) :
  HG (arena_alloc_aligned arena n alignment).
Proof. unfold arena_alloc_aligned. hg. Qed.
#[local] Hint Resolve HG_arena_alloc_aligned : hg.

Lemma HG_arena_clear (arena : option Z) : HG (arena_clear arena).
Proof. unfold arena_clear. hg. Qed.
#[local] Hint Resolve HG_arena_clear : hg.

Lemma HG_jsonrpc_arena_malloc (sz : Z) : HG (jsonrpc_arena_malloc sz).
Proof. unfold jsonrpc_arena_malloc, arena_alloc. hg. Qed.

Lemma HG_jsonrpc_arena_free (ptr : option Z) : HG (jsonrpc_arena_free ptr).
Proof. unfold jsonrpc_arena_free. hg. Qed.

Lemma HG_jsonrpc_init_parson_allocator : HG jsonrpc_init_parson_allocator.
Proof. unfold jsonrpc_init_parson_allocator. hg. Qed.

Lemma HG_jsonrpc_arena_scope_begin (arena : option Z) :
  HG (jsonrpc_arena_scope_begin arena).
Proof. unfold jsonrpc_arena_scope_begin. hg. Qed.

Lemma HG_jsonrpc_arena_scope_end (arena : option Z)
  (scope : jsonrpc_arena_scope_t) : HG (jsonrpc_arena_scope_end arena scope).
Proof. unfold jsonrpc_arena_scope_end. hg. Qed.

Lemma HG_json_serialize_to_string
  (serialize : JSON_Value -> option (list byte)) (v : JSON_Value) :
  HG (json_serialize_to_string serialize v).
Proof. unfold json_serialize_to_string. hg. Qed.

(** ** jsonrpc.c: the two functions that send a response *)

Section SendApi.

Variable U : Type.
Variable serialize : JSON_Value -> option (list byte).

Lemma refines_send_result (c : jsonrpc_conn_t U) (id : option JSON_Value)
  (x : JSON_Value) :
  refines eq (jsonrpc_conn_send_result serialize (Some c) id (Some x))
             (send_spec serialize (transport c)
                (result_envelope (copied_id id) x)).
Proof.
  unfold jsonrpc_conn_send_result.
  apply refines_machine_seq; [apply calm_jsonrpc_init_parson_allocator|].
  apply refines_machine with (Q := fun _ => True);
    [apply calm_jsonrpc_arena_scope_begin|auto|].
  intros scope _.
  apply refines_machine
    with (Q := fun a => a = Some (result_envelope (copied_id id) x)).
  - intros m Ho. unfold exec. now rewrite jsonrpc_build_result_any.
  - intros m Ho. unfold eval. now rewrite jsonrpc_build_result_any.
  - intros a ->.
    apply refines_ext
      with (p := pbind (send_spec serialize (transport c)
                          (result_envelope (copied_id id) x))
                       (fun y => pret y));
      [intros u; apply pbind_pret|].
    apply refines_bind_ret with (f := fun y => y);
      [apply refines_send_value|].
    intros sent.
    apply refines_machine_seq; [apply calm_modify; reflexivity|].
    apply refines_machine_seq; [apply calm_jsonrpc_arena_scope_end|].
    now apply refines_ret.
Qed.

(** X21: [jsonrpc_conn_send_result] and [jsonrpc_conn_send_error] when
    no allocation fails.  On a connection they hand [send_raw] one line,
    the text of the result envelope (of the error envelope, with the
    default message of the code when none is given) under the copy of
    the id, null for an id that is not a string or a number, and return
    [true]; they return [false] and call nothing when the transport has
    no [send_raw] or the envelope has no text.  They never call a
    handler or close the transport. *)
Theorem send_result_and_error_spec (c : jsonrpc_conn_t U)
  (id : option JSON_Value) (w : world U) :
  oracle (mach w) = [] ->
  (forall x,
     let run := jsonrpc_conn_send_result serialize (Some c) id (Some x) in
     let lines := on_wire serialize (transport c)
                    (result_envelope (copied_id id) x) in
     eval run w = match lines with [] => false | _ :: _ => true end /\
     trace (exec run w) = trace w ++ map EvSendRaw lines /\
     user (exec run w) = user w) /\
  (forall code message,
     let run := jsonrpc_conn_send_error serialize (Some c) id code message in
     let lines := on_wire serialize (transport c)
                    (error_envelope (copied_id id) code
                       match message with
                       | Some s => s
                       | None => jsonrpc_default_message code
                       end) in
     eval run w = match lines with [] => false | _ :: _ => true end /\
     trace (exec run w) = trace w ++ map EvSendRaw lines /\
     user (exec run w) = user w).
Proof.
  intros Ho. split.
  - intros x run lines. subst run lines.
    destruct (refines_send_result c id x w Ho) as (Hr & Hu & Ht & _).
    rewrite send_spec_on_wire in Hr, Hu, Ht. cbn [fst snd] in Hr, Hu, Ht.
    auto.
  - intros code message run lines. subst run lines.
    destruct (@refines_send_error U serialize c id code message w Ho)
      as (Hr & Hu & Ht & _).
    unfold error_reply in Hr, Hu, Ht.
    rewrite send_spec_on_wire in Hr, Hu, Ht. cbn [fst snd] in Hr, Hu, Ht.
    auto.
Qed.

Lemma WG_liftH {A : Type} (h : HM A) : HG h -> WG (liftH (U := U) h).
Proof.
  intros Hh w. specialize (Hh (mach w)). unfold exec, liftH in *.
  destruct (h (mach w)) as [x m']. exact Hh.
Qed.

Lemma WG_ret {A : Type} (x : A) : WG (ret (S := world U) x).
Proof. intros w. apply log_grows_refl. Qed.

Lemma WG_bind {A B : Type} (m : EM U A) (k : A -> EM U B) :
  WG m -> (forall x, WG (k x)) -> WG (bind m k).
Proof.
  intros Hm Hk w. unfold exec. rewrite bind_run.
  eapply log_grows_trans; [apply Hm | apply Hk].
Qed.

Lemma WG_emit (e : event) : WG (emit (U := U) e).
Proof. intros w. apply log_grows_refl. Qed.

Lemma WG_jsonrpc_send_value (conn : option (jsonrpc_conn_t U))
  (v : option JSON_Value) : WG (jsonrpc_send_value serialize conn v).
Proof.
  unfold jsonrpc_send_value.
  repeat first
    [ apply WG_ret
    | apply WG_emit
    | apply WG_liftH;
      first [ apply HG_json_serialize_to_string
            | apply HG_jsonrpc_arena_malloc
            | apply HG_jsonrpc_arena_free ]
    | apply WG_bind; [|intros ?]
    | match goal with
      | |- WG (match ?x with _ => _ end) => destruct x
      end
    | progress cbv zeta ].
Qed.

(** X22: [jsonrpc_conn_send_result] always takes the result over.
    Whatever the connection (none included), the id and the allocations
    that fail, when it returns the result has been freed: by itself, or
    inside the envelope that was built around it.  Without a connection
    it returns [false] and that is all it does; without a result it
    returns [false] and does nothing, and so does
    [jsonrpc_conn_send_error] without a connection. *)
Theorem jsonrpc_conn_send_result_consumes_result
  (conn : option (jsonrpc_conn_t U)) (id : option JSON_Value) (w : world U) :
  (forall x,
     let run := jsonrpc_conn_send_result serialize conn id (Some x) in
     exists l v,
       heap_log (mach (exec run w)) = heap_log (mach w) ++ l /\
       In (HJsonFree v) l /\
       (v = x \/ exists i, v = result_envelope i x)) /\
  (forall x,
     jsonrpc_conn_send_result serialize None id (Some x) w =
       (false, mkWorld (log_heap (HJsonFree x) (mach w)) (user w) (trace w))) /\
  jsonrpc_conn_send_result serialize conn id None w = (false, w) /\
  (forall code message,
     jsonrpc_conn_send_error serialize None id code message w = (false, w)).
Proof.
  split.
  2:{ destruct w as [m u t].
      split; [reflexivity|]. split; [now destruct conn|reflexivity]. }
  intros x run. subst run.
  change (consumed x (mach w)
            (mach (exec (jsonrpc_conn_send_result serialize conn id (Some x))
                        w))).
  destruct conn as [c|].
  2:{ destruct w as [m u t]. exists [HJsonFree x], x.
      split; [reflexivity|]. split; [now left|now left]. }
  unfold jsonrpc_conn_send_result, exec.
  rewrite bind_run.
  apply grows_consumed
    with (m1 := mach (snd (liftH jsonrpc_init_parson_allocator w)));
    [apply (WG_liftH HG_jsonrpc_init_parson_allocator)|].
  set (w1 := snd (liftH jsonrpc_init_parson_allocator w)).
  rewrite bind_run.
  apply grows_consumed
    with (m1 := mach (snd (liftH (jsonrpc_arena_scope_begin (arena c)) w1)));
    [apply (WG_liftH (HG_jsonrpc_arena_scope_begin _))|].
  set (scope := fst (liftH (jsonrpc_arena_scope_begin (arena c)) w1)).
  set (w2 := snd (liftH (jsonrpc_arena_scope_begin (arena c)) w1)).
  rewrite bind_run, liftH_run. cbn [fst snd].
  destruct (jsonrpc_build_result_cases (mach w2) id x) as (Hsome & Hnone).
  unfold eval, exec in Hsome, Hnone.
  destruct (jsonrpc_build_result id (Some x) (mach w2)) as [[v|] m3].
  - destruct (Hsome v eq_refl) as (Hv & Hlog). cbn [fst snd] in Hlog |- *.
    rewrite !bind_run.
    set (w3 := mkWorld m3 (user w2) (trace w2)).
    set (w4 := snd (jsonrpc_send_value serialize (Some c) (Some v) w3)).
    apply grows_consumed with (m1 := mach w4).
    { destruct (WG_jsonrpc_send_value (Some c) (Some v) w3) as (l & El).
      exists l. rewrite <- Hlog. exact El. }
    apply consumed_grows
      with (m1 := mach (snd (liftH (json_value_free v) w4))).
    + destruct w4 as [m4 u4 t4]. exists [HJsonFree v], v.
      split; [reflexivity|]. split; [now left|].
      right. destruct Hv as [->| ->]; eexists; reflexivity.
    + cbn [ret snd].
      apply (WG_liftH (HG_jsonrpc_arena_scope_end (arena c) scope)).
  - destruct (Hnone eq_refl) as (before & after & Hlog).
    cbn [fst snd] in Hlog |- *.
    rewrite !bind_run.
    apply consumed_grows with (m1 := m3).
    + exists (map HJsonFree (before ++ x :: after)), x.
      split; [exact Hlog|]. split; [|now left].
      apply in_map, in_or_app. right. now left.
    + cbn [ret snd].
      apply (WG_liftH (HG_jsonrpc_arena_scope_end (arena c) scope)
               (mkWorld m3 (user w2) (trace w2))).
Qed.

End SendApi.

(** ** jsonrpc.c: the current arena across the engine's entry points *)

Lemma same_binding_refl (m : machine) : same_binding m m.
Proof. reflexivity. Qed.

Lemma same_binding_trans (m1 m2 m3 : machine) :
  same_binding m1 m2 -> same_binding m2 m3 -> same_binding m1 m3.
Proof. unfold same_binding. congruence. Qed.

Lemma HB_ret {A : Type} (x : A) : HB (ret x).
Proof. apply keeps_ret, same_binding_refl. Qed.

Lemma HB_gets {A : Type} (f : machine -> A) : HB (gets f).
Proof. apply keeps_gets, same_binding_refl. Qed.

Lemma HB_bind {A B : Type} (m : HM A) (k : A -> HM B) :
  HB m -> (forall x, HB (k x)) -> HB (bind m k).
Proof. apply keeps_bind, same_binding_trans. Qed.

Lemma HB_modify (f : machine -> machine) :
  (forall m, g_current_arena (f m) = g_current_arena m) -> HB (modify f).
Proof. intros Hf m. unfold same_binding, exec, modify; cbn. apply Hf. Qed.

Lemma HB_next_outcome : HB next_outcome.
Proof.
  intros m. unfold same_binding, exec, next_outcome.
  now destruct (oracle m).
Qed.

Create HintDb hb.
#[local] Hint Resolve HB_ret HB_gets HB_next_outcome : hb.
#[local] Hint Extern 1 (HB (modify _)) =>
  (apply HB_modify; intros; reflexivity) : hb.
#[local] Hint Extern 1 (HB (free _)) =>
  (apply HB_modify; intros; reflexivity) : hb.
#[local] Hint Extern 1 (HB (json_value_free _)) =>
  (apply HB_modify; intros; reflexivity) : hb.
#[local] Hint Extern 1 (HB (store_arena _ _)) =>
  (apply HB_modify; intros; reflexivity) : hb.
#[local] Hint Extern 1 (HB (load_arena _)) => (apply HB_gets) : hb.

Ltac hb_step :=
  first
    [ solve [auto with hb]
    | apply HB_bind; [|intros ?]
    | match goal with
      | |- HB (match ?x with _ => _ end) => destruct x
      end
    | progress cbv zeta ].

Ltac hb := repeat hb_step.

Lemma HB_calloc (n : Z) : HB (calloc n).
Proof.
  unfold calloc. apply HB_bind; [apply HB_next_outcome|].
  intros [|]; [|apply HB_ret]. intros m. reflexivity.
Qed.

Lemma HB_arena_alloc_aligned (arena : option Z) (n alignment : Z) :
  HB (arena_alloc_aligned arena n alignment).
Proof. unfold arena_alloc_aligned. hb. Qed.
#[local] Hint Resolve HB_calloc HB_arena_alloc_aligned : hb.

Lemma HB_arena_alloc (arena : option Z) (n : Z) : HB (arena_alloc arena n).
Proof. unfold arena_alloc. hb. Qed.

Lemma HB_arena_clear (arena : option Z) : HB (arena_clear arena).
Proof. unfold arena_clear. hb. Qed.
#[local] Hint Resolve HB_arena_alloc HB_arena_clear : hb.

Lemma HB_jsonrpc_arena_malloc (sz : Z) : HB (jsonrpc_arena_malloc sz).
Proof. unfold jsonrpc_arena_malloc. hb. Qed.

Lemma HB_jsonrpc_arena_free (ptr : option Z) : HB (jsonrpc_arena_free ptr).
Proof. unfold jsonrpc_arena_free. hb. Qed.

Lemma HB_jsonrpc_init_parson_allocator : HB jsonrpc_init_parson_allocator.
Proof. unfold jsonrpc_init_parson_allocator. hb. Qed.

Lemma HB_json_value_init_object : HB json_value_init_object.
Proof. unfold json_value_init_object. hb. Qed.

Lemma HB_json_value_init_array : HB json_value_init_array.
Proof. unfold json_value_init_array. hb. Qed.

Lemma HB_json_value_init_null : HB json_value_init_null.
Proof. unfold json_value_init_null. hb. Qed.

Lemma HB_json_value_deep_copy (v : JSON_Value) : HB (json_value_deep_copy v).
Proof. unfold json_value_deep_copy. hb. Qed.

Lemma HB_json_object_set_value (obj : JSON_Value) (name : string)
  (v : JSON_Value) : HB (json_object_set_value obj name v).
Proof. unfold json_object_set_value. hb. Qed.

Lemma HB_json_array_append_value (arr v : JSON_Value) :
  HB (json_array_append_value arr v).
Proof. unfold json_array_append_value. hb. Qed.
#[local] Hint Resolve HB_jsonrpc_arena_malloc HB_jsonrpc_arena_free
  HB_jsonrpc_init_parson_allocator HB_json_value_init_object
  HB_json_value_init_array HB_json_value_init_null HB_json_value_deep_copy
  HB_json_object_set_value HB_json_array_append_value : hb.

Lemma HB_json_object_set_string (obj : JSON_Value) (name s : string) :
  HB (json_object_set_string obj name s).
Proof. unfold json_object_set_string. hb. Qed.

Lemma HB_json_object_set_number (obj : JSON_Value) (name : string)
  (d : float) : HB (json_object_set_number obj name d).
Proof. unfold json_object_set_number. hb. Qed.
#[local] Hint Resolve HB_json_object_set_string HB_json_object_set_number : hb.

Lemma HB_jsonrpc_copy_id (id : option JSON_Value) : HB (jsonrpc_copy_id id).
Proof. unfold jsonrpc_copy_id. hb. Qed.
#[local] Hint Resolve HB_jsonrpc_copy_id : hb.

Lemma HB_jsonrpc_build_error (id : option JSON_Value) (code : Z)
  (message : option string) : HB (jsonrpc_build_error id code message).
Proof. unfold jsonrpc_build_error. hb. Qed.

Lemma HB_jsonrpc_build_result (id res : option JSON_Value) :
  HB (jsonrpc_build_result id res).
Proof. unfold jsonrpc_build_result. hb. Qed.

Lemma HB_free_if_present (v : option JSON_Value) : HB (free_if_present v).
Proof. unfold free_if_present. hb. Qed.

Lemma HB_rpc_buffer_reserve (b : rpc_buffer_t) (desired : Z) :
  HB (rpc_buffer_reserve b desired).
Proof. unfold rpc_buffer_reserve. hb. Qed.
#[local] Hint Resolve HB_jsonrpc_build_error HB_jsonrpc_build_result
  HB_free_if_present HB_rpc_buffer_reserve : hb.

Lemma HB_rpc_buffer_append (b : rpc_buffer_t) (chunk : list byte) :
  HB (rpc_buffer_append b chunk).
Proof. unfold rpc_buffer_append. hb. Qed.
#[local] Hint Resolve HB_rpc_buffer_append : hb.

Section Binding.

Variable U : Type.
Variable parse : list byte -> option JSON_Value.
Variable serialize : JSON_Value -> option (list byte).

Lemma HB_json_serialize_to_string (v : JSON_Value) :
  HB (json_serialize_to_string serialize v).
Proof. unfold json_serialize_to_string. hb. Qed.

Lemma HB_json_parse_string (l : list byte) : HB (json_parse_string parse l).
Proof. unfold json_parse_string. hb. Qed.

Lemma WB_ret {A : Type} (x : A) : WB (ret (S := world U) x).
Proof. intros w. reflexivity. Qed.

Lemma WB_bind {A B : Type} (m : EM U A) (k : A -> EM U B) :
  WB m -> (forall x, WB (k x)) -> WB (bind m k).
Proof.
  intros Hm Hk w. unfold exec. rewrite bind_run.
  eapply same_binding_trans; [apply Hm | apply Hk].
Qed.

Lemma WB_liftH {A : Type} (h : HM A) : HB h -> WB (liftH (U := U) h).
Proof.
  intros Hh w. specialize (Hh (mach w)). unfold exec, liftH in *.
  destruct (h (mach w)) as [x m']. exact Hh.
Qed.

Lemma WB_emit (e : event) : WB (emit (U := U) e).
Proof. intros w. reflexivity. Qed.

Lemma WB_call_on_notification f method params :
  WB (call_on_notification (U := U) f method params).
Proof. intros w. reflexivity. Qed.

Lemma WB_call_on_request f method params response :
  WB (call_on_request (U := U) f method params response).
Proof.
  intros w. unfold exec, call_on_request.
  destruct (f (user w) method params response). reflexivity.
Qed.

(** The rest of a scope. *)
Lemma restores_bind {A B : Type} (p : option Z) (ch : bool)
  (m : EM U A) (k : A -> EM U B) :
  WB m -> (forall x, restores p ch (k x)) -> restores p ch (bind m k).
Proof.
  intros Hm Hk w Hpre. unfold exec. rewrite bind_run. apply Hk.
  destruct Hpre as [H|H]; [now left|right].
  rewrite <- H. apply Hm.
Qed.

Lemma restores_end {B : Type} (a : option Z) (scope : jsonrpc_arena_scope_t)
  (k : unit -> EM U B) :
  (forall x, WB (k x)) ->
  restores (prev scope) (changed scope)
    (bind (liftH (jsonrpc_arena_scope_end a scope)) k).
Proof.
  intros Hk w Hpre. unfold exec. rewrite bind_run.
  etransitivity; [apply (Hk _ _)|].
  unfold liftH, jsonrpc_arena_scope_end.
  destruct (changed scope); cbn [negb].
  - destruct w as [m u t]. cbn [mach user trace].
    rewrite bind_run. destruct a as [a|]; reflexivity.
  - destruct Hpre as [H|H]; [discriminate|]. exact H.
Qed.

Lemma WB_scope {B : Type} (a : option Z)
  (k : jsonrpc_arena_scope_t -> EM U B) :
  (forall scope, restores (prev scope) (changed scope) (k scope)) ->
  WB (bind (liftH (jsonrpc_arena_scope_begin a)) k).
Proof.
  intros Hk w. unfold same_binding, exec. rewrite bind_run.
  unfold liftH, jsonrpc_arena_scope_begin.
  destruct w as [m u t]. cbn [mach user trace].
  rewrite bind_run. unfold gets. cbn [fst snd].
  destruct (ptr_eqb a None || ptr_eqb (g_current_arena m) a).
  - apply (Hk (mkScope (g_current_arena m) false)). now right.
  - apply (Hk (mkScope (g_current_arena m) true)). now left.
Qed.

Hint Resolve WB_ret WB_emit WB_call_on_notification WB_call_on_request
  HB_json_serialize_to_string HB_json_parse_string : hb.

Ltac wb_step :=
  first
    [ solve [auto with hb]
    | apply WB_liftH; solve [auto with hb | hb]
    | apply WB_scope; intros ?
    | apply restores_end; intros ?
    | apply restores_bind; [|intros ?]
    | apply WB_bind; [|intros ?]
    | match goal with
      | |- WB (match ?x with _ => _ end) => destruct x
      | |- restores _ _ (match ?x with _ => _ end) => destruct x
      end
    | progress cbv zeta ].

Ltac wb := repeat wb_step.

Lemma WB_jsonrpc_process_object (c : jsonrpc_conn_t U)
  (v : option JSON_Value) : WB (jsonrpc_process_object c v).
Proof. unfold jsonrpc_process_object, invalid_request. wb. Qed.
Hint Resolve WB_jsonrpc_process_object : hb.

Lemma WB_process_items (c : jsonrpc_conn_t U) (items : list JSON_Value) :
  forall arr n, WB (process_items c items arr n).
Proof.
  induction items as [|item rest IH]; intros arr n; simpl; wb.
Qed.
Hint Resolve WB_process_items : hb.

Lemma WB_jsonrpc_process_value (c : jsonrpc_conn_t U)
  (v : option JSON_Value) : WB (jsonrpc_process_value c v).
Proof. unfold jsonrpc_process_value, invalid_request. wb. Qed.

Lemma WB_jsonrpc_send_value (c : option (jsonrpc_conn_t U))
  (v : option JSON_Value) : WB (jsonrpc_send_value serialize c v).
Proof. unfold jsonrpc_send_value. wb. Qed.
Hint Resolve WB_jsonrpc_process_value WB_jsonrpc_send_value : hb.

Lemma WB_jsonrpc_conn_send_error (c : option (jsonrpc_conn_t U))
  id code message :
  WB (jsonrpc_conn_send_error serialize c id code message).
Proof. unfold jsonrpc_conn_send_error. wb. Qed.

Lemma WB_jsonrpc_conn_send_result (c : option (jsonrpc_conn_t U)) id res :
  WB (jsonrpc_conn_send_result serialize c id res).
Proof. unfold jsonrpc_conn_send_result. wb. Qed.

Lemma WB_close_after (c : jsonrpc_conn_t U) (sent : bool) :
  WB (close_after c sent).
Proof. unfold close_after. wb. Qed.

Lemma WB_close_if_unsent (c : jsonrpc_conn_t U) (sent : bool) :
  WB (close_if_unsent c sent).
Proof. unfold close_if_unsent. wb. Qed.
Hint Resolve WB_jsonrpc_conn_send_error WB_jsonrpc_conn_send_result
  WB_close_after WB_close_if_unsent : hb.

Lemma WB_feed_loop (fuel : nat) :
  forall c : jsonrpc_conn_t U, WB (feed_loop parse serialize fuel c).
Proof.
  induction fuel as [|fuel IH]; intros c; cbn [feed_loop]; wb.
Qed.

Lemma WB_jsonrpc_conn_feed (c : option (jsonrpc_conn_t U))
  (chunk : option (list byte)) :
  WB (jsonrpc_conn_feed parse serialize c chunk).
Proof.
  unfold jsonrpc_conn_feed.
  pose proof WB_feed_loop as Hl.
  wb.
Qed.

(** X23: the engine leaves the current arena as it found it.  Whatever
    the connection (with an arena of its own or without), the input, the
    handlers and the allocations that fail, the arena that is current
    after [jsonrpc_conn_feed], [jsonrpc_conn_send_result] or
    [jsonrpc_conn_send_error] has returned is the one that was current
    when it was called: every scope the engine begins, it ends. *)
Theorem engine_restores_current_arena (conn : option (jsonrpc_conn_t U))
  (w : world U) :
  (forall chunk,
     g_current_arena
       (mach (exec (jsonrpc_conn_feed parse serialize conn chunk) w))
     = g_current_arena (mach w)) /\
  (forall id res,
     g_current_arena
       (mach (exec (jsonrpc_conn_send_result serialize conn id res) w))
     = g_current_arena (mach w)) /\
  (forall id code message,
     g_current_arena
       (mach (exec (jsonrpc_conn_send_error serialize conn id code message) w))
     = g_current_arena (mach w)).
Proof.
  split; [|split]; intros.
  - apply WB_jsonrpc_conn_feed.
  - apply WB_jsonrpc_conn_send_result.
  - apply WB_jsonrpc_conn_send_error.
Qed.

End Binding.

(** ** jsonrpc.c: the framer on lines that are not requests *)

Lemma strip_cr_crlf (line : list byte) :
  strip_cr (line ++ [carriage_return]) = line.
Proof.
  unfold strip_cr. rewrite rev_app_distr. cbn [rev app].
  change (Byte.eqb carriage_return carriage_return) with true. cbv iota.
  apply rev_involutive.
Qed.

Lemma memchr_newline_crlf (line : list byte) :
  memchr_newline line = None ->
  memchr_newline (line ++ [carriage_return]) = None.
Proof.
  intros H. apply memchr_newline_app_none. split; [exact H|reflexivity].
Qed.

Section FramerEdges.

Variable U : Type.
Variable parse : list byte -> option JSON_Value.
Variable serialize : JSON_Value -> option (list byte).

(** One line, then whatever follows it, fed to an open connection whose
    buffer is empty. *)
Lemma feed_first_line (c : jsonrpc_conn_t U) (w : world U)
  (raw more : list byte) :
  oracle (mach w) = [] -> closed c = false -> bytes (inbound c) = [] ->
  memchr_newline raw = None ->
  Z.of_nat (List.length raw) + 1 + Z.of_nat (List.length more)
    <= MAX_BUFFER_BYTES ->
  let ran := run_lines parse serialize (transport c) (callbacks c)
               (raw :: fst (split_lines more)) (user w) in
  (exists c',
     eval (jsonrpc_conn_feed parse serialize (Some c)
             (Some (raw ++ newline :: more))) w = Some c' /\
     same_conn c c' /\
     bytes (inbound c') =
       leftover_bytes (fst ran) (snd (split_lines more))) /\
  user (exec (jsonrpc_conn_feed parse serialize (Some c)
                (Some (raw ++ newline :: more))) w)
    = fst (snd ran) /\
  trace (exec (jsonrpc_conn_feed parse serialize (Some c)
                 (Some (raw ++ newline :: more))) w)
    = trace w ++ snd (snd ran).
Proof.
  intros Ho Hopen Hempty Hraw Hfit ran. subst ran.
  assert (Hdr : memchr_newline (bytes (inbound c)) = None)
    by now rewrite Hempty.
  assert (Hfit' : len (inbound c) +
                  Z.of_nat (List.length (raw ++ newline :: more))
                  <= MAX_BUFFER_BYTES).
  { unfold len. rewrite Hempty, length_app. cbn [List.length]. lia. }
  destruct (@refines_feed U parse serialize c (raw ++ newline :: more)
              Hopen Hdr Hfit' w Ho) as (Hc & Hu & Ht & _).
  rewrite Hempty in Hc, Hu, Ht. cbn [app] in Hc, Hu, Ht.
  rewrite (split_lines_line _ _ Hraw) in Hc, Hu, Ht.
  cbn [fst snd] in Hc, Hu, Ht. auto.
Qed.

(** X24: a line that is not JSON.  Fed to an open connection, a
    non-empty line of at most [MAX_MESSAGE_BYTES] bytes that the parser
    rejects is answered by one line, the Parse error (-32700) with a
    null id; no handler runs; the line is consumed, and the connection
    goes on.  Only when the error cannot be sent is the transport
    closed, if it can be. *)
Theorem parse_error_reply (c : jsonrpc_conn_t U) (w : world U)
  (line : list byte) :
  oracle (mach w) = [] -> closed c = false -> bytes (inbound c) = [] ->
  memchr_newline line = None -> strip_cr line = line ->
  0 < Z.of_nat (List.length line) <= MAX_MESSAGE_BYTES ->
  parse (c_bytes line) = None ->
  let run := jsonrpc_conn_feed parse serialize (Some c)
               (Some (line ++ [newline])) in
  let lines := on_wire serialize (transport c)
                 (error_envelope JSONNull JSONRPC_ERR_PARSE "Parse error") in
  trace (exec run w) =
    trace w ++ map EvSendRaw lines ++
    match lines with
    | [] => if close (transport c) then [EvClose] else []
    | _ :: _ => []
    end /\
  user (exec run w) = user w /\
  exists c', eval run w = Some c' /\ same_conn c c' /\
             bytes (inbound c') = [].
Proof.
  intros Ho Hopen Hempty Hline Hcr Hlen Hp run lines. subst run lines.
  assert (Hfit : Z.of_nat (List.length line) + 1 +
                 Z.of_nat (List.length (@nil byte)) <= MAX_BUFFER_BYTES).
  { cbn [List.length]. unfold MAX_BUFFER_BYTES, MAX_MESSAGE_BYTES in *. lia. }
  destruct (feed_first_line c w line [] Ho Hopen Hempty Hline Hfit)
    as ((c' & Ec & Hsame & Hb) & Hu & Ht).
  cbn [split_lines fst snd] in Hb, Hu, Ht.
  rewrite run_lines_cons, Hcr in Hb, Hu, Ht.
  replace (Z.of_nat (List.length line) =? 0) with false in Hb, Hu, Ht
    by (symmetry; apply Z.eqb_neq; lia).
  replace (Z.of_nat (List.length line) >? MAX_MESSAGE_BYTES) with false
    in Hb, Hu, Ht by (symmetry; rewrite Z.gtb_ltb; apply Z.ltb_ge; lia).
  unfold message_cycle in Hb, Hu, Ht. rewrite Hp in Hb, Hu, Ht.
  unfold pbind in Hb, Hu, Ht. rewrite send_spec_on_wire in Hb, Hu, Ht.
  change (error_reply None JSONRPC_ERR_PARSE None)
    with (error_envelope JSONNull JSONRPC_ERR_PARSE "Parse error")
    in Hb, Hu, Ht.
  unfold close_if_unsent_spec, pbind, pcall, pret in Hb, Hu, Ht.
  destruct (on_wire serialize (transport c)
              (error_envelope JSONNull JSONRPC_ERR_PARSE "Parse error"))
    as [|l ls]; cbn [negb andb map app] in Hb, Hu, Ht |- *.
  - destruct (close (transport c));
      cbn [fst snd run_lines pret app leftover_bytes join_lines fold_right]
        in Hb, Hu, Ht.
    + split; [exact Ht|]. split; [exact Hu|]. exists c'. auto.
    + rewrite ?app_nil_r in Ht. rewrite app_nil_r.
      split; [exact Ht|]. split; [exact Hu|]. exists c'. auto.
  - cbn [fst snd run_lines pret app leftover_bytes] in Hb, Hu, Ht.
    rewrite !app_nil_r in *.
    split; [exact Ht|]. split; [exact Hu|]. exists c'. auto.
Qed.

(** X25: CRLF is LF.  A line ended by a carriage return and a newline
    is dispatched as the same line ended by a newline alone: the same
    calls on the transport and the handlers, the same handler state,
    whatever follows the line in the chunk. *)
Theorem crlf_line_same_as_lf (c : jsonrpc_conn_t U) (w : world U)
  (line more : list byte) :
  oracle (mach w) = [] -> closed c = false -> bytes (inbound c) = [] ->
  memchr_newline line = None -> strip_cr line = line ->
  Z.of_nat (List.length line) + 2 + Z.of_nat (List.length more)
    <= MAX_BUFFER_BYTES ->
  let crlf :=
    exec (jsonrpc_conn_feed parse serialize (Some c)
            (Some (line ++ carriage_return :: newline :: more))) w in
  let lf :=
    exec (jsonrpc_conn_feed parse serialize (Some c)
            (Some (line ++ newline :: more))) w in
  trace crlf = trace lf /\ user crlf = user lf.
Proof.
  intros Ho Hopen Hempty Hline Hcr Hfit crlf lf. subst crlf lf.
  destruct (feed_first_line c w line more Ho Hopen Hempty Hline
              ltac:(lia)) as (_ & Hu & Ht).
  assert (E : line ++ carriage_return :: newline :: more
              = (line ++ [carriage_return]) ++ newline :: more)
    by now rewrite <- app_assoc.
  rewrite E.
  destruct (feed_first_line c w (line ++ [carriage_return]) more Ho Hopen
              Hempty (memchr_newline_crlf _ Hline)
              ltac:(rewrite length_app; cbn [List.length]; lia))
    as (_ & Hu' & Ht').
  rewrite Hu, Ht, Hu', Ht'.
  rewrite !run_lines_cons, strip_cr_crlf, Hcr.
  destruct (Z.of_nat (List.length line) =? 0); [auto|].
  destruct (Z.of_nat (List.length line) >? MAX_MESSAGE_BYTES).
  - destruct (send_spec serialize (transport c) _ (user w)) as [s [u1 e1]].
    destruct (close_spec (transport c) u1) as [[] [u2 e2]]. auto.
  - destruct (message_cycle parse serialize (transport c) (callbacks c) line
                (user w)) as [[|] [u1 e1]]; [auto|].
    destruct (run_lines parse serialize (transport c) (callbacks c)
                (fst (split_lines more)) u1) as [r [u2 e2]]. auto.
Qed.

Lemma run_lines_blank (tr : jsonrpc_transport_t) (cb : jsonrpc_callbacks_t U)
  (ls : list (list byte)) (u : U) :
  Forall (fun l => l = [] \/ l = [carriage_return]) ls ->
  run_lines parse serialize tr cb ls u = (None, (u, [])).
Proof.
  induction 1 as [|l ls Hl _ IH]; [reflexivity|].
  rewrite run_lines_cons.
  replace (Z.of_nat (List.length (strip_cr l)) =? 0) with true;
    [exact IH|].
  destruct Hl as [-> | ->]; reflexivity.
Qed.

(** X26: what the framer keeps and what it skips.  A chunk without a
    newline is appended to the buffer and nothing is called; blank
    lines, ended by LF or by CRLF, are consumed and nothing is called,
    and what follows the last of them without a newline is kept. *)
Theorem partial_and_blank_lines (c : jsonrpc_conn_t U) (w : world U)
  (blanks : list (list byte)) (tail : list byte) :
  oracle (mach w) = [] -> closed c = false ->
  Forall (fun l => l = [] \/ l = [carriage_return]) blanks ->
  memchr_newline tail = None ->
  (blanks = [] -> memchr_newline (bytes (inbound c)) = None) ->
  (blanks <> [] -> bytes (inbound c) = []) ->
  len (inbound c) + Z.of_nat (List.length (join_lines blanks tail))
    <= MAX_BUFFER_BYTES ->
  let run := jsonrpc_conn_feed parse serialize (Some c)
               (Some (join_lines blanks tail)) in
  trace (exec run w) = trace w /\ user (exec run w) = user w /\
  exists c', eval run w = Some c' /\ same_conn c c' /\
             bytes (inbound c') =
               match blanks with
               | [] => bytes (inbound c) ++ tail
               | _ :: _ => tail
               end.
Proof.
  intros Ho Hopen Hblank Htail Hpart Hfull Hfit run. subst run.
  assert (Hnl : Forall (fun l : list byte => memchr_newline l = None) blanks).
  { eapply Forall_impl; [|exact Hblank]. intros l [-> | ->]; reflexivity. }
  assert (Hdr : memchr_newline (bytes (inbound c)) = None).
  { destruct blanks; [now apply Hpart|].
    rewrite Hfull by discriminate. reflexivity. }
  destruct (@refines_feed U parse serialize c (join_lines blanks tail)
              Hopen Hdr Hfit w Ho) as ((c' & Ec & Hsame & Hb) & Hu & Ht & _).
  assert (Hsplit : split_lines (bytes (inbound c) ++ join_lines blanks tail)
                   = (blanks,
                      match blanks with
                      | [] => bytes (inbound c) ++ tail
                      | _ :: _ => tail
                      end)).
  { destruct blanks as [|b bs].
    - cbn [join_lines fold_right]. apply split_lines_none.
      apply memchr_newline_app_none. auto.
    - rewrite Hfull by discriminate. cbn [app].
      rewrite (split_join_lines _ Hnl), (split_lines_none _ Htail).
      cbn [fst snd]. now rewrite app_nil_r. }
  rewrite Hsplit in Hb, Hu, Ht. cbn [fst snd] in Hb, Hu, Ht.
  rewrite (run_lines_blank _ _ _ Hblank) in Hb, Hu, Ht.
  cbn [fst snd leftover_bytes] in Hb, Hu, Ht. rewrite app_nil_r in Ht.
  split; [exact Ht|]. split; [exact Hu|]. exists c'. auto.
Qed.

(** X27: a response that cannot be sent.  When the transport cannot put
    the response to a line on the wire and can be closed, the framer
    closes it right after the dispatcher has run and returns: the line
    is consumed, what follows it in the chunk stays in the buffer
    undispatched, and the connection is not marked closed. *)
Theorem send_failure_closes (c : jsonrpc_conn_t U) (w : world U)
  (line more : list byte) (req r : JSON_Value) :
  oracle (mach w) = [] -> closed c = false -> bytes (inbound c) = [] ->
  memchr_newline line = None -> strip_cr line = line ->
  0 < Z.of_nat (List.length line) <= MAX_MESSAGE_BYTES ->
  Z.of_nat (List.length line) + 1 + Z.of_nat (List.length more)
    <= MAX_BUFFER_BYTES ->
  parse (c_bytes line) = Some req ->
  eval (jsonrpc_process_value c (Some req)) w = Some r ->
  on_wire serialize (transport c) r = [] -> close (transport c) = true ->
  let run := jsonrpc_conn_feed parse serialize (Some c)
               (Some (line ++ newline :: more)) in
  let dispatched := exec (jsonrpc_process_value c (Some req)) w in
  trace (exec run w) = trace dispatched ++ [EvClose] /\
  user (exec run w) = user dispatched /\
  exists c', eval run w = Some c' /\ bytes (inbound c') = more /\
             closed c' = false.
Proof.
  intros Ho Hopen Hempty Hline Hcr Hlen Hfit Hp Hr Hwire Hclose run dispatched.
  subst run dispatched.
  destruct (feed_first_line c w line more Ho Hopen Hempty Hline Hfit)
    as ((c' & Ec & Hsame & Hb) & Hu & Ht).
  rewrite run_lines_cons, Hcr in Hb, Hu, Ht.
  replace (Z.of_nat (List.length line) =? 0) with false in Hb, Hu, Ht
    by (symmetry; apply Z.eqb_neq; lia).
  replace (Z.of_nat (List.length line) >? MAX_MESSAGE_BYTES) with false
    in Hb, Hu, Ht by (symmetry; rewrite Z.gtb_ltb; apply Z.ltb_ge; lia).
  destruct (refines_process_value c req w Ho) as (Hv & Hdu & Hdt & _).
  rewrite Hr in Hv.
  unfold message_cycle in Hb, Hu, Ht. rewrite Hp in Hb, Hu, Ht.
  unfold pbind in Hb, Hu, Ht.
  destruct (answer_value (callbacks c) req (user w)) as [resp [u1 e1]].
  cbn [fst snd] in Hv, Hdu, Hdt. subst resp.
  rewrite send_spec_on_wire, Hwire in Hb, Hu, Ht.
  unfold close_if_unsent_spec, pbind, pcall, pret in Hb, Hu, Ht.
  rewrite Hclose in Hb, Hu, Ht.
  cbn [negb andb map app fst snd leftover_bytes] in Hb, Hu, Ht.
  rewrite join_split_lines in Hb.
  rewrite Hdt, Hdu, <- app_assoc.
  split; [exact Ht|]. split; [exact Hu|].
  exists c'. split; [exact Ec|]. split; [exact Hb|].
  destruct Hsame as (_ & _ & _ & _ & Hcl & _). congruence.
Qed.

(** X28: [jsonrpc_conn_feed] returns.  Whatever the chunk, the handlers
    and the allocations that fail, the loop over the buffer ends, every
    turn having consumed a line.  Without a connection, without data,
    on an empty chunk or on a connection that is closed, it returns at
    once and has done nothing. *)
Theorem jsonrpc_conn_feed_always_returns (c : jsonrpc_conn_t U)
  (chunk : option (list byte)) (w : world U) :
  (exists c',
     eval (jsonrpc_conn_feed parse serialize (Some c) chunk) w = Some c') /\
  jsonrpc_conn_feed parse serialize None chunk w = (None, w) /\
  jsonrpc_conn_feed parse serialize (Some c) None w = (Some c, w) /\
  jsonrpc_conn_feed parse serialize (Some c) (Some []) w = (Some c, w) /\
  (closed c = true ->
   jsonrpc_conn_feed parse serialize (Some c) chunk w = (Some c, w)).
Proof.
  split.
  { pose proof (@jsonrpc_conn_feed_returns U parse serialize c chunk w) as H.
    destruct (eval (jsonrpc_conn_feed parse serialize (Some c) chunk) w)
      as [c'|]; [now exists c'|].
    now contradiction H. }
  split; [reflexivity|]. split; [reflexivity|]. split; [reflexivity|].
  apply feed_closed.
Qed.

End FramerEdges.

(** ** main.c: the request handler of the example server *)

Section ExampleHandlers.

Variable json_value_init_number : float -> HM (option JSON_Value).
Variable json_value_init_string : string -> HM (option JSON_Value).

Lemma handle_add_loop_numbers (ds : list float) :
  forall sum,
    handle_add_loop (map JSONNumber ds) sum
    = Some (fold_left PrimFloat.add ds sum).
Proof.
  induction ds as [|d ds IH]; intros sum; [reflexivity|].
  cbn [map handle_add_loop fold_left]. apply IH.
Qed.

Lemma handle_add_loop_other (items : list JSON_Value) (x : JSON_Value) :
  In x items -> json_value_get_type (Some x) <> JSONNumber_t ->
  forall sum, handle_add_loop items sum = None.
Proof.
  intros Hin Hx. induction items as [|item rest IH]; intros sum;
    [contradiction|].
  destruct Hin as [-> | Hin].
  - destruct x; try reflexivity. now contradiction Hx.
  - destruct item; try reflexivity. cbn [handle_add_loop]. now apply IH.
Qed.

(** X29: the [add] method of the example server.  On an array of
    numbers the handler asks the JSON library for one number, their sum
    taken from left to right from zero, and that is the result, or the
    error -32603 [Out of memory] when the library returns none.  On an
    array with an element that is not a number, and on params that are
    missing or not an array, it sets the error -32602 with its message
    and calls nothing.  It always reports the request as handled; a
    method the server does not know is reported as not handled, the
    response untouched. *)
Theorem handle_add_spec (params : option JSON_Value)
  (response : jsonrpc_response_t) (m : machine) :
  let add := handle_add json_value_init_number params response in
  fst (eval add m) = true /\
  (forall ds,
     params = Some (JSONArray (map JSONNumber ds)) ->
     let make := json_value_init_number (fold_left PrimFloat.add ds 0%float) in
     eval add m = (true, set_result (eval make m) response) /\
     exec add m = exec make m) /\
  (forall items x,
     params = Some (JSONArray items) -> In x items ->
     json_value_get_type (Some x) <> JSONNumber_t ->
     add m = ((true, set_error JSONRPC_ERR_INVALID_PARAMS
                       "All params must be numbers" response), m)) /\
  (json_value_get_type params <> JSONArray_t ->
   add m = ((true, set_error JSONRPC_ERR_INVALID_PARAMS
                     "Expected array params" response), m)) /\
  (forall method,
     (c_str method = "add"%string ->
      my_on_request json_value_init_number json_value_init_string
        method params response m = add m) /\
     (c_str method <> "ping"%string -> c_str method <> "echo"%string ->
      c_str method <> "add"%string ->
      my_on_request json_value_init_number json_value_init_string
        method params response m = ((false, response), m))).
Proof.
  intros add. subst add. split; [|split; [|split; [|split]]].
  - unfold handle_add, eval.
    destruct params as [[]|]; try reflexivity.
    destruct (handle_add_loop items 0); [|reflexivity].
    rewrite bind_run. reflexivity.
  - intros ds -> make. subst make. unfold handle_add, eval, exec.
    rewrite handle_add_loop_numbers, bind_run. split; reflexivity.
  - intros items x -> Hin Hx. unfold handle_add.
    now rewrite (handle_add_loop_other _ _ Hin Hx).
  - intros Hty. unfold handle_add.
    destruct params as [[]|]; try reflexivity. now contradiction Hty.
  - intros method. unfold my_on_request, strcmp_eq.
    change (c_str "ping") with "ping"%string.
    change (c_str "echo") with "echo"%string.
    change (c_str "add") with "add"%string.
    split.
    + intros ->. reflexivity.
    + intros H1 H2 H3.
      apply String.eqb_neq in H1, H2, H3. now rewrite H1, H2, H3.
Qed.

End ExampleHandlers.

(** ** Examples for the further properties *)

Lemma arena_alloc_refused_witness :
  arena_wf (arenas small_arena_used 4096) /\
  index (arenas small_arena_used 4096) = 1 /\
  eval (arena_alloc_aligned (Some 4096) 64 16) small_arena_used = None /\
  index (arenas (exec (arena_alloc_aligned (Some 4096) 64 16)
                      small_arena_used) 4096) = 16.
Proof.
  assert (Hwf : arena_wf (arenas small_arena_used 4096)).
  { vm_compute. repeat split; congruence. }
  split; [exact Hwf|]. split; [reflexivity|]. split; [reflexivity|].
  destruct (@arena_alloc_refused small_arena_used 4096 64 16 Hwf
              ltac:(lia) ltac:(lia) eq_refl) as (_ & _ & _ & H & _).
  exact H.
Defined.

Lemma arena_alloc_blocks_disjoint_witness :
  arena_wf (arenas small_arena 4096) /\
  eval (arena_alloc_aligned (Some 4096) 8 16) small_arena = Some 4128 /\
  eval (arena_alloc_aligned (Some 4096) 8 16)
       (exec (arena_alloc_aligned (Some 4096) 8 16) small_arena) = Some 4144 /\
  4128 + 8 <= 4144.
Proof.
  assert (Hwf : arena_wf (arenas small_arena 4096)).
  { vm_compute. repeat split; congruence. }
  split; [exact Hwf|]. split; [reflexivity|]. split; [reflexivity|].
  exact (proj1 (proj2
    (@arena_alloc_blocks_disjoint small_arena
       (exec (arena_alloc_aligned (Some 4096) 8 16) small_arena)
       4096 8 16 8 16 4128 4144 Hwf
       ltac:(lia) ltac:(lia) ltac:(lia) ltac:(lia)
       (eval_exec (arena_alloc_aligned (Some 4096) 8 16) small_arena)
       eq_refl))).
Defined.

Lemma arena_clear_restores_capacity_witness :
  arena_wf (arenas small_arena_used 4096) /\
  eval (arena_clear (Some 4096) ;;; arena_alloc (Some 4096) 64)
       small_arena_used = Some 4128.
Proof.
  assert (Hwf : arena_wf (arenas small_arena_used 4096)).
  { vm_compute. repeat split; congruence. }
  split; [exact Hwf|].
  exact (@arena_clear_restores_capacity small_arena_used 4096 64 Hwf
           eq_refl ltac:(vm_compute; split; [reflexivity|discriminate])).
Defined.

Lemma rpc_buffer_append_bounds_witness :
  buffer_ok (mkBuffer None [] 0) /\
  fst (eval (rpc_buffer_append (mkBuffer None [] 0) ping_line)
            (boot 8192 [])) = true /\
  cap (snd (eval (rpc_buffer_append (mkBuffer None [] 0) ping_line)
                 (boot 8192 []))) = 4096 /\
  bytes (snd (eval (rpc_buffer_append (mkBuffer None [] 0) ping_line)
                   (boot 8192 []))) = ping_line.
Proof.
  assert (H : buffer_ok (mkBuffer None [] 0)).
  { split; [cbn; lia|now left]. }
  split; [exact H|]. split; [reflexivity|]. split; [reflexivity|].
  exact (proj1 (proj2 (proj2
    (@rpc_buffer_append_bounds (mkBuffer None [] 0) ping_line
       (boot 8192 []) H))) eq_refl).
Defined.

Lemma rpc_buffer_reserve_growth_witness :
  alloc_ok (boot 8192 []) 0 = true /\
  heap_log (exec (rpc_buffer_reserve (mkBuffer (Some 4096) [] 4096) 5000)
                 (boot 8192 []))
  = [HCalloc 8192 8192].
Proof.
  split; [reflexivity|].
  exact (proj1 (proj2 (proj2 (proj2
    (@rpc_buffer_reserve_growth (mkBuffer (Some 4096) [] 4096) 5000 4096
       (boot 8192 []) eq_refl ltac:(cbn; lia) eq_refl))))).
Defined.

Lemma arena_create_destroy_balanced_witness :
  0 < brk (boot 4096 [true; false]) /\
  live_blocks
    (heap_log (exec (a <- arena_create 64 ;; arena_destroy a)
                    (boot 4096 [true; false])))
  = [].
Proof.
  split; [reflexivity|].
  apply (@arena_create_destroy_balanced (boot 4096 [true; false]) 64);
    [reflexivity|intros p []].
Defined.

Lemma conn_new_free_balanced_witness :
  0 < brk (mach toy_world) /\
  trace (exec (c <- jsonrpc_conn_new toy_transport toy_callbacks 0 ;;
               jsonrpc_conn_free c) toy_world)
  = [EvOnOpen; EvOnClose].
Proof.
  split; [reflexivity|].
  exact (proj2 (@conn_new_free_balanced _ toy_world toy_transport
                  toy_callbacks 0 eq_refl (fun p (H : False) => match H with end))).
Defined.

Lemma jsonrpc_arena_malloc_sources_witness :
  g_current_arena (small_arena_bound_at 24) = Some 4096 /\
  arena_wf (arenas (small_arena_bound_at 24) 4096) /\
  index (arenas (small_arena_bound_at 24) 4096) = 24 /\
  eval (jsonrpc_arena_malloc 24) (small_arena_bound_at 24) = Some 4168 /\
  header_origin (exec (jsonrpc_arena_malloc 24) (small_arena_bound_at 24))
                4168 = JSONRPC_ALLOC_ORIGIN_ARENA /\
  index (arenas (small_arena_bound_at 1) 4096) = 1 /\
  eval (jsonrpc_arena_malloc 8) (small_arena_bound_at 1) = Some 4152 /\
  eval (jsonrpc_arena_malloc 25) (small_arena_bound_at 24) = Some 4208 /\
  header_origin (exec (jsonrpc_arena_malloc 25) (small_arena_bound_at 24))
                4208 = JSONRPC_ALLOC_ORIGIN_HEAP.
Proof.
  assert (Hwf : arena_wf (arenas (small_arena_bound_at 24) 4096)).
  { vm_compute. repeat split; congruence. }
  assert (Hwf1 : arena_wf (arenas (small_arena_bound_at 1) 4096)).
  { vm_compute. repeat split; congruence. }
  split; [reflexivity|]. split; [exact Hwf|]. split; [reflexivity|].
  destruct (proj1
      (@jsonrpc_arena_malloc_sources (small_arena_bound_at 24) 4096 24
         eq_refl Hwf
         ltac:(vm_compute; split; [reflexivity|discriminate]))
      ltac:(vm_compute; discriminate)) as (E24 & O24 & _).
  split; [exact E24|]. split; [exact O24|]. split; [reflexivity|].
  split.
  - exact (proj1 (proj1
      (@jsonrpc_arena_malloc_sources (small_arena_bound_at 1) 4096 8
         eq_refl Hwf1
         ltac:(vm_compute; split; [reflexivity|discriminate]))
      ltac:(vm_compute; discriminate))).
  - destruct (proj1 (proj2
      (@jsonrpc_arena_malloc_sources (small_arena_bound_at 24) 4096 25
         eq_refl Hwf
         ltac:(vm_compute; split; [reflexivity|discriminate])))
      ltac:(vm_compute; reflexivity) eq_refl) as (E & Ho & _).
    split; [exact E|exact Ho].
Defined.

Lemma jsonrpc_arena_malloc_free_balanced_witness :
  live_blocks (heap_log small_arena_bound) = [4096; 4128] /\
  brk small_arena_bound = 4192 /\
  eval (jsonrpc_arena_malloc 100) small_arena_bound = Some 4208 /\
  live_blocks
    (heap_log (exec (jsonrpc_arena_free (Some 4208))
                    (exec (jsonrpc_arena_malloc 100) small_arena_bound)))
  = [4096; 4128].
Proof.
  split; [reflexivity|]. split; [reflexivity|]. split; [reflexivity|].
  refine (proj1
    (@jsonrpc_arena_malloc_free_balanced small_arena_bound
       (exec (jsonrpc_arena_malloc 100) small_arena_bound) 100 4208
       eq_refl _ ltac:(lia)
       (eval_exec (jsonrpc_arena_malloc 100) small_arena_bound))).
  intros q [<-|[<-|[]]]; reflexivity.
Defined.

Lemma malformed_request_is_invalid_witness :
  oracle (mach toy_world) = [] /\
  jsonrpc_process_object toy_conn (Some (JSONString "ping")) toy_world =
    (Some (error_envelope JSONNull JSONRPC_ERR_INVALID_REQUEST
             "Invalid Request"), toy_world).
Proof.
  split; [reflexivity|].
  exact (proj1 (proj2
    (@malformed_request_is_invalid _ toy_conn toy_world
       (Some (JSONString "ping")) eq_refl)) eq_refl).
Defined.

Lemma requests_without_handlers_witness :
  oracle (mach toy_world) = [] /\
  on_request (callbacks bare_conn) = None /\
  valid_request ping_members (JSONNumber (double_of_int32 7)) /\
  jsonrpc_process_object bare_conn (Some (JSONObject ping_members)) toy_world =
    (Some (error_envelope (JSONNumber (double_of_int32 7))
             JSONRPC_ERR_METHOD_NOT_FOUND "Method not found"), toy_world).
Proof.
  assert (H : valid_request ping_members (JSONNumber (double_of_int32 7))).
  { unfold valid_request. repeat split; try reflexivity.
    eexists. reflexivity. }
  split; [reflexivity|]. split; [reflexivity|]. split; [exact H|].
  exact (proj1 (@requests_without_handlers _ bare_conn toy_world ping_members
                  eq_refl) eq_refl _ H).
Defined.

Lemma batch_of_non_objects_witness :
  oracle (mach toy_world) = [] /\
  jsonrpc_process_value toy_conn
    (Some (JSONArray [JSONNumber (double_of_int32 1); JSONString "x"]))
    toy_world =
    (Some (JSONArray
             [error_envelope JSONNull JSONRPC_ERR_INVALID_REQUEST
                "Invalid Request";
              error_envelope JSONNull JSONRPC_ERR_INVALID_REQUEST
                "Invalid Request"]), toy_world).
Proof.
  split; [reflexivity|].
  apply (@batch_of_non_objects _ toy_conn toy_world
           [JSONNumber (double_of_int32 1); JSONString "x"] eq_refl).
  - discriminate.
  - apply Forall_cons; [reflexivity|].
    apply Forall_cons; [reflexivity|]. apply Forall_nil.
Defined.

Lemma send_result_and_error_spec_witness :
  oracle (mach toy_world) = [] /\
  trace (exec (jsonrpc_conn_send_result toy_serialize (Some toy_conn)
                 (Some (JSONBoolean true)) (Some (JSONString "pong")))
              toy_world)
  = [EvSendRaw (toy_render (result_envelope JSONNull (JSONString "pong"))
                ++ [newline])].
Proof.
  split; [reflexivity|].
  exact (proj1 (proj2
    (proj1 (@send_result_and_error_spec _ toy_serialize toy_conn
              (Some (JSONBoolean true)) toy_world eq_refl)
           (JSONString "pong")))).
Defined.

Lemma parse_error_reply_witness :
  oracle (mach toy_world) = [] /\
  toy_parse (c_bytes (text "oops")) = None /\
  trace (exec (jsonrpc_conn_feed toy_parse toy_serialize (Some toy_conn)
                 (Some (text "oops" ++ [newline]))) toy_world)
  = [EvSendRaw (toy_render (error_envelope JSONNull JSONRPC_ERR_PARSE
                              "Parse error") ++ [newline])].
Proof.
  split; [reflexivity|]. split; [reflexivity|].
  exact (proj1
    (@parse_error_reply _ toy_parse toy_serialize toy_conn toy_world
       (text "oops") eq_refl eq_refl eq_refl eq_refl eq_refl
       ltac:(vm_compute; split; [reflexivity|discriminate]) eq_refl)).
Defined.

Lemma crlf_line_same_as_lf_witness :
  oracle (mach toy_world) = [] /\
  trace (exec (jsonrpc_conn_feed toy_parse toy_serialize (Some toy_conn)
                 (Some (ping_text ++ carriage_return :: newline :: [])))
              toy_world)
  = trace (exec (jsonrpc_conn_feed toy_parse toy_serialize (Some toy_conn)
                   (Some (ping_text ++ newline :: []))) toy_world).
Proof.
  split; [reflexivity|].
  exact (proj1
    (@crlf_line_same_as_lf _ toy_parse toy_serialize toy_conn toy_world
       ping_text [] eq_refl eq_refl eq_refl eq_refl eq_refl
       ltac:(vm_compute; discriminate))).
Defined.

Lemma partial_and_blank_lines_witness :
  oracle (mach toy_world) = [] /\
  Forall (fun l => l = [] \/ l = [carriage_return])
         [[]; [carriage_return]] /\
  trace (exec (jsonrpc_conn_feed toy_parse toy_serialize (Some toy_conn)
                 (Some (join_lines [[]; [carriage_return]] (firstn 5 ping_text))))
              toy_world)
  = [].
Proof.
  assert (H : Forall (fun l : list byte => l = [] \/ l = [carriage_return])
                     [[]; [carriage_return]]).
  { apply Forall_cons; [now left|].
    apply Forall_cons; [now right|]. apply Forall_nil. }
  split; [reflexivity|]. split; [exact H|].
  exact (proj1
    (@partial_and_blank_lines _ toy_parse toy_serialize toy_conn toy_world
       [[]; [carriage_return]] (firstn 5 ping_text) eq_refl eq_refl H eq_refl
       ltac:(discriminate) (fun _ => eq_refl)
       ltac:(vm_compute; discriminate))).
Defined.

Lemma send_failure_closes_witness :
  oracle (mach toy_world) = [] /\
  toy_parse (c_bytes ping_text) = Some (JSONObject ping_members) /\
  on_wire toy_serialize (transport mute_conn)
    (result_envelope (JSONNumber (double_of_int32 7)) (JSONString "pong"))
  = [] /\
  trace (exec (jsonrpc_conn_feed toy_parse toy_serialize (Some mute_conn)
                 (Some (ping_text ++ newline :: log_line))) toy_world)
  = [EvOnRequest "ping" None; EvClose].
Proof.
  split; [reflexivity|]. split; [reflexivity|]. split; [reflexivity|].
  exact (proj1
    (@send_failure_closes _ toy_parse toy_serialize mute_conn toy_world
       ping_text log_line (JSONObject ping_members)
       (result_envelope (JSONNumber (double_of_int32 7)) (JSONString "pong"))
       eq_refl eq_refl eq_refl eq_refl eq_refl
       ltac:(vm_compute; split; [reflexivity|discriminate])
       ltac:(vm_compute; discriminate)
       eq_refl eq_refl eq_refl eq_refl)).
Defined.
